(** * noodler: scale resolver, Synth voice engine, BackingTrack sequencer
    and board

    A shallow embedding of the TypeScript sources
      - src/scale/intervals.ts, src/scale/generator.ts, src/scale/chords.ts,
        src/scale/progressions.ts
      - src/audio/effects.ts, src/audio/synth.ts (the version with effects)
      - src/audio/backing.ts
      - src/board/bend.ts, src/board/utils.ts and the control logic of
        src/board/noodler-board.ts
    followed by the properties of the specification proved about it, and by
    further properties of the code.

    Number model.  A JavaScript [number] that carries a continuous quantity
    (time in seconds, frequency in Hz, tempo, swing, volume, octave shift) is
    a real number [R]; [Math.max], [Math.min] and [Math.pow] are the real
    functions, [Math.floor] is the integer part and [Math.round] the integer
    part of the number plus one half.  Arithmetic is exact: the rounding of
    IEEE doubles, NaN and the infinities are outside the model, except in
    the module [Rounded], which gives the functions of the board that floor
    or round a computed number with the rounding of each arithmetic result
    written out.  Counters and table indices are [nat] or [Z]; [%] is the
    truncating remainder [Z.rem].

    String model.  A JavaScript string is a [string] of 8-bit characters;
    [toUpperCase] and [toLowerCase] change the case of the ASCII letters and
    leave every other character alone, and white space is the ASCII white
    space: the model is the code on strings of ASCII characters ([isASCII]).

    Web Audio model.  The audio graph is a list of directed connections
    between nodes; [connect] adds a connection, [disconnect()] removes every
    outgoing connection of a node.  Node identities are allocated from a
    counter.  Envelope automation (the gain ramps) has no influence on the
    properties below and is left out; calls that matter (oscillator start and
    stop, AudioContext.close, master and compressor disconnect) are recorded
    in the engine state. *)

From Stdlib Require Import Reals Lra Lia ZArith String Ascii List Bool Sorted.
From Stdlib Require Import DecimalString DecimalPos.
From stdpp Require Import base option list sorting gmap.
Import ListNotations.

Local Open Scope string_scope.
Local Open Scope list_scope.
Local Open Scope R_scope.

(** ** JavaScript primitives *)

Module JS.

Definition Math_max (a b : R) : R := Rmax a b.
Definition Math_min (a b : R) : R := Rmin a b.

(** [Math.pow(base, exponent)] for a positive base. *)
Definition Math_pow (base exponent : R) : R := Rpower base exponent.

(** Completion of a call that may throw: the receiver's state when the
    call ended comes with both outcomes, since a mutation made before a
    [throw] stays. *)
Inductive Completion (A : Type) : Type :=
| Normal (a : A)
| Thrown (a : A) (message : string).
Arguments Normal {A} a.
Arguments Thrown {A} a message.

Definition stateOf {A} (c : Completion A) : A :=
  match c with Normal a => a | Thrown a _ => a end.

Definition threw {A} (c : Completion A) : bool :=
  match c with Normal _ => false | Thrown _ _ => true end.

(** Result of a pure function that returns or throws. *)
Inductive Result (A : Type) : Type :=
| Ok (a : A)
| Throw (message : string).
Arguments Ok {A} a.
Arguments Throw {A} message.

Definition isLower (c : ascii) : bool :=
  (97 <=? nat_of_ascii c)%nat && (nat_of_ascii c <=? 122)%nat.

Definition upperChar (c : ascii) : ascii :=
  if isLower c then ascii_of_nat (nat_of_ascii c - 32) else c.

Fixpoint toUpperCase (s : string) : string :=
  match s with
  | EmptyString => EmptyString
  | String c rest => String (upperChar c) (toUpperCase rest)
  end.

Fixpoint endsWith (s suffix : string) : bool :=
  String.eqb s suffix ||
  match s with
  | EmptyString => false
  | String _ rest => endsWith rest suffix
  end.

End JS.
Export JS.

(** ** src/scale *)

Module Scale.

Inductive NoteName : Type :=
| C | Cs | D | Ds | E | F | Fs | G | Gs | A | As | B.

Definition noteNameString (n : NoteName) : string :=
  match n with
  | C => "C" | Cs => "C#" | D => "D" | Ds => "D#" | E => "E" | F => "F"
  | Fs => "F#" | G => "G" | Gs => "G#" | A => "A" | As => "A#" | B => "B"
  end.

(** intervals.ts *)
Definition NOTE_SEMITONES (n : NoteName) : Z :=
  match n with
  | C => 0 | Cs => 1 | D => 2 | Ds => 3 | E => 4 | F => 5
  | Fs => 6 | G => 7 | Gs => 8 | A => 9 | As => 10 | B => 11
  end%Z.

Definition NOTE_NAMES : list NoteName :=
  [C; Cs; D; Ds; E; F; Fs; G; Gs; A; As; B].

(** [root in NOTE_SEMITONES] for a string [root]: the key of the table
    that spells it, if any. *)
Definition noteNameOfString (s : string) : option NoteName :=
  List.find (fun n => String.eqb (noteNameString n) s) NOTE_NAMES.

Definition ROMAN_TO_DEGREE_table : list (string * Z) :=
  [("I", 1); ("II", 2); ("III", 3); ("IV", 4); ("V", 5); ("VI", 6);
   ("VII", 7); ("i", 1); ("ii", 2); ("iii", 3); ("iv", 4); ("v", 5);
   ("vi", 6); ("vii", 7)]%Z.

Definition ROMAN_TO_DEGREE (key : string) : option Z :=
  match List.find (fun kv => String.eqb (fst kv) key) ROMAN_TO_DEGREE_table with
  | Some kv => Some (snd kv)
  | None => None
  end.

Definition MAJOR_SCALE_DEGREES : list Z := [0; 2; 4; 5; 7; 9; 11]%Z.

(** generator.ts *)
Definition A4_FREQUENCY : R := 440.
Definition A4_MIDI : Z := 69.

Definition noteToFrequency (note : NoteName) (octave : Z) : R :=
  let semitone := NOTE_SEMITONES note in
  let midi := (semitone + (octave + 1) * 12)%Z in
  A4_FREQUENCY * Math_pow 2 (IZR (midi - A4_MIDI) / 12).

Definition getNoteAtOffset (root : NoteName) (semitones : Z) : option NoteName :=
  let rootIndex := NOTE_SEMITONES root in
  let targetIndex := Z.rem (rootIndex + semitones) 12 in
  if (targetIndex <? 0)%Z then None
  else nth_error NOTE_NAMES (Z.to_nat targetIndex).

Definition getOctaveForOffset (baseOctave rootSemitone semitoneOffset : Z) : Z :=
  let totalSemitones := (rootSemitone + semitoneOffset)%Z in
  (baseOctave + totalSemitones / 12)%Z.

(** chords.ts *)
Record ResolvedChord : Type := {
  root : NoteName;
  isMajor : bool;
  symbol : string;
  frequency : R
}.

Definition isMajorChord (roman : string) : bool :=
  String.eqb roman (toUpperCase roman).

(** The capture group of [/^([A-G]#?)m?$/] on [symbol], when it matches. *)
Definition isAtoG (c : ascii) : bool :=
  (65 <=? nat_of_ascii c)%nat && (nat_of_ascii c <=? 71)%nat.

(** An optional character of a pattern ([#?], [m?]): whether it is there,
    and the rest of the input. *)
Definition optionalChar (x : ascii) (s : string) : bool * string :=
  match s with
  | String c rest => if Ascii.eqb c x then (true, rest) else (false, s)
  | EmptyString => (false, s)
  end.

Definition matchChordSymbol (symbol : string) : option string :=
  match symbol with
  | EmptyString => None
  | String c rest =>
      if isAtoG c then
        let '(sharp, rest) := optionalChar "#" rest in
        let '(_, rest) := optionalChar "m" rest in
        match rest with
        | EmptyString => Some (String c (if sharp then "#" else ""))
        | _ => None
        end
      else None
  end.

Definition parseChordSymbol (symbol : string) : option (NoteName * bool) :=
  match matchChordSymbol symbol with
  | None => None
  | Some group =>
      match noteNameOfString group with
      | None => None
      | Some root => Some (root, negb (endsWith symbol "m"))
      end
  end.

Definition resolveChord (chord : string) (key : NoteName) (octave : Z)
  : Result ResolvedChord :=
  let upperChord := toUpperCase chord in
  match ROMAN_TO_DEGREE upperChord with
  | Some degree =>
      let keyIndex := NOTE_SEMITONES key in
      let semitoneOffset :=
        nth (Z.to_nat (degree - 1)) MAJOR_SCALE_DEGREES 0%Z in
      let rootIndex := Z.rem (keyIndex + semitoneOffset) 12 in
      let root := nth (Z.to_nat rootIndex) NOTE_NAMES C in
      let isMajor := isMajorChord chord in
      let symbol :=
        if isMajor then noteNameString root
        else (noteNameString root ++ "m")%string in
      Ok {| root := root; isMajor := isMajor; symbol := symbol;
            frequency := noteToFrequency root octave |}
  | None =>
      match parseChordSymbol chord with
      | Some (root, isMajor) =>
          let symbol :=
            if isMajor then noteNameString root
            else (noteNameString root ++ "m")%string in
          Ok {| root := root; isMajor := isMajor; symbol := symbol;
                frequency := noteToFrequency root octave |}
      | None => Throw ("Invalid chord: " ++ chord)
      end
  end.

(** [progression.map(chord => resolveChord(chord, key, octave))]: the
    first chord that throws ends the call. *)
Fixpoint resolveChordProgression (progression : list string) (key : NoteName)
  (octave : Z) : Result (list ResolvedChord) :=
  match progression with
  | [] => Ok []
  | chord :: rest =>
      match resolveChord chord key octave with
      | Throw message => Throw message
      | Ok c =>
          match resolveChordProgression rest key octave with
          | Throw message => Throw message
          | Ok cs => Ok (c :: cs)
          end
      end
  end.

End Scale.

(** ** Web Audio: nodes, connections and the calls the properties observe *)

Module WebAudio.

(** The nodes a factory of effects.ts allocates, by the name of the local
    constant that holds them. *)
Inductive Role : Type :=
| inputGain | outputGain | dryGain | wetGain | delayLine | feedback
| waveshaper | lfo | lfoGain | biquad | biquadFrequency | convolver.

Inductive Node : Type :=
| Destination
| CompressorNode
| MasterGainNode
| EffectsInputGainNode
| UnitNode (unit : nat) (role : Role)
| OscillatorNode (id : nat)
| OscillatorDetune (id : nat)
| GainNode (id : nat).

#[global] Instance Role_eq_dec : EqDecision Role.
Proof. solve_decision. Defined.

#[global] Instance Node_eq_dec : EqDecision Node.
Proof. solve_decision. Defined.

Record Engine : Type := {
  connections : list (Node * Node);
  nextId : nat;
  started : list Node;
  stopped : list Node;
  detuneCalls : list (Node * R);
  masterGainValue : R;
  closeCalls : nat
}.

Definition emptyEngine : Engine :=
  {| connections := []; nextId := 0; started := []; stopped := [];
     detuneCalls := []; masterGainValue := 1; closeCalls := 0 |}.

Definition withConnections (f : list (Node * Node) -> list (Node * Node))
  (e : Engine) : Engine :=
  {| connections := f (connections e); nextId := nextId e;
     started := started e; stopped := stopped e;
     detuneCalls := detuneCalls e; masterGainValue := masterGainValue e;
     closeCalls := closeCalls e |}.

(** [a.connect(b)]; connecting an existing pair again changes nothing. *)
Definition connect (a b : Node) (e : Engine) : Engine :=
  withConnections
    (fun cs => if decide ((a, b) ∈ cs) then cs else cs ++ [(a, b)]) e.

(** [a.disconnect()] *)
Definition disconnect (a : Node) (e : Engine) : Engine :=
  withConnections (fun cs => filter (fun c => c.1 <> a) cs) e.

(** [a.disconnect(b)] inside [try { } catch { }] *)
Definition disconnectFrom (a b : Node) (e : Engine) : Engine :=
  withConnections (fun cs => filter (fun c => c <> (a, b)) cs) e.

Definition allocate (e : Engine) : nat * Engine :=
  (nextId e,
   {| connections := connections e; nextId := S (nextId e);
      started := started e; stopped := stopped e;
      detuneCalls := detuneCalls e; masterGainValue := masterGainValue e;
      closeCalls := closeCalls e |}).

Definition start (n : Node) (e : Engine) : Engine :=
  {| connections := connections e; nextId := nextId e;
     started := started e ++ [n]; stopped := stopped e;
     detuneCalls := detuneCalls e; masterGainValue := masterGainValue e;
     closeCalls := closeCalls e |}.

Definition stop (n : Node) (e : Engine) : Engine :=
  {| connections := connections e; nextId := nextId e;
     started := started e; stopped := stopped e ++ [n];
     detuneCalls := detuneCalls e; masterGainValue := masterGainValue e;
     closeCalls := closeCalls e |}.

Definition setDetune (n : Node) (cents : R) (e : Engine) : Engine :=
  {| connections := connections e; nextId := nextId e;
     started := started e; stopped := stopped e;
     detuneCalls := detuneCalls e ++ [(n, cents)];
     masterGainValue := masterGainValue e; closeCalls := closeCalls e |}.

Definition setMasterGainValue (v : R) (e : Engine) : Engine :=
  {| connections := connections e; nextId := nextId e;
     started := started e; stopped := stopped e;
     detuneCalls := detuneCalls e; masterGainValue := v;
     closeCalls := closeCalls e |}.

Definition close (e : Engine) : Engine :=
  {| connections := connections e; nextId := nextId e;
     started := started e; stopped := stopped e;
     detuneCalls := detuneCalls e; masterGainValue := masterGainValue e;
     closeCalls := S (closeCalls e) |}.

End WebAudio.

(** ** src/audio/effects.ts *)

Module Effects.
Import WebAudio.

Inductive EffectName : Type :=
| Delay | Distortion | Vibrato | Filter | Reverb.

(** An [EffectNode] object, named by the factory that returned it and by
    the identity [unitId] of the nodes that call allocated: its [input],
    [output] and [cleanup] members are the functions below. *)
Record EffectNode : Type := {
  effect : EffectName;
  unitId : nat
}.

Definition input (n : EffectNode) : Node := UnitNode (unitId n) inputGain.
Definition output (n : EffectNode) : Node := UnitNode (unitId n) outputGain.

(** The [lfoGain] member, which only the vibrato unit has. *)
Definition lfoGainOf (n : EffectNode) : option Node :=
  match effect n with
  | Vibrato => Some (UnitNode (unitId n) lfoGain)
  | _ => None
  end.

Definition connectAll (cs : list (Node * Node)) (e : Engine) : Engine :=
  fold_left (fun e c => connect c.1 c.2 e) cs e.

Definition disconnectAll (ns : list Node) (e : Engine) : Engine :=
  fold_left (fun e n => disconnect n e) ns e.

(** The [cleanup] closure of each factory. *)
Definition cleanup (n : EffectNode) (e : Engine) : Engine :=
  let u := UnitNode (unitId n) in
  match effect n with
  | Delay =>
      disconnectAll
        [u inputGain; u outputGain; u dryGain; u wetGain; u delayLine;
         u feedback] e
  | Distortion =>
      disconnectAll [u inputGain; u waveshaper; u outputGain] e
  | Vibrato =>
      disconnectAll [u lfo; u lfoGain; u inputGain; u outputGain]
        (stop (u lfo) e)
  | Filter =>
      disconnectAll [u lfo; u lfoGain; u biquad; u inputGain; u outputGain]
        (stop (u lfo) e)
  | Reverb =>
      disconnectAll
        [u inputGain; u dryGain; u wetGain; u convolver; u outputGain] e
  end.

Definition createDelay (e : Engine) : EffectNode * Engine :=
  let '(id, e) := allocate e in
  let u := UnitNode id in
  let e := connectAll
    [(u inputGain, u dryGain); (u dryGain, u outputGain);
     (u inputGain, u delayLine); (u delayLine, u feedback);
     (u feedback, u delayLine); (u delayLine, u wetGain);
     (u wetGain, u outputGain)] e in
  ({| effect := Delay; unitId := id |}, e).

Definition createDistortion (e : Engine) : EffectNode * Engine :=
  let '(id, e) := allocate e in
  let u := UnitNode id in
  let e := connectAll
    [(u inputGain, u waveshaper); (u waveshaper, u outputGain)] e in
  ({| effect := Distortion; unitId := id |}, e).

Definition createVibrato (e : Engine) : EffectNode * Engine :=
  let '(id, e) := allocate e in
  let u := UnitNode id in
  let e := connect (u lfo) (u lfoGain) e in
  let e := start (u lfo) e in
  let e := connect (u inputGain) (u outputGain) e in
  ({| effect := Vibrato; unitId := id |}, e).

Definition createFilter (e : Engine) : EffectNode * Engine :=
  let '(id, e) := allocate e in
  let u := UnitNode id in
  let e := connect (u lfo) (u lfoGain) e in
  let e := connect (u lfoGain) (u biquadFrequency) e in
  let e := start (u lfo) e in
  let e := connectAll
    [(u inputGain, u biquad); (u biquad, u outputGain)] e in
  ({| effect := Filter; unitId := id |}, e).

Definition createReverb (e : Engine) : EffectNode * Engine :=
  let '(id, e) := allocate e in
  let u := UnitNode id in
  let e := connectAll
    [(u inputGain, u dryGain); (u dryGain, u outputGain);
     (u inputGain, u convolver); (u convolver, u wetGain);
     (u wetGain, u outputGain)] e in
  ({| effect := Reverb; unitId := id |}, e).

End Effects.

(** ** src/audio/types.ts *)

Module AudioTypes.

Inductive OscillatorType : Type := sine | square | sawtooth | triangle.

Record ADSREnvelope : Type := {
  attack : R;
  decay : R;
  sustain : R;
  release : R
}.

(** [Partial<ADSREnvelope>] *)
Record PartialEnvelope : Type := {
  attack_opt : option R;
  decay_opt : option R;
  sustain_opt : option R;
  release_opt : option R
}.

Definition noEnvelope : PartialEnvelope :=
  {| attack_opt := None; decay_opt := None; sustain_opt := None;
     release_opt := None |}.

(** [{ ...defaults, ...partial }] *)
Definition mergeEnvelope (d : ADSREnvelope) (p : PartialEnvelope)
  : ADSREnvelope :=
  {| attack := default (attack d) (attack_opt p);
     decay := default (decay d) (decay_opt p);
     sustain := default (sustain d) (sustain_opt p);
     release := default (release d) (release_opt p) |}.

Record SynthConfig : Type := {
  cfg_waveform : option OscillatorType;
  cfg_envelope : PartialEnvelope;
  cfg_volume : option R
}.

Definition noSynthConfig : SynthConfig :=
  {| cfg_waveform := None; cfg_envelope := noEnvelope; cfg_volume := None |}.

Record ActiveNote : Type := {
  oscillator : nat;
  gainNode : nat;
  frequency : R
}.

Inductive BackingStyle : Type := drone | quarter | eighth | blues | arpeggio.

Inductive BackingInstrument : Type := bass | pad | pluck | keys.

Record BackingConfig : Type := {
  cfg_tempo : option R;
  cfg_style : option BackingStyle;
  cfg_instrument : option BackingInstrument;
  cfg_chords : option (list string);
  cfg_bars : option R;
  cfg_swing : option R
}.

End AudioTypes.

Module EffectsState.
Record t : Type := {
  delay : bool;
  distortion : bool;
  vibrato : bool;
  filter : bool;
  reverb : bool
}.
End EffectsState.

Module EffectNodes.
Record t : Type := {
  delay : option Effects.EffectNode;
  distortion : option Effects.EffectNode;
  vibrato : option Effects.EffectNode;
  filter : option Effects.EffectNode;
  reverb : option Effects.EffectNode
}.
End EffectNodes.

(** ** src/audio/synth.ts *)

Module Synth.
Import WebAudio Effects AudioTypes.

Definition DEFAULT_ENVELOPE : ADSREnvelope :=
  {| attack := 0.01; decay := 0.1; sustain := 0.7; release := 0.3 |}.

Definition DEFAULT_VOLUME : R := 0.5.
Definition MIN_FREQUENCY : R := 20.
Definition MAX_FREQUENCY : R := 20000.
Definition MIN_OCTAVE_SHIFT : R := -2.
Definition MAX_OCTAVE_SHIFT : R := 2.

(** The fields of the class; [audioContext] tells whether the field holds
    a context or [null], and [engine] is the Web Audio state behind it. *)
Record t : Type := {
  audioContext : bool;
  masterGain : option Node;
  compressor : option Node;
  effectsInputGain : option Node;
  activeNotes : gmap Z ActiveNote;
  waveform : OscillatorType;
  envelope : ADSREnvelope;
  volume : R;
  destroyed : bool;
  octaveShift : R;
  effectsState : EffectsState.t;
  effectNodes : EffectNodes.t;
  engine : Engine
}.

Definition withEngine (f : Engine -> Engine) (s : t) : t :=
  {| audioContext := audioContext s; masterGain := masterGain s;
     compressor := compressor s; effectsInputGain := effectsInputGain s;
     activeNotes := activeNotes s; waveform := waveform s;
     envelope := envelope s; volume := volume s; destroyed := destroyed s;
     octaveShift := octaveShift s; effectsState := effectsState s;
     effectNodes := effectNodes s; engine := f (engine s) |}.

Definition withActiveNotes (f : gmap Z ActiveNote -> gmap Z ActiveNote) (s : t) : t :=
  {| audioContext := audioContext s; masterGain := masterGain s;
     compressor := compressor s; effectsInputGain := effectsInputGain s;
     activeNotes := f (activeNotes s); waveform := waveform s;
     envelope := envelope s; volume := volume s; destroyed := destroyed s;
     octaveShift := octaveShift s; effectsState := effectsState s;
     effectNodes := effectNodes s; engine := engine s |}.

Definition withEffectsState (f : EffectsState.t -> EffectsState.t) (s : t) : t :=
  {| audioContext := audioContext s; masterGain := masterGain s;
     compressor := compressor s; effectsInputGain := effectsInputGain s;
     activeNotes := activeNotes s; waveform := waveform s;
     envelope := envelope s; volume := volume s; destroyed := destroyed s;
     octaveShift := octaveShift s; effectsState := f (effectsState s);
     effectNodes := effectNodes s; engine := engine s |}.

Definition withEffectNodes (f : EffectNodes.t -> EffectNodes.t) (s : t) : t :=
  {| audioContext := audioContext s; masterGain := masterGain s;
     compressor := compressor s; effectsInputGain := effectsInputGain s;
     activeNotes := activeNotes s; waveform := waveform s;
     envelope := envelope s; volume := volume s; destroyed := destroyed s;
     octaveShift := octaveShift s; effectsState := effectsState s;
     effectNodes := f (effectNodes s); engine := engine s |}.

Definition withVolume (v : R) (s : t) : t :=
  {| audioContext := audioContext s; masterGain := masterGain s;
     compressor := compressor s; effectsInputGain := effectsInputGain s;
     activeNotes := activeNotes s; waveform := waveform s;
     envelope := envelope s; volume := v; destroyed := destroyed s;
     octaveShift := octaveShift s; effectsState := effectsState s;
     effectNodes := effectNodes s; engine := engine s |}.

Definition withWaveform (w : OscillatorType) (s : t) : t :=
  {| audioContext := audioContext s; masterGain := masterGain s;
     compressor := compressor s; effectsInputGain := effectsInputGain s;
     activeNotes := activeNotes s; waveform := w; envelope := envelope s;
     volume := volume s; destroyed := destroyed s;
     octaveShift := octaveShift s; effectsState := effectsState s;
     effectNodes := effectNodes s; engine := engine s |}.

Definition withOctaveShift (x : R) (s : t) : t :=
  {| audioContext := audioContext s; masterGain := masterGain s;
     compressor := compressor s; effectsInputGain := effectsInputGain s;
     activeNotes := activeNotes s; waveform := waveform s;
     envelope := envelope s; volume := volume s; destroyed := destroyed s;
     octaveShift := x; effectsState := effectsState s;
     effectNodes := effectNodes s; engine := engine s |}.

Definition withDestroyed (x : bool) (s : t) : t :=
  {| audioContext := audioContext s; masterGain := masterGain s;
     compressor := compressor s; effectsInputGain := effectsInputGain s;
     activeNotes := activeNotes s; waveform := waveform s;
     envelope := envelope s; volume := volume s; destroyed := x;
     octaveShift := octaveShift s; effectsState := effectsState s;
     effectNodes := effectNodes s; engine := engine s |}.

(** Assignment of the four engine references at once. *)
Definition withRefs (ctx : bool) (mg cp ei : option Node) (s : t) : t :=
  {| audioContext := ctx; masterGain := mg; compressor := cp;
     effectsInputGain := ei; activeNotes := activeNotes s;
     waveform := waveform s; envelope := envelope s; volume := volume s;
     destroyed := destroyed s; octaveShift := octaveShift s;
     effectsState := effectsState s; effectNodes := effectNodes s;
     engine := engine s |}.

Definition clampVolume (value : R) : R :=
  Math_max 0 (Math_min 1 value).

Definition new (config : SynthConfig) : t :=
  {| audioContext := false;
     masterGain := None;
     compressor := None;
     effectsInputGain := None;
     activeNotes := ∅;
     waveform := default sine (cfg_waveform config);
     envelope := mergeEnvelope DEFAULT_ENVELOPE (cfg_envelope config);
     volume := clampVolume (default DEFAULT_VOLUME (cfg_volume config));
     destroyed := false;
     octaveShift := 0;
     effectsState :=
       {| EffectsState.delay := false; EffectsState.distortion := false;
          EffectsState.vibrato := false; EffectsState.filter := false;
          EffectsState.reverb := false |};
     effectNodes :=
       {| EffectNodes.delay := None; EffectNodes.distortion := None;
          EffectNodes.vibrato := None; EffectNodes.filter := None;
          EffectNodes.reverb := None |};
     engine := emptyEngine |}.

(** One [if (this.effectNodes.x) { x.cleanup(); x = null }] *)
Definition cleanupOne (node : option EffectNode) (e : Engine) : Engine :=
  match node with
  | Some n => cleanup n e
  | None => e
  end.

Definition cleanupAllEffects (s : t) : t :=
  let nodes := effectNodes s in
  let e := engine s in
  let e := cleanupOne (EffectNodes.delay nodes) e in
  let e := cleanupOne (EffectNodes.distortion nodes) e in
  let e := cleanupOne (EffectNodes.vibrato nodes) e in
  let e := cleanupOne (EffectNodes.filter nodes) e in
  let e := cleanupOne (EffectNodes.reverb nodes) e in
  withEngine (fun _ => e)
    (withEffectNodes
       (fun _ =>
          {| EffectNodes.delay := None; EffectNodes.distortion := None;
             EffectNodes.vibrato := None; EffectNodes.filter := None;
             EffectNodes.reverb := None |}) s).

(** The loop [for (i = 0; i < activeEffects.length - 1; i++)] *)
Fixpoint connectConsecutive (activeEffects : list EffectNode) (e : Engine)
  : Engine :=
  match activeEffects with
  | current :: (next :: _) as rest =>
      connectConsecutive rest (connect (output current) (input next) e)
  | _ => e
  end.

(** [if (flag) { this.effectNodes.x = createX(ctx); activeEffects.push(x) }];
    [inChain] is false for the vibrato, which is created and not pushed. *)
Definition createIf (flag inChain : bool)
  (create : Engine -> EffectNode * Engine)
  (store : EffectNode -> EffectNodes.t -> EffectNodes.t)
  (acc : t * list EffectNode) : t * list EffectNode :=
  let '(s, activeEffects) := acc in
  if flag then
    let '(node, e) := create (engine s) in
    (withEngine (fun _ => e) (withEffectNodes (store node) s),
     if inChain then activeEffects ++ [node] else activeEffects)
  else acc.

Definition storeDelay (n : EffectNode) (ns : EffectNodes.t) : EffectNodes.t :=
  {| EffectNodes.delay := Some n;
     EffectNodes.distortion := EffectNodes.distortion ns;
     EffectNodes.vibrato := EffectNodes.vibrato ns;
     EffectNodes.filter := EffectNodes.filter ns;
     EffectNodes.reverb := EffectNodes.reverb ns |}.

Definition storeDistortion (n : EffectNode) (ns : EffectNodes.t) : EffectNodes.t :=
  {| EffectNodes.delay := EffectNodes.delay ns;
     EffectNodes.distortion := Some n;
     EffectNodes.vibrato := EffectNodes.vibrato ns;
     EffectNodes.filter := EffectNodes.filter ns;
     EffectNodes.reverb := EffectNodes.reverb ns |}.

Definition storeVibrato (n : EffectNode) (ns : EffectNodes.t) : EffectNodes.t :=
  {| EffectNodes.delay := EffectNodes.delay ns;
     EffectNodes.distortion := EffectNodes.distortion ns;
     EffectNodes.vibrato := Some n;
     EffectNodes.filter := EffectNodes.filter ns;
     EffectNodes.reverb := EffectNodes.reverb ns |}.

Definition storeFilter (n : EffectNode) (ns : EffectNodes.t) : EffectNodes.t :=
  {| EffectNodes.delay := EffectNodes.delay ns;
     EffectNodes.distortion := EffectNodes.distortion ns;
     EffectNodes.vibrato := EffectNodes.vibrato ns;
     EffectNodes.filter := Some n;
     EffectNodes.reverb := EffectNodes.reverb ns |}.

Definition storeReverb (n : EffectNode) (ns : EffectNodes.t) : EffectNodes.t :=
  {| EffectNodes.delay := EffectNodes.delay ns;
     EffectNodes.distortion := EffectNodes.distortion ns;
     EffectNodes.vibrato := EffectNodes.vibrato ns;
     EffectNodes.filter := EffectNodes.filter ns;
     EffectNodes.reverb := Some n |}.

(** The connections made after [activeEffects] is built. *)
Definition connectChain (inputNode master : Node)
  (activeEffects : list EffectNode) (e : Engine) : Engine :=
  match activeEffects with
  | [] => connect inputNode master e
  | firstEffect :: _ =>
      let lastEffect := List.last activeEffects firstEffect in
      let e := connect inputNode (input firstEffect) e in
      let e := connectConsecutive activeEffects e in
      connect (output lastEffect) master e
  end.

(** The effect units pushed on [activeEffects], in the order of the pushes. *)
Definition buildEffects (s : t) : t * list EffectNode :=
  let st := effectsState s in
  let acc := (s, []) in
  let acc := createIf (EffectsState.distortion st) true createDistortion
               storeDistortion acc in
  let acc := createIf (EffectsState.filter st) true createFilter
               storeFilter acc in
  let acc := createIf (EffectsState.vibrato st) false createVibrato
               storeVibrato acc in
  let acc := createIf (EffectsState.delay st) true createDelay
               storeDelay acc in
  createIf (EffectsState.reverb st) true createReverb storeReverb acc.

Definition rebuildEffectChain (s : t) : t :=
  match audioContext s, effectsInputGain s, masterGain s with
  | true, Some inputNode, Some master =>
      let s := withEngine (disconnect inputNode) s in
      let s := cleanupAllEffects s in
      let '(s, activeEffects) := buildEffects s in
      withEngine (connectChain inputNode master activeEffects) s
  | _, _, _ => s
  end.

Definition ensureAudioContext (s : t) : t :=
  if audioContext s then s
  else
    let s := withRefs true (Some MasterGainNode) (Some CompressorNode)
               (Some EffectsInputGainNode) s in
    let s := withEngine (setMasterGainValue (volume s)) s in
    let s := rebuildEffectChain s in
    let s := withEngine (connect MasterGainNode CompressorNode) s in
    withEngine (connect CompressorNode Destination) s.

(** [this.effectsState.vibrato && this.effectNodes.vibrato], with the
    unit's [lfoGain] *)
Definition activeVibrato (s : t) : option Node :=
  if EffectsState.vibrato (effectsState s) then
    match EffectNodes.vibrato (effectNodes s) with
    | Some v => lfoGainOf v
    | None => None
    end
  else None.

Definition noteOff (noteIndex : Z) (s : t) : t :=
  match activeNotes s !! noteIndex with
  | None => s
  | Some note =>
      if negb (audioContext s) then s
      else
        let s :=
          match activeVibrato s with
          | Some g =>
              withEngine
                (disconnectFrom g (OscillatorDetune (oscillator note))) s
          | None => s
          end in
        let s := withEngine (stop (OscillatorNode (oscillator note))) s in
        withActiveNotes (delete noteIndex) s
  end.

Definition noteOn (noteIndex : Z) (frequency : R) (s : t) : t :=
  if destroyed s then s
  else
    let s := ensureAudioContext s in
    match audioContext s, effectsInputGain s with
    | true, Some effectsInput =>
        let s :=
          if decide (is_Some (activeNotes s !! noteIndex))
          then noteOff noteIndex s else s in
        let shiftedFreq := frequency * Math_pow 2 (octaveShift s) in
        let clampedFreq :=
          Math_max MIN_FREQUENCY (Math_min MAX_FREQUENCY shiftedFreq) in
        let '(osc, e) := allocate (engine s) in
        let e :=
          match activeVibrato s with
          | Some g => connect g (OscillatorDetune osc) e
          | None => e
          end in
        let '(gain, e) := allocate e in
        let e := connect (OscillatorNode osc) (GainNode gain) e in
        let e := connect (GainNode gain) effectsInput e in
        let e := start (OscillatorNode osc) e in
        withActiveNotes
          (insert noteIndex
             {| oscillator := osc; gainNode := gain;
                frequency := clampedFreq |})
          (withEngine (fun _ => e) s)
    | _, _ => s
    end.

(** [for (const noteIndex of this.activeNotes.keys()) this.noteOff(noteIndex)];
    the keys are visited in the order of [map_to_list]. *)
Definition stopAll (s : t) : t :=
  fold_left (fun s k => noteOff k s) (map fst (map_to_list (activeNotes s))) s.

Definition setWaveform (type : OscillatorType) (s : t) : t :=
  withWaveform type s.

Definition setVolume (value : R) (s : t) : t :=
  let s := withVolume (clampVolume value) s in
  match masterGain s with
  | Some _ =>
      if audioContext s then withEngine (setMasterGainValue (volume s)) s
      else s
  | None => s
  end.

Definition bend (noteIndex : Z) (cents : R) (s : t) : t :=
  match activeNotes s !! noteIndex with
  | None => s
  | Some note =>
      if negb (audioContext s) then s
      else withEngine (setDetune (OscillatorDetune (oscillator note)) cents) s
  end.

Definition setOctaveShift (octaves : R) (s : t) : t :=
  withOctaveShift
    (Math_max MIN_OCTAVE_SHIFT (Math_min MAX_OCTAVE_SHIFT octaves)) s.

Definition getOctaveShift (s : t) : R := octaveShift s.

Definition setDelay (b : bool) (st : EffectsState.t) : EffectsState.t :=
  {| EffectsState.delay := b;
     EffectsState.distortion := EffectsState.distortion st;
     EffectsState.vibrato := EffectsState.vibrato st;
     EffectsState.filter := EffectsState.filter st;
     EffectsState.reverb := EffectsState.reverb st |}.

Definition setDistortion (b : bool) (st : EffectsState.t) : EffectsState.t :=
  {| EffectsState.delay := EffectsState.delay st;
     EffectsState.distortion := b;
     EffectsState.vibrato := EffectsState.vibrato st;
     EffectsState.filter := EffectsState.filter st;
     EffectsState.reverb := EffectsState.reverb st |}.

Definition setVibrato (b : bool) (st : EffectsState.t) : EffectsState.t :=
  {| EffectsState.delay := EffectsState.delay st;
     EffectsState.distortion := EffectsState.distortion st;
     EffectsState.vibrato := b;
     EffectsState.filter := EffectsState.filter st;
     EffectsState.reverb := EffectsState.reverb st |}.

Definition setFilter (b : bool) (st : EffectsState.t) : EffectsState.t :=
  {| EffectsState.delay := EffectsState.delay st;
     EffectsState.distortion := EffectsState.distortion st;
     EffectsState.vibrato := EffectsState.vibrato st;
     EffectsState.filter := b;
     EffectsState.reverb := EffectsState.reverb st |}.

Definition setReverb (b : bool) (st : EffectsState.t) : EffectsState.t :=
  {| EffectsState.delay := EffectsState.delay st;
     EffectsState.distortion := EffectsState.distortion st;
     EffectsState.vibrato := EffectsState.vibrato st;
     EffectsState.filter := EffectsState.filter st;
     EffectsState.reverb := b |}.

Definition toggleDelay (enabled : bool) (s : t) : t :=
  if Bool.eqb (EffectsState.delay (effectsState s)) enabled then s
  else
    let s := withEffectsState (setDelay enabled) s in
    if audioContext s then rebuildEffectChain s else s.

Definition toggleDistortion (enabled : bool) (s : t) : t :=
  if Bool.eqb (EffectsState.distortion (effectsState s)) enabled then s
  else
    let s := withEffectsState (setDistortion enabled) s in
    if audioContext s then rebuildEffectChain s else s.

(** The loop over [this.activeNotes.values()] of [toggleVibrato] *)
Definition attachVibrato (enabled : bool) (g : Node) (s : t) : t :=
  fold_left
    (fun s kv =>
       let detune := OscillatorDetune (oscillator (snd kv)) in
       if enabled then withEngine (connect g detune) s
       else withEngine (disconnectFrom g detune) s)
    (map_to_list (activeNotes s)) s.

Definition toggleVibrato (enabled : bool) (s : t) : t :=
  if Bool.eqb (EffectsState.vibrato (effectsState s)) enabled then s
  else
    let s := withEffectsState (setVibrato enabled) s in
    if audioContext s then
      let s := rebuildEffectChain s in
      match EffectNodes.vibrato (effectNodes s) with
      | Some v =>
          match lfoGainOf v with
          | Some g => attachVibrato enabled g s
          | None => s
          end
      | None => s
      end
    else s.

Definition toggleFilter (enabled : bool) (s : t) : t :=
  if Bool.eqb (EffectsState.filter (effectsState s)) enabled then s
  else
    let s := withEffectsState (setFilter enabled) s in
    if audioContext s then rebuildEffectChain s else s.

Definition toggleReverb (enabled : bool) (s : t) : t :=
  if Bool.eqb (EffectsState.reverb (effectsState s)) enabled then s
  else
    let s := withEffectsState (setReverb enabled) s in
    if audioContext s then rebuildEffectChain s else s.

Definition getActiveEffects (s : t) : EffectsState.t := effectsState s.

Definition destroy (s : t) : t :=
  if destroyed s then s
  else
    let s := withDestroyed true s in
    let s := stopAll s in
    let s := cleanupAllEffects s in
    let s :=
      if audioContext s then
        withRefs false (masterGain s) (compressor s) (effectsInputGain s)
          (withEngine close s)
      else s in
    let s := withRefs (audioContext s) None None None s in
    withActiveNotes (fun _ => ∅) s.

Definition getWaveform (s : t) : OscillatorType := waveform s.
Definition getVolume (s : t) : R := volume s.
Definition getActiveNoteCount (s : t) : nat := size (activeNotes s).
Definition isDestroyed (s : t) : bool := destroyed s.

(** The public methods that change the instance, as calls. *)
Inductive Call : Type :=
| NoteOn (noteIndex : Z) (frequency : R)
| NoteOff (noteIndex : Z)
| StopAll
| SetWaveform (type : OscillatorType)
| SetVolume (value : R)
| Bend (noteIndex : Z) (cents : R)
| SetOctaveShift (octaves : R)
| ToggleDelay (enabled : bool)
| ToggleDistortion (enabled : bool)
| ToggleVibrato (enabled : bool)
| ToggleFilter (enabled : bool)
| ToggleReverb (enabled : bool)
| Destroy.

Definition call (c : Call) (s : t) : t :=
  match c with
  | NoteOn k f => noteOn k f s
  | NoteOff k => noteOff k s
  | StopAll => stopAll s
  | SetWaveform w => setWaveform w s
  | SetVolume v => setVolume v s
  | Bend k cents => bend k cents s
  | SetOctaveShift x => setOctaveShift x s
  | ToggleDelay b => toggleDelay b s
  | ToggleDistortion b => toggleDistortion b s
  | ToggleVibrato b => toggleVibrato b s
  | ToggleFilter b => toggleFilter b s
  | ToggleReverb b => toggleReverb b s
  | Destroy => destroy s
  end.

Definition calls (cs : list Call) (s : t) : t :=
  fold_left (fun s c => call c s) cs s.

(** What the read accessors return. *)
Record Observation : Type := {
  obs_waveform : OscillatorType;
  obs_volume : R;
  obs_octaveShift : R;
  obs_activeNoteCount : nat;
  obs_activeEffects : EffectsState.t;
  obs_destroyed : bool
}.

Definition observe (s : t) : Observation :=
  {| obs_waveform := getWaveform s;
     obs_volume := getVolume s;
     obs_octaveShift := getOctaveShift s;
     obs_activeNoteCount := getActiveNoteCount s;
     obs_activeEffects := getActiveEffects s;
     obs_destroyed := isDestroyed s |}.

End Synth.

(** ** src/audio/backing.ts *)

Module BackingTrack.
Import AudioTypes.

Definition DEFAULT_TEMPO : R := 120.
Definition DEFAULT_STYLE : BackingStyle := quarter.
Definition DEFAULT_INSTRUMENT : BackingInstrument := bass.
Definition DEFAULT_BARS : R := 1.
Definition DEFAULT_SWING : R := 0.
Definition DEFAULT_KEY : Scale.NoteName := Scale.C.

Definition LOOKAHEAD_SECONDS : R := 0.1.

Record InstrumentConfig : Type := {
  instr_waveform : OscillatorType;
  instr_envelope : ADSREnvelope;
  octaveOffset : Z
}.

Definition INSTRUMENT_CONFIG (i : BackingInstrument) : InstrumentConfig :=
  match i with
  | bass =>
      {| instr_waveform := triangle;
         instr_envelope :=
           {| attack := 0.01; decay := 0.1; sustain := 0.6; release := 0.2 |};
         octaveOffset := -1 |}
  | pad =>
      {| instr_waveform := sine;
         instr_envelope :=
           {| attack := 0.3; decay := 0.2; sustain := 0.8; release := 0.5 |};
         octaveOffset := 0 |}
  | pluck =>
      {| instr_waveform := sawtooth;
         instr_envelope :=
           {| attack := 0.005; decay := 0.2; sustain := 0.2; release := 0.3 |};
         octaveOffset := 0 |}
  | keys =>
      {| instr_waveform := square;
         instr_envelope :=
           {| attack := 0.01; decay := 0.15; sustain := 0.4; release := 0.25 |};
         octaveOffset := 0 |}
  end.

Record ScheduledNote : Type := {
  time : R;
  frequency : R;
  duration : R
}.

(** One call [playNote(frequency, startTime, duration)] as the audio engine
    receives it: an oscillator of the instrument's waveform started at
    [startTime] and stopped at [stopTime]. *)
Record Voice : Type := {
  voice_id : nat;
  voice_waveform : OscillatorType;
  voice_frequency : R;
  startTime : R;
  stopTime : R
}.

(** The fields of the class, then what the audio engine has received:
    the voices started by [playNote], the oscillators stopped by [stop()],
    and the number of [disconnect()] calls on the two fixed stages. *)
Record t : Type := {
  tempo : R;
  style : BackingStyle;
  instrument : BackingInstrument;
  resolvedChords : list Scale.ResolvedChord;
  bars : R;
  swing : R;
  key : Scale.NoteName;
  isPlaying : bool;
  destroyed : bool;
  schedulerInterval : bool;
  nextNoteTime : R;
  currentBeat : nat;
  currentChordIndex : nat;
  beatsPerChord : R;
  activeOscillators : list nat;
  voices : list Voice;
  forcedStops : list nat;
  masterGainDisconnects : nat;
  compressorDisconnects : nat
}.

Definition resolveChords (progression : list string) (key : Scale.NoteName)
  : Result (list Scale.ResolvedChord) :=
  match progression with
  | [] => Scale.resolveChordProgression ["I"] key 4
  | _ => Scale.resolveChordProgression progression key 4
  end.

(** [new BackingTrack(audioContext, config)]; the constructor throws when
    the chords of the configuration do not resolve. *)
Definition new (config : BackingConfig) : Result t :=
  match resolveChords (default ["I"] (cfg_chords config)) DEFAULT_KEY with
  | Throw message => Throw message
  | Ok chords =>
      let bars := default DEFAULT_BARS (cfg_bars config) in
      Ok {| tempo := default DEFAULT_TEMPO (cfg_tempo config);
            style := default DEFAULT_STYLE (cfg_style config);
            instrument := default DEFAULT_INSTRUMENT (cfg_instrument config);
            resolvedChords := chords;
            bars := bars;
            swing :=
              Math_max 0
                (Math_min 100 (default DEFAULT_SWING (cfg_swing config)));
            key := DEFAULT_KEY;
            isPlaying := false;
            destroyed := false;
            schedulerInterval := false;
            nextNoteTime := 0;
            currentBeat := 0;
            currentChordIndex := 0;
            beatsPerChord := 4 * bars;
            activeOscillators := [];
            voices := [];
            forcedStops := [];
            masterGainDisconnects := 0;
            compressorDisconnects := 0 |}
  end.

Definition updateBeatsPerChord (s : t) : t :=
  let beatsPerBar := 4 in
  {| tempo := tempo s; style := style s; instrument := instrument s;
     resolvedChords := resolvedChords s; bars := bars s; swing := swing s;
     key := key s; isPlaying := isPlaying s; destroyed := destroyed s;
     schedulerInterval := schedulerInterval s;
     nextNoteTime := nextNoteTime s; currentBeat := currentBeat s;
     currentChordIndex := currentChordIndex s;
     beatsPerChord := beatsPerBar * bars s;
     activeOscillators := activeOscillators s; voices := voices s;
     forcedStops := forcedStops s;
     masterGainDisconnects := masterGainDisconnects s;
     compressorDisconnects := compressorDisconnects s |}.

(** [play()], with [now] the value of [audioContext.currentTime] *)
Definition play (now : R) (s : t) : t :=
  if isPlaying s || destroyed s then s
  else
    {| tempo := tempo s; style := style s; instrument := instrument s;
       resolvedChords := resolvedChords s; bars := bars s; swing := swing s;
       key := key s; isPlaying := true; destroyed := destroyed s;
       schedulerInterval := true; nextNoteTime := now; currentBeat := 0%nat;
       currentChordIndex := 0%nat; beatsPerChord := beatsPerChord s;
       activeOscillators := activeOscillators s; voices := voices s;
       forcedStops := forcedStops s;
       masterGainDisconnects := masterGainDisconnects s;
       compressorDisconnects := compressorDisconnects s |}.

Definition stop (s : t) : t :=
  if negb (isPlaying s) then s
  else
    {| tempo := tempo s; style := style s; instrument := instrument s;
       resolvedChords := resolvedChords s; bars := bars s; swing := swing s;
       key := key s; isPlaying := false; destroyed := destroyed s;
       schedulerInterval := false; nextNoteTime := nextNoteTime s;
       currentBeat := currentBeat s;
       currentChordIndex := currentChordIndex s;
       beatsPerChord := beatsPerChord s; activeOscillators := [];
       voices := voices s;
       forcedStops := forcedStops s ++ activeOscillators s;
       masterGainDisconnects := masterGainDisconnects s;
       compressorDisconnects := compressorDisconnects s |}.

Definition setTempo (bpm : R) (s : t) : t :=
  updateBeatsPerChord
    {| tempo := Math_max 20 (Math_min 300 bpm); style := style s;
       instrument := instrument s; resolvedChords := resolvedChords s;
       bars := bars s; swing := swing s; key := key s;
       isPlaying := isPlaying s; destroyed := destroyed s;
       schedulerInterval := schedulerInterval s;
       nextNoteTime := nextNoteTime s; currentBeat := currentBeat s;
       currentChordIndex := currentChordIndex s;
       beatsPerChord := beatsPerChord s;
       activeOscillators := activeOscillators s; voices := voices s;
       forcedStops := forcedStops s;
       masterGainDisconnects := masterGainDisconnects s;
       compressorDisconnects := compressorDisconnects s |}.

Definition getTempo (s : t) : R := tempo s.

Definition setChords (progression : list string)
  (key_opt : option Scale.NoteName) (s : t) : Completion t :=
  let s :=
    match key_opt with
    | Some newKey =>
        {| tempo := tempo s; style := style s; instrument := instrument s;
           resolvedChords := resolvedChords s; bars := bars s;
           swing := swing s; key := newKey; isPlaying := isPlaying s;
           destroyed := destroyed s;
           schedulerInterval := schedulerInterval s;
           nextNoteTime := nextNoteTime s; currentBeat := currentBeat s;
           currentChordIndex := currentChordIndex s;
           beatsPerChord := beatsPerChord s;
           activeOscillators := activeOscillators s; voices := voices s;
           forcedStops := forcedStops s;
           masterGainDisconnects := masterGainDisconnects s;
           compressorDisconnects := compressorDisconnects s |}
    | None => s
    end in
  match resolveChords progression (key s) with
  | Throw message => Thrown s message
  | Ok chords =>
      Normal
        {| tempo := tempo s; style := style s; instrument := instrument s;
           resolvedChords := chords; bars := bars s; swing := swing s;
           key := key s; isPlaying := isPlaying s; destroyed := destroyed s;
           schedulerInterval := schedulerInterval s;
           nextNoteTime := nextNoteTime s; currentBeat := currentBeat s;
           currentChordIndex := 0%nat; beatsPerChord := beatsPerChord s;
           activeOscillators := activeOscillators s; voices := voices s;
           forcedStops := forcedStops s;
           masterGainDisconnects := masterGainDisconnects s;
           compressorDisconnects := compressorDisconnects s |}
  end.

Definition getChords (s : t) : list Scale.ResolvedChord := resolvedChords s.

Definition setStyle (style : BackingStyle) (s : t) : t :=
  updateBeatsPerChord
    {| tempo := tempo s; style := style; instrument := instrument s;
       resolvedChords := resolvedChords s; bars := bars s; swing := swing s;
       key := key s; isPlaying := isPlaying s; destroyed := destroyed s;
       schedulerInterval := schedulerInterval s;
       nextNoteTime := nextNoteTime s; currentBeat := currentBeat s;
       currentChordIndex := currentChordIndex s;
       beatsPerChord := beatsPerChord s;
       activeOscillators := activeOscillators s; voices := voices s;
       forcedStops := forcedStops s;
       masterGainDisconnects := masterGainDisconnects s;
       compressorDisconnects := compressorDisconnects s |}.

Definition getStyle (s : t) : BackingStyle := style s.

Definition setSwing (swing : R) (s : t) : t :=
  {| tempo := tempo s; style := style s; instrument := instrument s;
     resolvedChords := resolvedChords s; bars := bars s;
     swing := Math_max 0 (Math_min 100 swing); key := key s;
     isPlaying := isPlaying s; destroyed := destroyed s;
     schedulerInterval := schedulerInterval s;
     nextNoteTime := nextNoteTime s; currentBeat := currentBeat s;
     currentChordIndex := currentChordIndex s;
     beatsPerChord := beatsPerChord s;
     activeOscillators := activeOscillators s; voices := voices s;
     forcedStops := forcedStops s;
     masterGainDisconnects := masterGainDisconnects s;
     compressorDisconnects := compressorDisconnects s |}.

Definition getSwing (s : t) : R := swing s.

Definition setInstrument (instrument : BackingInstrument) (s : t) : t :=
  {| tempo := tempo s; style := style s; instrument := instrument;
     resolvedChords := resolvedChords s; bars := bars s; swing := swing s;
     key := key s; isPlaying := isPlaying s; destroyed := destroyed s;
     schedulerInterval := schedulerInterval s;
     nextNoteTime := nextNoteTime s; currentBeat := currentBeat s;
     currentChordIndex := currentChordIndex s;
     beatsPerChord := beatsPerChord s;
     activeOscillators := activeOscillators s; voices := voices s;
     forcedStops := forcedStops s;
     masterGainDisconnects := masterGainDisconnects s;
     compressorDisconnects := compressorDisconnects s |}.

Definition getInstrument (s : t) : BackingInstrument := instrument s.
Definition isActive (s : t) : bool := isPlaying s.
Definition isDestroyed (s : t) : bool := destroyed s.

Definition destroy (s : t) : t :=
  if destroyed s then s
  else
    let s :=
      {| tempo := tempo s; style := style s; instrument := instrument s;
         resolvedChords := resolvedChords s; bars := bars s;
         swing := swing s; key := key s; isPlaying := isPlaying s;
         destroyed := true; schedulerInterval := schedulerInterval s;
         nextNoteTime := nextNoteTime s; currentBeat := currentBeat s;
         currentChordIndex := currentChordIndex s;
         beatsPerChord := beatsPerChord s;
         activeOscillators := activeOscillators s; voices := voices s;
         forcedStops := forcedStops s;
         masterGainDisconnects := masterGainDisconnects s;
         compressorDisconnects := compressorDisconnects s |} in
    let s := stop s in
    {| tempo := tempo s; style := style s; instrument := instrument s;
       resolvedChords := resolvedChords s; bars := bars s; swing := swing s;
       key := key s; isPlaying := isPlaying s; destroyed := destroyed s;
       schedulerInterval := schedulerInterval s;
       nextNoteTime := nextNoteTime s; currentBeat := currentBeat s;
       currentChordIndex := currentChordIndex s;
       beatsPerChord := beatsPerChord s;
       activeOscillators := activeOscillators s; voices := voices s;
       forcedStops := forcedStops s;
       masterGainDisconnects := S (masterGainDisconnects s);
       compressorDisconnects := S (compressorDisconnects s) |}.

Definition getChordTones (chord : Scale.ResolvedChord) (octave : Z) : list R :=
  let root := Scale.noteToFrequency (Scale.root chord) octave in
  let thirdSemitones := if Scale.isMajor chord then 4 else 3 in
  let fifth := root * Math_pow 2 (7 / 12) in
  let third := root * Math_pow 2 (thirdSemitones / 12) in
  [root; third; fifth].

Definition getNotesForCurrentBeat (s : t) : list ScheduledNote :=
  match resolvedChords s !! currentChordIndex s with
  | None => []
  | Some chord =>
      let instrumentConfig := INSTRUMENT_CONFIG (instrument s) in
      let baseOctave := (4 + octaveOffset instrumentConfig)%Z in
      let rootFreq := Scale.noteToFrequency (Scale.root chord) baseOctave in
      let beatDuration := 60 / tempo s in
      match style s with
      | drone =>
          if Nat.eqb (currentBeat s) 0 then
            [ {| time := 0; frequency := rootFreq;
                 duration := beatDuration * beatsPerChord s * 0.95 |} ]
          else []
      | quarter =>
          [ {| time := 0; frequency := rootFreq;
               duration := beatDuration * 0.8 |} ]
      | eighth =>
          let swingOffset := (swing s / 100) * (beatDuration / 3) in
          [ {| time := 0; frequency := rootFreq;
               duration := beatDuration * 0.4 |};
            {| time := beatDuration / 2 + swingOffset; frequency := rootFreq;
               duration := beatDuration * 0.35 |} ]
      | blues =>
          let shuffleSwing := beatDuration * (2 / 3) in
          [ {| time := 0; frequency := rootFreq;
               duration := beatDuration * 0.5 |};
            {| time := shuffleSwing; frequency := rootFreq;
               duration := beatDuration * 0.25 |} ]
      | arpeggio =>
          let chordTones := getChordTones chord baseOctave in
          let noteIndex := (currentBeat s mod length chordTones)%nat in
          [ {| time := 0; frequency := nth noteIndex chordTones 0;
               duration := beatDuration * 0.8 |} ]
      end
  end.

Definition playNote (frequency startTime duration : R) (s : t) : t :=
  let instrumentConfig := INSTRUMENT_CONFIG (instrument s) in
  let waveform := instr_waveform instrumentConfig in
  let envelope := instr_envelope instrumentConfig in
  let releaseStart := startTime + duration in
  let releaseEnd := releaseStart + release envelope in
  let oscillator := length (voices s) in
  let voice :=
    {| voice_id := oscillator; voice_waveform := waveform;
       voice_frequency := frequency; startTime := startTime;
       stopTime := releaseEnd + 0.01 |} in
  {| tempo := tempo s; style := style s; instrument := instrument s;
     resolvedChords := resolvedChords s; bars := bars s; swing := swing s;
     key := key s; isPlaying := isPlaying s; destroyed := destroyed s;
     schedulerInterval := schedulerInterval s;
     nextNoteTime := nextNoteTime s; currentBeat := currentBeat s;
     currentChordIndex := currentChordIndex s;
     beatsPerChord := beatsPerChord s;
     activeOscillators := activeOscillators s ++ [oscillator];
     voices := voices s ++ [voice]; forcedStops := forcedStops s;
     masterGainDisconnects := masterGainDisconnects s;
     compressorDisconnects := compressorDisconnects s |}.

(** The handler [oscillator.onended] *)
Definition onended (oscillator : nat) (s : t) : t :=
  {| tempo := tempo s; style := style s; instrument := instrument s;
     resolvedChords := resolvedChords s; bars := bars s; swing := swing s;
     key := key s; isPlaying := isPlaying s; destroyed := destroyed s;
     schedulerInterval := schedulerInterval s;
     nextNoteTime := nextNoteTime s; currentBeat := currentBeat s;
     currentChordIndex := currentChordIndex s;
     beatsPerChord := beatsPerChord s;
     activeOscillators := List.filter (fun x => negb (Nat.eqb x oscillator))
         (activeOscillators s);
     voices := voices s; forcedStops := forcedStops s;
     masterGainDisconnects := masterGainDisconnects s;
     compressorDisconnects := compressorDisconnects s |}.

Definition advanceBeat (s : t) : t :=
  let beatDuration := 60 / tempo s in
  let s :=
    {| tempo := tempo s; style := style s; instrument := instrument s;
       resolvedChords := resolvedChords s; bars := bars s; swing := swing s;
       key := key s; isPlaying := isPlaying s; destroyed := destroyed s;
       schedulerInterval := schedulerInterval s;
       nextNoteTime := nextNoteTime s + beatDuration;
       currentBeat := S (currentBeat s);
       currentChordIndex := currentChordIndex s;
       beatsPerChord := beatsPerChord s;
       activeOscillators := activeOscillators s; voices := voices s;
       forcedStops := forcedStops s;
       masterGainDisconnects := masterGainDisconnects s;
       compressorDisconnects := compressorDisconnects s |} in
  if Rle_dec (beatsPerChord s) (INR (currentBeat s)) then
    {| tempo := tempo s; style := style s; instrument := instrument s;
       resolvedChords := resolvedChords s; bars := bars s; swing := swing s;
       key := key s; isPlaying := isPlaying s; destroyed := destroyed s;
       schedulerInterval := schedulerInterval s;
       nextNoteTime := nextNoteTime s; currentBeat := 0%nat;
       currentChordIndex := ((currentChordIndex s + 1) mod length (resolvedChords s))%nat;
       beatsPerChord := beatsPerChord s;
       activeOscillators := activeOscillators s; voices := voices s;
       forcedStops := forcedStops s;
       masterGainDisconnects := masterGainDisconnects s;
       compressorDisconnects := compressorDisconnects s |}
  else s.

(** The body of the [while] loop of [schedule] *)
Definition scheduleBeat (s : t) : t :=
  let notes := getNotesForCurrentBeat s in
  let s :=
    fold_left
      (fun s' note =>
         playNote (frequency note) (nextNoteTime s' + time note)
           (duration note) s')
      notes s in
  advanceBeat s.

(** [while (this.nextNoteTime < lookaheadEnd)]; [None] when the loop has
    not finished after [fuel] rounds. *)
Fixpoint scheduleLoop (fuel : nat) (lookaheadEnd : R) (s : t) : option t :=
  if Rlt_dec (nextNoteTime s) lookaheadEnd then
    match fuel with
    | O => None
    | S fuel => scheduleLoop fuel lookaheadEnd (scheduleBeat s)
    end
  else Some s.

Definition schedule (fuel : nat) (now : R) (s : t) : option t :=
  let lookaheadEnd := now + LOOKAHEAD_SECONDS in
  scheduleLoop fuel lookaheadEnd s.

(** What happens to an instance: a method call, a firing of the interval
    timer (with the audio clock at that moment), or the end of a voice. *)
Inductive Event : Type :=
| Play (now : R)
| Stop
| SetTempo (bpm : R)
| SetChords (progression : list string) (key : option Scale.NoteName)
| SetStyle (style : BackingStyle)
| SetSwing (swing : R)
| SetInstrument (instrument : BackingInstrument)
| Destroy
| Tick (now : R)
| Ended (oscillator : nat).

(** The timer callback runs only while the interval is registered. *)
Definition step (fuel : nat) (ev : Event) (s : t) : option (Completion t) :=
  match ev with
  | Play now => Some (Normal (play now s))
  | Stop => Some (Normal (stop s))
  | SetTempo bpm => Some (Normal (setTempo bpm s))
  | SetChords progression key => Some (setChords progression key s)
  | SetStyle style => Some (Normal (setStyle style s))
  | SetSwing swing => Some (Normal (setSwing swing s))
  | SetInstrument instrument => Some (Normal (setInstrument instrument s))
  | Destroy => Some (Normal (destroy s))
  | Tick now =>
      if schedulerInterval s then
        match schedule fuel now s with
        | Some s' => Some (Normal s')
        | None => None
        end
      else Some (Normal s)
  | Ended oscillator => Some (Normal (onended oscillator s))
  end.

(** A sequence of events; a thrown error is caught by the caller and the
    instance lives on. *)
Fixpoint run (fuel : nat) (evs : list Event) (s : t) : option t :=
  match evs with
  | [] => Some s
  | ev :: rest =>
      match step fuel ev s with
      | Some c => run fuel rest (stateOf c)
      | None => None
      end
  end.

(** What the read accessors return. *)
Record Observation : Type := {
  obs_tempo : R;
  obs_style : BackingStyle;
  obs_instrument : BackingInstrument;
  obs_swing : R;
  obs_chords : list Scale.ResolvedChord;
  obs_active : bool;
  obs_destroyed : bool
}.

Definition observe (s : t) : Observation :=
  {| obs_tempo := getTempo s;
     obs_style := getStyle s;
     obs_instrument := getInstrument s;
     obs_swing := getSwing s;
     obs_chords := getChords s;
     obs_active := isActive s;
     obs_destroyed := isDestroyed s |}.

End BackingTrack.

(** ** src/scale/generator.ts: scales *)

Module Generator.
Import Scale.

(** [String(n)] for an integer [n] that JavaScript prints in plain decimal
    notation (below 10^21 in absolute value). *)
Definition numberToString (n : Z) : string :=
  NilZero.string_of_int (Z.to_int n).

Inductive ScaleType : Type :=
| pentatonic_major | pentatonic_minor | blues | major | minor | dorian
| mixolydian.

(** intervals.ts *)
Definition SCALE_INTERVALS (type : ScaleType) : list Z :=
  match type with
  | pentatonic_major => [0; 2; 4; 7; 9]
  | pentatonic_minor => [0; 3; 5; 7; 10]
  | blues => [0; 3; 5; 6; 7; 10]
  | major => [0; 2; 4; 5; 7; 9; 11]
  | minor => [0; 2; 3; 5; 7; 8; 10]
  | dorian => [0; 2; 3; 5; 7; 9; 10]
  | mixolydian => [0; 2; 4; 5; 7; 9; 10]
  end%Z.

Record ScaleConfig : Type := {
  cfg_root : NoteName;
  cfg_type : ScaleType;
  cfg_octave : option Z
}.

Record Note : Type := {
  name : string;
  frequency : R;
  index : nat
}.

Record GeneratedScale : Type := {
  notes : list Note;
  root : NoteName;
  type : ScaleType;
  noteCount : nat
}.

(** The callback of [intervals.map]; [None] when [NOTE_NAMES[targetIndex]]
    is [undefined]. *)
Definition generateNote (root : NoteName) (octave rootSemitone : Z)
  (index : nat) (semitoneOffset : Z) : option Note :=
  match getNoteAtOffset root semitoneOffset with
  | None => None
  | Some noteName =>
      let noteOctave := getOctaveForOffset octave rootSemitone semitoneOffset in
      let frequency := noteToFrequency noteName noteOctave in
      Some {| name := (noteNameString noteName ++ numberToString noteOctave)%string;
              frequency := frequency;
              index := index |}
  end.

Definition generateScale (config : ScaleConfig) : option GeneratedScale :=
  let root := cfg_root config in
  let type := cfg_type config in
  let octave := default 4%Z (cfg_octave config) in
  let intervals := SCALE_INTERVALS type in
  let rootSemitone := NOTE_SEMITONES root in
  match mapM (fun note => note)
          (imap (generateNote root octave rootSemitone) intervals) with
  | None => None
  | Some notes =>
      Some {| notes := notes; root := root; type := type;
              noteCount := length notes |}
  end.

End Generator.

(** ** src/scale/progressions.ts *)

Module Progressions.

Definition BLUES_12_BAR : list string :=
  ["I"; "I"; "I"; "I"; "IV"; "IV"; "I"; "I"; "V"; "IV"; "I"; "V"].
Definition POP_FOUR : list string := ["I"; "V"; "vi"; "IV"].
Definition JAZZ_251 : list string := ["ii"; "V"; "I"].
Definition FIFTIES : list string := ["I"; "vi"; "IV"; "V"].
Definition CANON : list string :=
  ["I"; "V"; "vi"; "iii"; "IV"; "I"; "IV"; "V"].
Definition ROCK_BASIC : list string := ["I"; "IV"; "V"; "IV"].
Definition MINOR_NATURAL : list string := ["i"; "iv"; "v"].
Definition ANDALUSIAN : list string := ["i"; "VII"; "VI"; "V"].

Definition PROGRESSIONS : list (string * list string) :=
  [("BLUES_12_BAR", BLUES_12_BAR); ("POP_FOUR", POP_FOUR);
   ("JAZZ_251", JAZZ_251); ("FIFTIES", FIFTIES); ("CANON", CANON);
   ("ROCK_BASIC", ROCK_BASIC); ("MINOR_NATURAL", MINOR_NATURAL);
   ("ANDALUSIAN", ANDALUSIAN)].

End Progressions.

(** ** src/board/bend.ts *)

(** [Math.floor], [Math.round] (to the nearest integer, a half towards
    plus infinity) and [Math.abs] on real numbers. *)
Module JSMath.

Definition Math_floor (x : R) : R := IZR (Int_part x).
Definition Math_round (x : R) : R := IZR (Int_part (x + 0.5)).
Definition Math_abs (x : R) : R := Rabs x.

End JSMath.
Export JSMath.

Module Bend.

Definition PIXELS_PER_OCTAVE : R := 150.
Definition CENTS_PER_OCTAVE : R := 1200.
Definition MAX_OCTAVE_OFFSET : R := 1.
Definition DIRECT_THRESHOLD_PX : R := 50.
Definition STEPPED_INTERVALS : list R := [-700; -400; -200; 0; 200; 400; 700].

Definition dynamicBend (xOffset : R) : R :=
  let maxCents := MAX_OCTAVE_OFFSET * CENTS_PER_OCTAVE in
  let cents := (xOffset / PIXELS_PER_OCTAVE) * CENTS_PER_OCTAVE in
  Math_round (Math_max (- maxCents) (Math_min maxCents cents)).

Definition directBend (xOffset : R) : R :=
  if Rlt_dec xOffset (- DIRECT_THRESHOLD_PX) then - CENTS_PER_OCTAVE
  else if Rlt_dec DIRECT_THRESHOLD_PX xOffset then CENTS_PER_OCTAVE
  else 0.

(** The loop [for (let i = 1; i < STEPPED_INTERVALS.length; i++)] over the
    pair of [closest] and [minDiff]. *)
Definition steppedBend (xOffset : R) : R :=
  let normalized := xOffset / PIXELS_PER_OCTAVE in
  let targetCents := normalized * CENTS_PER_OCTAVE in
  let clampedCents :=
    Math_max (- MAX_OCTAVE_OFFSET * CENTS_PER_OCTAVE)
      (Math_min (MAX_OCTAVE_OFFSET * CENTS_PER_OCTAVE) targetCents) in
  let closest := nth 0 STEPPED_INTERVALS 0 in
  let minDiff := Math_abs (clampedCents - closest) in
  fst
    (fold_left
       (fun '(closest, minDiff) interval =>
          let diff := Math_abs (clampedCents - interval) in
          if Rlt_dec diff minDiff then (interval, diff)
          else (closest, minDiff))
       (tl STEPPED_INTERVALS) (closest, minDiff)).

(** [mode] is the string the caller passes; the [default] branch of the
    [switch] takes every string that is not a bend mode. *)
Definition xOffsetToCents (xOffset : R) (mode : string) : R :=
  if String.eqb mode "dynamic" then dynamicBend xOffset
  else if String.eqb mode "direct" then directBend xOffset
  else if String.eqb mode "stepped" then steppedBend xOffset
  else 0.

End Bend.

(** ** src/board/utils.ts *)

(** String methods on ASCII strings: [trim] removes the ASCII white space
    and line terminators (tab, line feed, vertical tab, form feed, carriage
    return, space), [toLowerCase] maps the letters A-Z. *)
Module JSString.

Definition isWhiteSpace (c : ascii) : bool :=
  ((9 <=? nat_of_ascii c)%nat && (nat_of_ascii c <=? 13)%nat)
  || (nat_of_ascii c =? 32)%nat.

Fixpoint trimStart (s : string) : string :=
  match s with
  | EmptyString => EmptyString
  | String c rest => if isWhiteSpace c then trimStart rest else s
  end.

Fixpoint trimEnd (s : string) : string :=
  match s with
  | EmptyString => EmptyString
  | String c rest =>
      match trimEnd rest with
      | EmptyString =>
          if isWhiteSpace c then EmptyString else String c EmptyString
      | rest' => String c rest'
      end
  end.

Definition trim (s : string) : string := trimEnd (trimStart s).

Definition isUpper (c : ascii) : bool :=
  (65 <=? nat_of_ascii c)%nat && (nat_of_ascii c <=? 90)%nat.

Definition lowerChar (c : ascii) : ascii :=
  if isUpper c then ascii_of_nat (nat_of_ascii c + 32) else c.

Fixpoint toLowerCase (s : string) : string :=
  match s with
  | EmptyString => EmptyString
  | String c rest => String (lowerChar c) (toLowerCase rest)
  end.

(** [s.split(sep)] for a separator of one character *)
Fixpoint split (sep : ascii) (s : string) : list string :=
  match s with
  | EmptyString => [EmptyString]
  | String c rest =>
      if Ascii.eqb c sep then EmptyString :: split sep rest
      else
        match split sep rest with
        | first :: others => String c first :: others
        | [] => [String c EmptyString]
        end
  end.

(** [s.slice(0, n)] and [s.slice(n)] *)
Fixpoint sliceTo (n : nat) (s : string) : string :=
  match n, s with
  | S n, String c rest => String c (sliceTo n rest)
  | _, _ => EmptyString
  end.

Fixpoint sliceFrom (n : nat) (s : string) : string :=
  match n, s with
  | S n, String _ rest => sliceFrom n rest
  | _, _ => s
  end.

(** [s[i]], with [None] for [undefined] *)
Definition charAt (i : nat) (s : string) : option ascii := String.get i s.

Definition startsWith (s searchString : string) : bool :=
  String.prefix searchString s.

Definition isDigit (c : ascii) : bool :=
  (48 <=? nat_of_ascii c)%nat && (nat_of_ascii c <=? 57)%nat.

(** The digits at the start of [s], most significant first. *)
Fixpoint leadingDigits (s : string) : list Z :=
  match s with
  | EmptyString => []
  | String c rest =>
      if isDigit c then Z.of_nat (nat_of_ascii c - 48) :: leadingDigits rest
      else []
  end.

(** [parseInt(s, 10)]: white space is skipped, a sign is read, then the
    longest run of decimal digits; [None] is [NaN].  The number is the exact
    integer (a double is exact up to 2^53). *)
Definition parseInt (s : string) : option Z :=
  let s := trimStart s in
  let '(sign, s) :=
    match s with
    | String "-" rest => ((-1)%Z, rest)
    | String "+" rest => (1%Z, rest)
    | _ => (1%Z, s)
    end in
  match leadingDigits s with
  | [] => None
  | ds => Some (sign * fold_left (fun acc d => 10 * acc + d) ds 0)%Z
  end.

End JSString.
Export JSString.

Module BoardUtils.
Import Scale.

Definition VALID_NOTES : list string :=
  ["C"; "C#"; "D"; "D#"; "E"; "F"; "F#"; "G"; "G#"; "A"; "A#"; "B"].

Definition scaleTypeString (t : Generator.ScaleType) : string :=
  match t with
  | Generator.pentatonic_major => "pentatonic-major"
  | Generator.pentatonic_minor => "pentatonic-minor"
  | Generator.blues => "blues"
  | Generator.major => "major"
  | Generator.minor => "minor"
  | Generator.dorian => "dorian"
  | Generator.mixolydian => "mixolydian"
  end.

Definition VALID_SCALE_TYPES : list Generator.ScaleType :=
  [Generator.pentatonic_major; Generator.pentatonic_minor; Generator.blues;
   Generator.major; Generator.minor; Generator.dorian; Generator.mixolydian].

Definition VALID_WAVEFORMS : list string :=
  ["sine"; "square"; "sawtooth"; "triangle"].

Definition VALID_THEMES : list string := ["dark"; "light"; "colorful"].

Definition VALID_EFFECTS : list string :=
  ["delay"; "distortion"; "vibrato"; "filter"; "reverb"].

(** [set.has(x)] for a set of strings *)
Definition has (set : list string) (x : string) : bool :=
  existsb (String.eqb x) set.

(** The value stored as [type] of a parsed scale: a scale type, or what
    the lookup [SHORTHAND_SCALE_MAP[key]] finds under a key the object
    inherits from [Object.prototype], which is no scale type. *)
Inductive ParsedType : Type :=
| ScaleTypeOf (type : Generator.ScaleType)
| Inherited (key : string).

Record ParsedScaleConfig : Type := {
  root : NoteName;
  type : ParsedType;
  octave : Z
}.

(** [SHORTHAND_SCALE_MAP[key]], when it is truthy: the three own keys of
    the object literal, and the all lower-case keys of [Object.prototype]. *)
Definition SHORTHAND_SCALE_MAP (key : string) : option ParsedType :=
  if String.eqb key "m" then Some (ScaleTypeOf Generator.minor)
  else if String.eqb key "min" then Some (ScaleTypeOf Generator.minor)
  else if String.eqb key "maj" then Some (ScaleTypeOf Generator.major)
  else if String.eqb key "constructor" || String.eqb key "__proto__"
  then Some (Inherited key)
  else None.

(** [flatToSharp[twoChar]] for a string of two characters *)
Definition flatToSharp (twoChar : string) : option NoteName :=
  if String.eqb twoChar "DB" then Some Cs
  else if String.eqb twoChar "EB" then Some Ds
  else if String.eqb twoChar "GB" then Some Fs
  else if String.eqb twoChar "AB" then Some Gs
  else if String.eqb twoChar "BB" then Some As
  else None.

Definition scaleTypeOfString (s : string) : option Generator.ScaleType :=
  List.find (fun t => String.eqb (scaleTypeString t) s) VALID_SCALE_TYPES.

(** The note at the beginning of [trimmed]: the two-character notes
    first, then the single letter. *)
Definition parseRoot (trimmed : string) : option NoteName * string :=
  let '(root, remaining) :=
    if (2 <=? String.length trimmed)%nat then
      let twoChar := toUpperCase (sliceTo 2 trimmed) in
      if match charAt 1 twoChar, charAt 0 twoChar with
         | Some c1, Some c0 =>
             Ascii.eqb c1 "B" && negb (Ascii.eqb c0 "A")
             && negb (Ascii.eqb c0 "B")
         | _, _ => false
         end
      then
        match flatToSharp twoChar with
        | Some root => (Some root, trim (sliceFrom 2 trimmed))
        | None => (None, trimmed)
        end
      else if match charAt 1 twoChar with
              | Some c1 => Ascii.eqb c1 "#"
              | None => false
              end && has VALID_NOTES twoChar
      then (noteNameOfString twoChar, trim (sliceFrom 2 trimmed))
      else (None, trimmed)
    else (None, trimmed) in
  match root with
  | Some _ => (root, remaining)
  | None =>
      if (1 <=? String.length trimmed)%nat then
        let oneChar := toUpperCase (sliceTo 1 trimmed) in
        if has VALID_NOTES oneChar
        then (noteNameOfString oneChar, trim (sliceFrom 1 trimmed))
        else (None, remaining)
      else (None, remaining)
  end.

Definition parseScaleAttribute (scaleStr : string)
  : option ParsedScaleConfig :=
  if String.eqb scaleStr "" then None
  else
    let trimmed := trim scaleStr in
    if (String.length trimmed =? 0)%nat then None
    else
      let '(root, remaining) := parseRoot trimmed in
      match root with
      | None => None
      | Some root =>
          if (0 <? String.length remaining)%nat then
            let lowerRemaining := toLowerCase remaining in
            match SHORTHAND_SCALE_MAP lowerRemaining with
            | Some scaleType =>
                Some {| root := root; type := scaleType; octave := 4 |}
            | None =>
                match scaleTypeOfString lowerRemaining with
                | Some scaleType =>
                    Some {| root := root; type := ScaleTypeOf scaleType;
                            octave := 4 |}
                | None =>
                    if String.eqb lowerRemaining "m"
                       || startsWith lowerRemaining "m "
                    then Some {| root := root;
                                 type := ScaleTypeOf Generator.minor;
                                 octave := 4 |}
                    else None
                end
            end
          else Some {| root := root;
                       type := ScaleTypeOf Generator.pentatonic_minor;
                       octave := 4 |}
      end.

(** The cast [waveform as 'sine' | 'square' | 'sawtooth' | 'triangle'] of a
    name of [VALID_WAVEFORMS]. *)
Definition waveformOfString (waveform : string) : AudioTypes.OscillatorType :=
  if String.eqb waveform "square" then AudioTypes.square
  else if String.eqb waveform "sawtooth" then AudioTypes.sawtooth
  else if String.eqb waveform "triangle" then AudioTypes.triangle
  else AudioTypes.sine.

(** An attribute value is [None] for [null]. *)
Definition validateWaveform (waveform : option string)
  : AudioTypes.OscillatorType :=
  match waveform with
  | Some w =>
      if negb (String.eqb w "") && has VALID_WAVEFORMS w
      then waveformOfString w else AudioTypes.sine
  | None => AudioTypes.sine
  end.

Definition validateTheme (theme : option string) : string :=
  match theme with
  | Some t =>
      if negb (String.eqb t "") && has VALID_THEMES t then t else "dark"
  | None => "dark"
  end.

Definition parseEffectsAttribute (effectsStr : option string) : list string :=
  match effectsStr with
  | None => []
  | Some effectsStr =>
      if String.eqb effectsStr "" then []
      else
        List.filter (fun e => has VALID_EFFECTS e)
          (map (fun e => toLowerCase (trim e)) (split "," effectsStr))
  end.

Definition validateNotesCount (notesStr : option string) (defaultCount : Z)
  : Z :=
  match notesStr with
  | None => defaultCount
  | Some notesStr =>
      if String.eqb notesStr "" then defaultCount
      else
        match parseInt notesStr with
        | None => defaultCount
        | Some parsed =>
            if (parsed <? 1)%Z then defaultCount else Z.min parsed 24
        end
  end.

(** [noteCount] is a [number] in the source; the callers pass the length of
    the note list. *)
Definition getNoteIndexFromY (y height noteCount : R) : R :=
  if Rle_dec height 0 then 0
  else if Rle_dec noteCount 0 then 0
  else
    let zoneHeight := height / noteCount in
    let index := Math_floor (y / zoneHeight) in
    Math_max 0 (Math_min (noteCount - 1) index).

(** [maxCents] is optional and 200 when it is left out. *)
Definition getBendFromX (x width : R) (maxCents_opt : option R) : R :=
  let maxCents := default 200 maxCents_opt in
  if Rle_dec width 0 then 0
  else
    let center := width / 2 in
    let offset := x - center in
    let normalized := offset / center in
    Math_round (normalized * maxCents).

End BoardUtils.

(** ** src/board/noodler-board.ts

    The control logic of the [NoodlerBoard] element: its attributes, the
    note list, the pointers that are down and the Synth it drives.  What the
    element shows and emits (the key elements and their colours, the custom
    events, haptic feedback and pointer capture) is outside the model, and
    so is code that reaches the Synth through [getSynth()]. *)

Module NoodlerBoard.
Import BoardUtils.

Record PointerState : Type := {
  pointerId : Z;
  noteIndex : R;
  startX : R
}.

(** [getBoundingClientRect()] *)
Record Rect : Type := {
  top : R;
  left : R;
  width : R;
  height : R
}.

Record t : Type := {
  attributes : gmap string string;
  synth : option Synth.t;
  notes : list Generator.Note;
  activePointers : gmap Z PointerState;
  listening : bool
}.

(** The element after its constructor. *)
Definition new : t :=
  {| attributes := ∅; synth := None; notes := []; activePointers := ∅;
     listening := false |}.

Definition withSynth (f : option Synth.t -> option Synth.t) (b : t) : t :=
  {| attributes := attributes b; synth := f (synth b); notes := notes b;
     activePointers := activePointers b; listening := listening b |}.

Definition withNotes (f : list Generator.Note -> list Generator.Note)
  (b : t) : t :=
  {| attributes := attributes b; synth := synth b; notes := f (notes b);
     activePointers := activePointers b; listening := listening b |}.

Definition withActivePointers
  (f : gmap Z PointerState -> gmap Z PointerState) (b : t) : t :=
  {| attributes := attributes b; synth := synth b; notes := notes b;
     activePointers := f (activePointers b); listening := listening b |}.

Definition withListening (x : bool) (b : t) : t :=
  {| attributes := attributes b; synth := synth b; notes := notes b;
     activePointers := activePointers b; listening := x |}.

Definition withAttributes (f : gmap string string -> gmap string string)
  (b : t) : t :=
  {| attributes := f (attributes b); synth := synth b; notes := notes b;
     activePointers := activePointers b; listening := listening b |}.

Definition getAttribute (name : string) (b : t) : option string :=
  attributes b !! name.

(** [array[i]] for a number [i]: an element for a whole number inside the
    array, [undefined] otherwise. *)
Definition arrayGet {A} (l : list A) (i : R) : option A :=
  if Req_dec_T i (IZR (Int_part i)) then
    if (0 <=? Int_part i)%Z then l !! Z.to_nat (Int_part i) else None
  else None.

(** [array.slice(0, end)] *)
Definition arraySliceTo {A} (l : list A) (finish : Z) : list A :=
  if (finish <? 0)%Z
  then take (Z.to_nat (Z.max (Z.of_nat (length l) + finish) 0)) l
  else take (Z.to_nat finish) l.

(** [generateScale] of a parsed scale; the call throws for a type that is
    no key of [SCALE_INTERVALS], where [intervals] is [undefined]. *)
Definition scaleNotes (parsedScale : ParsedScaleConfig)
  : Result (list Generator.Note) :=
  match type parsedScale with
  | ScaleTypeOf scaleType =>
      match Generator.generateScale
              {| Generator.cfg_root := root parsedScale;
                 Generator.cfg_type := scaleType;
                 Generator.cfg_octave := Some (octave parsedScale) |} with
      | Some scale => Ok (Generator.notes scale)
      | None => Throw "TypeError"
      end
  | Inherited _ => Throw "TypeError"
  end.

Definition buildKeys (b : t) : Completion t :=
  let scaleAttr :=
    match getAttribute "scale" b with
    | Some v => if String.eqb v "" then "A pentatonic-minor" else v
    | None => "A pentatonic-minor"
    end in
  let generated :=
    match parseScaleAttribute scaleAttr with
    | None =>
        scaleNotes {| root := Scale.A;
                      type := ScaleTypeOf Generator.pentatonic_minor;
                      octave := 4 |}
    | Some parsedScale => scaleNotes parsedScale
    end in
  match generated with
  | Throw message => Thrown b message
  | Ok notes =>
      let notesCount :=
        validateNotesCount (getAttribute "notes" b)
          (Z.of_nat (length notes)) in
      Normal (withNotes (fun _ => arraySliceTo notes notesCount) b)
  end.

Definition updateWaveform (b : t) : t :=
  match synth b with
  | Some s =>
      let waveform := validateWaveform (getAttribute "waveform" b) in
      withSynth (fun _ => Some (Synth.setWaveform waveform s)) b
  | None => b
  end.

Definition updateEffects (b : t) : t :=
  match synth b with
  | None => b
  | Some s =>
      let effects := parseEffectsAttribute (getAttribute "effects" b) in
      let s := Synth.toggleDelay (has effects "delay") s in
      let s := Synth.toggleDistortion (has effects "distortion") s in
      let s := Synth.toggleVibrato (has effects "vibrato") s in
      let s := Synth.toggleFilter (has effects "filter") s in
      let s := Synth.toggleReverb (has effects "reverb") s in
      withSynth (fun _ => Some s) b
  end.

Definition initializeSynth (b : t) : t :=
  let waveform := validateWaveform (getAttribute "waveform" b) in
  let b :=
    withSynth
      (fun _ =>
         Some (Synth.new
                 {| AudioTypes.cfg_waveform := Some waveform;
                    AudioTypes.cfg_envelope := AudioTypes.noEnvelope;
                    AudioTypes.cfg_volume := None |})) b in
  updateEffects b.

Definition destroySynth (b : t) : t :=
  match synth b with
  | Some s =>
      withSynth (fun _ => None)
        (withSynth (fun _ => Some (Synth.destroy s)) b)
  | None => b
  end.

(** [role] and [aria-label] are not observed: setting them runs no
    callback.  The listeners are attached after the keys are built; an
    error thrown by [buildKeys] ends the callback before. *)
Definition connectedCallback (b : t) : Completion t :=
  let b := withAttributes (insert "role" "application") b in
  let b := withAttributes (insert "aria-label" "Music board") b in
  let b := initializeSynth b in
  match buildKeys b with
  | Thrown b message => Thrown b message
  | Normal b => Normal (withListening true b)
  end.

Definition disconnectedCallback (b : t) : t :=
  destroySynth (withListening false b).

Definition attributeChangedCallback (name : string)
  (oldValue newValue : option string) (b : t) : Completion t :=
  if decide (oldValue = newValue) then Normal b
  else if String.eqb name "scale" || String.eqb name "notes" then buildKeys b
  else if String.eqb name "waveform" then Normal (updateWaveform b)
  else if String.eqb name "effects" then Normal (updateEffects b)
  else Normal b.

Definition observedAttributes : list string :=
  ["scale"; "notes"; "waveform"; "effects"; "theme"].

(** [element.setAttribute(name, value)] and [element.removeAttribute(name)]:
    the attribute changes, then the callback runs for an observed name. *)
Definition setAttribute (name value : string) (b : t) : Completion t :=
  let oldValue := getAttribute name b in
  let b := withAttributes (insert name value) b in
  if has observedAttributes name
  then attributeChangedCallback name oldValue (Some value) b
  else Normal b.

Definition removeAttribute (name : string) (b : t) : Completion t :=
  let oldValue := getAttribute name b in
  let b := withAttributes (delete name) b in
  if has observedAttributes name
  then attributeChangedCallback name oldValue None b
  else Normal b.

Definition handlePointerDown (id : Z) (clientX clientY : R) (rect : Rect)
  (b : t) : t :=
  let y := clientY - top rect in
  let x := clientX - left rect in
  let index :=
    getNoteIndexFromY y (height rect) (INR (length (notes b))) in
  match arrayGet (notes b) index, synth b with
  | Some note, Some s =>
      let b :=
        withActivePointers
          (insert id {| pointerId := id; noteIndex := index; startX := x |})
          b in
      withSynth
        (fun _ => Some (Synth.noteOn id (Generator.frequency note) s)) b
  | _, _ => b
  end.

Definition handlePointerMove (id : Z) (clientX clientY : R) (rect : Rect)
  (b : t) : t :=
  match activePointers b !! id, synth b with
  | Some state, Some s =>
      let y := clientY - top rect in
      let x := clientX - left rect in
      let newNoteIndex :=
        getNoteIndexFromY y (height rect) (INR (length (notes b))) in
      if Req_dec_T newNoteIndex (noteIndex state) then
        let cents := getBendFromX x (width rect) None in
        withSynth (fun _ => Some (Synth.bend id cents s)) b
      else
        let oldNote := arrayGet (notes b) (noteIndex state) in
        let newNote := arrayGet (notes b) newNoteIndex in
        let s :=
          match oldNote with
          | Some _ => Synth.noteOff id s
          | None => s
          end in
        match newNote with
        | Some note =>
            let s := Synth.noteOn id (Generator.frequency note) s in
            withActivePointers
              (insert id {| pointerId := pointerId state;
                            noteIndex := newNoteIndex; startX := x |})
              (withSynth (fun _ => Some s) b)
        | None => withSynth (fun _ => Some s) b
        end
  | _, _ => b
  end.

Definition endNote (id : Z) (b : t) : t :=
  match activePointers b !! id with
  | None => b
  | Some state =>
      let b :=
        match synth b with
        | Some s => withSynth (fun _ => Some (Synth.noteOff id s)) b
        | None => b
        end in
      withActivePointers (delete id) b
  end.

Definition handlePointerUp (id : Z) (b : t) : t := endNote id b.
Definition handlePointerCancel (id : Z) (b : t) : t := endNote id b.

(** [for (const [pointerId] of this.activePointers) this.endNote(pointerId)];
    the pointers are visited in the order of [map_to_list]. *)
Definition stopAll (b : t) : t :=
  fold_left (fun b id => endNote id b)
    (map fst (map_to_list (activePointers b))) b.

Definition getNotes (b : t) : list Generator.Note := notes b.
Definition getSynth (b : t) : option Synth.t := synth b.

(** What happens to the element; the pointer events reach the handlers
    only while the listeners are attached. *)
Inductive Event : Type :=
| Connected
| Disconnected
| SetAttribute (name value : string)
| RemoveAttribute (name : string)
| PointerDown (id : Z) (clientX clientY : R) (rect : Rect)
| PointerMove (id : Z) (clientX clientY : R) (rect : Rect)
| PointerUp (id : Z)
| PointerCancel (id : Z)
| StopAll.

Definition step (ev : Event) (b : t) : Completion t :=
  match ev with
  | Connected => connectedCallback b
  | Disconnected => Normal (disconnectedCallback b)
  | SetAttribute name value => setAttribute name value b
  | RemoveAttribute name => removeAttribute name b
  | PointerDown id x y rect =>
      Normal (if listening b then handlePointerDown id x y rect b else b)
  | PointerMove id x y rect =>
      Normal (if listening b then handlePointerMove id x y rect b else b)
  | PointerUp id =>
      Normal (if listening b then handlePointerUp id b else b)
  | PointerCancel id =>
      Normal (if listening b then handlePointerCancel id b else b)
  | StopAll => Normal (stopAll b)
  end.

(** A sequence of events; an error thrown by a callback is reported and
    the element lives on. *)
Definition run (evs : list Event) (b : t) : t :=
  fold_left (fun b ev => stateOf (step ev b)) evs b.

End NoodlerBoard.

(** ** The board's arithmetic in doubles

    JavaScript rounds the result of every [+], [-], [*] and [/] to a double
    before the next step floors it, rounds it to a whole number or compares
    it.  Where a result decides a whole number, that rounding shows: the
    functions of src/board/bend.ts and the two geometry functions of
    src/board/utils.ts are given here with the rounding [fl] of each
    arithmetic result written out.  The negation, the comparisons,
    [Math.max], [Math.min], [Math.abs], [Math.floor] and [Math.round] are
    exact on doubles.  With the identity for [fl] these are the functions
    of [Bend] and [BoardUtils]. *)

Module Rounded.
Import Bend.

Definition dynamicBend (fl : R -> R) (xOffset : R) : R :=
  let maxCents := fl (MAX_OCTAVE_OFFSET * CENTS_PER_OCTAVE) in
  let cents := fl (fl (xOffset / PIXELS_PER_OCTAVE) * CENTS_PER_OCTAVE) in
  Math_round (Math_max (- maxCents) (Math_min maxCents cents)).

(** [directBend] compares and negates only. *)
Definition directBend (xOffset : R) : R :=
  if Rlt_dec xOffset (- DIRECT_THRESHOLD_PX) then - CENTS_PER_OCTAVE
  else if Rlt_dec DIRECT_THRESHOLD_PX xOffset then CENTS_PER_OCTAVE
  else 0.

Definition steppedBend (fl : R -> R) (xOffset : R) : R :=
  let normalized := fl (xOffset / PIXELS_PER_OCTAVE) in
  let targetCents := fl (normalized * CENTS_PER_OCTAVE) in
  let clampedCents :=
    Math_max (fl (- MAX_OCTAVE_OFFSET * CENTS_PER_OCTAVE))
      (Math_min (fl (MAX_OCTAVE_OFFSET * CENTS_PER_OCTAVE)) targetCents) in
  let closest := nth 0 STEPPED_INTERVALS 0 in
  let minDiff := Math_abs (fl (clampedCents - closest)) in
  fst
    (fold_left
       (fun '(closest, minDiff) interval =>
          let diff := Math_abs (fl (clampedCents - interval)) in
          if Rlt_dec diff minDiff then (interval, diff)
          else (closest, minDiff))
       (tl STEPPED_INTERVALS) (closest, minDiff)).

Definition xOffsetToCents (fl : R -> R) (xOffset : R) (mode : string) : R :=
  if String.eqb mode "dynamic" then dynamicBend fl xOffset
  else if String.eqb mode "direct" then directBend xOffset
  else if String.eqb mode "stepped" then steppedBend fl xOffset
  else 0.

Definition getNoteIndexFromY (fl : R -> R) (y height noteCount : R) : R :=
  if Rle_dec height 0 then 0
  else if Rle_dec noteCount 0 then 0
  else
    let zoneHeight := fl (height / noteCount) in
    let index := Math_floor (fl (y / zoneHeight)) in
    Math_max 0 (Math_min (fl (noteCount - 1)) index).

Definition getBendFromX (fl : R -> R) (x width : R)
  (maxCents_opt : option R) : R :=
  let maxCents := default 200 maxCents_opt in
  if Rle_dec width 0 then 0
  else
    let center := fl (width / 2) in
    let offset := fl (x - center) in
    let normalized := fl (offset / center) in
    Math_round (fl (normalized * maxCents)).

End Rounded.

(** * Properties *)

(** ** Clamping setters *)

Lemma clamp_cases (lo hi x : R) :
  lo <= hi ->
  (x < lo /\ Math_max lo (Math_min hi x) = lo) \/
  (hi < x /\ Math_max lo (Math_min hi x) = hi) \/
  (lo <= x <= hi /\ Math_max lo (Math_min hi x) = x).
Proof.
  intros Hlohi. unfold Math_max, Math_min, Rmax, Rmin.
  repeat destruct Rle_dec; lra.
Qed.

Lemma clamp_range (lo hi x : R) :
  lo <= hi -> lo <= Math_max lo (Math_min hi x) <= hi.
Proof. intros H. destruct (clamp_cases lo hi x H) as [[? ->]|[[? ->]|[? ->]]]; lra. Qed.

Lemma clamp_lo (lo hi x : R) :
  lo <= hi -> x <= lo -> Math_max lo (Math_min hi x) = lo.
Proof. intros H ?. destruct (clamp_cases lo hi x H) as [[? ->]|[[? ->]|[? ->]]]; lra. Qed.

Lemma clamp_hi (lo hi x : R) :
  lo <= hi -> hi <= x -> Math_max lo (Math_min hi x) = hi.
Proof. intros H ?. destruct (clamp_cases lo hi x H) as [[? ->]|[[? ->]|[? ->]]]; lra. Qed.

Lemma getVolume_setVolume (x : R) (s : Synth.t) :
  Synth.getVolume (Synth.setVolume x s) = Synth.clampVolume x.
Proof.
  destruct s as [ctx mg cp ei notes w env v d o st ns e].
  unfold Synth.setVolume, Synth.getVolume. simpl.
  destruct mg, ctx; reflexivity.
Qed.

Lemma getOctaveShift_setOctaveShift (x : R) (s : Synth.t) :
  Synth.getOctaveShift (Synth.setOctaveShift x s) =
  Math_max (-2) (Math_min 2 x).
Proof. destruct s. reflexivity. Qed.

Lemma getTempo_setTempo (x : R) (s : BackingTrack.t) :
  BackingTrack.getTempo (BackingTrack.setTempo x s) =
  Math_max 20 (Math_min 300 x).
Proof. destruct s. reflexivity. Qed.

Lemma getSwing_setSwing (x : R) (s : BackingTrack.t) :
  BackingTrack.getSwing (BackingTrack.setSwing x s) =
  Math_max 0 (Math_min 100 x).
Proof. destruct s. reflexivity. Qed.

(** C7.  For every real [x] and every instance, each numeric setter stores
    [max(lo, min(hi, x))] for its documented range and the matching getter
    returns it: volume in [0, 1], octave shift in [-2, 2], tempo in [20, 300],
    swing in [0, 100]; the stored value lies in the range, is the bound that
    [x] exceeds and is [x] itself inside the range; and the eight sample
    calls of the specification give 0, 1, -2, 2, 20, 300, 0 and 100. *)
Theorem C7_setters_clamp :
  (forall (x : R) (s : Synth.t) (b : BackingTrack.t),
     let v := Synth.getVolume (Synth.setVolume x s) in
     let o := Synth.getOctaveShift (Synth.setOctaveShift x s) in
     let t := BackingTrack.getTempo (BackingTrack.setTempo x b) in
     let w := BackingTrack.getSwing (BackingTrack.setSwing x b) in
     (v = Rmax 0 (Rmin 1 x) /\ o = Rmax (-2) (Rmin 2 x) /\
      t = Rmax 20 (Rmin 300 x) /\ w = Rmax 0 (Rmin 100 x)) /\
     (0 <= v <= 1 /\ -2 <= o <= 2 /\ 20 <= t <= 300 /\ 0 <= w <= 100) /\
     ((x < 0 /\ v = 0) \/ (1 < x /\ v = 1) \/ (0 <= x <= 1 /\ v = x)) /\
     ((x < -2 /\ o = -2) \/ (2 < x /\ o = 2) \/ (-2 <= x <= 2 /\ o = x)) /\
     ((x < 20 /\ t = 20) \/ (300 < x /\ t = 300) \/ (20 <= x <= 300 /\ t = x)) /\
     ((x < 0 /\ w = 0) \/ (100 < x /\ w = 100) \/ (0 <= x <= 100 /\ w = x))) /\
  (forall (s : Synth.t) (b : BackingTrack.t),
     Synth.getVolume (Synth.setVolume (-5) s) = 0 /\
     Synth.getVolume (Synth.setVolume 5 s) = 1 /\
     Synth.getOctaveShift (Synth.setOctaveShift (-9) s) = -2 /\
     Synth.getOctaveShift (Synth.setOctaveShift 9 s) = 2 /\
     BackingTrack.getTempo (BackingTrack.setTempo 1 b) = 20 /\
     BackingTrack.getTempo (BackingTrack.setTempo 999 b) = 300 /\
     BackingTrack.getSwing (BackingTrack.setSwing (-1) b) = 0 /\
     BackingTrack.getSwing (BackingTrack.setSwing 999 b) = 100).
Proof.
  split.
  - intros x s b v o t w. subst v o t w.
    rewrite getVolume_setVolume, getOctaveShift_setOctaveShift,
      getTempo_setTempo, getSwing_setSwing.
    unfold Synth.clampVolume.
    split; [repeat split; reflexivity|].
    split.
    { repeat split; apply clamp_range; lra. }
    repeat split; apply clamp_cases; lra.
  - intros s b.
    rewrite !getVolume_setVolume, !getOctaveShift_setOctaveShift,
      !getTempo_setTempo, !getSwing_setSwing.
    unfold Synth.clampVolume.
    repeat split;
      first [ apply clamp_lo; lra | apply clamp_hi; lra ].
Qed.

(** ** Equal temperament *)

Lemma Math_pow_2_pos (x : R) : 0 < Math_pow 2 x.
Proof. unfold Math_pow, Rpower. apply exp_pos. Qed.

Lemma Math_pow_2_0 : Math_pow 2 0 = 1.
Proof. unfold Math_pow, Rpower. rewrite Rmult_0_l. apply exp_0. Qed.

Lemma Math_pow_2_1 : Math_pow 2 1 = 2.
Proof. unfold Math_pow. apply Rpower_1. lra. Qed.

Lemma Math_pow_2_plus (x y : R) :
  Math_pow 2 (x + y) = Math_pow 2 x * Math_pow 2 y.
Proof. unfold Math_pow. apply Rpower_plus. Qed.

(** The MIDI number [noteToFrequency] computes. *)
Definition midiOf (note : Scale.NoteName) (octave : Z) : Z :=
  (Scale.NOTE_SEMITONES note + (octave + 1) * 12)%Z.

Lemma noteToFrequency_pos (note : Scale.NoteName) (octave : Z) :
  0 < Scale.noteToFrequency note octave.
Proof.
  unfold Scale.noteToFrequency, Scale.A4_FREQUENCY.
  apply Rmult_lt_0_compat; [lra | apply Math_pow_2_pos].
Qed.

Lemma noteToFrequency_interval (n1 n2 : Scale.NoteName) (o1 o2 k : Z) :
  midiOf n2 o2 = (midiOf n1 o1 + k)%Z ->
  Scale.noteToFrequency n2 o2 =
  Scale.noteToFrequency n1 o1 * Math_pow 2 (IZR k / 12).
Proof.
  unfold midiOf, Scale.noteToFrequency. cbv zeta. intros ->.
  replace (IZR (Scale.NOTE_SEMITONES n1 + (o1 + 1) * 12 + k - Scale.A4_MIDI) / 12)
    with (IZR (Scale.NOTE_SEMITONES n1 + (o1 + 1) * 12 - Scale.A4_MIDI) / 12
          + IZR k / 12).
  - rewrite Math_pow_2_plus. ring.
  - rewrite <- Rdiv_plus_distr, <- plus_IZR. f_equal. f_equal. lia.
Qed.

(** C8.  [noteToFrequency('A', 4)] is 440 and [noteToFrequency('A', 5)] is
    880; and every note name and octave has a next chromatic step (the note
    one semitone up, in the octave [getOctaveForOffset] gives it) whose
    frequency divided by the note's own is [2^(1/12)], hence within [10^-6]
    of it. *)
Theorem C8_equal_temperament :
  Scale.noteToFrequency Scale.A 4 = 440 /\
  Scale.noteToFrequency Scale.A 5 = 880 /\
  forall (note : Scale.NoteName) (octave : Z),
    exists next : Scale.NoteName,
      Scale.getNoteAtOffset note 1 = Some next /\
      let nextOctave :=
        Scale.getOctaveForOffset octave (Scale.NOTE_SEMITONES note) 1 in
      let ratio :=
        Scale.noteToFrequency next nextOctave /
        Scale.noteToFrequency note octave in
      ratio = Rpower 2 (1 / 12) /\
      Rabs (ratio - Rpower 2 (1 / 12)) < 1 / 1000000.
Proof.
  split; [|split].
  - unfold Scale.noteToFrequency, Scale.A4_FREQUENCY. cbv zeta.
    change (Scale.NOTE_SEMITONES Scale.A + (4 + 1) * 12 - Scale.A4_MIDI)%Z
      with 0%Z.
    replace (0 / 12) with 0 by lra. rewrite Math_pow_2_0. lra.
  - unfold Scale.noteToFrequency, Scale.A4_FREQUENCY. cbv zeta.
    change (Scale.NOTE_SEMITONES Scale.A + (5 + 1) * 12 - Scale.A4_MIDI)%Z
      with 12%Z.
    replace (12 / 12) with 1 by lra. rewrite Math_pow_2_1. lra.
  - intros note octave.
    assert (Hstep : forall next o',
      midiOf next o' = (midiOf note octave + 1)%Z ->
      let ratio :=
        Scale.noteToFrequency next o' / Scale.noteToFrequency note octave in
      ratio = Rpower 2 (1 / 12) /\
      Rabs (ratio - Rpower 2 (1 / 12)) < 1 / 1000000).
    { intros next o' Hm ratio.
      assert (Hr : ratio = Rpower 2 (1 / 12)).
      { subst ratio. rewrite (noteToFrequency_interval note next octave o' 1 Hm).
        pose proof (noteToFrequency_pos note octave).
        unfold Math_pow. field. lra. }
      split; [exact Hr|].
      rewrite Hr, Rminus_diag, Rabs_R0. lra. }
    destruct note;
      (eexists; split; [reflexivity|]; apply Hstep;
       unfold midiOf, Scale.getOctaveForOffset; simpl Scale.NOTE_SEMITONES;
       try change ((11 + 1) / 12)%Z with 1%Z;
       rewrite ?Z.div_small by lia; lia).
Qed.

(** ** Chord resolution *)

(** The words of the specification: a roman numeral I to VII in any case,
    and a chord symbol made of a root letter A to G, an optional [#] and an
    optional trailing [m]. *)
Definition isRomanNumeral (chord : string) : Prop :=
  In (toUpperCase chord) ["I"; "II"; "III"; "IV"; "V"; "VI"; "VII"].

Definition matchesSymbolPattern (chord : string) : Prop :=
  exists (letter : ascii) (sharp minor : bool),
    In letter ["A"; "B"; "C"; "D"; "E"; "F"; "G"]%char /\
    chord =
      String letter
        ((if sharp then "#" else "") ++ (if minor then "m" else ""))%string.

(** A chord symbol whose root is one of the twelve note names. *)
Definition isChordSymbol (chord : string) : Prop :=
  exists (root : Scale.NoteName) (minor : bool),
    chord = (Scale.noteNameString root ++ (if minor then "m" else ""))%string.

Definition throws {A} (r : Result A) : Prop :=
  exists message, r = Throw message.

(** A string of ASCII characters.  On these [toUpperCase], [toLowerCase],
    [trim] and [parseInt] of the model are the functions of JavaScript,
    which beyond ASCII change the case of other letters too (the upper
    case of the dotless i, U+0131, is I) and take other characters for
    white space (the no-break space, U+00A0). *)
Definition isASCII (s : string) : bool :=
  forallb (fun c => (nat_of_ascii c <? 128)%nat) (list_ascii_of_string s).

Fixpoint noLower (s : string) : bool :=
  match s with
  | EmptyString => true
  | String c rest => negb (isLower c) && noLower rest
  end.

Lemma upperChar_not_lower (c : ascii) : isLower (upperChar c) = false.
Proof.
  destruct c as [[] [] [] [] [] [] [] []]; vm_compute; reflexivity.
Qed.

Lemma toUpperCase_noLower (s : string) : noLower (toUpperCase s) = true.
Proof.
  induction s as [|c s IH]; simpl; [reflexivity|].
  rewrite upperChar_not_lower, IH. reflexivity.
Qed.

Lemma ROMAN_TO_DEGREE_upper (chord : string) :
  (exists degree, Scale.ROMAN_TO_DEGREE (toUpperCase chord) = Some degree /\
                  (1 <= degree <= 7)%Z) <->
  isRomanNumeral chord.
Proof.
  unfold isRomanNumeral.
  pose proof (toUpperCase_noLower chord) as Hup.
  set (u := toUpperCase chord) in *. clearbody u.
  unfold Scale.ROMAN_TO_DEGREE, Scale.ROMAN_TO_DEGREE_table.
  cbn [List.find fst snd].
  repeat
    match goal with
    | |- context [String.eqb ?k u] =>
        destruct (String.eqb_spec k u) as [<-|?]
    end;
    try (vm_compute in Hup; discriminate Hup);
    try (split; [intros _; simpl; auto 10
                | intros _; eexists; split; [reflexivity|simpl; lia]]).
  split.
  - intros (? & [=] & _).
  - simpl. intuition congruence.
Qed.

Lemma isAtoG_cases (c : ascii) :
  Scale.isAtoG c = true ->
  In c ["A"; "B"; "C"; "D"; "E"; "F"; "G"]%char.
Proof.
  destruct c as [[] [] [] [] [] [] [] []]; vm_compute; intros H;
    first [ discriminate H | tauto ].
Qed.

Lemma optionalChar_cases (x : ascii) (s : string) :
  (exists rest, s = String x rest /\ Scale.optionalChar x s = (true, rest)) \/
  (Scale.optionalChar x s = (false, s) /\ forall rest, s <> String x rest).
Proof.
  destruct s as [|c rest]; simpl.
  - right. split; [reflexivity | discriminate].
  - destruct (Ascii.eqb_spec c x) as [->|Hne].
    + left. eauto.
    + right. split; [reflexivity|]. intros r [= ? _]. contradiction.
Qed.

Lemma parseChordSymbol_Some (chord : string) :
  (exists root isMajor, Scale.parseChordSymbol chord = Some (root, isMajor)) <->
  isChordSymbol chord.
Proof.
  split.
  - intros (root & isMajor & H). unfold Scale.parseChordSymbol in H.
    destruct (Scale.matchChordSymbol chord) as [group|] eqn:Hm; [|discriminate].
    destruct (Scale.noteNameOfString group) as [r|] eqn:Hn; [|discriminate].
    unfold Scale.matchChordSymbol in Hm.
    destruct chord as [|c rest]; [discriminate|].
    destruct (Scale.isAtoG c) eqn:Hc; [|discriminate].
    apply isAtoG_cases in Hc.
    destruct (optionalChar_cases "#" rest) as [(r1 & -> & E1)|[E1 _]];
      rewrite E1 in Hm;
      [ destruct (optionalChar_cases "m" r1) as [(r2 & -> & E2)|[E2 _]]
      | destruct (optionalChar_cases "m" rest) as [(r2 & -> & E2)|[E2 _]] ];
      rewrite E2 in Hm.
    all: match type of Hm with
         | match ?r with EmptyString => _ | String _ _ => _ end = _ =>
             destruct r; [|discriminate Hm]
         end.
    all: injection Hm as <-; clear E1 E2 H; simpl in Hc.
    all: decompose [or] Hc; try contradiction; subst c.
    all: vm_compute in Hn; try discriminate Hn.
    all: match type of Hn with
         | Some ?n = Some _ =>
             first [ exists n, false; reflexivity
                   | exists n, true; reflexivity ]
         end.
  - intros (root & minor & ->).
    destruct root, minor; eexists _, _; reflexivity.
Qed.

Lemma resolveChord_outcome (chord : string) (key : Scale.NoteName) (octave : Z) :
  (isRomanNumeral chord \/ isChordSymbol chord ->
   exists c, Scale.resolveChord chord key octave = Ok c) /\
  (~ (isRomanNumeral chord \/ isChordSymbol chord) ->
   Scale.resolveChord chord key octave = Throw ("Invalid chord: " ++ chord)).
Proof.
  unfold Scale.resolveChord. cbv zeta.
  destruct (Scale.ROMAN_TO_DEGREE (toUpperCase chord)) as [degree|] eqn:Hr.
  - split; [eauto|]. intros Hn. exfalso. apply Hn. left.
    apply ROMAN_TO_DEGREE_upper. exists degree. split; [exact Hr|].
    revert Hr. unfold Scale.ROMAN_TO_DEGREE, Scale.ROMAN_TO_DEGREE_table.
    cbn [List.find fst snd].
    repeat
      match goal with
      | |- context [String.eqb ?k ?u] => destruct (String.eqb k u)
      end; intros [= <-]; lia.
  - destruct (Scale.parseChordSymbol chord) as [[root isMajor]|] eqn:Hp.
    + split; [eauto|]. intros Hn. exfalso. apply Hn. right.
      apply parseChordSymbol_Some. eauto.
    + split; [|reflexivity]. intros [Hroman|Hsym].
      * apply ROMAN_TO_DEGREE_upper in Hroman as (d & Hd & _). congruence.
      * apply parseChordSymbol_Some in Hsym as (r & m & Hs). congruence.
Qed.

Lemma resolveChord_throws_iff (chord : string) (key : Scale.NoteName) (octave : Z) :
  throws (Scale.resolveChord chord key octave) <->
  ~ (isRomanNumeral chord \/ isChordSymbol chord).
Proof.
  destruct (resolveChord_outcome chord key octave) as [Hok Hthrow].
  split.
  - intros [message Hm] Hrec. destruct (Hok Hrec) as [c Hc]. congruence.
  - intros Hn. eexists. apply Hthrow, Hn.
Qed.

(** The claim of the specification at the chord ["E#"]: its letter, sharp
    and no [m] match the pattern, and the resolver throws for it. *)
Lemma C9_counterexample_E_sharp :
  ~ (throws (Scale.resolveChord "E#" Scale.C 4) <->
     ~ (isRomanNumeral "E#" \/ matchesSymbolPattern "E#")).
Proof.
  intros [Hthrow _]. apply Hthrow.
  - eexists. reflexivity.
  - right. exists "E"%char, true, false. split; [simpl; tauto | reflexivity].
Qed.

(** C9 (amended).  The progression I, IV, V, I in G resolves to the roots
    G, C, D, G and ii, V, I in C to the symbols Dm, G, C.  On an input of
    ASCII characters [resolveChord] throws exactly when the input is
    neither a roman numeral I to VII in any case nor a chord symbol made of
    one of the twelve note names (C, C#, D, D#, E, F, F#, G, G#, A, A#, B)
    with an optional trailing m; every other ASCII input resolves, and the
    error carries the message "Invalid chord: " followed by the input. *)
Theorem C9_resolveChord :
  (exists chords,
     Scale.resolveChordProgression ["I"; "IV"; "V"; "I"] Scale.G 4 = Ok chords /\
     map Scale.root chords = [Scale.G; Scale.C; Scale.D; Scale.G]) /\
  (exists chords,
     Scale.resolveChordProgression ["ii"; "V"; "I"] Scale.C 4 = Ok chords /\
     map Scale.symbol chords = ["Dm"; "G"; "C"]) /\
  forall (chord : string) (key : Scale.NoteName) (octave : Z),
    isASCII chord = true ->
    (throws (Scale.resolveChord chord key octave) <->
     ~ (isRomanNumeral chord \/ isChordSymbol chord)) /\
    ((exists c, Scale.resolveChord chord key octave = Ok c) <->
     (isRomanNumeral chord \/ isChordSymbol chord)) /\
    (throws (Scale.resolveChord chord key octave) <->
     Scale.resolveChord chord key octave = Throw ("Invalid chord: " ++ chord)).
Proof.
  split; [|split].
  - eexists. split; reflexivity.
  - eexists. split; reflexivity.
  - intros chord key octave _.
    pose proof (resolveChord_throws_iff chord key octave) as Hiff.
    destruct (resolveChord_outcome chord key octave) as [Hok Hthrow].
    split; [exact Hiff|]. split.
    + split; [|exact Hok].
      intros [c Hc].
      destruct (Scale.ROMAN_TO_DEGREE (toUpperCase chord)) as [d|] eqn:Hr.
      * left. apply ROMAN_TO_DEGREE_upper. exists d. split; [exact Hr|].
        revert Hr. unfold Scale.ROMAN_TO_DEGREE, Scale.ROMAN_TO_DEGREE_table.
        cbn [List.find fst snd].
        repeat
          match goal with
          | |- context [String.eqb ?k ?u] => destruct (String.eqb k u)
          end; intros [= <-]; lia.
      * right. apply parseChordSymbol_Some.
        unfold Scale.resolveChord in Hc. rewrite Hr in Hc.
        destruct (Scale.parseChordSymbol chord) as [[r m]|]; [eauto|discriminate].
    + split.
      * intros Ht. apply Hthrow, Hiff, Ht.
      * intros ->. eexists. reflexivity.
Qed.

(** C9 at the inputs ["Xm"], which throws, and ["F#m"], which resolves. *)
Lemma C9_resolveChord_witness :
  Scale.resolveChord "Xm" Scale.C 4 = Throw "Invalid chord: Xm" /\
  exists c, Scale.resolveChord "F#m" Scale.C 4 = Ok c.
Proof.
  destruct C9_resolveChord as (_ & _ & H).
  split.
  - destruct (H "Xm" Scale.C 4%Z eq_refl) as (Hiff & _ & Hmsg).
    apply Hmsg, Hiff. intros [Hr|(r & m & Hs)].
    + vm_compute in Hr. intuition discriminate.
    + destruct r, m; discriminate Hs.
  - destruct (H "F#m" Scale.C 4%Z eq_refl) as (_ & Hok & _).
    apply Hok. right. exists Scale.Fs, true. reflexivity.
Defined.

(** ** Events of one beat *)

(** The table of the specification, for a beat of duration [B] of a chord
    with root frequency [R0]: the events as (offset, frequency, duration).
    [swingTerm] is the factor of [B/3] in the offset of the second eighth
    note. *)
Definition eventTable (style : AudioTypes.BackingStyle)
  (B R0 swingTerm beatsPerChord : R) (beat : nat) (isMajor : bool)
  : list BackingTrack.ScheduledNote :=
  let event t f d :=
    {| BackingTrack.time := t; BackingTrack.frequency := f;
       BackingTrack.duration := d |} in
  let third := R0 * Rpower 2 ((if isMajor then 4 else 3) / 12) in
  let fifth := R0 * Rpower 2 (7 / 12) in
  match style with
  | AudioTypes.drone =>
      match beat with
      | O => [event 0 R0 (B * beatsPerChord * 0.95)]
      | S _ => []
      end
  | AudioTypes.quarter => [event 0 R0 (0.8 * B)]
  | AudioTypes.eighth =>
      [event 0 R0 (0.4 * B); event (B / 2 + swingTerm * B / 3) R0 (0.35 * B)]
  | AudioTypes.blues =>
      [event 0 R0 (0.5 * B); event (2 * B / 3) R0 (0.25 * B)]
  | AudioTypes.arpeggio =>
      [event 0
         (match (beat mod 3)%nat with
          | 0%nat => R0
          | 1%nat => third
          | _ => fifth
          end)
         (0.8 * B)]
  end.

(** The root frequency the sequencer plays a chord at: the chord's root
    note in the octave of the instrument. *)
Definition rootFrequency (s : BackingTrack.t) (chord : Scale.ResolvedChord) : R :=
  Scale.noteToFrequency (Scale.root chord)
    (4 + BackingTrack.octaveOffset
           (BackingTrack.INSTRUMENT_CONFIG (BackingTrack.instrument s))).

Lemma ScheduledNote_eq (t t' f f' d d' : R) :
  t = t' -> f = f' -> d = d' ->
  {| BackingTrack.time := t; BackingTrack.frequency := f;
     BackingTrack.duration := d |} =
  {| BackingTrack.time := t'; BackingTrack.frequency := f';
     BackingTrack.duration := d' |}.
Proof. intros -> -> ->. reflexivity. Qed.

Lemma getNotesForCurrentBeat_table (s : BackingTrack.t)
  (chord : Scale.ResolvedChord) :
  BackingTrack.resolvedChords s !! BackingTrack.currentChordIndex s = Some chord ->
  BackingTrack.getNotesForCurrentBeat s =
  eventTable (BackingTrack.style s) (60 / BackingTrack.tempo s)
    (rootFrequency s chord) (BackingTrack.swing s / 100)
    (BackingTrack.beatsPerChord s) (BackingTrack.currentBeat s)
    (Scale.isMajor chord).
Proof.
  intros Hchord. unfold BackingTrack.getNotesForCurrentBeat, eventTable.
  rewrite Hchord. cbv zeta. fold (rootFrequency s chord).
  destruct (BackingTrack.style s).
  - destruct (BackingTrack.currentBeat s); reflexivity.
  - f_equal. apply ScheduledNote_eq; [reflexivity|reflexivity|lra].
  - f_equal; [|f_equal]; apply ScheduledNote_eq; try reflexivity; lra.
  - f_equal; [|f_equal]; apply ScheduledNote_eq; try reflexivity; lra.
  - f_equal. apply ScheduledNote_eq; [reflexivity| |lra].
    unfold BackingTrack.getChordTones. cbv zeta.
    change (length _) with 3%nat.
    pose proof (Nat.mod_upper_bound (BackingTrack.currentBeat s) 3 ltac:(lia)) as Hlt.
    destruct (BackingTrack.currentBeat s mod 3)%nat as [|[|[|n]]];
      try reflexivity; lia.
Qed.

(** A fresh instance in C, as [new BackingTrack(ctx, config)] returns it
    when the chords of [config] resolve. *)
Definition freshTrack (config : AudioTypes.BackingConfig)
  (chords : list Scale.ResolvedChord) : BackingTrack.t :=
  {| BackingTrack.tempo :=
       default BackingTrack.DEFAULT_TEMPO (AudioTypes.cfg_tempo config);
     BackingTrack.style :=
       default BackingTrack.DEFAULT_STYLE (AudioTypes.cfg_style config);
     BackingTrack.instrument :=
       default BackingTrack.DEFAULT_INSTRUMENT
         (AudioTypes.cfg_instrument config);
     BackingTrack.resolvedChords := chords;
     BackingTrack.bars :=
       default BackingTrack.DEFAULT_BARS (AudioTypes.cfg_bars config);
     BackingTrack.swing :=
       Math_max 0
         (Math_min 100
            (default BackingTrack.DEFAULT_SWING (AudioTypes.cfg_swing config)));
     BackingTrack.key := BackingTrack.DEFAULT_KEY;
     BackingTrack.isPlaying := false;
     BackingTrack.destroyed := false;
     BackingTrack.schedulerInterval := false;
     BackingTrack.nextNoteTime := 0;
     BackingTrack.currentBeat := 0;
     BackingTrack.currentChordIndex := 0;
     BackingTrack.beatsPerChord :=
       4 * default BackingTrack.DEFAULT_BARS (AudioTypes.cfg_bars config);
     BackingTrack.activeOscillators := [];
     BackingTrack.voices := [];
     BackingTrack.forcedStops := [];
     BackingTrack.masterGainDisconnects := 0;
     BackingTrack.compressorDisconnects := 0 |}.

Lemma new_fresh (config : AudioTypes.BackingConfig) (s : BackingTrack.t) :
  BackingTrack.new config = Ok s ->
  exists chords,
    BackingTrack.resolveChords
      (default ["I"] (AudioTypes.cfg_chords config)) BackingTrack.DEFAULT_KEY
    = Ok chords /\
    s = freshTrack config chords.
Proof.
  unfold BackingTrack.new.
  destruct (BackingTrack.resolveChords _ _) as [chords|]; [|discriminate].
  intros [= <-]. exists chords. split; reflexivity.
Qed.

(** The configuration [{ tempo, style, swing }] with the other options left
    out. *)
Definition configOf (tempo : R) (style : AudioTypes.BackingStyle) (swing : R)
  : AudioTypes.BackingConfig :=
  {| AudioTypes.cfg_tempo := Some tempo;
     AudioTypes.cfg_style := Some style;
     AudioTypes.cfg_instrument := None;
     AudioTypes.cfg_chords := None;
     AudioTypes.cfg_bars := None;
     AudioTypes.cfg_swing := Some swing |}.

Lemma new_configOf (tempo : R) (style : AudioTypes.BackingStyle) (swing : R) :
  exists chord,
    BackingTrack.new (configOf tempo style swing) =
    Ok (freshTrack (configOf tempo style swing) [chord]) /\
    Scale.root chord = Scale.C /\ Scale.isMajor chord = true.
Proof. eexists. split; [reflexivity|]. split; reflexivity. Qed.

(** The table of the specification read with the stored swing (0 to 100) as
    the factor of [B/3] fails on a fresh instance in style eighth at 60 BPM
    with swing 100: the second note is 5/6 of a second after the beat, not
    1/2 + 100/3 seconds. *)
Lemma C2_counterexample_swing :
  exists (s : BackingTrack.t) (chord : Scale.ResolvedChord),
    BackingTrack.new (configOf 60 AudioTypes.eighth 100) = Ok s /\
    BackingTrack.resolvedChords s !! BackingTrack.currentChordIndex s
      = Some chord /\
    BackingTrack.getNotesForCurrentBeat s <>
    eventTable (BackingTrack.style s) (60 / BackingTrack.tempo s)
      (rootFrequency s chord) (BackingTrack.swing s)
      (BackingTrack.beatsPerChord s) (BackingTrack.currentBeat s)
      (Scale.isMajor chord).
Proof.
  destruct (new_configOf 60 AudioTypes.eighth 100) as (chord & Hnew & _).
  eexists _, chord. split; [exact Hnew|]. split; [reflexivity|].
  intros H.
  apply (f_equal (fun l => map BackingTrack.time l)) in H.
  unfold BackingTrack.getNotesForCurrentBeat, eventTable in H.
  simpl in H. injection H as H.
  assert (Hs : Math_max 0 (Math_min 100 100) = 100) by (apply clamp_hi; lra).
  rewrite Hs in H. lra.
Qed.

(** C2 (amended).  Whenever the current chord exists, the events of the
    beat are those of the table, with beat duration [B = 60/tempo], the chord
    root frequency [R0] in the instrument's octave, and the stored swing
    percentage divided by 100 as the factor of [B/3]: quarter (0, 0.8B);
    eighth (0, 0.4B) and (B/2 + (swing/100) B/3, 0.35B); blues (0, 0.5B) and
    (2B/3, 0.25B); drone (0, B beatsPerChord 0.95) on beat 0 and nothing on
    the other beats; arpeggio one tone of duration 0.8B, the root, third or
    fifth as the beat is 0, 1 or 2 modulo 3, the third being
    [R0 2^(4/12)] for a major chord and [R0 2^(3/12)] for a minor one and
    the fifth [R0 2^(7/12)]. *)
Theorem C2_events_of_beat (s : BackingTrack.t) (chord : Scale.ResolvedChord) :
  BackingTrack.resolvedChords s !! BackingTrack.currentChordIndex s = Some chord ->
  BackingTrack.getNotesForCurrentBeat s =
  eventTable (BackingTrack.style s) (60 / BackingTrack.tempo s)
    (rootFrequency s chord) (BackingTrack.swing s / 100)
    (BackingTrack.beatsPerChord s) (BackingTrack.currentBeat s)
    (Scale.isMajor chord).
Proof. apply getNotesForCurrentBeat_table. Qed.

(** C2 on a fresh instance at 120 BPM: style quarter gives one event of
    0.4 s, and style eighth with swing 50 gives two events, the second
    0.25 + 0.5 (0.5/3) s after the beat. *)
Lemma C2_events_of_beat_witness :
  (exists s,
     BackingTrack.new (configOf 120 AudioTypes.quarter 0) = Ok s /\
     map (fun n => (BackingTrack.time n, BackingTrack.duration n))
       (BackingTrack.getNotesForCurrentBeat s) = [(0, 0.4)]) /\
  (exists s,
     BackingTrack.new (configOf 120 AudioTypes.eighth 50) = Ok s /\
     map BackingTrack.time (BackingTrack.getNotesForCurrentBeat s) =
     [0; 0.25 + 0.5 * (0.5 / 3)]).
Proof.
  split.
  - destruct (new_configOf 120 AudioTypes.quarter 0) as (chord & Hnew & _).
    eexists. split; [exact Hnew|].
    rewrite (C2_events_of_beat _ chord) by reflexivity.
    simpl. repeat f_equal. lra.
  - destruct (new_configOf 120 AudioTypes.eighth 50) as (chord & Hnew & _).
    eexists. split; [exact Hnew|].
    rewrite (C2_events_of_beat _ chord) by reflexivity.
    assert (Hs : Math_max 0 (Math_min 100 50) = 50).
    { destruct (clamp_cases 0 100 50) as [[? ->]|[[? ->]|[? ->]]]; lra. }
    simpl. rewrite Hs. do 2 f_equal. lra.
Defined.

(** ** The chord list of the sequencer *)

Lemma resolveChordProgression_length (progression : list string)
  (key : Scale.NoteName) (octave : Z) (chords : list Scale.ResolvedChord) :
  Scale.resolveChordProgression progression key octave = Ok chords ->
  length chords = length progression.
Proof.
  revert chords. induction progression as [|chord rest IH]; intros chords; simpl.
  - intros [= <-]. reflexivity.
  - destruct (Scale.resolveChord chord key octave); [|discriminate].
    destruct (Scale.resolveChordProgression rest key octave); [|discriminate].
    intros [= <-]. simpl. f_equal. apply IH. reflexivity.
Qed.

Lemma resolveChord_tonic (key : Scale.NoteName) (octave : Z) :
  Scale.resolveChord "I" key octave =
  Ok {| Scale.root := key; Scale.isMajor := true;
        Scale.symbol := Scale.noteNameString key;
        Scale.frequency := Scale.noteToFrequency key octave |}.
Proof. destruct key; reflexivity. Qed.

Lemma resolveChords_nonempty (progression : list string)
  (key : Scale.NoteName) (chords : list Scale.ResolvedChord) :
  BackingTrack.resolveChords progression key = Ok chords ->
  (0 < length chords)%nat.
Proof.
  unfold BackingTrack.resolveChords. destruct progression as [|c rest].
  - unfold Scale.resolveChordProgression. rewrite resolveChord_tonic.
    intros [= <-]. simpl. lia.
  - intros H. apply resolveChordProgression_length in H. rewrite H. simpl. lia.
Qed.

(** The chord list is not empty and the chord index points into it. *)
Definition chordsOk (s : BackingTrack.t) : Prop :=
  (BackingTrack.currentChordIndex s < length (BackingTrack.resolvedChords s))%nat.

Lemma chordsOk_current (s : BackingTrack.t) :
  chordsOk s ->
  exists chord,
    BackingTrack.resolvedChords s !! BackingTrack.currentChordIndex s = Some chord.
Proof. intros H. apply lookup_lt_is_Some_2 in H as [chord H]. eauto. Qed.

Lemma chordsOk_new (config : AudioTypes.BackingConfig) (s : BackingTrack.t) :
  BackingTrack.new config = Ok s -> chordsOk s.
Proof.
  intros H. apply new_fresh in H as (chords & Hc & ->).
  apply resolveChords_nonempty in Hc. exact Hc.
Qed.

Lemma chordsOk_playNote (f t d : R) (s : BackingTrack.t) :
  chordsOk s -> chordsOk (BackingTrack.playNote f t d s).
Proof. destruct s. intros H. exact H. Qed.

Lemma chordsOk_advanceBeat (s : BackingTrack.t) :
  chordsOk s -> chordsOk (BackingTrack.advanceBeat s).
Proof.
  destruct s. unfold chordsOk, BackingTrack.advanceBeat. cbv zeta.
  destruct Rle_dec; simpl; intros H; [|exact H].
  apply Nat.mod_upper_bound. lia.
Qed.

Lemma chordsOk_scheduleBeat (s : BackingTrack.t) :
  chordsOk s -> chordsOk (BackingTrack.scheduleBeat s).
Proof.
  intros H. unfold BackingTrack.scheduleBeat. apply chordsOk_advanceBeat.
  generalize (BackingTrack.getNotesForCurrentBeat s). intros notes.
  revert s H. induction notes as [|n notes IH]; intros s H; simpl; [exact H|].
  apply IH, chordsOk_playNote, H.
Qed.

Lemma chordsOk_scheduleLoop (fuel : nat) (lookaheadEnd : R)
  (s s' : BackingTrack.t) :
  chordsOk s -> BackingTrack.scheduleLoop fuel lookaheadEnd s = Some s' ->
  chordsOk s'.
Proof.
  revert s. induction fuel as [|fuel IH]; intros s H; simpl;
    destruct Rlt_dec; try discriminate; try (intros [= <-]; exact H).
  apply IH, chordsOk_scheduleBeat, H.
Qed.

Lemma chordsOk_step (fuel : nat) (ev : BackingTrack.Event)
  (s : BackingTrack.t) (c : Completion BackingTrack.t) :
  chordsOk s -> BackingTrack.step fuel ev s = Some c -> chordsOk (stateOf c).
Proof.
  intros H. destruct ev; simpl.
  - intros [= <-]. simpl. unfold BackingTrack.play.
    destruct (_ || _); [exact H|]. destruct s. unfold chordsOk in *.
    simpl in *. lia.
  - intros [= <-]. simpl. unfold BackingTrack.stop.
    destruct (negb _); [exact H|]. destruct s. exact H.
  - intros [= <-]. destruct s. exact H.
  - intros [= <-]. unfold BackingTrack.setChords. cbv zeta.
    destruct (BackingTrack.resolveChords _ _) as [chords|] eqn:Hc.
    + simpl. apply resolveChords_nonempty in Hc. exact Hc.
    + destruct key; exact H.
  - intros [= <-]. destruct s. exact H.
  - intros [= <-]. destruct s. exact H.
  - intros [= <-]. destruct s. exact H.
  - intros [= <-]. simpl. unfold BackingTrack.destroy.
    destruct (BackingTrack.destroyed s); [exact H|]. destruct s.
    unfold BackingTrack.stop. simpl. destruct (negb _); exact H.
  - destruct (BackingTrack.schedulerInterval s).
    + destruct (BackingTrack.schedule fuel now s) as [s'|] eqn:Hs; [|discriminate].
      intros [= <-]. simpl. eapply chordsOk_scheduleLoop; [exact H|exact Hs].
    + intros [= <-]. exact H.
  - intros [= <-]. destruct s. exact H.
Qed.

Lemma chordsOk_run (fuel : nat) (evs : list BackingTrack.Event)
  (s s' : BackingTrack.t) :
  chordsOk s -> BackingTrack.run fuel evs s = Some s' -> chordsOk s'.
Proof.
  revert s. induction evs as [|ev evs IH]; intros s H; simpl.
  - intros [= <-]. exact H.
  - destruct (BackingTrack.step fuel ev s) as [c|] eqn:Hstep; [|discriminate].
    apply IH. eapply chordsOk_step; eauto.
Qed.

(** Evaluation of a concrete run, event by event: everything but the real
    arithmetic is computed, and each comparison of reals is decided by
    [lra], innermost first. *)
Lemma run_cons (fuel : nat) (ev : BackingTrack.Event)
  (evs : list BackingTrack.Event) (s : BackingTrack.t)
  (c : Completion BackingTrack.t) (r : option BackingTrack.t) :
  BackingTrack.step fuel ev s = Some c ->
  BackingTrack.run fuel evs (stateOf c) = r ->
  BackingTrack.run fuel (ev :: evs) s = r.
Proof. intros H1 H2. simpl. rewrite H1. exact H2. Qed.

Ltac compute_run :=
  cbv -[Rlt_dec Rle_dec Rplus Rmult Rminus Ropp Rdiv Rinv IZR Q2R Rmax Rmin
        Rpower Rlt Rle Math_max Math_min Math_pow Scale.noteToFrequency].

Ltac decide_real :=
  match goal with
  | |- context [Rlt_dec ?a ?b] =>
      first [ destruct (Rlt_dec a b); [ | exfalso; lra ]; []
            | destruct (Rlt_dec a b); [ exfalso; lra | ]; [] ]
  | |- context [Rle_dec ?a ?b] =>
      first [ destruct (Rle_dec a b); [ | exfalso; lra ]; []
            | destruct (Rle_dec a b); [ exfalso; lra | ]; [] ]
  end;
  cbv beta iota zeta.

Ltac run_event :=
  eapply run_cons;
  [ compute_run; repeat decide_real; reflexivity | cbv [stateOf] ].

(** C10.  The chord list of a BackingTrack is never empty and
    [currentChordIndex] is always an index into it: a constructed instance
    has it so (with no chords or an empty list in the configuration, the
    list is the single chord I of C), [setChords] of an empty progression
    stores the single tonic chord of the key, every event keeps it (method
    calls, also a [setChords] that throws, timer ticks and voice ends), so
    does every round of the scheduler loop, in which [advanceBeat] takes
    its modulo over a positive length, and so it holds after every
    sequence of events. *)
Theorem C10_chords_never_empty :
  (forall config s,
     BackingTrack.new config = Ok s ->
     BackingTrack.resolvedChords s <> [] /\ chordsOk s /\
     (AudioTypes.cfg_chords config = None \/
      AudioTypes.cfg_chords config = Some [] ->
      map Scale.symbol (BackingTrack.resolvedChords s) = ["C"])) /\
  (forall s key,
     exists s' chord,
       BackingTrack.setChords [] key s = Normal s' /\
       BackingTrack.resolvedChords s' = [chord] /\
       Scale.root chord = default (BackingTrack.key s) key /\
       BackingTrack.currentChordIndex s' = 0%nat) /\
  (forall fuel ev s c,
     chordsOk s -> BackingTrack.step fuel ev s = Some c ->
     chordsOk (stateOf c)) /\
  (forall s,
     chordsOk s ->
     length (BackingTrack.resolvedChords s) <> 0%nat /\
     chordsOk (BackingTrack.scheduleBeat s)) /\
  (forall config fuel evs s s',
     BackingTrack.new config = Ok s ->
     BackingTrack.run fuel evs s = Some s' ->
     BackingTrack.resolvedChords s' <> [] /\
     (BackingTrack.currentChordIndex s' <
      length (BackingTrack.resolvedChords s'))%nat /\
     exists chord,
       BackingTrack.resolvedChords s' !! BackingTrack.currentChordIndex s'
       = Some chord).
Proof.
  assert (Hne : forall s, chordsOk s -> BackingTrack.resolvedChords s <> []).
  { intros s H E. unfold chordsOk in H. rewrite E in H. simpl in H. lia. }
  repeat split.
  - apply Hne. eapply chordsOk_new; eauto.
  - eapply chordsOk_new; eauto.
  - intros Hcfg. apply new_fresh in H as (chords & Hc & ->). simpl.
    assert (Hd : default ["I"] (AudioTypes.cfg_chords config) = ["I"]
                 \/ default ["I"] (AudioTypes.cfg_chords config) = []).
    { destruct Hcfg as [-> | ->]; simpl; auto. }
    destruct Hd as [Hd|Hd]; rewrite Hd in Hc;
      unfold BackingTrack.resolveChords, Scale.resolveChordProgression in Hc;
      rewrite resolveChord_tonic in Hc; injection Hc as <-; reflexivity.
  - intros s key. destruct s. unfold BackingTrack.setChords.
    unfold BackingTrack.resolveChords, Scale.resolveChordProgression.
    rewrite resolveChord_tonic.
    destruct key; (eexists _, _; split; [reflexivity|]);
      repeat split; reflexivity.
  - intros fuel ev s c. apply chordsOk_step.
  - unfold chordsOk in H. lia.
  - apply chordsOk_scheduleBeat, H.
  - apply Hne. eapply chordsOk_run; [eapply chordsOk_new|]; eauto.
  - eapply chordsOk_run; [eapply chordsOk_new|]; eauto.
  - apply chordsOk_current. eapply chordsOk_run; [eapply chordsOk_new|]; eauto.
Qed.

(** C10 on a default instance that is played, ticked once, given an empty
    progression in G, given a chord that does not resolve, and destroyed. *)
Lemma C10_chords_never_empty_witness :
  exists s s',
    BackingTrack.new (configOf 120 AudioTypes.quarter 0) = Ok s /\
    BackingTrack.run 1
      [BackingTrack.Play 0; BackingTrack.Tick 0;
       BackingTrack.SetChords [] (Some Scale.G);
       BackingTrack.SetChords ["H"] None; BackingTrack.Destroy] s = Some s' /\
    BackingTrack.resolvedChords s' <> [] /\
    (BackingTrack.currentChordIndex s' <
     length (BackingTrack.resolvedChords s'))%nat.
Proof.
  destruct (new_configOf 120 AudioTypes.quarter 0) as (chord & Hnew & _).
  assert (Hrun : exists s',
    BackingTrack.run 1
      [BackingTrack.Play 0; BackingTrack.Tick 0;
       BackingTrack.SetChords [] (Some Scale.G);
       BackingTrack.SetChords ["H"] None; BackingTrack.Destroy]
      (freshTrack (configOf 120 AudioTypes.quarter 0) [chord]) = Some s').
  { eexists. repeat run_event. reflexivity. }
  destruct Hrun as [s' Hrun].
  eexists. exists s'. split; [exact Hnew|]. split; [exact Hrun|].
  destruct C10_chords_never_empty as (_ & _ & _ & _ & H).
  destruct (H _ _ _ _ _ Hnew Hrun) as (H1 & H2 & _). split; assumption.
Defined.

(** ** Order of the scheduled events *)

Definition timingOk (s : BackingTrack.t) : Prop :=
  20 <= BackingTrack.tempo s <= 300 /\ 0 <= BackingTrack.swing s <= 100.

(** The start times of the voices, in the order [playNote] was called. *)
Definition startTimes (s : BackingTrack.t) : list R :=
  map BackingTrack.startTime (BackingTrack.voices s).

Lemma beatDuration_pos (s : BackingTrack.t) :
  timingOk s -> 0 < 60 / BackingTrack.tempo s.
Proof. intros [[H _] _]. apply Rdiv_lt_0_compat; lra. Qed.

Lemma notes_within_beat (s : BackingTrack.t) :
  timingOk s ->
  let times := map BackingTrack.time (BackingTrack.getNotesForCurrentBeat s) in
  StronglySorted Rle times /\
  Forall (fun t => 0 <= t <= 60 / BackingTrack.tempo s) times.
Proof.
  intros Hok. pose proof (beatDuration_pos s Hok) as HB.
  destruct Hok as [_ Hswing].
  unfold BackingTrack.getNotesForCurrentBeat.
  destruct (_ !! _) as [chord|]; [|split; constructor].
  cbv zeta. set (B := 60 / BackingTrack.tempo s) in *.
  assert (Hsw : 0 <= BackingTrack.swing s / 100 * (B / 3) <= B / 3).
  { split.
    - apply Rmult_le_pos; lra.
    - rewrite <- (Rmult_1_l (B / 3)) at 2.
      apply Rmult_le_compat_r; lra. }
  destruct (BackingTrack.style s); simpl.
  - destruct (Nat.eqb _ 0); simpl; split; repeat constructor; lra.
  - split; repeat constructor; lra.
  - split; repeat constructor; lra.
  - split; repeat constructor; lra.
  - split; repeat constructor; lra.
Qed.

Lemma playNotes_spec (notes : list BackingTrack.ScheduledNote)
  (s : BackingTrack.t) :
  let s' :=
    fold_left
      (fun s' note =>
         BackingTrack.playNote (BackingTrack.frequency note)
           (BackingTrack.nextNoteTime s' + BackingTrack.time note)
           (BackingTrack.duration note) s')
      notes s in
  startTimes s' =
    startTimes s ++
    map (fun n => BackingTrack.nextNoteTime s + BackingTrack.time n) notes /\
  BackingTrack.tempo s' = BackingTrack.tempo s /\
  BackingTrack.swing s' = BackingTrack.swing s /\
  BackingTrack.nextNoteTime s' = BackingTrack.nextNoteTime s /\
  BackingTrack.isPlaying s' = BackingTrack.isPlaying s.
Proof.
  revert s. induction notes as [|n notes IH]; intros s; simpl.
  - rewrite app_nil_r. repeat split; reflexivity.
  - specialize (IH (BackingTrack.playNote (BackingTrack.frequency n)
           (BackingTrack.nextNoteTime s + BackingTrack.time n)
           (BackingTrack.duration n) s)).
    simpl in IH. destruct IH as (H1 & H2 & H3 & H4 & H5).
    rewrite H1, H2, H3, H4, H5. destruct s. unfold startTimes. simpl.
    rewrite map_app, <- app_assoc. repeat split; reflexivity.
Qed.

Lemma advanceBeat_spec (s : BackingTrack.t) :
  let s' := BackingTrack.advanceBeat s in
  startTimes s' = startTimes s /\
  BackingTrack.tempo s' = BackingTrack.tempo s /\
  BackingTrack.swing s' = BackingTrack.swing s /\
  BackingTrack.nextNoteTime s' =
    BackingTrack.nextNoteTime s + 60 / BackingTrack.tempo s /\
  BackingTrack.isPlaying s' = BackingTrack.isPlaying s.
Proof.
  destruct s. unfold BackingTrack.advanceBeat. cbv zeta.
  destruct Rle_dec; repeat split; reflexivity.
Qed.

(** One round of the scheduler loop: the voices it starts lie between the
    beat and the next beat, in non-decreasing order. *)
Lemma scheduleBeat_spec (s : BackingTrack.t) :
  timingOk s ->
  let s' := BackingTrack.scheduleBeat s in
  exists new,
    startTimes s' = startTimes s ++ new /\
    StronglySorted Rle new /\
    Forall (fun t => BackingTrack.nextNoteTime s <= t
                     <= BackingTrack.nextNoteTime s') new /\
    BackingTrack.nextNoteTime s' =
      BackingTrack.nextNoteTime s + 60 / BackingTrack.tempo s /\
    BackingTrack.tempo s' = BackingTrack.tempo s /\
    BackingTrack.swing s' = BackingTrack.swing s /\
    BackingTrack.isPlaying s' = BackingTrack.isPlaying s.
Proof.
  intros Hok. unfold BackingTrack.scheduleBeat. cbv zeta.
  destruct (notes_within_beat s Hok) as [Hsorted Hbound].
  set (notes := BackingTrack.getNotesForCurrentBeat s) in *.
  destruct (playNotes_spec notes s) as (P1 & P2 & P3 & P4 & P5).
  match goal with |- context [BackingTrack.advanceBeat ?x] => set (s1 := x) in * end.
  destruct (advanceBeat_spec s1) as (A1 & A2 & A3 & A4 & A5).
  exists (map (fun n => BackingTrack.nextNoteTime s + BackingTrack.time n) notes).
  rewrite A1, A2, A3, A4, A5, P1, P2, P3, P4, P5.
  repeat split; try reflexivity.
  - clear -Hsorted. induction notes as [|n notes IH]; simpl; [constructor|].
    simpl in Hsorted. apply StronglySorted_inv in Hsorted as [Hs Hh].
    constructor; [apply IH, Hs|].
    rewrite Forall_map in Hh |- *.
    eapply Forall_impl; [exact Hh|]. simpl. intros; lra.
  - rewrite Forall_map in Hbound |- *.
    eapply Forall_impl; [exact Hbound|]. simpl. intros; lra.
Qed.

(** What a stretch of scheduling adds to the voices already started: the
    new start times, in non-decreasing order, none before the
    [nextNoteTime] it began with and none after the one it ended with. *)
Definition extends (s s' : BackingTrack.t) : Prop :=
  BackingTrack.nextNoteTime s <= BackingTrack.nextNoteTime s' /\
  exists new,
    startTimes s' = startTimes s ++ new /\
    StronglySorted Rle new /\
    Forall (fun t => BackingTrack.nextNoteTime s <= t
                     <= BackingTrack.nextNoteTime s') new.

Lemma extends_refl (s : BackingTrack.t) : extends s s.
Proof.
  split; [lra|]. exists []. rewrite app_nil_r.
  repeat split; constructor.
Qed.

Lemma extends_same (s s' : BackingTrack.t) :
  startTimes s' = startTimes s ->
  BackingTrack.nextNoteTime s' = BackingTrack.nextNoteTime s ->
  extends s s'.
Proof.
  intros H1 H2. split; [lra|]. exists []. rewrite app_nil_r.
  repeat split; [exact H1| |]; constructor.
Qed.

Lemma extends_trans (s1 s2 s3 : BackingTrack.t) :
  extends s1 s2 -> extends s2 s3 -> extends s1 s3.
Proof.
  intros [H12 (n1 & E1 & S1 & B1)] [H23 (n2 & E2 & S2 & B2)].
  split; [lra|]. exists (n1 ++ n2). repeat split.
  - rewrite E2, E1, app_assoc. reflexivity.
  - apply StronglySorted_app. repeat split; try assumption.
    intros x1 x2 Hx1 Hx2.
    rewrite Forall_forall in B1, B2.
    specialize (B1 x1 Hx1). specialize (B2 x2 Hx2). simpl in *. lra.
  - apply Forall_app. split.
    + eapply Forall_impl; [exact B1|]. simpl. intros; lra.
    + eapply Forall_impl; [exact B2|]. simpl. intros; lra.
Qed.

Lemma scheduleBeat_extends (s : BackingTrack.t) :
  timingOk s ->
  extends s (BackingTrack.scheduleBeat s) /\
  timingOk (BackingTrack.scheduleBeat s) /\
  BackingTrack.isPlaying (BackingTrack.scheduleBeat s) = BackingTrack.isPlaying s.
Proof.
  intros Hok. pose proof (beatDuration_pos s Hok) as HB.
  destruct (scheduleBeat_spec s Hok) as (new & E & S & B & N & T & W & P).
  repeat split.
  - rewrite N. lra.
  - exists new. repeat split; assumption.
  - rewrite T. apply Hok.
  - rewrite T. apply Hok.
  - rewrite W. apply Hok.
  - rewrite W. apply Hok.
  - exact P.
Qed.

Lemma scheduleLoop_extends (fuel : nat) (lookaheadEnd : R)
  (s s' : BackingTrack.t) :
  timingOk s ->
  BackingTrack.scheduleLoop fuel lookaheadEnd s = Some s' ->
  extends s s' /\ timingOk s' /\
  BackingTrack.isPlaying s' = BackingTrack.isPlaying s.
Proof.
  revert s. induction fuel as [|fuel IH]; intros s Hok; simpl;
    destruct Rlt_dec; try discriminate;
    try (intros [= <-]; split; [apply extends_refl|split; [exact Hok|reflexivity]]).
  intros H. destruct (scheduleBeat_extends s Hok) as (E1 & Hok1 & P1).
  destruct (IH _ Hok1 H) as (E2 & Hok2 & P2).
  split; [eapply extends_trans; eauto|]. split; [exact Hok2|congruence].
Qed.

(** The loop ends: each round moves [nextNoteTime] one beat forward. *)
Lemma scheduleLoop_fuel (n : nat) (lookaheadEnd : R) (s : BackingTrack.t) :
  timingOk s ->
  lookaheadEnd - BackingTrack.nextNoteTime s <= INR n * (60 / BackingTrack.tempo s) ->
  exists s', BackingTrack.scheduleLoop n lookaheadEnd s = Some s'.
Proof.
  revert s. induction n as [|n IH]; intros s Hok Hn.
  - simpl in *. destruct Rlt_dec; [lra|eauto].
  - cbn [BackingTrack.scheduleLoop]. destruct Rlt_dec; [|eauto].
    destruct (scheduleBeat_spec s Hok) as (_ & _ & _ & _ & N & T & _).
    destruct (scheduleBeat_extends s Hok) as (_ & Hok1 & _).
    apply IH; [exact Hok1|]. rewrite N, T. rewrite S_INR in Hn. lra.
Qed.

Lemma scheduleLoop_more_fuel (n m : nat) (lookaheadEnd : R)
  (s s' : BackingTrack.t) :
  BackingTrack.scheduleLoop n lookaheadEnd s = Some s' -> (n <= m)%nat ->
  BackingTrack.scheduleLoop m lookaheadEnd s = Some s'.
Proof.
  revert m s. induction n as [|n IH]; intros m s; simpl;
    destruct Rlt_dec; try discriminate.
  - intros [= <-] _. destruct m; simpl; destruct Rlt_dec; try reflexivity; lra.
  - intros H Hle. destruct m as [|m]; [lia|]. simpl.
    destruct Rlt_dec; [|lra]. apply IH; [exact H|lia].
  - intros [= <-] _. destruct m; simpl; destruct Rlt_dec; try reflexivity; lra.
Qed.

Lemma schedule_terminates (now : R) (s : BackingTrack.t) :
  timingOk s -> exists fuel s', BackingTrack.schedule fuel now s = Some s'.
Proof.
  intros Hok. pose proof (beatDuration_pos s Hok) as HB.
  unfold BackingTrack.schedule. cbv zeta.
  set (e := now + BackingTrack.LOOKAHEAD_SECONDS).
  destruct (INR_unbounded
              ((e - BackingTrack.nextNoteTime s) / (60 / BackingTrack.tempo s)))
    as [n Hn].
  exists n. apply scheduleLoop_fuel; [exact Hok|].
  apply Rgt_lt in Hn. apply Rlt_le.
  apply (Rmult_lt_compat_r _ _ _ HB) in Hn.
  unfold Rdiv at 1 in Hn. rewrite Rmult_assoc, Rinv_l in Hn by lra. lra.
Qed.

(** The events of one playback session: everything but [stop()] and
    [destroy()], which end it. *)
Definition sessionEvent (ev : BackingTrack.Event) : bool :=
  match ev with
  | BackingTrack.Stop | BackingTrack.Destroy => false
  | _ => true
  end.

Definition inSession (s : BackingTrack.t) : Prop :=
  timingOk s /\ BackingTrack.isPlaying s = true.

Lemma step_session (fuel : nat) (ev : BackingTrack.Event)
  (s : BackingTrack.t) (c : Completion BackingTrack.t) :
  inSession s -> sessionEvent ev = true ->
  BackingTrack.step fuel ev s = Some c ->
  extends s (stateOf c) /\ inSession (stateOf c).
Proof.
  intros [Hok Hplay] Hev. destruct ev; try discriminate Hev; simpl.
  - intros [= <-]. simpl. unfold BackingTrack.play. rewrite Hplay. simpl.
    split; [apply extends_refl|split; assumption].
  - intros [= <-]. destruct s. simpl in *.
    split; [apply extends_same; reflexivity|].
    split; [|exact Hplay]. destruct Hok as [_ Hsw].
    split; [apply clamp_range; lra|exact Hsw].
  - intros [= <-]. destruct s, key; unfold BackingTrack.setChords; cbv zeta;
      destruct (BackingTrack.resolveChords _ _); simpl;
      (split; [apply extends_same; reflexivity|split; assumption]).
  - intros [= <-]. destruct s.
    split; [apply extends_same; reflexivity|split; assumption].
  - intros [= <-]. destruct s. simpl in *.
    split; [apply extends_same; reflexivity|].
    split; [|exact Hplay]. destruct Hok as [Ht _].
    split; [exact Ht|apply clamp_range; lra].
  - intros [= <-]. destruct s.
    split; [apply extends_same; reflexivity|split; assumption].
  - destruct (BackingTrack.schedulerInterval s).
    + destruct (BackingTrack.schedule fuel now s) as [s'|] eqn:Hs; [|discriminate].
      intros [= <-]. simpl.
      destruct (scheduleLoop_extends _ _ _ _ Hok Hs) as (E & Hok' & P).
      split; [exact E|]. split; [exact Hok'|congruence].
    + intros [= <-]. split; [apply extends_refl|split; assumption].
  - intros [= <-]. destruct s.
    split; [apply extends_same; reflexivity|split; assumption].
Qed.

Lemma step_more_fuel (n m : nat) (ev : BackingTrack.Event)
  (s : BackingTrack.t) (c : Completion BackingTrack.t) :
  BackingTrack.step n ev s = Some c -> (n <= m)%nat ->
  BackingTrack.step m ev s = Some c.
Proof.
  intros H Hle. destruct ev; try exact H. simpl in *.
  destruct (BackingTrack.schedulerInterval s); [|exact H].
  destruct (BackingTrack.schedule n now s) as [s'|] eqn:Hs; [|discriminate].
  unfold BackingTrack.schedule in *.
  rewrite (scheduleLoop_more_fuel n m _ _ _ Hs Hle). exact H.
Qed.

Lemma run_more_fuel (n m : nat) (evs : list BackingTrack.Event)
  (s s' : BackingTrack.t) :
  BackingTrack.run n evs s = Some s' -> (n <= m)%nat ->
  BackingTrack.run m evs s = Some s'.
Proof.
  revert s. induction evs as [|ev evs IH]; intros s H Hle; simpl in *;
    [exact H|].
  destruct (BackingTrack.step n ev s) as [c|] eqn:Hs; [|discriminate].
  rewrite (step_more_fuel n m _ _ _ Hs Hle). apply IH; assumption.
Qed.

Lemma step_terminates (ev : BackingTrack.Event) (s : BackingTrack.t) :
  timingOk s -> exists fuel c, BackingTrack.step fuel ev s = Some c.
Proof.
  intros Hok. destruct ev; try (exists 0%nat; eexists; reflexivity).
  destruct (schedule_terminates now s Hok) as (fuel & s' & Hs).
  exists fuel. simpl. rewrite Hs.
  destruct (BackingTrack.schedulerInterval s); eauto.
Qed.

Lemma run_session (fuel : nat) (evs : list BackingTrack.Event)
  (s s' : BackingTrack.t) :
  inSession s -> forallb sessionEvent evs = true ->
  BackingTrack.run fuel evs s = Some s' ->
  extends s s' /\ inSession s'.
Proof.
  revert s. induction evs as [|ev evs IH]; intros s Hin Hevs; simpl.
  - intros [= <-]. split; [apply extends_refl|exact Hin].
  - simpl in Hevs. apply andb_true_iff in Hevs as [Hev Hevs].
    destruct (BackingTrack.step fuel ev s) as [c|] eqn:Hs; [|discriminate].
    intros Hrun.
    destruct (step_session _ _ _ _ Hin Hev Hs) as [E1 Hin1].
    destruct (IH _ Hin1 Hevs Hrun) as [E2 Hin2].
    split; [eapply extends_trans; eauto|exact Hin2].
Qed.

Lemma run_session_terminates (evs : list BackingTrack.Event)
  (s : BackingTrack.t) :
  inSession s -> forallb sessionEvent evs = true ->
  exists fuel s', BackingTrack.run fuel evs s = Some s'.
Proof.
  revert s. induction evs as [|ev evs IH]; intros s Hin Hevs.
  - exists 0%nat, s. reflexivity.
  - simpl in Hevs. apply andb_true_iff in Hevs as [Hev Hevs].
    destruct (step_terminates ev s (proj1 Hin)) as (f1 & c & Hs).
    destruct (step_session _ _ _ _ Hin Hev Hs) as [_ Hin1].
    destruct (IH _ Hin1 Hevs) as (f2 & s' & Hrun).
    exists (Nat.max f1 f2), s'. simpl.
    rewrite (step_more_fuel f1 _ _ _ _ Hs (Nat.le_max_l f1 f2)).
    apply (run_more_fuel f2); [exact Hrun|apply Nat.le_max_r].
Qed.

(** The claim over every run fails when playback is stopped and started
    again: on a default instance at 120 BPM, [play()] at 0, ticks at 0.025
    and 0.425, [stop()], [play()] at 0.43 and a tick at 0.45 start voices at
    0, 0.5 and 0.43, and [nextNoteTime] is 1 after the second tick and 0.93
    after the third. *)
Lemma C1_counterexample_restart :
  exists s s1 s2,
    BackingTrack.new (configOf 120 AudioTypes.quarter 0) = Ok s /\
    timingOk s /\
    BackingTrack.run 1
      [BackingTrack.Play 0; BackingTrack.Tick 0.025; BackingTrack.Tick 0.425]
      s = Some s1 /\
    BackingTrack.run 1
      [BackingTrack.Stop; BackingTrack.Play 0.43; BackingTrack.Tick 0.45]
      s1 = Some s2 /\
    timingOk s2 /\
    BackingTrack.nextNoteTime s2 < BackingTrack.nextNoteTime s1 /\
    ~ StronglySorted Rle (startTimes s2) /\
    ~ Sorted Rle (startTimes s2).
Proof.
  destruct (new_configOf 120 AudioTypes.quarter 0) as (chord & Hnew & _).
  eexists _, _, _. split; [exact Hnew|].
  assert (Hsw : Math_max 0 (Math_min 100 0) = 0) by (apply clamp_lo; lra).
  split.
  { unfold timingOk. simpl. rewrite Hsw. lra. }
  split.
  { repeat run_event. reflexivity. }
  split.
  { repeat run_event. reflexivity. }
  split.
  { unfold timingOk. simpl. rewrite Hsw. lra. }
  split.
  { simpl. lra. }
  assert (Hns : ~ Sorted Rle [0 + 0; 0 + 60 / 120 + 0; 0.43 + 0]).
  { intros H. apply Sorted_inv in H as [H _].
    apply Sorted_inv in H as [_ H]. apply HdRel_inv in H. lra. }
  split; [|exact Hns].
  intros H. apply Hns. apply StronglySorted_Sorted. exact H.
Qed.

(** C1 (amended).  With the tempo in [20, 300] and the swing in [0, 100],
    every tick ends and starts its voices in non-decreasing order of start
    time, none before the [nextNoteTime] the tick began with; and during one
    playback session, that is over any sequence of method calls, ticks and
    voice ends without [stop()] or [destroy()] on a playing instance, the run
    ends, [nextNoteTime] never decreases, the tempo and swing stay in range,
    and the voices started in the session are in non-decreasing order of
    start time: none is earlier than one started before it in the session. *)
Theorem C1_schedule_order (s : BackingTrack.t) :
  20 <= BackingTrack.tempo s <= 300 ->
  0 <= BackingTrack.swing s <= 100 ->
  (forall now,
     (exists fuel s', BackingTrack.schedule fuel now s = Some s') /\
     forall fuel s',
       BackingTrack.schedule fuel now s = Some s' ->
       BackingTrack.nextNoteTime s <= BackingTrack.nextNoteTime s' /\
       exists new,
         startTimes s' = startTimes s ++ new /\
         StronglySorted Rle new /\
         Forall (fun t => BackingTrack.nextNoteTime s <= t) new) /\
  (BackingTrack.isPlaying s = true ->
   forall evs,
     forallb sessionEvent evs = true ->
     (exists fuel s', BackingTrack.run fuel evs s = Some s') /\
     forall fuel s',
       BackingTrack.run fuel evs s = Some s' ->
       BackingTrack.nextNoteTime s <= BackingTrack.nextNoteTime s' /\
       (20 <= BackingTrack.tempo s' <= 300 /\
        0 <= BackingTrack.swing s' <= 100 /\
        BackingTrack.isPlaying s' = true) /\
       exists new,
         startTimes s' = startTimes s ++ new /\
         StronglySorted Rle new /\
         Forall (fun t => BackingTrack.nextNoteTime s <= t) new).
Proof.
  intros Htempo Hswing.
  assert (Hok : timingOk s) by (split; assumption).
  split.
  - intros now. split; [apply schedule_terminates, Hok|].
    intros fuel s' Hs.
    destruct (scheduleLoop_extends _ _ _ _ Hok Hs) as ([Hn (new & E & S & B)] & _ & _).
    split; [exact Hn|]. exists new. repeat split; try assumption.
    eapply Forall_impl; [exact B|]. simpl. intros; lra.
  - intros Hplay evs Hevs.
    assert (Hin : inSession s) by (split; assumption).
    split; [apply run_session_terminates; assumption|].
    intros fuel s' Hrun.
    destruct (run_session _ _ _ _ Hin Hevs Hrun)
      as ([Hn (new & E & S & B)] & [[Ht Hs] Hp]).
    split; [exact Hn|]. split; [repeat split; solve [apply Ht|apply Hs|exact Hp]|].
    exists new. repeat split; try assumption.
    eapply Forall_impl; [exact B|]. simpl. intros; lra.
Qed.

(** C1 on a session of an instance at 120 BPM in style eighth with swing
    50: played at 0, ticked, its tempo set to 999 (stored as 300) and its
    style to blues between ticks. *)
Lemma C1_schedule_order_witness :
  exists s,
    BackingTrack.new (configOf 120 AudioTypes.eighth 50) = Ok s /\
    let s0 := BackingTrack.play 0 s in
    let evs :=
      [BackingTrack.Tick 0.025; BackingTrack.SetTempo 999;
       BackingTrack.Tick 0.45; BackingTrack.SetStyle AudioTypes.blues;
       BackingTrack.Tick 0.7; BackingTrack.Ended 0] in
    (exists fuel s', BackingTrack.run fuel evs s0 = Some s') /\
    forall fuel s',
      BackingTrack.run fuel evs s0 = Some s' ->
      BackingTrack.nextNoteTime s0 <= BackingTrack.nextNoteTime s' /\
      exists new,
        startTimes s' = startTimes s0 ++ new /\ StronglySorted Rle new.
Proof.
  destruct (new_configOf 120 AudioTypes.eighth 50) as (chord & Hnew & _).
  eexists. split; [exact Hnew|]. cbv zeta.
  set (s0 := BackingTrack.play 0 _).
  assert (Htempo : 20 <= BackingTrack.tempo s0 <= 300) by (simpl; lra).
  assert (Hswing : 0 <= BackingTrack.swing s0 <= 100).
  { simpl. apply clamp_range. lra. }
  destruct (C1_schedule_order s0 Htempo Hswing) as [_ H].
  specialize
    (H eq_refl
       [BackingTrack.Tick 0.025; BackingTrack.SetTempo 999;
        BackingTrack.Tick 0.45; BackingTrack.SetStyle AudioTypes.blues;
        BackingTrack.Tick 0.7; BackingTrack.Ended 0] eq_refl)
    as [Hex Hall].
  split; [exact Hex|].
  intros fuel s' Hrun. destruct (Hall fuel s' Hrun) as (Hn & _ & new & E & S & _).
  split; [exact Hn|]. exists new. split; assumption.
Defined.

(** ** The Synth and its audio engine *)

(** A relation between the engine before and after, kept by every Web
    Audio call the effect machinery makes, is kept by the machinery: the
    factories and their cleanup, the rebuild of the chain, the lazy
    initialisation and the toggles. *)
Section EngineRelation.
Import WebAudio Effects.

Variable Rel : Engine -> Engine -> Prop.
Hypothesis Rel_refl : forall e, Rel e e.
Hypothesis Rel_trans : forall e1 e2 e3, Rel e1 e2 -> Rel e2 e3 -> Rel e1 e3.
Hypothesis Rel_connect : forall a b e, Rel e (connect a b e).
Hypothesis Rel_disconnect : forall a e, Rel e (disconnect a e).
Hypothesis Rel_disconnectFrom : forall a b e, Rel e (disconnectFrom a b e).
Hypothesis Rel_allocate : forall e, Rel e (allocate e).2.
Hypothesis Rel_start : forall u r e, Rel e (start (UnitNode u r) e).
Hypothesis Rel_stop : forall u r e, Rel e (stop (UnitNode u r) e).
Hypothesis Rel_setMasterGainValue :
  forall v e, Rel e (setMasterGainValue v e).

Lemma Rel_connectAll cs e : Rel e (connectAll cs e).
Proof using Rel_refl Rel_trans Rel_connect.
  revert e. induction cs as [|c cs IH]; intros e; simpl; [apply Rel_refl|].
  eapply Rel_trans; [apply Rel_connect|apply IH].
Qed.

Lemma Rel_disconnectAll ns e : Rel e (disconnectAll ns e).
Proof using Rel_refl Rel_trans Rel_disconnect.
  revert e. induction ns as [|n ns IH]; intros e; simpl; [apply Rel_refl|].
  eapply Rel_trans; [apply Rel_disconnect|apply IH].
Qed.

Lemma Rel_cleanup n e : Rel e (cleanup n e).
Proof using Rel_refl Rel_trans Rel_disconnect Rel_stop.
  unfold cleanup. destruct (effect n);
    try apply Rel_disconnectAll;
    (eapply Rel_trans; [apply Rel_stop|apply Rel_disconnectAll]).
Qed.

Lemma Rel_cleanupOne node e : Rel e (Synth.cleanupOne node e).
Proof using Rel_refl Rel_trans Rel_disconnect Rel_stop.
  destruct node; simpl; [apply Rel_cleanup|apply Rel_refl].
Qed.

Definition createsWithin (create : Engine -> EffectNode * Engine) : Prop :=
  forall e, Rel e (create e).2.

Lemma Rel_createDelay : createsWithin createDelay.
Proof using Rel_refl Rel_trans Rel_connect Rel_allocate.
  intros e. unfold createDelay. destruct (allocate e) as [id e1] eqn:Ha.
  cbv beta iota zeta delta [snd].
  eapply Rel_trans; [|apply Rel_connectAll].
  pose proof (Rel_allocate e) as H. rewrite Ha in H. exact H.
Qed.

Lemma Rel_createDistortion : createsWithin createDistortion.
Proof using Rel_refl Rel_trans Rel_connect Rel_allocate.
  intros e. unfold createDistortion. destruct (allocate e) as [id e1] eqn:Ha.
  cbv beta iota zeta delta [snd].
  eapply Rel_trans; [|apply Rel_connectAll].
  pose proof (Rel_allocate e) as H. rewrite Ha in H. exact H.
Qed.

Lemma Rel_createReverb : createsWithin createReverb.
Proof using Rel_refl Rel_trans Rel_connect Rel_allocate.
  intros e. unfold createReverb. destruct (allocate e) as [id e1] eqn:Ha.
  cbv beta iota zeta delta [snd].
  eapply Rel_trans; [|apply Rel_connectAll].
  pose proof (Rel_allocate e) as H. rewrite Ha in H. exact H.
Qed.

Lemma Rel_createVibrato : createsWithin createVibrato.
Proof using Rel_refl Rel_trans Rel_connect Rel_allocate Rel_start.
  intros e. unfold createVibrato. destruct (allocate e) as [id e1] eqn:Ha.
  cbv beta iota zeta delta [snd].
  pose proof (Rel_allocate e) as H. rewrite Ha in H. simpl in H.
  eapply Rel_trans; [exact H|].
  eapply Rel_trans; [apply Rel_connect|].
  eapply Rel_trans; [apply Rel_start|apply Rel_connect].
Qed.

Lemma Rel_createFilter : createsWithin createFilter.
Proof using Rel_refl Rel_trans Rel_connect Rel_allocate Rel_start.
  intros e. unfold createFilter. destruct (allocate e) as [id e1] eqn:Ha.
  cbv beta iota zeta delta [snd].
  pose proof (Rel_allocate e) as H. rewrite Ha in H. simpl in H.
  eapply Rel_trans; [exact H|].
  eapply Rel_trans; [apply Rel_connect|].
  eapply Rel_trans; [apply Rel_connect|].
  eapply Rel_trans; [apply Rel_start|apply Rel_connectAll].
Qed.

Lemma Rel_cleanupAllEffects s :
  Rel (Synth.engine s) (Synth.engine (Synth.cleanupAllEffects s)).
Proof using Rel_refl Rel_trans Rel_disconnect Rel_stop.
  unfold Synth.cleanupAllEffects. simpl.
  repeat (eapply Rel_trans; [|apply Rel_cleanupOne]). apply Rel_refl.
Qed.

Lemma Rel_createIf flag inChain create store acc :
  createsWithin create ->
  Rel (Synth.engine acc.1)
    (Synth.engine (Synth.createIf flag inChain create store acc).1).
Proof using Rel_refl.
  intros Hc. destruct acc as [s l]. unfold Synth.createIf.
  destruct flag; [|apply Rel_refl].
  specialize (Hc (Synth.engine s)).
  destruct (create (Synth.engine s)) as [node e]. exact Hc.
Qed.

Lemma Rel_buildEffects s :
  Rel (Synth.engine s) (Synth.engine (Synth.buildEffects s).1).
Proof using Rel_refl Rel_trans Rel_connect Rel_allocate Rel_start.
  unfold Synth.buildEffects. cbv zeta.
  eapply Rel_trans; [|apply Rel_createIf, Rel_createReverb].
  eapply Rel_trans; [|apply Rel_createIf, Rel_createDelay].
  eapply Rel_trans; [|apply Rel_createIf, Rel_createVibrato].
  eapply Rel_trans; [|apply Rel_createIf, Rel_createFilter].
  apply (Rel_createIf _ _ _ _ (s, [])), Rel_createDistortion.
Qed.

Lemma Rel_connectConsecutive l e : Rel e (Synth.connectConsecutive l e).
Proof using Rel_refl Rel_trans Rel_connect.
  revert e. induction l as [|a l IH]; intros e; simpl; [apply Rel_refl|].
  destruct l as [|b l]; [apply Rel_refl|].
  eapply Rel_trans; [apply Rel_connect|apply IH].
Qed.

Lemma Rel_connectChain a b l e : Rel e (Synth.connectChain a b l e).
Proof using Rel_refl Rel_trans Rel_connect.
  unfold Synth.connectChain. destruct l as [|f l]; [apply Rel_connect|].
  eapply Rel_trans; [apply Rel_connect|].
  eapply Rel_trans; [apply Rel_connectConsecutive|apply Rel_connect].
Qed.

Lemma Rel_rebuildEffectChain s :
  Rel (Synth.engine s) (Synth.engine (Synth.rebuildEffectChain s)).
Proof using Rel_refl Rel_trans Rel_connect Rel_disconnect Rel_allocate
  Rel_start Rel_stop.
  unfold Synth.rebuildEffectChain.
  destruct (Synth.audioContext s); [|apply Rel_refl].
  destruct (Synth.effectsInputGain s) as [inputNode|]; [|apply Rel_refl].
  destruct (Synth.masterGain s) as [master|]; [|apply Rel_refl].
  cbv zeta.
  destruct (Synth.buildEffects _) as [s' l] eqn:Hb.
  cbn [Synth.engine Synth.withEngine].
  eapply Rel_trans; [|apply Rel_connectChain].
  pose proof (Rel_buildEffects
    (Synth.cleanupAllEffects
       (Synth.withEngine (disconnect inputNode) s))) as H.
  rewrite Hb in H. cbn [fst] in H.
  eapply Rel_trans; [|exact H].
  eapply Rel_trans; [|apply Rel_cleanupAllEffects].
  cbn [Synth.engine Synth.withEngine]. apply Rel_disconnect.
Qed.

Lemma Rel_ensureAudioContext s :
  Rel (Synth.engine s) (Synth.engine (Synth.ensureAudioContext s)).
Proof using Rel_refl Rel_trans Rel_connect Rel_disconnect Rel_allocate
  Rel_start Rel_stop Rel_setMasterGainValue.
  unfold Synth.ensureAudioContext.
  destruct (Synth.audioContext s); [apply Rel_refl|]. cbv zeta.
  cbn [Synth.engine Synth.withEngine].
  eapply Rel_trans; [|apply Rel_connect].
  eapply Rel_trans; [|apply Rel_connect].
  eapply Rel_trans; [|apply Rel_rebuildEffectChain].
  simpl. apply Rel_setMasterGainValue.
Qed.

Lemma Rel_attachVibrato enabled g s :
  Rel (Synth.engine s) (Synth.engine (Synth.attachVibrato enabled g s)).
Proof using Rel_refl Rel_trans Rel_connect Rel_disconnectFrom.
  unfold Synth.attachVibrato.
  generalize (map_to_list (Synth.activeNotes s)). intros l.
  revert s. induction l as [|kv l IH]; intros s; simpl; [apply Rel_refl|].
  eapply Rel_trans; [|apply IH].
  destruct enabled; simpl; [apply Rel_connect|apply Rel_disconnectFrom].
Qed.

Lemma Rel_toggle (set : bool -> EffectsState.t -> EffectsState.t)
  (enabled : bool) s :
  let s1 := Synth.withEffectsState (set enabled) s in
  Rel (Synth.engine s)
    (Synth.engine
       (if Synth.audioContext s1 then Synth.rebuildEffectChain s1 else s1)).
Proof using Rel_refl Rel_trans Rel_connect Rel_disconnect Rel_allocate
  Rel_start Rel_stop.
  cbv zeta. destruct (Synth.audioContext _); [|apply Rel_refl].
  apply (Rel_rebuildEffectChain (Synth.withEffectsState (set enabled) s)).
Qed.

Lemma Rel_toggles s :
  (forall b, Rel (Synth.engine s) (Synth.engine (Synth.toggleDelay b s))) /\
  (forall b, Rel (Synth.engine s) (Synth.engine (Synth.toggleDistortion b s))) /\
  (forall b, Rel (Synth.engine s) (Synth.engine (Synth.toggleVibrato b s))) /\
  (forall b, Rel (Synth.engine s) (Synth.engine (Synth.toggleFilter b s))) /\
  (forall b, Rel (Synth.engine s) (Synth.engine (Synth.toggleReverb b s))).
Proof using Rel_refl Rel_trans Rel_connect Rel_disconnect Rel_disconnectFrom
  Rel_allocate Rel_start Rel_stop.
  repeat split; intros b.
  - unfold Synth.toggleDelay. destruct (Bool.eqb _ _); [apply Rel_refl|].
    apply (Rel_toggle Synth.setDelay).
  - unfold Synth.toggleDistortion. destruct (Bool.eqb _ _); [apply Rel_refl|].
    apply (Rel_toggle Synth.setDistortion).
  - unfold Synth.toggleVibrato. destruct (Bool.eqb _ _); [apply Rel_refl|].
    cbv zeta. destruct (Synth.audioContext _); [|apply Rel_refl].
    pose proof (Rel_rebuildEffectChain
                  (Synth.withEffectsState (Synth.setVibrato b) s)) as H.
    destruct (EffectNodes.vibrato _) as [v|]; [|exact H].
    destruct (lfoGainOf v) as [g|]; [|exact H].
    eapply Rel_trans; [exact H|apply Rel_attachVibrato].
  - unfold Synth.toggleFilter. destruct (Bool.eqb _ _); [apply Rel_refl|].
    apply (Rel_toggle Synth.setFilter).
  - unfold Synth.toggleReverb. destruct (Bool.eqb _ _); [apply Rel_refl|].
    apply (Rel_toggle Synth.setReverb).
Qed.

End EngineRelation.

(** Everything of a Synth but its effect units and the engine. *)
Definition logic (s : Synth.t) :=
  (Synth.audioContext s, Synth.masterGain s, Synth.compressor s,
   Synth.effectsInputGain s, Synth.activeNotes s, Synth.waveform s,
   Synth.envelope s, Synth.volume s, Synth.destroyed s, Synth.octaveShift s,
   Synth.effectsState s).

Lemma logic_fields (s s' : Synth.t) :
  logic s' = logic s ->
  Synth.audioContext s' = Synth.audioContext s /\
  Synth.masterGain s' = Synth.masterGain s /\
  Synth.effectsInputGain s' = Synth.effectsInputGain s /\
  Synth.activeNotes s' = Synth.activeNotes s /\
  Synth.volume s' = Synth.volume s /\
  Synth.destroyed s' = Synth.destroyed s /\
  Synth.octaveShift s' = Synth.octaveShift s /\
  Synth.effectsState s' = Synth.effectsState s /\
  Synth.waveform s' = Synth.waveform s /\
  Synth.compressor s' = Synth.compressor s.
Proof.
  unfold logic. intros H. injection H as H1 H2 H3 H4 H5 H6 H7 H8 H9 H10 H11.
  repeat split; assumption.
Qed.

Lemma logic_withEngine f s : logic (Synth.withEngine f s) = logic s.
Proof. reflexivity. Qed.

Lemma logic_cleanupAllEffects s : logic (Synth.cleanupAllEffects s) = logic s.
Proof. reflexivity. Qed.

Lemma logic_createIf flag inChain create store acc :
  logic (Synth.createIf flag inChain create store acc).1 = logic acc.1.
Proof.
  destruct acc as [s l]. unfold Synth.createIf. destruct flag; [|reflexivity].
  destruct (create (Synth.engine s)). reflexivity.
Qed.

Lemma logic_buildEffects s : logic (Synth.buildEffects s).1 = logic s.
Proof.
  unfold Synth.buildEffects. cbv zeta. rewrite !logic_createIf. reflexivity.
Qed.

Lemma logic_rebuildEffectChain s : logic (Synth.rebuildEffectChain s) = logic s.
Proof.
  unfold Synth.rebuildEffectChain.
  destruct (Synth.audioContext s); [|reflexivity].
  destruct (Synth.effectsInputGain s) as [inputNode|]; [|reflexivity].
  destruct (Synth.masterGain s) as [master|]; [|reflexivity].
  cbv zeta.
  pose proof (logic_buildEffects
    (Synth.cleanupAllEffects
       (Synth.withEngine (WebAudio.disconnect inputNode) s))) as H.
  destruct (Synth.buildEffects _) as [s' l]. exact H.
Qed.

Lemma logic_attachVibrato enabled g s :
  logic (Synth.attachVibrato enabled g s) = logic s.
Proof.
  unfold Synth.attachVibrato.
  generalize (map_to_list (Synth.activeNotes s)). intros l.
  revert s. induction l as [|kv l IH]; intros s; simpl; [reflexivity|].
  rewrite IH. destruct enabled; reflexivity.
Qed.

(** After the lazy initialisation the engine is there. *)
Lemma logic_ensureAudioContext s :
  logic (Synth.ensureAudioContext s) =
  if Synth.audioContext s then logic s
  else
    logic
      (Synth.withRefs true (Some WebAudio.MasterGainNode)
         (Some WebAudio.CompressorNode) (Some WebAudio.EffectsInputGainNode) s).
Proof.
  unfold Synth.ensureAudioContext.
  destruct (Synth.audioContext s) eqn:Hctx; [reflexivity|]. cbv zeta.
  rewrite !logic_withEngine, logic_rebuildEffectChain, logic_withEngine.
  reflexivity.
Qed.

Lemma ensureAudioContext_live s :
  (Synth.audioContext s = true -> Synth.ensureAudioContext s = s) /\
  (Synth.audioContext s = false ->
   let s' := Synth.ensureAudioContext s in
   Synth.audioContext s' = true /\
   Synth.masterGain s' = Some WebAudio.MasterGainNode /\
   Synth.effectsInputGain s' = Some WebAudio.EffectsInputGainNode /\
   Synth.compressor s' = Some WebAudio.CompressorNode) /\
  Synth.activeNotes (Synth.ensureAudioContext s) = Synth.activeNotes s /\
  Synth.destroyed (Synth.ensureAudioContext s) = Synth.destroyed s /\
  Synth.volume (Synth.ensureAudioContext s) = Synth.volume s /\
  Synth.octaveShift (Synth.ensureAudioContext s) = Synth.octaveShift s /\
  Synth.effectsState (Synth.ensureAudioContext s) = Synth.effectsState s /\
  Synth.waveform (Synth.ensureAudioContext s) = Synth.waveform s.
Proof.
  pose proof (logic_ensureAudioContext s) as H.
  split.
  { intros Hctx. unfold Synth.ensureAudioContext. rewrite Hctx. reflexivity. }
  destruct (Synth.audioContext s) eqn:Hctx;
    apply logic_fields in H as (L1 & L2 & L3 & L4 & L5 & L6 & L7 & L8 & L9 & L10);
    (split; [intros Hf; first [discriminate Hf | cbv zeta; repeat split; assumption]|]);
    repeat split; assumption.
Qed.

(** *** What each call leaves alone *)

Definition sameClose (e e' : WebAudio.Engine) : Prop :=
  WebAudio.closeCalls e' = WebAudio.closeCalls e.

Lemma sameClose_machinery :
  (forall s, sameClose (Synth.engine s) (Synth.engine (Synth.rebuildEffectChain s))) /\
  (forall s, sameClose (Synth.engine s) (Synth.engine (Synth.ensureAudioContext s))) /\
  (forall s, sameClose (Synth.engine s) (Synth.engine (Synth.cleanupAllEffects s))) /\
  (forall s b, sameClose (Synth.engine s) (Synth.engine (Synth.toggleDelay b s))) /\
  (forall s b, sameClose (Synth.engine s) (Synth.engine (Synth.toggleDistortion b s))) /\
  (forall s b, sameClose (Synth.engine s) (Synth.engine (Synth.toggleVibrato b s))) /\
  (forall s b, sameClose (Synth.engine s) (Synth.engine (Synth.toggleFilter b s))) /\
  (forall s b, sameClose (Synth.engine s) (Synth.engine (Synth.toggleReverb b s))).
Proof.
  assert (Hrefl : forall e, sameClose e e) by reflexivity.
  assert (Htrans : forall e1 e2 e3,
             sameClose e1 e2 -> sameClose e2 e3 -> sameClose e1 e3).
  { unfold sameClose. intros e1 e2 e3 H1 H2. congruence. }
  assert (Hc : forall a b e, sameClose e (WebAudio.connect a b e)) by reflexivity.
  assert (Hd : forall a e, sameClose e (WebAudio.disconnect a e)) by reflexivity.
  assert (Hdf : forall a b e, sameClose e (WebAudio.disconnectFrom a b e))
    by reflexivity.
  assert (Ha : forall e, sameClose e (WebAudio.allocate e).2) by reflexivity.
  assert (Hs : forall u r e,
             sameClose e (WebAudio.start (WebAudio.UnitNode u r) e))
    by reflexivity.
  assert (Hp : forall u r e,
             sameClose e (WebAudio.stop (WebAudio.UnitNode u r) e))
    by reflexivity.
  assert (Hm : forall v e, sameClose e (WebAudio.setMasterGainValue v e))
    by reflexivity.
  split; [intros s; apply Rel_rebuildEffectChain; assumption|].
  split; [intros s; apply Rel_ensureAudioContext; assumption|].
  split; [intros s; apply Rel_cleanupAllEffects; assumption|].
  repeat split; intros s b;
    apply (Rel_toggles sameClose Hrefl Htrans Hc Hd Hdf Ha Hs Hp s).
Qed.

Lemma noteOff_frame (k : Z) (s : Synth.t) :
  let s' := Synth.noteOff k s in
  Synth.audioContext s' = Synth.audioContext s /\
  Synth.masterGain s' = Synth.masterGain s /\
  Synth.effectsInputGain s' = Synth.effectsInputGain s /\
  Synth.compressor s' = Synth.compressor s /\
  Synth.destroyed s' = Synth.destroyed s /\
  Synth.volume s' = Synth.volume s /\
  Synth.octaveShift s' = Synth.octaveShift s /\
  Synth.waveform s' = Synth.waveform s /\
  Synth.effectsState s' = Synth.effectsState s /\
  Synth.effectNodes s' = Synth.effectNodes s /\
  sameClose (Synth.engine s) (Synth.engine s') /\
  Synth.activeNotes s' =
    (if Synth.audioContext s then delete k (Synth.activeNotes s)
     else Synth.activeNotes s).
Proof.
  unfold Synth.noteOff. cbv zeta.
  destruct (Synth.activeNotes s !! k) as [note|] eqn:Hk.
  - destruct (Synth.audioContext s) eqn:Hctx; simpl.
    + destruct (Synth.activeVibrato s); simpl;
        repeat split; try reflexivity; try assumption.
    + repeat split; try reflexivity; assumption.
  - repeat split; try reflexivity.
    destruct (Synth.audioContext s); [|reflexivity].
    symmetry. apply delete_id. exact Hk.
Qed.

Lemma stopAll_frame (s : Synth.t) :
  let s' := Synth.stopAll s in
  Synth.audioContext s' = Synth.audioContext s /\
  Synth.masterGain s' = Synth.masterGain s /\
  Synth.effectsInputGain s' = Synth.effectsInputGain s /\
  Synth.compressor s' = Synth.compressor s /\
  Synth.destroyed s' = Synth.destroyed s /\
  Synth.volume s' = Synth.volume s /\
  Synth.octaveShift s' = Synth.octaveShift s /\
  Synth.waveform s' = Synth.waveform s /\
  Synth.effectsState s' = Synth.effectsState s /\
  Synth.effectNodes s' = Synth.effectNodes s /\
  sameClose (Synth.engine s) (Synth.engine s').
Proof.
  unfold Synth.stopAll.
  generalize (map fst (map_to_list (Synth.activeNotes s))). intros ks.
  revert s. induction ks as [|k ks IH]; intros s; simpl.
  - repeat split; reflexivity.
  - specialize (IH (Synth.noteOff k s)). cbv zeta in IH.
    destruct IH as (I1 & I2 & I3 & I4 & I5 & I6 & I7 & I8 & I9 & I10 & I11).
    destruct (noteOff_frame k s) as (N1 & N2 & N3 & N4 & N5 & N6 & N7 & N8 & N9 & N10 & N11 & _).
    unfold sameClose in *.
    repeat split; congruence.
Qed.

Lemma noteOff_fold_notes (ks : list Z) (s : Synth.t) :
  Synth.audioContext s = true ->
  Synth.activeNotes (fold_left (fun s k => Synth.noteOff k s) ks s) =
  fold_left (fun m k => delete k m) ks (Synth.activeNotes s).
Proof.
  revert s. induction ks as [|k ks IH]; intros s Hctx; simpl; [reflexivity|].
  destruct (noteOff_frame k s) as (N1 & _ & _ & _ & _ & _ & _ & _ & _ & _ & _ & N12).
  rewrite IH by congruence. rewrite N12, Hctx. reflexivity.
Qed.

Lemma delete_fold_lookup (ks : list Z) (m : gmap Z AudioTypes.ActiveNote) (k : Z) :
  fold_left (fun m k => delete k m) ks m !! k =
  if decide (k ∈ ks) then None else m !! k.
Proof.
  revert m. induction ks as [|k' ks IH]; intros m; simpl.
  - destruct (decide (k ∈ [])) as [H|]; [inversion H|reflexivity].
  - rewrite IH. destruct (decide (k ∈ ks)) as [Hin|Hnin].
    + rewrite decide_True by (right; exact Hin). reflexivity.
    + destruct (decide (k = k')) as [->|Hne].
      * rewrite decide_True by left. apply lookup_delete_eq.
      * rewrite decide_False; [apply lookup_delete_ne; congruence|].
        intros H. apply elem_of_cons in H as [?|?]; contradiction.
Qed.

Lemma stopAll_empties (s : Synth.t) :
  Synth.audioContext s = true -> Synth.activeNotes (Synth.stopAll s) = ∅.
Proof.
  intros Hctx. unfold Synth.stopAll. rewrite noteOff_fold_notes by exact Hctx.
  apply map_eq. intros k. rewrite delete_fold_lookup, lookup_empty.
  destruct (decide (k ∈ _)) as [|Hnin]; [reflexivity|].
  destruct (Synth.activeNotes s !! k) as [n|] eqn:Hk; [|reflexivity].
  exfalso. apply Hnin. apply list_elem_of_fmap.
  exists (k, n). split; [reflexivity|]. apply elem_of_map_to_list. exact Hk.
Qed.

Definition noEffectNodes : EffectNodes.t :=
  {| EffectNodes.delay := None; EffectNodes.distortion := None;
     EffectNodes.vibrato := None; EffectNodes.filter := None;
     EffectNodes.reverb := None |}.

Lemma destroy_spec (s : Synth.t) :
  Synth.destroyed s = false ->
  let s' := Synth.destroy s in
  Synth.destroyed s' = true /\
  Synth.audioContext s' = false /\
  Synth.masterGain s' = None /\
  Synth.effectsInputGain s' = None /\
  Synth.compressor s' = None /\
  Synth.activeNotes s' = ∅ /\
  Synth.effectNodes s' = noEffectNodes /\
  Synth.volume s' = Synth.volume s /\
  Synth.octaveShift s' = Synth.octaveShift s /\
  Synth.waveform s' = Synth.waveform s /\
  Synth.effectsState s' = Synth.effectsState s /\
  WebAudio.closeCalls (Synth.engine s') =
    (if Synth.audioContext s then S (WebAudio.closeCalls (Synth.engine s))
     else WebAudio.closeCalls (Synth.engine s)).
Proof.
  intros Hd. unfold Synth.destroy. rewrite Hd. cbv zeta.
  set (s1 := Synth.withDestroyed true s).
  destruct (stopAll_frame s1)
    as (A1 & A2 & A3 & A4 & A5 & A6 & A7 & A8 & A9 & A10 & A11).
  set (s2 := Synth.stopAll s1) in *.
  destruct sameClose_machinery as (_ & _ & Hclean & _).
  specialize (Hclean s2). unfold sameClose in *.
  pose proof (logic_fields _ _ (logic_cleanupAllEffects s2))
    as (L1 & L2 & L3 & L4 & L5 & L6 & L7 & L8 & L9 & L10).
  assert (Hnodes : Synth.effectNodes (Synth.cleanupAllEffects s2) = noEffectNodes)
    by reflexivity.
  set (s3 := Synth.cleanupAllEffects s2) in *.
  assert (Hctx3 : Synth.audioContext s3 = Synth.audioContext s)
    by (rewrite L1, A1; reflexivity).
  assert (B6 : Synth.volume s1 = Synth.volume s) by reflexivity.
  assert (B7 : Synth.octaveShift s1 = Synth.octaveShift s) by reflexivity.
  assert (B8 : Synth.waveform s1 = Synth.waveform s) by reflexivity.
  assert (B9 : Synth.effectsState s1 = Synth.effectsState s) by reflexivity.
  assert (B11 : Synth.engine s1 = Synth.engine s) by reflexivity.
  assert (B5 : Synth.destroyed s1 = true) by reflexivity.
  clearbody s3 s2 s1.
  rewrite Hctx3.
  destruct (Synth.audioContext s) eqn:Hctx; simpl;
    repeat split; try reflexivity; try assumption; congruence.
Qed.

Lemma noteOn_frame (k : Z) (f : R) (s : Synth.t) :
  let s' := Synth.noteOn k f s in
  Synth.destroyed s' = Synth.destroyed s /\
  Synth.volume s' = Synth.volume s /\
  Synth.octaveShift s' = Synth.octaveShift s /\
  Synth.waveform s' = Synth.waveform s /\
  Synth.effectsState s' = Synth.effectsState s /\
  sameClose (Synth.engine s) (Synth.engine s').
Proof.
  unfold Synth.noteOn. cbv zeta.
  destruct (Synth.destroyed s) eqn:Hd; [repeat split; first [reflexivity|assumption]|].
  destruct (ensureAudioContext_live s) as (_ & _ & E1 & E2 & E3 & E4 & E5 & E6).
  destruct sameClose_machinery as (_ & Hens & _). specialize (Hens s).
  unfold sameClose in *.
  set (s1 := Synth.ensureAudioContext s) in *. clearbody s1.
  destruct (Synth.audioContext s1);
    [|repeat split; congruence].
  destruct (Synth.effectsInputGain s1) as [effectsInput|];
    [|repeat split; congruence].
  destruct (noteOff_frame k s1)
    as (N1 & N2 & N3 & N4 & N5 & N6 & N7 & N8 & N9 & N10 & N11 & _).
  unfold sameClose in N11.
  match goal with
  | |- context [if ?c then Synth.noteOff k s1 else s1] =>
      assert (Hs2 :
        let s2 := if c then Synth.noteOff k s1 else s1 in
        Synth.destroyed s2 = Synth.destroyed s1 /\
        Synth.volume s2 = Synth.volume s1 /\
        Synth.octaveShift s2 = Synth.octaveShift s1 /\
        Synth.waveform s2 = Synth.waveform s1 /\
        Synth.effectsState s2 = Synth.effectsState s1 /\
        WebAudio.closeCalls (Synth.engine s2) =
        WebAudio.closeCalls (Synth.engine s1))
        by (destruct c; repeat split; first [reflexivity|assumption]);
      set (s2 := if c then Synth.noteOff k s1 else s1) in *
  end.
  cbv zeta in Hs2. destruct Hs2 as (S1 & S2 & S3 & S4 & S5 & S6).
  clearbody s2.
  destruct (Synth.activeVibrato s2); simpl; repeat split; congruence.
Qed.

Lemma setVolume_frame (v : R) (s : Synth.t) :
  let s' := Synth.setVolume v s in
  Synth.destroyed s' = Synth.destroyed s /\
  Synth.audioContext s' = Synth.audioContext s /\
  Synth.activeNotes s' = Synth.activeNotes s /\
  Synth.effectsState s' = Synth.effectsState s /\
  Synth.volume s' = Synth.clampVolume v /\
  sameClose (Synth.engine s) (Synth.engine s') /\
  (Synth.audioContext s = false -> s' = Synth.withVolume (Synth.clampVolume v) s).
Proof.
  unfold Synth.setVolume, sameClose. cbv zeta. simpl.
  destruct (Synth.masterGain s); [destruct (Synth.audioContext s) eqn:Hctx|];
    repeat split; try reflexivity; try (simpl; assumption);
    intros H; first [discriminate H | reflexivity].
Qed.

Lemma bend_frame (k : Z) (cents : R) (s : Synth.t) :
  let s' := Synth.bend k cents s in
  Synth.destroyed s' = Synth.destroyed s /\
  Synth.audioContext s' = Synth.audioContext s /\
  Synth.activeNotes s' = Synth.activeNotes s /\
  sameClose (Synth.engine s) (Synth.engine s') /\
  (Synth.audioContext s = false -> s' = s).
Proof.
  unfold Synth.bend, sameClose.
  destruct (Synth.activeNotes s !! k);
    [destruct (Synth.audioContext s) eqn:Hctx|];
    simpl; repeat split; try reflexivity; try (simpl; assumption);
    intros H; first [discriminate H | reflexivity].
Qed.

(** The toggles: nothing happens when the flag has the value already;
    otherwise the flag is stored, and the chain is rebuilt only while the
    engine is there. *)
Definition isToggle (c : Synth.Call) : bool :=
  match c with
  | Synth.ToggleDelay _ | Synth.ToggleDistortion _ | Synth.ToggleVibrato _
  | Synth.ToggleFilter _ | Synth.ToggleReverb _ => true
  | _ => false
  end.

Lemma toggle_frame (c : Synth.Call) (s : Synth.t) :
  isToggle c = true ->
  Synth.call c s = s \/
  exists s1,
    logic s1 =
      (Synth.audioContext s, Synth.masterGain s, Synth.compressor s,
       Synth.effectsInputGain s, Synth.activeNotes s, Synth.waveform s,
       Synth.envelope s, Synth.volume s, Synth.destroyed s,
       Synth.octaveShift s, Synth.effectsState s1) /\
    Synth.engine s1 = Synth.engine s /\
    Synth.effectNodes s1 = Synth.effectNodes s /\
    logic (Synth.call c s) = logic s1 /\
    sameClose (Synth.engine s) (Synth.engine (Synth.call c s)) /\
    (Synth.audioContext s = false -> Synth.call c s = s1).
Proof.
  destruct sameClose_machinery as (_ & _ & _ & T1 & T2 & T3 & T4 & T5).
  assert (Hgen : forall (set : bool -> EffectsState.t -> EffectsState.t) b,
    let s1 := Synth.withEffectsState (set b) s in
    let s' := if Synth.audioContext s1 then Synth.rebuildEffectChain s1 else s1 in
    logic s' = logic s1 /\ (Synth.audioContext s = false -> s' = s1)).
  { intros set b. cbv zeta.
    change (Synth.audioContext (Synth.withEffectsState (set b) s))
      with (Synth.audioContext s).
    destruct (Synth.audioContext s).
    - split; [apply logic_rebuildEffectChain|discriminate].
    - split; reflexivity. }
  assert (Hsimple : forall (set : bool -> EffectsState.t -> EffectsState.t) b t,
    (t = let s1 := Synth.withEffectsState (set b) s in
         if Synth.audioContext s1 then Synth.rebuildEffectChain s1 else s1) ->
    sameClose (Synth.engine s) (Synth.engine t) ->
    exists s1,
      logic s1 =
        (Synth.audioContext s, Synth.masterGain s, Synth.compressor s,
         Synth.effectsInputGain s, Synth.activeNotes s, Synth.waveform s,
         Synth.envelope s, Synth.volume s, Synth.destroyed s,
         Synth.octaveShift s, Synth.effectsState s1) /\
      Synth.engine s1 = Synth.engine s /\
      Synth.effectNodes s1 = Synth.effectNodes s /\
      logic t = logic s1 /\
      sameClose (Synth.engine s) (Synth.engine t) /\
      (Synth.audioContext s = false -> t = s1)).
  { intros set b t -> Hclose. destruct (Hgen set b) as [G1 G2].
    exists (Synth.withEffectsState (set b) s).
    split; [reflexivity|]. split; [reflexivity|]. split; [reflexivity|].
    split; [exact G1|]. split; [exact Hclose|exact G2]. }
  destruct c; try discriminate; intros _; simpl Synth.call.
  - specialize (T1 s enabled). unfold Synth.toggleDelay in *.
    destruct (Bool.eqb _ _); [left; reflexivity|right].
    apply (Hsimple Synth.setDelay enabled); [reflexivity|exact T1].
  - specialize (T2 s enabled). unfold Synth.toggleDistortion in *.
    destruct (Bool.eqb _ _); [left; reflexivity|right].
    apply (Hsimple Synth.setDistortion enabled); [reflexivity|exact T2].
  - specialize (T3 s enabled). unfold Synth.toggleVibrato in *.
    destruct (Bool.eqb _ _); [left; reflexivity|right].
    destruct (Hgen Synth.setVibrato enabled) as [G1 G2]. cbv zeta in G1, G2, T3.
    exists (Synth.withEffectsState (Synth.setVibrato enabled) s).
    split; [reflexivity|]. split; [reflexivity|]. split; [reflexivity|].
    cbv zeta. split; [|split; [exact T3|]].
    + change (Synth.audioContext
                (Synth.withEffectsState (Synth.setVibrato enabled) s))
        with (Synth.audioContext s) in *.
      destruct (Synth.audioContext s); [|reflexivity].
      destruct (EffectNodes.vibrato _) as [v|]; [|exact G1].
      destruct (Effects.lfoGainOf v) as [g|]; [|exact G1].
      rewrite logic_attachVibrato. exact G1.
    + intros Hctx.
      change (Synth.audioContext
                (Synth.withEffectsState (Synth.setVibrato enabled) s))
        with (Synth.audioContext s).
      rewrite Hctx. reflexivity.
  - specialize (T4 s enabled). unfold Synth.toggleFilter in *.
    destruct (Bool.eqb _ _); [left; reflexivity|right].
    apply (Hsimple Synth.setFilter enabled); [reflexivity|exact T4].
  - specialize (T5 s enabled). unfold Synth.toggleReverb in *.
    destruct (Bool.eqb _ _); [left; reflexivity|right].
    apply (Hsimple Synth.setReverb enabled); [reflexivity|exact T5].
Qed.

Lemma call_frame (c : Synth.Call) (s : Synth.t) :
  c <> Synth.Destroy ->
  Synth.destroyed (Synth.call c s) = Synth.destroyed s /\
  sameClose (Synth.engine s) (Synth.engine (Synth.call c s)).
Proof.
  intros Hc.
  destruct (isToggle c) eqn:Htoggle.
  { destruct (toggle_frame c s Htoggle) as [->|(s1 & L1 & _ & _ & L & Hclose & _)].
    - split; reflexivity.
    - split; [|exact Hclose]. rewrite L1 in L.
      apply (f_equal (fun l => l.1.1.2)) in L. exact L. }
  destruct c; try discriminate Htoggle; simpl Synth.call.
  - destruct (noteOn_frame noteIndex frequency s) as (H & _ & _ & _ & _ & H').
    split; assumption.
  - destruct (noteOff_frame noteIndex s)
      as (_ & _ & _ & _ & H & _ & _ & _ & _ & _ & H' & _).
    split; assumption.
  - destruct (stopAll_frame s) as (_ & _ & _ & _ & H & _ & _ & _ & _ & _ & H').
    split; assumption.
  - split; reflexivity.
  - destruct (setVolume_frame value s) as (H & _ & _ & _ & _ & H' & _).
    split; assumption.
  - destruct (bend_frame noteIndex cents s) as (H & _ & _ & H' & _).
    split; assumption.
  - split; reflexivity.
  - contradiction.
Qed.

Lemma noteOff_dead (k : Z) (s : Synth.t) :
  Synth.audioContext s = false -> Synth.noteOff k s = s.
Proof.
  intros Hctx. unfold Synth.noteOff. rewrite Hctx.
  destruct (_ !! _); reflexivity.
Qed.

Lemma stopAll_dead (s : Synth.t) :
  Synth.audioContext s = false -> Synth.stopAll s = s.
Proof.
  intros Hctx. unfold Synth.stopAll.
  generalize (map fst (map_to_list (Synth.activeNotes s))). intros ks.
  induction ks as [|k ks IH]; simpl; [reflexivity|].
  rewrite noteOff_dead by exact Hctx. exact IH.
Qed.

(** A destroyed instance without engine: what each call does to it. *)
Definition dead (s : Synth.t) : Prop :=
  Synth.destroyed s = true /\ Synth.audioContext s = false.

Lemma dead_call (c : Synth.Call) (s : Synth.t) :
  dead s ->
  dead (Synth.call c s) /\
  Synth.engine (Synth.call c s) = Synth.engine s /\
  Synth.activeNotes (Synth.call c s) = Synth.activeNotes s /\
  Synth.effectNodes (Synth.call c s) = Synth.effectNodes s /\
  match c with
  | Synth.NoteOn _ _ | Synth.NoteOff _ | Synth.StopAll | Synth.Bend _ _
  | Synth.Destroy => Synth.call c s = s
  | Synth.SetVolume v =>
      Synth.call c s = Synth.withVolume (Synth.clampVolume v) s
  | Synth.SetWaveform w => Synth.call c s = Synth.withWaveform w s
  | Synth.SetOctaveShift x =>
      Synth.call c s =
      Synth.withOctaveShift
        (Math_max Synth.MIN_OCTAVE_SHIFT (Math_min Synth.MAX_OCTAVE_SHIFT x)) s
  | Synth.ToggleDelay b =>
      Synth.call c s =
      if Bool.eqb (EffectsState.delay (Synth.effectsState s)) b then s
      else Synth.withEffectsState (Synth.setDelay b) s
  | Synth.ToggleDistortion b =>
      Synth.call c s =
      if Bool.eqb (EffectsState.distortion (Synth.effectsState s)) b then s
      else Synth.withEffectsState (Synth.setDistortion b) s
  | Synth.ToggleVibrato b =>
      Synth.call c s =
      if Bool.eqb (EffectsState.vibrato (Synth.effectsState s)) b then s
      else Synth.withEffectsState (Synth.setVibrato b) s
  | Synth.ToggleFilter b =>
      Synth.call c s =
      if Bool.eqb (EffectsState.filter (Synth.effectsState s)) b then s
      else Synth.withEffectsState (Synth.setFilter b) s
  | Synth.ToggleReverb b =>
      Synth.call c s =
      if Bool.eqb (EffectsState.reverb (Synth.effectsState s)) b then s
      else Synth.withEffectsState (Synth.setReverb b) s
  end.
Proof.
  intros [Hd Hctx].
  assert (Hres :
    match c with
    | Synth.NoteOn _ _ | Synth.NoteOff _ | Synth.StopAll | Synth.Bend _ _
    | Synth.Destroy => Synth.call c s = s
    | Synth.SetVolume v =>
        Synth.call c s = Synth.withVolume (Synth.clampVolume v) s
    | Synth.SetWaveform w => Synth.call c s = Synth.withWaveform w s
    | Synth.SetOctaveShift x =>
        Synth.call c s =
        Synth.withOctaveShift
          (Math_max Synth.MIN_OCTAVE_SHIFT (Math_min Synth.MAX_OCTAVE_SHIFT x)) s
    | Synth.ToggleDelay b =>
        Synth.call c s =
        if Bool.eqb (EffectsState.delay (Synth.effectsState s)) b then s
        else Synth.withEffectsState (Synth.setDelay b) s
    | Synth.ToggleDistortion b =>
        Synth.call c s =
        if Bool.eqb (EffectsState.distortion (Synth.effectsState s)) b then s
        else Synth.withEffectsState (Synth.setDistortion b) s
    | Synth.ToggleVibrato b =>
        Synth.call c s =
        if Bool.eqb (EffectsState.vibrato (Synth.effectsState s)) b then s
        else Synth.withEffectsState (Synth.setVibrato b) s
    | Synth.ToggleFilter b =>
        Synth.call c s =
        if Bool.eqb (EffectsState.filter (Synth.effectsState s)) b then s
        else Synth.withEffectsState (Synth.setFilter b) s
    | Synth.ToggleReverb b =>
        Synth.call c s =
        if Bool.eqb (EffectsState.reverb (Synth.effectsState s)) b then s
        else Synth.withEffectsState (Synth.setReverb b) s
    end).
  { destruct c; simpl Synth.call.
    - unfold Synth.noteOn. rewrite Hd. reflexivity.
    - apply noteOff_dead, Hctx.
    - apply stopAll_dead, Hctx.
    - reflexivity.
    - apply setVolume_frame, Hctx.
    - apply bend_frame, Hctx.
    - reflexivity.
    - unfold Synth.toggleDelay. destruct (Bool.eqb _ _); [reflexivity|].
      cbv zeta. cbn [Synth.audioContext Synth.withEffectsState].
      rewrite Hctx. reflexivity.
    - unfold Synth.toggleDistortion. destruct (Bool.eqb _ _); [reflexivity|].
      cbv zeta. cbn [Synth.audioContext Synth.withEffectsState].
      rewrite Hctx. reflexivity.
    - unfold Synth.toggleVibrato. destruct (Bool.eqb _ _); [reflexivity|].
      cbv zeta. cbn [Synth.audioContext Synth.withEffectsState].
      rewrite Hctx. reflexivity.
    - unfold Synth.toggleFilter. destruct (Bool.eqb _ _); [reflexivity|].
      cbv zeta. cbn [Synth.audioContext Synth.withEffectsState].
      rewrite Hctx. reflexivity.
    - unfold Synth.toggleReverb. destruct (Bool.eqb _ _); [reflexivity|].
      cbv zeta. cbn [Synth.audioContext Synth.withEffectsState].
      rewrite Hctx. reflexivity.
    - unfold Synth.destroy. rewrite Hd. reflexivity. }
  split; [|split; [|split; [|split; [|exact Hres]]]];
    destruct c; rewrite Hres;
    try (destruct (Bool.eqb _ _));
    first [ split; assumption | reflexivity ].
Qed.

(** *** Reachable states *)

Lemma calls_snoc (cs : list Synth.Call) (c : Synth.Call) (s : Synth.t) :
  Synth.calls (cs ++ [c]) s = Synth.call c (Synth.calls cs s).
Proof. unfold Synth.calls. rewrite fold_left_app. reflexivity. Qed.

Lemma calls_cons (cs : list Synth.Call) (c : Synth.Call) (s : Synth.t) :
  Synth.calls (c :: cs) s = Synth.calls cs (Synth.call c s).
Proof. reflexivity. Qed.

Lemma calls_invariant (P : Synth.t -> Prop) (s : Synth.t) :
  P s -> (forall c s, P s -> P (Synth.call c s)) ->
  forall cs, P (Synth.calls cs s).
Proof.
  intros H0 Hstep cs. revert s H0.
  induction cs as [|c cs IH]; intros s H0; [exact H0|].
  rewrite calls_cons. apply IH, Hstep, H0.
Qed.

(** A destroyed instance has no engine, the engine of an instance that is
    not destroyed has not been closed, and it is never closed twice. *)
Definition closedOnce (s : Synth.t) : Prop :=
  (Synth.destroyed s = true -> Synth.audioContext s = false) /\
  (Synth.destroyed s = false ->
   WebAudio.closeCalls (Synth.engine s) = 0%nat) /\
  (WebAudio.closeCalls (Synth.engine s) <= 1)%nat.

Lemma closedOnce_new (config : AudioTypes.SynthConfig) :
  closedOnce (Synth.new config).
Proof. repeat split; simpl; try discriminate; lia. Qed.

Lemma closedOnce_call (c : Synth.Call) (s : Synth.t) :
  closedOnce s -> closedOnce (Synth.call c s).
Proof.
  intros (H1 & H2 & H3).
  destruct (Synth.destroyed s) eqn:Hd.
  - assert (Hdead : dead s) by (split; [exact Hd|apply H1; reflexivity]).
    destruct (dead_call c s Hdead) as ([D1 D2] & E & _).
    repeat split; intros; try congruence.
  - assert (Hcases : c = Synth.Destroy \/ c <> Synth.Destroy)
      by (destruct c; first [left; reflexivity | right; discriminate]).
    destruct Hcases as [->|Hc].
    + simpl. destruct (destroy_spec s Hd)
        as (S1 & S2 & _ & _ & _ & _ & _ & _ & _ & _ & _ & S12).
      cbv zeta in *. repeat split; intros; try congruence.
      rewrite S12, H2 by reflexivity. destruct (Synth.audioContext s); lia.
    + destruct (call_frame c s Hc) as [F1 F2]. unfold sameClose in F2.
      rewrite <- F1 in Hd.
      repeat split; intros; try congruence.
      rewrite F2. apply H2. congruence.
Qed.

Lemma dead_calls (cs : list Synth.Call) (s : Synth.t) :
  dead s ->
  dead (Synth.calls cs s) /\
  Synth.engine (Synth.calls cs s) = Synth.engine s /\
  Synth.activeNotes (Synth.calls cs s) = Synth.activeNotes s.
Proof.
  revert s. induction cs as [|c cs IH]; intros s Hdead.
  - repeat split; try reflexivity; apply Hdead.
  - rewrite calls_cons. destruct (dead_call c s Hdead) as (D & E & N & _).
    destruct (IH _ D) as (D' & E' & N'). repeat split; try apply D'; congruence.
Qed.

Lemma Synth_destroy_idempotent (s : Synth.t) :
  Synth.destroy (Synth.destroy s) = Synth.destroy s.
Proof.
  destruct (Synth.destroyed s) eqn:Hd.
  - unfold Synth.destroy. rewrite Hd. rewrite Hd. reflexivity.
  - destruct (destroy_spec s Hd) as (H & _). cbv zeta in H.
    unfold Synth.destroy at 1. rewrite H. reflexivity.
Qed.

(** The sequencer has disconnected its two fixed stages once if it is
    destroyed and not at all otherwise. *)
Definition disconnectedOnce (s : BackingTrack.t) : Prop :=
  BackingTrack.masterGainDisconnects s =
    (if BackingTrack.destroyed s then 1 else 0)%nat /\
  BackingTrack.compressorDisconnects s =
    (if BackingTrack.destroyed s then 1 else 0)%nat.

Lemma BackingTrack_destroy_idempotent (s : BackingTrack.t) :
  BackingTrack.destroy (BackingTrack.destroy s) = BackingTrack.destroy s.
Proof.
  unfold BackingTrack.destroy at 1.
  destruct (BackingTrack.destroyed (BackingTrack.destroy s)) eqn:Hd;
    [reflexivity|].
  exfalso. revert Hd. unfold BackingTrack.destroy, BackingTrack.stop.
  destruct (BackingTrack.destroyed s) eqn:Hd0; [congruence|].
  cbv zeta. simpl. destruct (negb _); simpl; discriminate.
Qed.

Lemma scheduleBeat_counters (s : BackingTrack.t) :
  let s' := BackingTrack.scheduleBeat s in
  BackingTrack.destroyed s' = BackingTrack.destroyed s /\
  BackingTrack.masterGainDisconnects s' = BackingTrack.masterGainDisconnects s /\
  BackingTrack.compressorDisconnects s' = BackingTrack.compressorDisconnects s.
Proof.
  unfold BackingTrack.scheduleBeat. cbv zeta.
  generalize (BackingTrack.getNotesForCurrentBeat s). intros notes.
  assert (Hfold : forall s0,
    let s1 :=
      fold_left
        (fun s' note =>
           BackingTrack.playNote (BackingTrack.frequency note)
             (BackingTrack.nextNoteTime s' + BackingTrack.time note)
             (BackingTrack.duration note) s')
        notes s0 in
    BackingTrack.destroyed s1 = BackingTrack.destroyed s0 /\
    BackingTrack.masterGainDisconnects s1 = BackingTrack.masterGainDisconnects s0 /\
    BackingTrack.compressorDisconnects s1 = BackingTrack.compressorDisconnects s0).
  { induction notes as [|n notes IH]; intros s0; simpl.
    - repeat split; reflexivity.
    - destruct (IH (BackingTrack.playNote (BackingTrack.frequency n)
        (BackingTrack.nextNoteTime s0 + BackingTrack.time n)
        (BackingTrack.duration n) s0)) as (I1 & I2 & I3).
      rewrite I1, I2, I3. repeat split; reflexivity. }
  destruct (Hfold s) as (F1 & F2 & F3). cbv zeta in *.
  rewrite <- F1, <- F2, <- F3.
  match goal with |- context [BackingTrack.advanceBeat ?x] => generalize x end.
  intros s1. unfold BackingTrack.advanceBeat. cbv zeta.
  destruct Rle_dec; repeat split; reflexivity.
Qed.

Lemma disconnectedOnce_step (fuel : nat) (ev : BackingTrack.Event)
  (s : BackingTrack.t) (c : Completion BackingTrack.t) :
  disconnectedOnce s -> BackingTrack.step fuel ev s = Some c ->
  disconnectedOnce (stateOf c) /\
  (BackingTrack.destroyed s = true ->
   BackingTrack.destroyed (stateOf c) = true) /\
  (ev = BackingTrack.Destroy -> BackingTrack.destroyed (stateOf c) = true).
Proof.
  unfold disconnectedOnce. intros [H1 H2].
  destruct ev; simpl.
  - intros [= <-]. simpl. unfold BackingTrack.play.
    destruct (_ || _); simpl; repeat split; try assumption; try discriminate;
      intros; assumption.
  - intros [= <-]. simpl. unfold BackingTrack.stop.
    destruct (negb _); simpl; repeat split; try assumption; try discriminate;
      intros; assumption.
  - intros [= <-]. simpl. repeat split; try assumption; try discriminate;
      intros; assumption.
  - intros [= <-]. unfold BackingTrack.setChords. cbv zeta.
    destruct (BackingTrack.resolveChords _ _); destruct key; simpl;
      repeat split; try assumption; try discriminate; intros; assumption.
  - intros [= <-]. simpl. repeat split; try assumption; try discriminate;
      intros; assumption.
  - intros [= <-]. simpl. repeat split; try assumption; try discriminate;
      intros; assumption.
  - intros [= <-]. simpl. repeat split; try assumption; try discriminate;
      intros; assumption.
  - intros [= <-]. simpl. unfold BackingTrack.destroy, BackingTrack.stop.
    destruct (BackingTrack.destroyed s) eqn:Hd.
    + rewrite Hd. repeat split; try assumption; intros; reflexivity.
    + cbv zeta. simpl. destruct (negb _); simpl;
        repeat split; try (intros; reflexivity); congruence.
  - destruct (BackingTrack.schedulerInterval s).
    + destruct (BackingTrack.schedule fuel now s) as [s'|] eqn:Hs; [|discriminate].
      intros [= <-]. simpl.
      assert (Hloop : forall fuel s0 s1,
        BackingTrack.scheduleLoop fuel (now + BackingTrack.LOOKAHEAD_SECONDS) s0
          = Some s1 ->
        BackingTrack.destroyed s1 = BackingTrack.destroyed s0 /\
        BackingTrack.masterGainDisconnects s1 =
          BackingTrack.masterGainDisconnects s0 /\
        BackingTrack.compressorDisconnects s1 =
          BackingTrack.compressorDisconnects s0).
      { clear. induction fuel as [|fuel IH]; intros s0 s1; simpl;
          destruct Rlt_dec; try discriminate;
          try (intros [= <-]; repeat split; reflexivity).
        intros H. destruct (IH _ _ H) as (I1 & I2 & I3).
        destruct (scheduleBeat_counters s0) as (C1 & C2 & C3).
        cbv zeta in *. repeat split; congruence. }
      destruct (Hloop _ _ _ Hs) as (L1 & L2 & L3).
      rewrite L1, L2, L3. repeat split; try assumption; try discriminate;
        intros; assumption.
    + intros [= <-]. simpl. repeat split; try assumption; try discriminate;
        intros; assumption.
  - intros [= <-]. simpl. repeat split; try assumption; try discriminate;
      intros; assumption.
Qed.

Lemma disconnectedOnce_run (fuel : nat) (evs : list BackingTrack.Event)
  (s s' : BackingTrack.t) :
  disconnectedOnce s -> BackingTrack.run fuel evs s = Some s' ->
  disconnectedOnce s' /\
  (BackingTrack.destroyed s = true \/ In BackingTrack.Destroy evs ->
   BackingTrack.destroyed s' = true).
Proof.
  revert s. induction evs as [|ev evs IH]; intros s Hinv; simpl.
  - intros [= <-]. split; [exact Hinv|]. intros [H|[]]. exact H.
  - destruct (BackingTrack.step fuel ev s) as [c|] eqn:Hstep; [|discriminate].
    intros Hrun.
    destruct (disconnectedOnce_step _ _ _ _ Hinv Hstep) as (Hinv' & Hd & Hev).
    destruct (IH _ Hinv' Hrun) as [Hinv'' Hd']. split; [exact Hinv''|].
    intros [H|[H|H]]; apply Hd'; auto.
Qed.

(** C5.  [destroy()] is idempotent for both classes: a further call
    changes nothing (and, the methods being total, returns normally).  A
    Synth never closes its AudioContext more than once and not before it is
    destroyed, and when the engine of a live Synth is there, the first
    [destroy()] closes it and AudioContext.close has been called exactly
    once after any calls that follow, further [destroy()] included.  A
    BackingTrack has called [disconnect()] on its master gain and on its
    compressor exactly once if it is destroyed and never otherwise, after
    any sequence of events; once [destroy()] is among them it is destroyed. *)
Theorem C5_destroy_idempotent :
  (forall s, Synth.destroy (Synth.destroy s) = Synth.destroy s) /\
  (forall config cs,
     let s := Synth.calls cs (Synth.new config) in
     (WebAudio.closeCalls (Synth.engine s) <= 1)%nat /\
     (Synth.destroyed s = false ->
      WebAudio.closeCalls (Synth.engine s) = 0%nat)) /\
  (forall config cs1 cs2,
     let s1 := Synth.calls cs1 (Synth.new config) in
     Synth.destroyed s1 = false -> Synth.audioContext s1 = true ->
     WebAudio.closeCalls
       (Synth.engine (Synth.calls (Synth.Destroy :: cs2) s1)) = 1%nat) /\
  (forall s fuel,
     BackingTrack.destroy (BackingTrack.destroy s) = BackingTrack.destroy s /\
     BackingTrack.step fuel BackingTrack.Destroy s =
       Some (Normal (BackingTrack.destroy s))) /\
  (forall config s fuel evs s',
     BackingTrack.new config = Ok s ->
     BackingTrack.run fuel evs s = Some s' ->
     BackingTrack.masterGainDisconnects s' =
       (if BackingTrack.destroyed s' then 1 else 0)%nat /\
     BackingTrack.compressorDisconnects s' =
       (if BackingTrack.destroyed s' then 1 else 0)%nat /\
     (In BackingTrack.Destroy evs -> BackingTrack.destroyed s' = true)).
Proof.
  split; [exact Synth_destroy_idempotent|].
  split.
  { intros config cs s.
    assert (H : closedOnce s).
    { apply calls_invariant; [apply closedOnce_new|].
      intros c s0. apply closedOnce_call. }
    destruct H as (_ & H2 & H3). split; assumption. }
  split.
  { intros config cs1 cs2 s1 Hd Hctx.
    assert (H : closedOnce s1).
    { apply calls_invariant; [apply closedOnce_new|].
      intros c s0. apply closedOnce_call. }
    destruct H as (_ & H2 & _).
    rewrite calls_cons. simpl Synth.call.
    destruct (destroy_spec s1 Hd)
      as (S1 & S2 & _ & _ & _ & _ & _ & _ & _ & _ & _ & S12).
    cbv zeta in *.
    destruct (dead_calls cs2 (Synth.destroy s1)) as (_ & E & _);
      [split; assumption|].
    rewrite E, S12, Hctx, H2 by exact Hd. reflexivity. }
  split.
  { intros s fuel. split; [apply BackingTrack_destroy_idempotent|reflexivity]. }
  intros config s fuel evs s' Hnew Hrun.
  assert (Hinv : disconnectedOnce s).
  { apply new_fresh in Hnew as (chords & _ & ->). split; reflexivity. }
  destruct (disconnectedOnce_run _ _ _ _ Hinv Hrun) as [[H1 H2] H3].
  repeat split; try assumption. intros Hin. apply H3. right. exact Hin.
Qed.

(** *** Starting and stopping notes *)

(** The engine references are there whenever the context is. *)
Definition refsOk (s : Synth.t) : Prop :=
  Synth.audioContext s = true ->
  Synth.effectsInputGain s = Some WebAudio.EffectsInputGainNode /\
  Synth.masterGain s = Some WebAudio.MasterGainNode.

Definition clampFrequency (s : Synth.t) (f : R) : R :=
  Math_max Synth.MIN_FREQUENCY
    (Math_min Synth.MAX_FREQUENCY (f * Math_pow 2 (Synth.octaveShift s))).

Lemma noteOff_stops (k : Z) (s : Synth.t) (old : AudioTypes.ActiveNote) :
  Synth.audioContext s = true ->
  Synth.activeNotes s !! k = Some old ->
  WebAudio.stopped (Synth.engine (Synth.noteOff k s)) =
    WebAudio.stopped (Synth.engine s)
    ++ [WebAudio.OscillatorNode (AudioTypes.oscillator old)] /\
  WebAudio.started (Synth.engine (Synth.noteOff k s)) =
    WebAudio.started (Synth.engine s) /\
  WebAudio.nextId (Synth.engine (Synth.noteOff k s)) =
    WebAudio.nextId (Synth.engine s).
Proof.
  intros Hctx Hk. unfold Synth.noteOff. rewrite Hk, Hctx. simpl.
  destruct (Synth.activeVibrato s); simpl; repeat split; reflexivity.
Qed.

Lemma noteOn_spec (k : Z) (f : R) (s : Synth.t) :
  Synth.destroyed s = false -> refsOk s ->
  let s1 := Synth.ensureAudioContext s in
  let s' := Synth.noteOn k f s in
  Synth.audioContext s' = true /\ refsOk s' /\
  exists note,
    Synth.activeNotes s' = <[k := note]> (Synth.activeNotes s) /\
    AudioTypes.frequency note = clampFrequency s f /\
    AudioTypes.oscillator note =
      WebAudio.nextId (Synth.engine s1) /\
    WebAudio.started (Synth.engine s') =
      WebAudio.started (Synth.engine s1)
      ++ [WebAudio.OscillatorNode (AudioTypes.oscillator note)] /\
    WebAudio.stopped (Synth.engine s') =
      WebAudio.stopped (Synth.engine s1) ++
      match Synth.activeNotes s !! k with
      | Some old => [WebAudio.OscillatorNode (AudioTypes.oscillator old)]
      | None => []
      end /\
    WebAudio.nextId (Synth.engine s') =
      S (S (WebAudio.nextId (Synth.engine s1))).
Proof.
  intros Hd Hrefs. cbv zeta. unfold Synth.noteOn. rewrite Hd.
  destruct (ensureAudioContext_live s)
    as (Hsame & Hinit & E1 & E2 & E3 & E4 & E5 & E6).
  assert (Hlive : Synth.audioContext (Synth.ensureAudioContext s) = true /\
                  Synth.effectsInputGain (Synth.ensureAudioContext s) =
                    Some WebAudio.EffectsInputGainNode /\
                  Synth.masterGain (Synth.ensureAudioContext s) =
                    Some WebAudio.MasterGainNode).
  { destruct (Synth.audioContext s) eqn:Hctx.
    - rewrite Hsame by reflexivity. destruct (Hrefs Hctx) as [H1 H2].
      repeat split; assumption.
    - destruct (Hinit eq_refl) as (H1 & H2 & H3 & _). repeat split; assumption. }
  destruct Hlive as (L1 & L2 & L3).
  unfold clampFrequency. rewrite <- E4, <- E1.
  set (s1 := Synth.ensureAudioContext s) in *. clearbody s1.
  cbv zeta. rewrite L1, L2.
  destruct (noteOff_frame k s1)
    as (N1 & N2 & N3 & N4 & N5 & N6 & N7 & N8 & N9 & N10 & N11 & N12).
  rewrite L1 in N12.
  destruct (Synth.activeNotes s1 !! k) as [old|] eqn:Hk.
  - rewrite decide_True by eauto.
    destruct (noteOff_stops k s1 old L1 Hk) as (P1 & P2 & P3).
    set (s2 := Synth.noteOff k s1) in *. clearbody s2.
    destruct (Synth.activeVibrato s2); simpl;
      (split; [congruence|]);
      (split; [unfold refsOk; simpl; intros _; split; congruence|]);
      eexists; (split; [rewrite N12; apply insert_delete_eq|]);
      simpl; rewrite ?N7, ?P1, ?P2, ?P3; repeat split; reflexivity.
  - rewrite decide_False by (intros [? ?]; discriminate).
    destruct (Synth.activeVibrato s1); simpl;
      (split; [congruence|]);
      (split; [unfold refsOk; simpl; intros _; split; congruence|]);
      eexists; (split; [reflexivity|]);
      simpl; rewrite ?app_nil_r; repeat split; reflexivity.
Qed.

Definition refs (s : Synth.t) :=
  (Synth.audioContext s, Synth.masterGain s, Synth.effectsInputGain s).

Lemma refs_call (c : Synth.Call) (s : Synth.t) :
  match c with
  | Synth.NoteOn _ _ | Synth.Destroy => True
  | _ => refs (Synth.call c s) = refs s
  end.
Proof.
  destruct (isToggle c) eqn:Htoggle.
  { assert (H : refs (Synth.call c s) = refs s).
    { destruct (toggle_frame c s Htoggle) as [->|(s1 & L1 & _ & _ & L & _)];
        [reflexivity|].
      apply logic_fields in L as (A1 & A2 & A3 & _).
      unfold logic in L1. injection L1 as B1 B2 B3 B4 B5 B6 B7 B8 B9 B10.
      unfold refs. congruence. }
    destruct c; try discriminate Htoggle; exact H. }
  destruct c; try discriminate Htoggle; try exact I; simpl Synth.call; unfold refs.
  - destruct (noteOff_frame noteIndex s) as (N1 & N2 & N3 & _). congruence.
  - destruct (stopAll_frame s) as (N1 & N2 & N3 & _). congruence.
  - reflexivity.
  - unfold Synth.setVolume. cbv zeta. simpl.
    destruct (Synth.masterGain s) eqn:Hm; [destruct (Synth.audioContext s) eqn:Hc|];
      simpl; congruence.
  - unfold Synth.bend.
    destruct (_ !! _); [destruct (Synth.audioContext s) eqn:Hc|];
      simpl; congruence.
  - reflexivity.
Qed.

Lemma refsOk_call (c : Synth.Call) (s : Synth.t) :
  refsOk s -> refsOk (Synth.call c s).
Proof.
  intros Hrefs. pose proof (refs_call c s) as H.
  assert (Hsame : refs (Synth.call c s) = refs s -> refsOk (Synth.call c s)).
  { unfold refs, refsOk in *. intros [= H1 H2 H3]. rewrite H1, H2, H3. exact Hrefs. }
  destruct c; try (apply Hsame; exact H); simpl Synth.call.
  - destruct (Synth.destroyed s) eqn:Hd.
    + unfold Synth.noteOn. rewrite Hd. exact Hrefs.
    + apply (noteOn_spec noteIndex frequency s Hd Hrefs).
  - destruct (Synth.destroyed s) eqn:Hd.
    + unfold Synth.destroy. rewrite Hd. exact Hrefs.
    + destruct (destroy_spec s Hd) as (_ & H2 & _). cbv zeta in H2.
      unfold refsOk. rewrite H2. discriminate.
Qed.

Lemma refsOk_reachable (config : AudioTypes.SynthConfig) (cs : list Synth.Call) :
  refsOk (Synth.calls cs (Synth.new config)).
Proof.
  apply calls_invariant; [|intros c s; apply refsOk_call].
  unfold refsOk. simpl. discriminate.
Qed.

Lemma closedOnce_reachable (config : AudioTypes.SynthConfig) (cs : list Synth.Call) :
  closedOnce (Synth.calls cs (Synth.new config)).
Proof.
  apply calls_invariant; [apply closedOnce_new|intros c s; apply closedOnce_call].
Qed.

(** *** Sounding voices *)

(** The voice oscillator [id] has been started and no stop is scheduled
    for it. *)
Definition sounding (e : WebAudio.Engine) (id : nat) : Prop :=
  WebAudio.OscillatorNode id ∈ WebAudio.started e /\
  WebAudio.OscillatorNode id ∉ WebAudio.stopped e.

(** The engine after is the engine before as far as voices go: the same
    voice oscillators started and stopped, and no identity given back. *)
Definition sameVoices (e e' : WebAudio.Engine) : Prop :=
  (forall id, WebAudio.OscillatorNode id ∈ WebAudio.started e' <->
              WebAudio.OscillatorNode id ∈ WebAudio.started e) /\
  (forall id, WebAudio.OscillatorNode id ∈ WebAudio.stopped e' <->
              WebAudio.OscillatorNode id ∈ WebAudio.stopped e) /\
  (WebAudio.nextId e <= WebAudio.nextId e')%nat.

Lemma sameVoices_refl (e : WebAudio.Engine) : sameVoices e e.
Proof. repeat split; auto. Qed.

Lemma sameVoices_trans (e1 e2 e3 : WebAudio.Engine) :
  sameVoices e1 e2 -> sameVoices e2 e3 -> sameVoices e1 e3.
Proof.
  intros (A1 & A2 & A3) (B1 & B2 & B3). repeat split; intros.
  - apply A1, B1. assumption.
  - apply B1, A1. assumption.
  - apply A2, B2. assumption.
  - apply B2, A2. assumption.
  - lia.
Qed.

Lemma sameVoices_sounding (e e' : WebAudio.Engine) (id : nat) :
  sameVoices e e' -> (sounding e' id <-> sounding e id).
Proof.
  intros (A1 & A2 & _). unfold sounding. rewrite A1, A2. reflexivity.
Qed.

Lemma sameVoices_machinery :
  (forall s, sameVoices (Synth.engine s) (Synth.engine (Synth.rebuildEffectChain s))) /\
  (forall s, sameVoices (Synth.engine s) (Synth.engine (Synth.ensureAudioContext s))) /\
  (forall s, sameVoices (Synth.engine s) (Synth.engine (Synth.cleanupAllEffects s))) /\
  (forall s c, isToggle c = true ->
     sameVoices (Synth.engine s) (Synth.engine (Synth.call c s))).
Proof.
  assert (Hc : forall a b e, sameVoices e (WebAudio.connect a b e))
    by (intros; repeat split; simpl; auto).
  assert (Hd : forall a e, sameVoices e (WebAudio.disconnect a e))
    by (intros; repeat split; simpl; auto).
  assert (Hdf : forall a b e, sameVoices e (WebAudio.disconnectFrom a b e))
    by (intros; repeat split; simpl; auto).
  assert (Ha : forall e, sameVoices e (WebAudio.allocate e).2).
  { intros e. repeat split; simpl; auto. }
  assert (Hs : forall u r e,
             sameVoices e (WebAudio.start (WebAudio.UnitNode u r) e)).
  { intros u r e. repeat split; simpl; auto.
    - rewrite elem_of_app, list_elem_of_singleton. intros [H|H]; [exact H|discriminate].
    - intros H. apply elem_of_app. left. exact H. }
  assert (Hp : forall u r e,
             sameVoices e (WebAudio.stop (WebAudio.UnitNode u r) e)).
  { intros u r e. repeat split; simpl; auto.
    - rewrite elem_of_app, list_elem_of_singleton. intros [H|H]; [exact H|discriminate].
    - intros H. apply elem_of_app. left. exact H. }
  assert (Hm : forall v e, sameVoices e (WebAudio.setMasterGainValue v e))
    by (intros; repeat split; simpl; auto).
  split.
  { intros s. exact (Rel_rebuildEffectChain sameVoices sameVoices_refl
                       sameVoices_trans Hc Hd Ha Hs Hp s). }
  split.
  { intros s. exact (Rel_ensureAudioContext sameVoices sameVoices_refl
                       sameVoices_trans Hc Hd Ha Hs Hp Hm s). }
  split.
  { intros s. exact (Rel_cleanupAllEffects sameVoices sameVoices_refl
                       sameVoices_trans Hd Hp s). }
  intros s c Hc'.
  destruct (Rel_toggles sameVoices sameVoices_refl sameVoices_trans
              Hc Hd Hdf Ha Hs Hp s) as (T1 & T2 & T3 & T4 & T5).
  destruct c; try discriminate Hc'; simpl; auto.
Qed.

(** The voice table and the sounding voices agree: an oscillator sounds
    exactly when the table records it, under one key only; identities are
    fresh; and without an engine the table is empty. *)
Definition voicesOk (s : Synth.t) : Prop :=
  (forall id,
     sounding (Synth.engine s) id <->
     exists k n, Synth.activeNotes s !! k = Some n /\
                 AudioTypes.oscillator n = id) /\
  (forall k1 k2 n1 n2,
     Synth.activeNotes s !! k1 = Some n1 ->
     Synth.activeNotes s !! k2 = Some n2 ->
     AudioTypes.oscillator n1 = AudioTypes.oscillator n2 -> k1 = k2) /\
  (forall id,
     WebAudio.OscillatorNode id ∈ WebAudio.started (Synth.engine s) \/
     WebAudio.OscillatorNode id ∈ WebAudio.stopped (Synth.engine s) ->
     (id < WebAudio.nextId (Synth.engine s))%nat) /\
  (Synth.audioContext s = false -> Synth.activeNotes s = ∅).

Lemma voicesOk_same (s s' : Synth.t) :
  voicesOk s ->
  sameVoices (Synth.engine s) (Synth.engine s') ->
  Synth.activeNotes s' = Synth.activeNotes s ->
  (Synth.audioContext s' = false -> Synth.audioContext s = false) ->
  voicesOk s'.
Proof.
  intros (V1 & V2 & V3 & V4) Hsame Hnotes Hctx.
  pose proof Hsame as (A1 & A2 & A3).
  split; [|split; [|split]].
  - intros id. rewrite (sameVoices_sounding _ _ id Hsame), Hnotes. apply V1.
  - rewrite Hnotes. apply V2.
  - intros id Hid. rewrite A1, A2 in Hid. apply V3 in Hid. lia.
  - intros H. rewrite Hnotes. apply V4, Hctx, H.
Qed.

Lemma voicesOk_recorded (s : Synth.t) (k : Z) (n : AudioTypes.ActiveNote) :
  voicesOk s -> Synth.activeNotes s !! k = Some n ->
  sounding (Synth.engine s) (AudioTypes.oscillator n) /\
  (AudioTypes.oscillator n < WebAudio.nextId (Synth.engine s))%nat.
Proof.
  intros (V1 & _ & V3 & _) Hk.
  assert (Hs : sounding (Synth.engine s) (AudioTypes.oscillator n))
    by (apply V1; eauto).
  split; [exact Hs|]. apply V3. left. apply Hs.
Qed.

Lemma voicesOk_noteOff (k : Z) (s : Synth.t) :
  voicesOk s -> voicesOk (Synth.noteOff k s).
Proof.
  intros Hok.
  destruct (Synth.activeNotes s !! k) as [old|] eqn:Hk;
    [|unfold Synth.noteOff; rewrite Hk; exact Hok].
  destruct (Synth.audioContext s) eqn:Hctx;
    [|rewrite noteOff_dead by exact Hctx; exact Hok].
  destruct (noteOff_stops k s old Hctx Hk) as (P1 & P2 & P3).
  destruct (noteOff_frame k s) as (N1 & _ & _ & _ & _ & _ & _ & _ & _ & _ & _ & N12).
  rewrite Hctx in N12.
  destruct (voicesOk_recorded s k old Hok Hk) as [Hold Hfresh].
  destruct Hok as (V1 & V2 & V3 & V4).
  set (s' := Synth.noteOff k s) in *. clearbody s'.
  split; [|split; [|split]].
  - intros id. unfold sounding. rewrite P1, P2, N12.
    rewrite not_elem_of_app, list_elem_of_singleton. split.
    + intros (Hst & Hnst & Hne).
      destruct (proj1 (V1 id) (conj Hst Hnst)) as (k' & n & Hk' & Hn).
      exists k', n. split; [|exact Hn].
      apply lookup_delete_Some. split; [|exact Hk'].
      intros ->. rewrite Hk in Hk'. injection Hk' as <-. congruence.
    + intros (k' & n & Hk' & Hn).
      apply lookup_delete_Some in Hk' as [Hne Hk'].
      destruct (proj2 (V1 id) (ex_intro _ k' (ex_intro _ n (conj Hk' Hn))))
        as [Hst Hnst].
      repeat split; try assumption.
      intros [= Heq]. apply Hne. apply (V2 k k' old n Hk Hk'). congruence.
  - intros k1 k2 n1 n2. rewrite N12.
    rewrite !lookup_delete_Some. intros [_ H1] [_ H2]. apply V2; assumption.
  - intros id. rewrite P1, P2, P3, elem_of_app, list_elem_of_singleton.
    intros [H|[H|H]].
    + apply V3. left. exact H.
    + apply V3. right. exact H.
    + injection H as ->. exact Hfresh.
  - rewrite N1. intros H. congruence.
Qed.

Lemma voicesOk_stopAll (s : Synth.t) : voicesOk s -> voicesOk (Synth.stopAll s).
Proof.
  unfold Synth.stopAll.
  generalize (map fst (map_to_list (Synth.activeNotes s))). intros ks.
  revert s. induction ks as [|k ks IH]; intros s Hok; simpl; [exact Hok|].
  apply IH, voicesOk_noteOff, Hok.
Qed.

Lemma voicesOk_ensureAudioContext (s : Synth.t) :
  voicesOk s -> voicesOk (Synth.ensureAudioContext s).
Proof.
  intros Hok.
  destruct (ensureAudioContext_live s) as (Hsame & Hinit & E1 & _).
  destruct sameVoices_machinery as (_ & Hens & _).
  apply (voicesOk_same s); [exact Hok|apply Hens|exact E1|].
  destruct (Synth.audioContext s) eqn:Hctx; [|reflexivity].
  rewrite Hsame by reflexivity. rewrite Hctx. discriminate.
Qed.

Lemma voicesOk_noteOn (k : Z) (f : R) (s : Synth.t) :
  refsOk s -> voicesOk s -> voicesOk (Synth.noteOn k f s).
Proof.
  intros Hrefs Hok.
  destruct (Synth.destroyed s) eqn:Hd;
    [unfold Synth.noteOn; rewrite Hd; exact Hok|].
  destruct (noteOn_spec k f s Hd Hrefs)
    as (Hctx & _ & note & Hnotes & _ & Hosc & Hst & Hsp & Hnext).
  cbv zeta in *.
  pose proof (voicesOk_ensureAudioContext s Hok) as Hok1.
  destruct (ensureAudioContext_live s) as (_ & _ & E1 & _).
  set (s1 := Synth.ensureAudioContext s) in *. clearbody s1.
  set (s' := Synth.noteOn k f s) in *. clearbody s'.
  rewrite <- E1 in Hnotes, Hsp.
  assert (Hold : forall old,
    Synth.activeNotes s1 !! k = Some old ->
    sounding (Synth.engine s1) (AudioTypes.oscillator old) /\
    (AudioTypes.oscillator old < WebAudio.nextId (Synth.engine s1))%nat).
  { intros old. apply voicesOk_recorded, Hok1. }
  destruct Hok1 as (V1 & V2 & V3 & _).
  assert (Hfresh : ~ WebAudio.OscillatorNode (AudioTypes.oscillator note)
                      ∈ WebAudio.started (Synth.engine s1) /\
                   ~ WebAudio.OscillatorNode (AudioTypes.oscillator note)
                      ∈ WebAudio.stopped (Synth.engine s1)).
  { split; intros H; [assert (H' := V3 _ (or_introl H))
                     |assert (H' := V3 _ (or_intror H))]; lia. }
  destruct Hfresh as [Hf1 Hf2].
  assert (Hstopped : forall id,
    WebAudio.OscillatorNode id ∈ WebAudio.stopped (Synth.engine s') <->
    WebAudio.OscillatorNode id ∈ WebAudio.stopped (Synth.engine s1) \/
    exists old, Synth.activeNotes s1 !! k = Some old /\
                id = AudioTypes.oscillator old).
  { intros id. rewrite Hsp, elem_of_app.
    destruct (Synth.activeNotes s1 !! k) as [old|].
    - rewrite list_elem_of_singleton. split.
      + intros [H|[= ->]]; [left; exact H|right; eauto].
      + intros [H|(o & [= <-] & ->)]; [left; exact H|right; reflexivity].
    - split.
      + intros [H|H]; [left; exact H|inversion H].
      + intros [H|(o & [=] & _)]. left. exact H. }
  split; [|split; [|split]].
  - intros id. unfold sounding. rewrite Hstopped, Hst, Hnotes.
    rewrite elem_of_app, list_elem_of_singleton. split.
    + intros [[Hin|Heq] Hns].
      * assert (Hs1 : sounding (Synth.engine s1) id).
        { split; [exact Hin|]. intros H. apply Hns. left. exact H. }
        apply V1 in Hs1 as (k' & n & Hk' & Hn).
        exists k', n. split; [|exact Hn].
        rewrite lookup_insert_ne; [exact Hk'|].
        intros <-. apply Hns. right. exists n. split; [exact Hk'|congruence].
      * injection Heq as ->. exists k, note.
        split; [apply lookup_insert_eq|reflexivity].
    + intros (k' & n & Hk' & Hn).
      destruct (decide (k = k')) as [<-|Hne].
      * rewrite lookup_insert_eq in Hk'. injection Hk' as <-. subst id.
        split; [right; reflexivity|].
        intros [H|(old & Ho & Heq)]; [contradiction|].
        destruct (Hold old Ho) as [_ Hlt]. lia.
      * rewrite lookup_insert_ne in Hk' by exact Hne.
        assert (Hs1 : sounding (Synth.engine s1) id) by (apply V1; eauto).
        split; [left; apply Hs1|].
        intros [H|(old & Ho & Heq)]; [apply Hs1, H|].
        apply Hne. apply (V2 k k' old n Ho Hk'). congruence.
  - intros k1 k2 n1 n2. rewrite Hnotes. intros H1 H2 Heq.
    destruct (decide (k = k1)) as [<-|Hne1];
      destruct (decide (k = k2)) as [<-|Hne2]; try reflexivity.
    + rewrite lookup_insert_eq in H1. injection H1 as <-.
      rewrite lookup_insert_ne in H2 by exact Hne2.
      assert (Hlt : (AudioTypes.oscillator n2
                     < WebAudio.nextId (Synth.engine s1))%nat).
      { apply V3. left. apply (proj2 (V1 _)). eauto. }
      lia.
    + rewrite lookup_insert_eq in H2. injection H2 as <-.
      rewrite lookup_insert_ne in H1 by exact Hne1.
      assert (Hlt : (AudioTypes.oscillator n1
                     < WebAudio.nextId (Synth.engine s1))%nat).
      { apply V3. left. apply (proj2 (V1 _)). eauto. }
      lia.
    + rewrite lookup_insert_ne in H1 by exact Hne1.
      rewrite lookup_insert_ne in H2 by exact Hne2.
      apply (V2 k1 k2 n1 n2); assumption.
  - intros id. rewrite Hstopped, Hst, Hnext, elem_of_app, list_elem_of_singleton.
    intros [[H|H]|[H|(old & Ho & ->)]].
    + assert (H' := V3 _ (or_introl H)). lia.
    + injection H as ->. lia.
    + assert (H' := V3 _ (or_intror H)). lia.
    + destruct (Hold old Ho) as [_ Hlt]. lia.
  - rewrite Hctx. discriminate.
Qed.

Lemma destroy_engine (s : Synth.t) :
  Synth.destroyed s = false ->
  let s3 :=
    Synth.cleanupAllEffects (Synth.stopAll (Synth.withDestroyed true s)) in
  Synth.engine (Synth.destroy s) =
  if Synth.audioContext s then WebAudio.close (Synth.engine s3)
  else Synth.engine s3.
Proof.
  intros Hd. unfold Synth.destroy. rewrite Hd. cbv zeta.
  destruct (stopAll_frame (Synth.withDestroyed true s)) as (A1 & _).
  set (s2 := Synth.stopAll (Synth.withDestroyed true s)) in *.
  assert (Hctx3 : Synth.audioContext (Synth.cleanupAllEffects s2) =
                  Synth.audioContext s) by exact A1.
  set (s3 := Synth.cleanupAllEffects s2) in *. clearbody s3.
  rewrite Hctx3. destruct (Synth.audioContext s); reflexivity.
Qed.

Lemma voicesOk_destroy (s : Synth.t) : voicesOk s -> voicesOk (Synth.destroy s).
Proof.
  intros Hok.
  destruct (Synth.destroyed s) eqn:Hd;
    [unfold Synth.destroy; rewrite Hd; exact Hok|].
  destruct (destroy_spec s Hd) as (_ & Hctx & _ & _ & _ & Hnotes & _).
  pose proof (destroy_engine s Hd) as Heng. cbv zeta in *.
  assert (Hok1 : voicesOk (Synth.withDestroyed true s)).
  { apply (voicesOk_same s); [exact Hok|apply sameVoices_refl|reflexivity|].
    intros H. exact H. }
  pose proof (voicesOk_stopAll _ Hok1) as Hok2.
  assert (Hempty : Synth.activeNotes (Synth.stopAll (Synth.withDestroyed true s)) = ∅).
  { destruct (Synth.audioContext s) eqn:Hc.
    - apply stopAll_empties. exact Hc.
    - rewrite stopAll_dead by exact Hc. apply Hok1. exact Hc. }
  destruct sameVoices_machinery as (_ & _ & Hclean & _).
  specialize (Hclean (Synth.stopAll (Synth.withDestroyed true s))).
  set (s2 := Synth.stopAll (Synth.withDestroyed true s)) in *. clearbody s2.
  assert (Hsame : sameVoices (Synth.engine s2) (Synth.engine (Synth.destroy s))).
  { rewrite Heng. destruct (Synth.audioContext s); [|exact Hclean].
    eapply sameVoices_trans; [exact Hclean|]. repeat split; simpl; auto. }
  set (s' := Synth.destroy s) in *. clearbody s'.
  destruct Hok2 as (V1 & V2 & V3 & V4). pose proof Hsame as (A1 & A2 & A3).
  split; [|split; [|split]].
  - intros id. rewrite (sameVoices_sounding _ _ id Hsame), V1, Hnotes, Hempty.
    reflexivity.
  - intros k1 k2 n1 n2. rewrite Hnotes, lookup_empty. discriminate.
  - intros id. rewrite A1, A2. intros H. apply V3 in H. lia.
  - intros _. exact Hnotes.
Qed.

Lemma voicesOk_call (c : Synth.Call) (s : Synth.t) :
  refsOk s -> voicesOk s -> voicesOk (Synth.call c s).
Proof.
  intros Hrefs Hok.
  destruct (isToggle c) eqn:Htoggle.
  { destruct sameVoices_machinery as (_ & _ & _ & Ht).
    assert (Hr : refs (Synth.call c s) = refs s).
    { pose proof (refs_call c s) as H.
      destruct c; try discriminate Htoggle; exact H. }
    assert (Hn : Synth.activeNotes (Synth.call c s) = Synth.activeNotes s).
    { destruct (toggle_frame c s Htoggle) as [->|(s1 & L1 & _ & _ & L & _)];
        [reflexivity|].
      apply logic_fields in L as (_ & _ & _ & A4 & _).
      unfold logic in L1. injection L1 as B1 B2 B3 B4 B5 B6 B7 B8 B9 B10.
      congruence. }
    apply (voicesOk_same s); [exact Hok|apply Ht, Htoggle|exact Hn|].
    unfold refs in Hr. injection Hr as -> _ _. intros H; exact H. }
  destruct c; try discriminate Htoggle; simpl Synth.call.
  - apply voicesOk_noteOn; assumption.
  - apply voicesOk_noteOff, Hok.
  - apply voicesOk_stopAll, Hok.
  - apply (voicesOk_same s); [exact Hok|apply sameVoices_refl|reflexivity|].
    intros H; exact H.
  - destruct (setVolume_frame value s) as (_ & F2 & F3 & _).
    apply (voicesOk_same s); [exact Hok| |exact F3|rewrite F2; intros H; exact H].
    unfold Synth.setVolume. cbv zeta. simpl.
    destruct (Synth.masterGain s); [destruct (Synth.audioContext s)|];
      repeat split; simpl; auto.
  - destruct (bend_frame noteIndex cents s) as (_ & F2 & F3 & _).
    apply (voicesOk_same s); [exact Hok| |exact F3|rewrite F2; intros H; exact H].
    unfold Synth.bend.
    destruct (_ !! _); [destruct (Synth.audioContext s)|];
      repeat split; simpl; auto.
  - apply (voicesOk_same s); [exact Hok|apply sameVoices_refl|reflexivity|].
    intros H; exact H.
  - apply voicesOk_destroy, Hok.
Qed.

Lemma voicesOk_reachable (config : AudioTypes.SynthConfig) (cs : list Synth.Call) :
  voicesOk (Synth.calls cs (Synth.new config)).
Proof.
  assert (H : refsOk (Synth.calls cs (Synth.new config)) /\
              voicesOk (Synth.calls cs (Synth.new config))).
  { apply (calls_invariant (fun s => refsOk s /\ voicesOk s)).
    - split; [unfold refsOk; simpl; discriminate|].
      split; [|split; [|split]]; simpl.
      + intros id. unfold sounding. simpl. split.
        * intros [H _]. inversion H.
        * intros (k & n & H & _). rewrite lookup_empty in H. discriminate.
      + intros k1 k2 n1 n2. rewrite lookup_empty. discriminate.
      + intros id [H|H]; inversion H.
      + reflexivity.
    - intros c s [H1 H2]. split; [apply refsOk_call, H1|].
      apply voicesOk_call; assumption. }
  apply H.
Qed.

Lemma noteOn_count (k : Z) (f : R) (s : Synth.t) :
  (Synth.getActiveNoteCount (Synth.noteOn k f s)
   <= S (Synth.getActiveNoteCount s))%nat.
Proof.
  unfold Synth.getActiveNoteCount, Synth.noteOn.
  destruct (Synth.destroyed s); [lia|]. cbv zeta.
  destruct (ensureAudioContext_live s) as (_ & _ & E1 & _).
  rewrite <- E1. set (s1 := Synth.ensureAudioContext s). clearbody s1.
  destruct (Synth.audioContext s1) eqn:Hctx; [|lia].
  destruct (Synth.effectsInputGain s1) as [effectsInput|]; [|lia].
  destruct (noteOff_frame k s1)
    as (_ & _ & _ & _ & _ & _ & _ & _ & _ & _ & _ & N12).
  rewrite Hctx in N12.
  destruct (decide (is_Some (Synth.activeNotes s1 !! k))) as [Hsome|Hnone].
  - set (s2 := Synth.noteOff k s1) in *. clearbody s2.
    destruct (Synth.activeVibrato s2); simpl;
      rewrite N12, insert_delete_eq, map_size_insert;
      destruct (_ !! _); simpl; lia.
  - destruct (Synth.activeVibrato s1); simpl;
      rewrite map_size_insert; destruct (_ !! _); simpl; lia.
Qed.

(** C3.  In every state a Synth reaches, the voice table and the sounding
    voices agree: an oscillator has been started without a stop scheduled
    exactly when the table records it, and it records it under one key
    only, so each key has at most one sounding voice.  On an instance that
    is not destroyed, [noteOn(k, f1)] followed by [noteOn(k, f2)] leaves the
    second note alone under [k], with the clamped frequency of [f2]: the
    oscillator of the first has its stop scheduled and no longer sounds, the
    oscillator of the second sounds, the other keys keep their notes and the
    count of active notes is what it was after the first call.  And no
    [noteOn] raises the count by more than one. *)
Theorem C3_one_voice_per_key :
  (forall config cs,
     let s := Synth.calls cs (Synth.new config) in
     (forall id,
        sounding (Synth.engine s) id <->
        exists k n, Synth.activeNotes s !! k = Some n /\
                    AudioTypes.oscillator n = id) /\
     (forall k1 k2 n1 n2,
        Synth.activeNotes s !! k1 = Some n1 ->
        Synth.activeNotes s !! k2 = Some n2 ->
        AudioTypes.oscillator n1 = AudioTypes.oscillator n2 -> k1 = k2) /\
     (Synth.destroyed s = false ->
      forall k f1 f2,
        let s1 := Synth.noteOn k f1 s in
        let s2 := Synth.noteOn k f2 s1 in
        exists n1 n2,
          Synth.activeNotes s1 !! k = Some n1 /\
          Synth.activeNotes s2 !! k = Some n2 /\
          Synth.activeNotes s2 = <[k := n2]> (Synth.activeNotes s1) /\
          AudioTypes.frequency n2 = clampFrequency s f2 /\
          AudioTypes.oscillator n1 <> AudioTypes.oscillator n2 /\
          WebAudio.OscillatorNode (AudioTypes.oscillator n1)
            ∈ WebAudio.stopped (Synth.engine s2) /\
          ~ sounding (Synth.engine s2) (AudioTypes.oscillator n1) /\
          sounding (Synth.engine s2) (AudioTypes.oscillator n2) /\
          Synth.getActiveNoteCount s2 = Synth.getActiveNoteCount s1)) /\
  (forall s k f,
     (Synth.getActiveNoteCount (Synth.noteOn k f s)
      <= S (Synth.getActiveNoteCount s))%nat).
Proof.
  split; [|intros s k f; apply noteOn_count].
  intros config cs s.
  pose proof (voicesOk_reachable config cs) as Hok.
  pose proof (refsOk_reachable config cs) as Hrefs.
  fold s in Hok, Hrefs. clearbody s.
  split; [apply Hok|]. split; [apply Hok|].
  intros Hd k f1 f2 s1 s2.
  destruct (noteOn_spec k f1 s Hd Hrefs)
    as (Hctx1 & Hrefs1 & n1 & Hnotes1 & _).
  destruct (noteOn_frame k f1 s) as (Hd1 & _ & Hshift & _).
  cbv zeta in *. fold s1 in Hctx1, Hrefs1, Hnotes1, Hd1, Hshift.
  rewrite Hd in Hd1.
  assert (Hok1 : voicesOk s1) by (apply voicesOk_noteOn; assumption).
  assert (Hok2 : voicesOk s2) by (apply voicesOk_noteOn; assumption).
  destruct (noteOn_spec k f2 s1 Hd1 Hrefs1)
    as (_ & _ & n2 & Hnotes2 & Hfreq & Hosc & _ & Hsp & _).
  cbv zeta in *. fold s2 in Hnotes2, Hsp.
  assert (Hk1 : Synth.activeNotes s1 !! k = Some n1).
  { rewrite Hnotes1. apply lookup_insert_eq. }
  assert (Hk2 : Synth.activeNotes s2 !! k = Some n2).
  { rewrite Hnotes2. apply lookup_insert_eq. }
  rewrite Hk1 in Hsp.
  assert (Hstop : WebAudio.OscillatorNode (AudioTypes.oscillator n1)
                    ∈ WebAudio.stopped (Synth.engine s2)).
  { rewrite Hsp. apply elem_of_app. right. left. }
  exists n1, n2. split; [exact Hk1|]. split; [exact Hk2|].
  split; [exact Hnotes2|].
  split; [unfold clampFrequency in *; rewrite Hfreq, Hshift; reflexivity|].
  assert (Hns : ~ sounding (Synth.engine s2) (AudioTypes.oscillator n1)).
  { intros [_ H]. apply H, Hstop. }
  assert (Hs2 : sounding (Synth.engine s2) (AudioTypes.oscillator n2)).
  { apply Hok2. eauto. }
  split; [intros Heq; apply Hns; rewrite Heq; exact Hs2|].
  split; [exact Hstop|]. split; [exact Hns|]. split; [exact Hs2|].
  unfold Synth.getActiveNoteCount. rewrite Hnotes2, map_size_insert, Hk1.
  reflexivity.
Qed.

(** C3 on a new Synth with the vibrato switched on and a note sounding at
    key 1: two notes started at key 0. *)
Lemma C3_one_voice_per_key_witness :
  let s :=
    Synth.calls [Synth.ToggleVibrato true; Synth.NoteOn 1 330]
      (Synth.new AudioTypes.noSynthConfig) in
  let s1 := Synth.noteOn 0 440 s in
  let s2 := Synth.noteOn 0 880 s1 in
  Synth.destroyed s = false /\
  exists n1 n2,
    Synth.activeNotes s1 !! 0%Z = Some n1 /\
    Synth.activeNotes s2 !! 0%Z = Some n2 /\
    WebAudio.OscillatorNode (AudioTypes.oscillator n1)
      ∈ WebAudio.stopped (Synth.engine s2) /\
    Synth.getActiveNoteCount s2 = Synth.getActiveNoteCount s1.
Proof.
  intros s s1 s2.
  assert (Hd : Synth.destroyed s = false).
  { subst s. unfold Synth.calls. cbn [fold_left].
    destruct (call_frame (Synth.NoteOn 1 330)
                (Synth.call (Synth.ToggleVibrato true)
                   (Synth.new AudioTypes.noSynthConfig))) as [H _];
      [discriminate|].
    rewrite H. reflexivity. }
  split; [exact Hd|].
  destruct C3_one_voice_per_key as [H _].
  destruct (H AudioTypes.noSynthConfig
              [Synth.ToggleVibrato true; Synth.NoteOn 1 330])
    as (_ & _ & H3).
  destruct (H3 Hd 0%Z 440 880)
    as (n1 & n2 & A1 & A2 & _ & _ & _ & A6 & _ & _ & A9).
  exists n1, n2.
  exact (conj A1 (conj A2 (conj A6 A9))).
Defined.

(** C5 on a Synth that plays a note and is destroyed three times with a
    volume change in between, and on a default BackingTrack that is played
    and destroyed twice. *)
Lemma C5_destroy_idempotent_witness :
  WebAudio.closeCalls
    (Synth.engine
       (Synth.calls
          [Synth.Destroy; Synth.Destroy; Synth.SetVolume 1; Synth.Destroy]
          (Synth.calls [Synth.NoteOn 0 440]
             (Synth.new AudioTypes.noSynthConfig)))) = 1%nat /\
  exists s s',
    BackingTrack.new (configOf 120 AudioTypes.quarter 0) = Ok s /\
    BackingTrack.run 0
      [BackingTrack.Play 0; BackingTrack.Destroy; BackingTrack.Destroy] s
      = Some s' /\
    BackingTrack.masterGainDisconnects s' = 1%nat /\
    BackingTrack.compressorDisconnects s' = 1%nat.
Proof.
  destruct C5_destroy_idempotent as (_ & _ & HS & _ & HB).
  split.
  - apply (HS AudioTypes.noSynthConfig [Synth.NoteOn 0 440]
             [Synth.Destroy; Synth.SetVolume 1; Synth.Destroy]).
    + reflexivity.
    + apply (noteOn_spec 0 440 (Synth.new AudioTypes.noSynthConfig)).
      * reflexivity.
      * unfold refsOk. simpl. discriminate.
  - destruct (new_configOf 120 AudioTypes.quarter 0) as (chord & Hnew & _).
    assert (Hrun : exists s',
      BackingTrack.run 0
        [BackingTrack.Play 0; BackingTrack.Destroy; BackingTrack.Destroy]
        (freshTrack (configOf 120 AudioTypes.quarter 0) [chord]) = Some s' /\
      BackingTrack.destroyed s' = true).
    { eexists. split; [repeat run_event; reflexivity|reflexivity]. }
    destruct Hrun as (s' & Hrun & Hd).
    eexists. exists s'. split; [exact Hnew|]. split; [exact Hrun|].
    destruct (HB _ _ _ _ _ Hnew Hrun) as (H1 & H2 & _).
    rewrite Hd in H1, H2. split; assumption.
Defined.

(** ** Calls on a destroyed instance *)

(** The claim of the specification on a Synth destroyed right after its
    construction: [setVolume(1)] changes what [getVolume()] returns, from
    0.5 to 1. *)
Lemma C4_counterexample_setVolume :
  let s := Synth.destroy (Synth.new AudioTypes.noSynthConfig) in
  Synth.isDestroyed s = true /\
  Synth.observe (Synth.call (Synth.SetVolume 1) s) <> Synth.observe s.
Proof.
  cbv zeta. split; [reflexivity|].
  intros H. apply (f_equal Synth.obs_volume) in H.
  unfold Synth.observe in H. cbn [Synth.obs_volume Synth.call] in H.
  rewrite getVolume_setVolume in H.
  assert (H1 : Synth.clampVolume 1 = 1).
  { unfold Synth.clampVolume. apply clamp_hi; lra. }
  assert (H2 : Synth.getVolume (Synth.destroy (Synth.new AudioTypes.noSynthConfig))
               = 0.5).
  { destruct (destroy_spec (Synth.new AudioTypes.noSynthConfig) eq_refl)
      as (_ & _ & _ & _ & _ & _ & _ & Hv & _).
    cbv zeta in Hv. unfold Synth.getVolume. rewrite Hv. simpl.
    unfold Synth.clampVolume, Synth.DEFAULT_VOLUME.
    destruct (clamp_cases 0 1 0.5) as [[? ->]|[[? ->]|[? ->]]]; lra. }
  rewrite H1, H2 in H. lra.
Qed.

(** The interval timer is registered exactly while the sequencer plays,
    and a destroyed sequencer does not play. *)
Definition timerOk (s : BackingTrack.t) : Prop :=
  BackingTrack.schedulerInterval s = BackingTrack.isPlaying s /\
  (BackingTrack.destroyed s = true -> BackingTrack.isPlaying s = false).

Definition flags (s : BackingTrack.t) :=
  (BackingTrack.isPlaying s, BackingTrack.destroyed s,
   BackingTrack.schedulerInterval s).

Lemma scheduleBeat_flags (s : BackingTrack.t) :
  flags (BackingTrack.scheduleBeat s) = flags s.
Proof.
  unfold BackingTrack.scheduleBeat. cbv zeta.
  generalize (BackingTrack.getNotesForCurrentBeat s). intros notes.
  assert (Hfold : forall s0,
    flags
      (fold_left
         (fun s' note =>
            BackingTrack.playNote (BackingTrack.frequency note)
              (BackingTrack.nextNoteTime s' + BackingTrack.time note)
              (BackingTrack.duration note) s')
         notes s0) = flags s0).
  { induction notes as [|n notes IH]; intros s0; simpl; [reflexivity|].
    rewrite IH. reflexivity. }
  rewrite <- (Hfold s).
  match goal with |- context [BackingTrack.advanceBeat ?x] => generalize x end.
  intros s1. unfold BackingTrack.advanceBeat. cbv zeta.
  destruct Rle_dec; reflexivity.
Qed.

Lemma scheduleLoop_flags (fuel : nat) (lookaheadEnd : R)
  (s s' : BackingTrack.t) :
  BackingTrack.scheduleLoop fuel lookaheadEnd s = Some s' -> flags s' = flags s.
Proof.
  revert s. induction fuel as [|fuel IH]; intros s; simpl;
    destruct Rlt_dec; try discriminate; try (intros [= <-]; reflexivity).
  intros H. rewrite (IH _ H). apply scheduleBeat_flags.
Qed.

Lemma timerOk_step (fuel : nat) (ev : BackingTrack.Event)
  (s : BackingTrack.t) (c : Completion BackingTrack.t) :
  timerOk s -> BackingTrack.step fuel ev s = Some c -> timerOk (stateOf c).
Proof.
  unfold timerOk. intros [Ht Hd].
  destruct ev; simpl.
  - intros [= <-]. simpl. unfold BackingTrack.play.
    destruct (BackingTrack.isPlaying s) eqn:Hp;
      destruct (BackingTrack.destroyed s) eqn:Hd0; simpl;
      rewrite ?Hp, ?Hd0; split; try assumption; try reflexivity; discriminate.
  - intros [= <-]. simpl. unfold BackingTrack.stop.
    destruct (BackingTrack.isPlaying s) eqn:Hp; simpl;
      rewrite ?Hp; split; try assumption; reflexivity.
  - intros [= <-]. simpl. split; assumption.
  - intros [= <-]. unfold BackingTrack.setChords. cbv zeta.
    destruct (BackingTrack.resolveChords _ _); destruct key; simpl;
      split; assumption.
  - intros [= <-]. simpl. split; assumption.
  - intros [= <-]. simpl. split; assumption.
  - intros [= <-]. simpl. split; assumption.
  - intros [= <-]. simpl. unfold BackingTrack.destroy, BackingTrack.stop.
    destruct (BackingTrack.destroyed s) eqn:Hd0.
    + rewrite Hd0. split; assumption.
    + cbv zeta. simpl. destruct (BackingTrack.isPlaying s) eqn:Hp; simpl;
        rewrite ?Hp; split; try assumption; reflexivity.
  - destruct (BackingTrack.schedulerInterval s) eqn:Hi.
    + destruct (BackingTrack.schedule fuel now s) as [s'|] eqn:Hs; [|discriminate].
      intros [= <-]. simpl. apply scheduleLoop_flags in Hs.
      unfold flags in Hs. injection Hs as E1 E2 E3.
      split; [congruence|]. rewrite E2, E1. exact Hd.
    + intros [= <-]. simpl. split; [congruence|exact Hd].
  - intros [= <-]. simpl. split; assumption.
Qed.

Lemma timerOk_run (fuel : nat) (evs : list BackingTrack.Event)
  (s s' : BackingTrack.t) :
  timerOk s -> BackingTrack.run fuel evs s = Some s' -> timerOk s'.
Proof.
  revert s. induction evs as [|ev evs IH]; intros s H; simpl.
  - intros [= <-]. exact H.
  - destruct (BackingTrack.step fuel ev s) as [c|] eqn:Hstep; [|discriminate].
    apply IH. eapply timerOk_step; eauto.
Qed.

(** What the audio engine has received from a sequencer. *)
Definition engineLog (s : BackingTrack.t) :=
  (BackingTrack.voices s, BackingTrack.forcedStops s,
   BackingTrack.masterGainDisconnects s, BackingTrack.compressorDisconnects s).

Lemma destroyed_step (fuel : nat) (ev : BackingTrack.Event) (s : BackingTrack.t) :
  BackingTrack.destroyed s = true -> timerOk s ->
  exists c,
    BackingTrack.step fuel ev s = Some c /\
    engineLog (stateOf c) = engineLog s /\
    BackingTrack.isDestroyed (stateOf c) = true /\
    BackingTrack.isActive (stateOf c) = false /\
    match ev with
    | BackingTrack.Play _ | BackingTrack.Stop | BackingTrack.Destroy
    | BackingTrack.Tick _ => c = Normal s
    | BackingTrack.Ended _ => threw c = false
    | BackingTrack.SetTempo bpm =>
        threw c = false /\
        BackingTrack.observe (stateOf c) =
        {| BackingTrack.obs_tempo := Math_max 20 (Math_min 300 bpm);
           BackingTrack.obs_style := BackingTrack.getStyle s;
           BackingTrack.obs_instrument := BackingTrack.getInstrument s;
           BackingTrack.obs_swing := BackingTrack.getSwing s;
           BackingTrack.obs_chords := BackingTrack.getChords s;
           BackingTrack.obs_active := false;
           BackingTrack.obs_destroyed := true |}
    | BackingTrack.SetStyle style =>
        threw c = false /\
        BackingTrack.observe (stateOf c) =
        {| BackingTrack.obs_tempo := BackingTrack.getTempo s;
           BackingTrack.obs_style := style;
           BackingTrack.obs_instrument := BackingTrack.getInstrument s;
           BackingTrack.obs_swing := BackingTrack.getSwing s;
           BackingTrack.obs_chords := BackingTrack.getChords s;
           BackingTrack.obs_active := false;
           BackingTrack.obs_destroyed := true |}
    | BackingTrack.SetSwing swing =>
        threw c = false /\
        BackingTrack.observe (stateOf c) =
        {| BackingTrack.obs_tempo := BackingTrack.getTempo s;
           BackingTrack.obs_style := BackingTrack.getStyle s;
           BackingTrack.obs_instrument := BackingTrack.getInstrument s;
           BackingTrack.obs_swing := Math_max 0 (Math_min 100 swing);
           BackingTrack.obs_chords := BackingTrack.getChords s;
           BackingTrack.obs_active := false;
           BackingTrack.obs_destroyed := true |}
    | BackingTrack.SetInstrument instrument =>
        threw c = false /\
        BackingTrack.observe (stateOf c) =
        {| BackingTrack.obs_tempo := BackingTrack.getTempo s;
           BackingTrack.obs_style := BackingTrack.getStyle s;
           BackingTrack.obs_instrument := instrument;
           BackingTrack.obs_swing := BackingTrack.getSwing s;
           BackingTrack.obs_chords := BackingTrack.getChords s;
           BackingTrack.obs_active := false;
           BackingTrack.obs_destroyed := true |}
    | BackingTrack.SetChords progression key =>
        match BackingTrack.resolveChords progression
                (default (BackingTrack.key s) key) with
        | Ok chords =>
            threw c = false /\
            BackingTrack.observe (stateOf c) =
            {| BackingTrack.obs_tempo := BackingTrack.getTempo s;
               BackingTrack.obs_style := BackingTrack.getStyle s;
               BackingTrack.obs_instrument := BackingTrack.getInstrument s;
               BackingTrack.obs_swing := BackingTrack.getSwing s;
               BackingTrack.obs_chords := chords;
               BackingTrack.obs_active := false;
               BackingTrack.obs_destroyed := true |}
        | Throw _ =>
            threw c = true /\
            BackingTrack.observe (stateOf c) = BackingTrack.observe s
        end
    end.
Proof.
  intros Hd [Ht Hp]. specialize (Hp Hd). rewrite Hp in Ht.
  destruct s. simpl in Hd, Hp, Ht. subst.
  destruct ev as [now| |bpm|progression newKey|st|sw|ins| |now|osc]; simpl;
    try (eexists; split; [reflexivity|]; repeat split; reflexivity).
  destruct newKey; unfold BackingTrack.setChords; simpl;
    destruct (BackingTrack.resolveChords _ _);
    (eexists; split; [reflexivity|]; repeat split; reflexivity).
Qed.

(** C4 (amended).  On a destroyed instance no call touches the audio
    engine and every call returns, with one exception: [setChords] still
    throws for a chord that does not resolve.  The calls that use the engine
    change nothing at all: [noteOn], [noteOff], [stopAll], [bend] and
    [destroy] of the Synth, and [play], [stop], [destroy] and the timer tick
    of the BackingTrack.  The setters still store their value as on a live
    instance and the getters return it: [setVolume], [setWaveform],
    [setOctaveShift] and the five toggles of the Synth (the active-note count
    stays 0 and the instance destroyed), [setTempo], [setStyle], [setSwing],
    [setInstrument] and a [setChords] that resolves of the BackingTrack (it
    stays destroyed and inactive). *)
Theorem C4_destroyed_instance :
  (forall config cs,
     let s := Synth.calls cs (Synth.new config) in
     Synth.isDestroyed s = true ->
     forall c,
       let s' := Synth.call c s in
       Synth.isDestroyed s' = true /\
       Synth.engine s' = Synth.engine s /\
       Synth.getActiveNoteCount s' = 0%nat /\
       Synth.getActiveNoteCount s = 0%nat /\
       match c with
       | Synth.NoteOn _ _ | Synth.NoteOff _ | Synth.StopAll | Synth.Bend _ _
       | Synth.Destroy => s' = s
       | Synth.SetVolume v => s' = Synth.withVolume (Synth.clampVolume v) s
       | Synth.SetWaveform w => s' = Synth.withWaveform w s
       | Synth.SetOctaveShift x =>
           s' = Synth.withOctaveShift
                  (Math_max Synth.MIN_OCTAVE_SHIFT
                     (Math_min Synth.MAX_OCTAVE_SHIFT x)) s
       | Synth.ToggleDelay b =>
           s' = if Bool.eqb (EffectsState.delay (Synth.effectsState s)) b
                then s else Synth.withEffectsState (Synth.setDelay b) s
       | Synth.ToggleDistortion b =>
           s' = if Bool.eqb (EffectsState.distortion (Synth.effectsState s)) b
                then s else Synth.withEffectsState (Synth.setDistortion b) s
       | Synth.ToggleVibrato b =>
           s' = if Bool.eqb (EffectsState.vibrato (Synth.effectsState s)) b
                then s else Synth.withEffectsState (Synth.setVibrato b) s
       | Synth.ToggleFilter b =>
           s' = if Bool.eqb (EffectsState.filter (Synth.effectsState s)) b
                then s else Synth.withEffectsState (Synth.setFilter b) s
       | Synth.ToggleReverb b =>
           s' = if Bool.eqb (EffectsState.reverb (Synth.effectsState s)) b
                then s else Synth.withEffectsState (Synth.setReverb b) s
       end) /\
  (forall config s0 fuel evs s,
     BackingTrack.new config = Ok s0 ->
     BackingTrack.run fuel evs s0 = Some s ->
     BackingTrack.isDestroyed s = true ->
     forall fuel' ev,
     exists c,
       BackingTrack.step fuel' ev s = Some c /\
       engineLog (stateOf c) = engineLog s /\
       BackingTrack.isDestroyed (stateOf c) = true /\
       BackingTrack.isActive (stateOf c) = false /\
       match ev with
       | BackingTrack.Play _ | BackingTrack.Stop | BackingTrack.Destroy
       | BackingTrack.Tick _ => c = Normal s
       | BackingTrack.Ended _ => threw c = false
       | BackingTrack.SetTempo bpm =>
           threw c = false /\
           BackingTrack.observe (stateOf c) =
           {| BackingTrack.obs_tempo := Math_max 20 (Math_min 300 bpm);
              BackingTrack.obs_style := BackingTrack.getStyle s;
              BackingTrack.obs_instrument := BackingTrack.getInstrument s;
              BackingTrack.obs_swing := BackingTrack.getSwing s;
              BackingTrack.obs_chords := BackingTrack.getChords s;
              BackingTrack.obs_active := false;
              BackingTrack.obs_destroyed := true |}
       | BackingTrack.SetStyle style =>
           threw c = false /\
           BackingTrack.observe (stateOf c) =
           {| BackingTrack.obs_tempo := BackingTrack.getTempo s;
              BackingTrack.obs_style := style;
              BackingTrack.obs_instrument := BackingTrack.getInstrument s;
              BackingTrack.obs_swing := BackingTrack.getSwing s;
              BackingTrack.obs_chords := BackingTrack.getChords s;
              BackingTrack.obs_active := false;
              BackingTrack.obs_destroyed := true |}
       | BackingTrack.SetSwing swing =>
           threw c = false /\
           BackingTrack.observe (stateOf c) =
           {| BackingTrack.obs_tempo := BackingTrack.getTempo s;
              BackingTrack.obs_style := BackingTrack.getStyle s;
              BackingTrack.obs_instrument := BackingTrack.getInstrument s;
              BackingTrack.obs_swing := Math_max 0 (Math_min 100 swing);
              BackingTrack.obs_chords := BackingTrack.getChords s;
              BackingTrack.obs_active := false;
              BackingTrack.obs_destroyed := true |}
       | BackingTrack.SetInstrument instrument =>
           threw c = false /\
           BackingTrack.observe (stateOf c) =
           {| BackingTrack.obs_tempo := BackingTrack.getTempo s;
              BackingTrack.obs_style := BackingTrack.getStyle s;
              BackingTrack.obs_instrument := instrument;
              BackingTrack.obs_swing := BackingTrack.getSwing s;
              BackingTrack.obs_chords := BackingTrack.getChords s;
              BackingTrack.obs_active := false;
              BackingTrack.obs_destroyed := true |}
       | BackingTrack.SetChords progression key =>
           match BackingTrack.resolveChords progression
                   (default (BackingTrack.key s) key) with
           | Ok chords =>
               threw c = false /\
               BackingTrack.observe (stateOf c) =
               {| BackingTrack.obs_tempo := BackingTrack.getTempo s;
                  BackingTrack.obs_style := BackingTrack.getStyle s;
                  BackingTrack.obs_instrument := BackingTrack.getInstrument s;
                  BackingTrack.obs_swing := BackingTrack.getSwing s;
                  BackingTrack.obs_chords := chords;
                  BackingTrack.obs_active := false;
                  BackingTrack.obs_destroyed := true |}
           | Throw _ =>
               threw c = true /\
               BackingTrack.observe (stateOf c) = BackingTrack.observe s
           end
       end).
Proof.
  split.
  - intros config cs s Hd c s'.
    pose proof (closedOnce_reachable config cs) as (Hctx & _).
    pose proof (voicesOk_reachable config cs) as (_ & _ & _ & Hempty).
    fold s in Hctx, Hempty. clearbody s.
    unfold Synth.isDestroyed in *.
    assert (Hdead : dead s) by (split; [exact Hd|apply Hctx, Hd]).
    destruct (dead_call c s Hdead) as ([D1 D2] & E & N & _ & Hres).
    subst s'. unfold Synth.getActiveNoteCount.
    rewrite N, (Hempty (proj2 Hdead)), map_size_empty.
    repeat split; assumption.
  - intros config s0 fuel evs s Hnew Hrun Hd fuel' ev.
    apply destroyed_step; [exact Hd|].
    eapply timerOk_run; [|exact Hrun].
    apply new_fresh in Hnew as (chords & _ & ->).
    split; [reflexivity|discriminate].
Qed.

Lemma destroyed_after_note :
  Synth.isDestroyed
    (Synth.calls [Synth.NoteOn 0 440; Synth.Destroy]
       (Synth.new AudioTypes.noSynthConfig)) = true.
Proof.
  unfold Synth.calls. cbn [fold_left Synth.call].
  pose proof (noteOn_frame 0 440 (Synth.new AudioTypes.noSynthConfig)) as H.
  cbv zeta in H. destruct H as [H _].
  set (s1 := Synth.noteOn 0 440 (Synth.new AudioTypes.noSynthConfig)) in *.
  clearbody s1. change (Synth.destroyed s1 = false) in H.
  exact (proj1 (destroy_spec s1 H)).
Qed.

(** C4 on a Synth destroyed after a note: a later [noteOn] changes nothing
    and [setVolume(1)] stores the clamped level; and on a destroyed default
    BackingTrack: [play()] changes nothing and [setTempo(999)] stores 300. *)
Lemma C4_destroyed_instance_witness :
  Synth.call (Synth.NoteOn 1 220)
    (Synth.calls [Synth.NoteOn 0 440; Synth.Destroy]
       (Synth.new AudioTypes.noSynthConfig)) =
  Synth.calls [Synth.NoteOn 0 440; Synth.Destroy]
    (Synth.new AudioTypes.noSynthConfig) /\
  Synth.call (Synth.SetVolume 1)
    (Synth.calls [Synth.NoteOn 0 440; Synth.Destroy]
       (Synth.new AudioTypes.noSynthConfig)) =
  Synth.withVolume (Synth.clampVolume 1)
    (Synth.calls [Synth.NoteOn 0 440; Synth.Destroy]
       (Synth.new AudioTypes.noSynthConfig)) /\
  exists b b',
    BackingTrack.new (configOf 120 AudioTypes.quarter 0) = Ok b /\
    BackingTrack.run 0 [BackingTrack.Destroy] b = Some b' /\
    BackingTrack.step 0 (BackingTrack.Play 0) b' = Some (Normal b') /\
    exists c,
      BackingTrack.step 0 (BackingTrack.SetTempo 999) b' = Some c /\
      BackingTrack.getTempo (stateOf c) = Math_max 20 (Math_min 300 999).
Proof.
  destruct C4_destroyed_instance as [HS HB].
  split.
  { destruct (HS AudioTypes.noSynthConfig [Synth.NoteOn 0 440; Synth.Destroy]
                destroyed_after_note (Synth.NoteOn 1 220))
      as (_ & _ & _ & _ & Hres).
    exact Hres. }
  split.
  { destruct (HS AudioTypes.noSynthConfig [Synth.NoteOn 0 440; Synth.Destroy]
                destroyed_after_note (Synth.SetVolume 1))
      as (_ & _ & _ & _ & Hres).
    exact Hres. }
  destruct (new_configOf 120 AudioTypes.quarter 0) as (chord & Hnew & _).
  assert (Hrun : exists b',
    BackingTrack.run 0 [BackingTrack.Destroy]
      (freshTrack (configOf 120 AudioTypes.quarter 0) [chord]) = Some b' /\
    BackingTrack.isDestroyed b' = true).
  { eexists. split; [repeat run_event; reflexivity|reflexivity]. }
  destruct Hrun as (b' & Hrun & Hdb).
  eexists. exists b'. split; [exact Hnew|]. split; [exact Hrun|].
  pose proof (HB _ _ _ _ _ Hnew Hrun Hdb) as Hstep.
  split.
  - destruct (Hstep 0%nat (BackingTrack.Play 0)) as (c & Hc & _ & _ & _ & ->).
    exact Hc.
  - destruct (Hstep 0%nat (BackingTrack.SetTempo 999))
      as (c & Hc & _ & _ & _ & _ & Hobs).
    exists c. split; [exact Hc|].
    apply (f_equal BackingTrack.obs_tempo) in Hobs. exact Hobs.
Defined.

(** ** The effect chain *)

(** The sources of the serial chain: the chain input and the output of an
    effect unit. *)
Definition chainSource (n : WebAudio.Node) : bool :=
  match n with
  | WebAudio.EffectsInputGainNode
  | WebAudio.UnitNode _ WebAudio.outputGain => true
  | _ => false
  end.

(** The connections that leave a chain source, in the order in which they
    were made. *)
Definition chainEdges (e : WebAudio.Engine) : list (WebAudio.Node * WebAudio.Node) :=
  filter (fun c => chainSource c.1) (WebAudio.connections e).

(** The serial path from [from] through [units] to [master]. *)
Fixpoint wire (from : WebAudio.Node) (units : list Effects.EffectNode)
  (master : WebAudio.Node) : list (WebAudio.Node * WebAudio.Node) :=
  match units with
  | [] => [(from, master)]
  | u :: rest => (from, Effects.input u) :: wire (Effects.output u) rest master
  end.

(** The units held in [this.effectNodes], in the order of their creation. *)
Definition allUnits (ns : EffectNodes.t) : list Effects.EffectNode :=
  option_list (EffectNodes.distortion ns) ++
  option_list (EffectNodes.filter ns) ++
  option_list (EffectNodes.vibrato ns) ++
  option_list (EffectNodes.delay ns) ++
  option_list (EffectNodes.reverb ns).

(** The same without the vibrato unit. *)
Definition serialUnits (ns : EffectNodes.t) : list Effects.EffectNode :=
  option_list (EffectNodes.distortion ns) ++
  option_list (EffectNodes.filter ns) ++
  option_list (EffectNodes.delay ns) ++
  option_list (EffectNodes.reverb ns).

(** A unit of kind [k] is held exactly when [flag] is set. *)
Definition heldIff (k : Effects.EffectName) (node : option Effects.EffectNode)
  (flag : bool) : Prop :=
  match node with
  | Some n => flag = true /\ Effects.effect n = k
  | None => flag = false
  end.

Definition unitsMatchFlags (s : Synth.t) : Prop :=
  let ns := Synth.effectNodes s in
  let st := Synth.effectsState s in
  heldIff Effects.Distortion (EffectNodes.distortion ns) (EffectsState.distortion st) /\
  heldIff Effects.Filter (EffectNodes.filter ns) (EffectsState.filter st) /\
  heldIff Effects.Vibrato (EffectNodes.vibrato ns) (EffectsState.vibrato st) /\
  heldIff Effects.Delay (EffectNodes.delay ns) (EffectsState.delay st) /\
  heldIff Effects.Reverb (EffectNodes.reverb ns) (EffectsState.reverb st).

(** Every connection that leaves the output of an effect unit belongs to a
    unit that [this.effectNodes] still holds. *)
Definition outputsOwned (s : Synth.t) : Prop :=
  forall id b,
    (WebAudio.UnitNode id WebAudio.outputGain, b)
      ∈ WebAudio.connections (Synth.engine s) ->
    id ∈ map Effects.unitId (allUnits (Synth.effectNodes s)).

Lemma chainEdges_nil e :
  chainEdges e = [] <->
  forall c, c ∈ WebAudio.connections e -> chainSource c.1 = false.
Proof.
  unfold chainEdges. split.
  - intros H c Hc. destruct (chainSource c.1) eqn:Hs; [|reflexivity].
    assert (Hin : c ∈ filter (fun c => chainSource c.1) (WebAudio.connections e)).
    { apply list_elem_of_filter. split; [rewrite Hs; exact I|exact Hc]. }
    rewrite H in Hin. inversion Hin.
  - intros H. induction (WebAudio.connections e) as [|c l IH]; [reflexivity|].
    rewrite filter_cons_False.
    + apply IH. intros c' Hc'. apply H. right. exact Hc'.
    + rewrite (H c); [intros []|left].
Qed.

Lemma chainEdges_connect_other a b e :
  chainSource a = false ->
  chainEdges (WebAudio.connect a b e) = chainEdges e.
Proof.
  intros Ha. unfold chainEdges, WebAudio.connect. simpl.
  destruct (decide _); [reflexivity|].
  rewrite filter_app, filter_cons_False, filter_nil, app_nil_r; [reflexivity|].
  simpl. rewrite Ha. intros [].
Qed.

Lemma chainEdges_connect a b e :
  chainSource a = true ->
  (a, b) ∉ chainEdges e ->
  chainEdges (WebAudio.connect a b e) = chainEdges e ++ [(a, b)].
Proof.
  intros Ha Hn. unfold chainEdges, WebAudio.connect in *. simpl.
  destruct (decide _) as [Hin|_].
  - exfalso. apply Hn. apply list_elem_of_filter. split; [|exact Hin].
    simpl. rewrite Ha. exact I.
  - rewrite filter_app, filter_cons_True, filter_nil; [reflexivity|].
    simpl. rewrite Ha. exact I.
Qed.

Lemma chainEdges_connectAll cs e :
  Forall (fun c => chainSource c.1 = false) cs ->
  chainEdges (Effects.connectAll cs e) = chainEdges e.
Proof.
  intros H. revert e. induction H as [|c cs Hc _ IH]; intros e; [reflexivity|].
  unfold Effects.connectAll in *. cbn [fold_left].
  rewrite IH. apply chainEdges_connect_other, Hc.
Qed.

Lemma connections_disconnectAll ns e c :
  c ∈ WebAudio.connections (Effects.disconnectAll ns e) <->
  c ∈ WebAudio.connections e /\ c.1 ∉ ns.
Proof.
  revert e. induction ns as [|n ns IH]; intros e.
  - simpl. split; [intros H; split; [exact H|inversion 1]|intros [H _]; exact H].
  - unfold Effects.disconnectAll in *. cbn [fold_left]. rewrite IH.
    unfold WebAudio.disconnect. simpl. rewrite list_elem_of_filter, not_elem_of_cons.
    tauto.
Qed.

Lemma connections_cleanup n e c :
  c ∈ WebAudio.connections (Effects.cleanup n e) ->
  c ∈ WebAudio.connections e /\ c.1 <> Effects.output n.
Proof.
  unfold Effects.cleanup, Effects.output. cbv zeta.
  destruct (Effects.effect n); rewrite connections_disconnectAll;
    intros [H Hn]; (split; [exact H|]); intros Heq; apply Hn; rewrite Heq;
    set_solver.
Qed.

Lemma connections_cleanupOne node e c :
  c ∈ WebAudio.connections (Synth.cleanupOne node e) ->
  c ∈ WebAudio.connections e /\
  forall n, node = Some n -> c.1 <> Effects.output n.
Proof.
  destruct node as [n|]; simpl.
  - intros H. apply connections_cleanup in H as [H1 H2]. split; [exact H1|].
    intros n' [= <-]. exact H2.
  - intros H. split; [exact H|]. discriminate.
Qed.

Lemma elem_of_option_list {A} (x : A) (o : option A) :
  x ∈ option_list o <-> o = Some x.
Proof.
  destruct o as [y|]; simpl.
  - rewrite list_elem_of_singleton. split; congruence.
  - split; [inversion 1|discriminate].
Qed.

Lemma connections_cleanupAllEffects s c :
  c ∈ WebAudio.connections (Synth.engine (Synth.cleanupAllEffects s)) ->
  c ∈ WebAudio.connections (Synth.engine s) /\
  forall n, n ∈ allUnits (Synth.effectNodes s) -> c.1 <> Effects.output n.
Proof.
  unfold Synth.cleanupAllEffects. cbv zeta.
  cbn [Synth.engine Synth.withEngine Synth.withEffectNodes].
  intros H.
  apply connections_cleanupOne in H as [H Hr].
  apply connections_cleanupOne in H as [H Hf].
  apply connections_cleanupOne in H as [H Hv].
  apply connections_cleanupOne in H as [H Hdi].
  apply connections_cleanupOne in H as [H Hde].
  split; [exact H|]. intros n Hn. unfold allUnits in Hn.
  rewrite !elem_of_app in Hn.
  destruct Hn as [Hn|[Hn|[Hn|[Hn|Hn]]]];
    apply elem_of_option_list in Hn; eauto.
Qed.

(** Once the chain input and the held units are disconnected, no connection
    leaves a chain source. *)
Lemma chainEdges_cleared s :
  outputsOwned s ->
  chainEdges
    (Synth.engine
       (Synth.cleanupAllEffects
          (Synth.withEngine
             (WebAudio.disconnect WebAudio.EffectsInputGainNode) s))) = [].
Proof.
  intros Hown. apply chainEdges_nil. intros [a b] Hc.
  apply connections_cleanupAllEffects in Hc as [Hc Hout].
  cbn [Synth.engine Synth.withEngine Synth.effectNodes] in Hc, Hout.
  unfold WebAudio.disconnect in Hc. simpl in Hc.
  apply list_elem_of_filter in Hc as [Hne Hc]. simpl in Hne, Hout |- *.
  destruct a as [| | | |id r| | |]; try reflexivity; [congruence|].
  destruct r; try reflexivity.
  apply Hown in Hc. apply list_elem_of_fmap in Hc as (n & -> & Hn).
  exfalso. exact (Hout n Hn eq_refl).
Qed.

Lemma nextId_connectAll cs e :
  WebAudio.nextId (Effects.connectAll cs e) = WebAudio.nextId e.
Proof.
  revert e. induction cs as [|c cs IH]; intros e; [reflexivity|].
  unfold Effects.connectAll in *. cbn [fold_left]. rewrite IH. reflexivity.
Qed.

(** What a factory of effects.ts does to the chain: a unit of kind [k] with
    a fresh identity, and no connection that leaves a chain source. *)
Definition creates (k : Effects.EffectName)
  (create : WebAudio.Engine -> Effects.EffectNode * WebAudio.Engine) : Prop :=
  forall e,
    Effects.effect (create e).1 = k /\
    Effects.unitId (create e).1 = WebAudio.nextId e /\
    WebAudio.nextId (create e).2 = S (WebAudio.nextId e) /\
    chainEdges (create e).2 = chainEdges e.

Lemma chainEdges_stop n e :
  chainEdges (WebAudio.stop n e) = chainEdges e.
Proof. reflexivity. Qed.

Lemma chainEdges_start n e :
  chainEdges (WebAudio.start n e) = chainEdges e.
Proof. reflexivity. Qed.

Ltac solve_creates :=
  intros e; repeat split;
  cbv beta iota zeta delta [Effects.createDelay Effects.createDistortion
    Effects.createVibrato Effects.createFilter Effects.createReverb
    WebAudio.allocate fst snd];
  rewrite ?nextId_connectAll;
  repeat first
    [ rewrite chainEdges_connectAll by (repeat constructor)
    | rewrite chainEdges_connect_other by reflexivity
    | rewrite chainEdges_start ];
  reflexivity.

Lemma creates_distortion : creates Effects.Distortion Effects.createDistortion.
Proof. solve_creates. Qed.

Lemma creates_filter : creates Effects.Filter Effects.createFilter.
Proof. solve_creates. Qed.

Lemma creates_vibrato : creates Effects.Vibrato Effects.createVibrato.
Proof. solve_creates. Qed.

Lemma creates_delay : creates Effects.Delay Effects.createDelay.
Proof. solve_creates. Qed.

Lemma creates_reverb : creates Effects.Reverb Effects.createReverb.
Proof. solve_creates. Qed.

(** One step of [buildEffects]. *)
Lemma createIf_spec k flag inChain create store acc :
  creates k create ->
  let r := Synth.createIf flag inChain create store acc in
  logic r.1 = logic acc.1 /\
  if flag then
    exists n,
      Effects.effect n = k /\
      Effects.unitId n = WebAudio.nextId (Synth.engine acc.1) /\
      WebAudio.nextId (Synth.engine r.1) =
        S (WebAudio.nextId (Synth.engine acc.1)) /\
      chainEdges (Synth.engine r.1) = chainEdges (Synth.engine acc.1) /\
      Synth.effectNodes r.1 = store n (Synth.effectNodes acc.1) /\
      r.2 = (if inChain then acc.2 ++ [n] else acc.2)
  else r = acc.
Proof.
  intros Hc. cbv zeta. split; [apply logic_createIf|].
  destruct acc as [s l]. unfold Synth.createIf.
  destruct flag; [|reflexivity].
  destruct (Hc (Synth.engine s)) as (H1 & H2 & H3 & H4).
  destruct (create (Synth.engine s)) as [n e]. exists n.
  repeat split; assumption.
Qed.

Lemma logic_effectsState s s' :
  logic s' = logic s -> Synth.effectsState s' = Synth.effectsState s.
Proof. intros H. apply logic_fields in H. tauto. Qed.

(** [buildEffects] on a Synth that holds no unit: the units it creates are
    those of the flags, numbered in the order distortion, filter, vibrato,
    delay, reverb, and the list it returns leaves the vibrato out. *)
Lemma buildEffects_spec s :
  Synth.effectNodes s = noEffectNodes ->
  let r := Synth.buildEffects s in
  logic r.1 = logic s /\
  unitsMatchFlags r.1 /\
  r.2 = serialUnits (Synth.effectNodes r.1) /\
  NoDup (map Effects.unitId (allUnits (Synth.effectNodes r.1))) /\
  chainEdges (Synth.engine r.1) = chainEdges (Synth.engine s).
Proof.
  intros Hnone. unfold Synth.buildEffects. cbv zeta.
  pose proof (createIf_spec _ (EffectsState.distortion (Synth.effectsState s))
                true _ Synth.storeDistortion (s, []) creates_distortion)
    as [L1 H1].
  destruct (Synth.createIf _ _ Effects.createDistortion _ _) as [s1 l1].
  pose proof (createIf_spec _ (EffectsState.filter (Synth.effectsState s))
                true _ Synth.storeFilter (s1, l1) creates_filter)
    as [L2 H2].
  destruct (Synth.createIf _ _ Effects.createFilter _ _) as [s2 l2].
  pose proof (createIf_spec _ (EffectsState.vibrato (Synth.effectsState s))
                false _ Synth.storeVibrato (s2, l2) creates_vibrato)
    as [L3 H3].
  destruct (Synth.createIf _ _ Effects.createVibrato _ _) as [s3 l3].
  pose proof (createIf_spec _ (EffectsState.delay (Synth.effectsState s))
                true _ Synth.storeDelay (s3, l3) creates_delay)
    as [L4 H4].
  destruct (Synth.createIf _ _ Effects.createDelay _ _) as [s4 l4].
  pose proof (createIf_spec _ (EffectsState.reverb (Synth.effectsState s))
                true _ Synth.storeReverb (s4, l4) creates_reverb)
    as [L5 H5].
  destruct (Synth.createIf _ _ Effects.createReverb _ _) as [s5 l5].
  cbn [fst snd] in *.
  assert (L : logic s5 = logic s) by congruence.
  split; [exact L|].
  unfold unitsMatchFlags. cbv zeta. rewrite (logic_effectsState _ _ L).
  destruct (EffectsState.distortion _), (EffectsState.filter _),
    (EffectsState.vibrato _), (EffectsState.delay _), (EffectsState.reverb _);
    repeat match goal with
           | H : exists _, _ |- _ => destruct H as (? & ? & ? & ? & ? & ? & ?)
           | H : (_, _) = (_, _) |- _ => injection H as ? ?
           end; subst;
    repeat match goal with
           | H : Synth.effectNodes _ = _ |- _ => rewrite H in *; clear H
           end;
    unfold allUnits, serialUnits; simpl;
    (split; [repeat split; assumption|]);
    (split; [reflexivity|]);
    (split; [|congruence]);
    repeat (apply NoDup_cons_2;
            [rewrite ?elem_of_cons, ?elem_of_nil; lia|]);
    apply NoDup_nil_2.
Qed.

(** The connections of the loop of [rebuildEffectChain]. *)
Fixpoint hops (l : list Effects.EffectNode)
  : list (WebAudio.Node * WebAudio.Node) :=
  match l with
  | u :: (v :: _) as rest => (Effects.output u, Effects.input v) :: hops rest
  | _ => []
  end.

Lemma last_default {A} (a : A) l d d' :
  List.last (a :: l) d = List.last (a :: l) d'.
Proof.
  revert a. induction l as [|b l IH]; intros a; [reflexivity|].
  change (List.last (b :: l) d = List.last (b :: l) d'). apply IH.
Qed.

Lemma wire_hops from u l master :
  wire from (u :: l) master =
  (from, Effects.input u) :: hops (u :: l) ++
  [(Effects.output (List.last (u :: l) u), master)].
Proof.
  revert from u. induction l as [|v l IH]; intros from u; [reflexivity|].
  change (wire from (u :: v :: l) master)
    with ((from, Effects.input u) :: wire (Effects.output u) (v :: l) master).
  rewrite IH.
  change (List.last (u :: v :: l) u) with (List.last (v :: l) u).
  rewrite (last_default v l u v). reflexivity.
Qed.

Lemma hops_targets l c :
  c ∈ hops l -> exists v, c.2 = Effects.input v.
Proof.
  induction l as [|u l IH]; [inversion 1|].
  destruct l as [|v l]; [inversion 1|].
  change (hops (u :: v :: l))
    with ((Effects.output u, Effects.input v) :: hops (v :: l)).
  intros [->|H]%elem_of_cons; [exists v; reflexivity|exact (IH H)].
Qed.

Lemma connectConsecutive_edges l e :
  NoDup (map Effects.unitId l) ->
  (forall u b, u ∈ l -> (Effects.output u, b) ∉ chainEdges e) ->
  chainEdges (Synth.connectConsecutive l e) = chainEdges e ++ hops l.
Proof.
  revert e. induction l as [|u l IH]; intros e Hnd Hnew.
  { simpl. rewrite app_nil_r. reflexivity. }
  destruct l as [|v l].
  { simpl. rewrite app_nil_r. reflexivity. }
  change (Synth.connectConsecutive (u :: v :: l) e)
    with (Synth.connectConsecutive (v :: l)
            (WebAudio.connect (Effects.output u) (Effects.input v) e)).
  change (hops (u :: v :: l))
    with ((Effects.output u, Effects.input v) :: hops (v :: l)).
  assert (He : chainEdges
                 (WebAudio.connect (Effects.output u) (Effects.input v) e) =
               chainEdges e ++ [(Effects.output u, Effects.input v)]).
  { apply chainEdges_connect; [reflexivity|]. apply Hnew. left. }
  change (map Effects.unitId (u :: v :: l))
    with (Effects.unitId u :: map Effects.unitId (v :: l)) in Hnd.
  apply NoDup_cons in Hnd as [Hu Hnd].
  rewrite IH.
  - rewrite He, <- app_assoc. reflexivity.
  - exact Hnd.
  - intros w b Hw. rewrite He, elem_of_app, list_elem_of_singleton.
    intros [Hin|Heq].
    + apply (Hnew w b); [right; exact Hw|exact Hin].
    + apply Hu. injection Heq as Hid _. rewrite <- Hid.
      apply list_elem_of_fmap. exists w. split; [reflexivity|exact Hw].
Qed.

(** The connections [rebuildEffectChain] makes after the units are created
    are the serial path through them. *)
Lemma connectChain_edges l e :
  chainEdges e = [] ->
  NoDup (map Effects.unitId l) ->
  chainEdges
    (Synth.connectChain WebAudio.EffectsInputGainNode WebAudio.MasterGainNode
       l e) =
  wire WebAudio.EffectsInputGainNode l WebAudio.MasterGainNode.
Proof.
  intros He Hnd. unfold Synth.connectChain. destruct l as [|u l].
  { rewrite chainEdges_connect;
      [rewrite He; reflexivity|reflexivity|rewrite He; inversion 1]. }
  cbv zeta. rewrite wire_hops.
  assert (H1 : chainEdges
                 (WebAudio.connect WebAudio.EffectsInputGainNode
                    (Effects.input u) e) =
               [(WebAudio.EffectsInputGainNode, Effects.input u)]).
  { rewrite chainEdges_connect;
      [rewrite He; reflexivity|reflexivity|rewrite He; inversion 1]. }
  assert (H2 : chainEdges
                 (Synth.connectConsecutive (u :: l)
                    (WebAudio.connect WebAudio.EffectsInputGainNode
                       (Effects.input u) e)) =
               (WebAudio.EffectsInputGainNode, Effects.input u) ::
               hops (u :: l)).
  { rewrite connectConsecutive_edges, H1; [reflexivity|exact Hnd|].
    intros w b _. rewrite H1, list_elem_of_singleton. discriminate. }
  rewrite chainEdges_connect, H2; [reflexivity|reflexivity|].
  rewrite H2, elem_of_cons. intros [Heq|Hin]; [discriminate Heq|].
  apply hops_targets in Hin as [v Hv]. discriminate Hv.
Qed.

(** The chain as [rebuildEffectChain] leaves it. *)
Definition built (s : Synth.t) : Prop :=
  unitsMatchFlags s /\
  NoDup (map Effects.unitId (allUnits (Synth.effectNodes s))) /\
  chainEdges (Synth.engine s) =
    wire WebAudio.EffectsInputGainNode (serialUnits (Synth.effectNodes s))
      WebAudio.MasterGainNode.

Lemma serialUnits_sublist ns : serialUnits ns `sublist_of` allUnits ns.
Proof.
  unfold serialUnits, allUnits.
  apply sublist_app; [reflexivity|].
  apply sublist_app; [reflexivity|].
  apply sublist_inserts_l. reflexivity.
Qed.

Lemma serialUnits_NoDup ns :
  NoDup (map Effects.unitId (allUnits ns)) ->
  NoDup (map Effects.unitId (serialUnits ns)).
Proof.
  intros H. refine (sublist_NoDup _ _ H _).
  apply (fmap_sublist Effects.unitId), serialUnits_sublist.
Qed.

Lemma rebuildEffectChain_built s :
  Synth.audioContext s = true ->
  Synth.effectsInputGain s = Some WebAudio.EffectsInputGainNode ->
  Synth.masterGain s = Some WebAudio.MasterGainNode ->
  outputsOwned s ->
  built (Synth.rebuildEffectChain s).
Proof.
  intros Hctx Hin Hm Hown. unfold Synth.rebuildEffectChain.
  rewrite Hctx, Hin, Hm. cbv zeta.
  pose proof (chainEdges_cleared s Hown) as Hclear.
  pose proof (buildEffects_spec
    (Synth.cleanupAllEffects
       (Synth.withEngine
          (WebAudio.disconnect WebAudio.EffectsInputGainNode) s)) eq_refl)
    as H.
  cbv zeta in H.
  destruct (Synth.buildEffects _) as [s' l].
  cbn [fst snd] in H. destruct H as (_ & Hflags & Hl & Hnd & Hedges).
  rewrite Hclear in Hedges. subst l.
  split; [exact Hflags|]. split; [exact Hnd|].
  cbn [Synth.engine Synth.withEngine Synth.effectNodes].
  apply connectChain_edges; [exact Hedges|].
  apply serialUnits_NoDup, Hnd.
Qed.

Lemma wire_ends from l master c :
  c ∈ wire from l master ->
  (c.1 = from \/ exists u, u ∈ l /\ c.1 = Effects.output u) /\
  (c.2 = master \/ exists u, u ∈ l /\ c.2 = Effects.input u).
Proof.
  revert from. induction l as [|u l IH]; intros from; simpl.
  - intros ->%list_elem_of_singleton. split; left; reflexivity.
  - intros [->|H]%elem_of_cons.
    + split; [left; reflexivity|]. right. exists u. split; [left|reflexivity].
    + destruct (IH _ H) as [Hs Ht]. split.
      * right. destruct Hs as [H1|(w & Hw & H1)].
        -- exists u. split; [left|exact H1].
        -- exists w. split; [right; exact Hw|exact H1].
      * destruct Ht as [H2|(w & Hw & H2)]; [left; exact H2|].
        right. exists w. split; [right; exact Hw|exact H2].
Qed.

Lemma built_outputsOwned s : built s -> outputsOwned s.
Proof.
  intros (_ & _ & Hedges) id b Hc.
  assert (Hin : (WebAudio.UnitNode id WebAudio.outputGain, b)
                  ∈ chainEdges (Synth.engine s)).
  { apply list_elem_of_filter. split; [exact I|exact Hc]. }
  rewrite Hedges in Hin. apply wire_ends in Hin as [[Hs|(u & Hu & Hs)] _].
  - discriminate Hs.
  - injection Hs as ->. apply list_elem_of_fmap. exists u.
    split; [reflexivity|].
    apply (sublist_subseteq _ _ (serialUnits_sublist _)), Hu.
Qed.

(** The identity of the vibrato unit is not one of the serial chain. *)
Lemma vibrato_not_serial ns v :
  NoDup (map Effects.unitId (allUnits ns)) ->
  EffectNodes.vibrato ns = Some v ->
  Effects.unitId v ∉ map Effects.unitId (serialUnits ns).
Proof.
  intros Hnd Hv.
  assert (Hp : allUnits ns ≡ₚ v :: serialUnits ns).
  { unfold allUnits, serialUnits. rewrite Hv.
    change (option_list (Some v) ++ ?l) with (v :: l).
    rewrite !(app_assoc (option_list (EffectNodes.distortion ns))).
    symmetry. apply Permutation_middle. }
  apply (fmap_Permutation Effects.unitId) in Hp.
  change (map Effects.unitId (allUnits ns)
            ≡ₚ Effects.unitId v :: map Effects.unitId (serialUnits ns)) in Hp.
  rewrite Hp in Hnd. apply NoDup_cons in Hnd as [Hnd _]. exact Hnd.
Qed.

Lemma vibrato_outside s v c :
  built s ->
  EffectNodes.vibrato (Synth.effectNodes s) = Some v ->
  c ∈ chainEdges (Synth.engine s) ->
  forall r,
    c.1 <> WebAudio.UnitNode (Effects.unitId v) r /\
    c.2 <> WebAudio.UnitNode (Effects.unitId v) r.
Proof.
  intros (_ & Hnd & Hedges) Hv Hc r. rewrite Hedges in Hc.
  pose proof (vibrato_not_serial _ _ Hnd Hv) as Hout.
  assert (Hid : forall u, u ∈ serialUnits (Synth.effectNodes s) ->
                  Effects.unitId u <> Effects.unitId v).
  { intros u Hu Heq. apply Hout. rewrite <- Heq.
    apply list_elem_of_fmap. exists u. split; [reflexivity|exact Hu]. }
  apply wire_ends in Hc as [[H1|(u & Hu & H1)] [H2|(w & Hw & H2)]];
    rewrite H1, H2; split; try discriminate;
    intros [= Heq]; first [exact (Hid _ Hu Heq) | exact (Hid _ Hw Heq)].
Qed.

(** *** The chain over the life of a Synth *)

(** A step that leaves the chain alone. *)
Definition sameChain (s s' : Synth.t) : Prop :=
  Synth.audioContext s' = Synth.audioContext s /\
  Synth.effectsInputGain s' = Synth.effectsInputGain s /\
  Synth.masterGain s' = Synth.masterGain s /\
  Synth.destroyed s' = Synth.destroyed s /\
  Synth.effectsState s' = Synth.effectsState s /\
  Synth.effectNodes s' = Synth.effectNodes s /\
  chainEdges (Synth.engine s') = chainEdges (Synth.engine s) /\
  (Synth.audioContext s = false ->
   WebAudio.connections (Synth.engine s') =
   WebAudio.connections (Synth.engine s)).

(** While the engine is there the chain is built; before it is created
    nothing is connected. *)
Definition chainOk (s : Synth.t) : Prop :=
  (Synth.audioContext s = true ->
   Synth.effectsInputGain s = Some WebAudio.EffectsInputGainNode /\
   Synth.masterGain s = Some WebAudio.MasterGainNode /\
   built s) /\
  (Synth.audioContext s = false -> Synth.destroyed s = false ->
   WebAudio.connections (Synth.engine s) = []).

Lemma sameChain_refl s : sameChain s s.
Proof. repeat split. Qed.

Lemma sameChain_trans s1 s2 s3 :
  sameChain s1 s2 -> sameChain s2 s3 -> sameChain s1 s3.
Proof.
  intros (A1 & A2 & A3 & A4 & A5 & A6 & A7 & A8)
         (B1 & B2 & B3 & B4 & B5 & B6 & B7 & B8).
  repeat split; try congruence.
  intros H. rewrite B8, A8; congruence.
Qed.

Lemma chainOk_same s s' : sameChain s s' -> chainOk s -> chainOk s'.
Proof.
  intros (A1 & A2 & A3 & A4 & A5 & A6 & A7 & A8) [Hlive Hidle].
  unfold chainOk, built, unitsMatchFlags.
  rewrite A1, A2, A3, A4, A5, A6, A7. split; [exact Hlive|].
  intros Hctx Hd. rewrite (A8 Hctx). exact (Hidle Hctx Hd).
Qed.

Lemma chainEdges_disconnectFrom a b e :
  chainSource a = false ->
  chainEdges (WebAudio.disconnectFrom a b e) = chainEdges e.
Proof.
  intros Ha. unfold chainEdges, WebAudio.disconnectFrom. simpl.
  induction (WebAudio.connections e) as [|c l IH]; [reflexivity|].
  destruct (decide (c = (a, b))) as [->|Hne].
  - rewrite (filter_cons_False (fun c => c <> (a, b))) by (intros H; apply H; reflexivity).
    rewrite (filter_cons_False (fun c => chainSource c.1)); [exact IH|].
    simpl. rewrite Ha. intros [].
  - rewrite (filter_cons_True (fun c => c <> (a, b))) by exact Hne.
    destruct (chainSource c.1) eqn:Hc.
    + rewrite !(filter_cons_True (fun c => chainSource c.1)), IH;
        [reflexivity|rewrite Hc; exact I|rewrite Hc; exact I].
    + rewrite !(filter_cons_False (fun c => chainSource c.1)); 
        [exact IH|rewrite Hc; intros []|rewrite Hc; intros []].
Qed.

Lemma activeVibrato_source s g :
  Synth.activeVibrato s = Some g -> chainSource g = false.
Proof.
  unfold Synth.activeVibrato, Effects.lfoGainOf.
  destruct (EffectsState.vibrato _); [|discriminate].
  destruct (EffectNodes.vibrato _) as [v|]; [|discriminate].
  destruct (Effects.effect v); try discriminate. intros [= <-]. reflexivity.
Qed.

Lemma lfoGainOf_source v g :
  Effects.lfoGainOf v = Some g -> chainSource g = false.
Proof.
  unfold Effects.lfoGainOf.
  destruct (Effects.effect v); try discriminate. intros [= <-]. reflexivity.
Qed.

Lemma noteOff_sameChain k s : sameChain s (Synth.noteOff k s).
Proof.
  unfold Synth.noteOff.
  destruct (Synth.activeNotes s !! k) as [note|]; [|apply sameChain_refl].
  destruct (Synth.audioContext s) eqn:Hctx; [|apply sameChain_refl].
  cbv beta iota zeta delta [negb].
  destruct (Synth.activeVibrato s) as [g|] eqn:Hg;
    repeat split; try (simpl; congruence).
  cbn [Synth.engine Synth.withEngine Synth.withActiveNotes].
  rewrite chainEdges_stop.
  apply chainEdges_disconnectFrom, (activeVibrato_source s), Hg.
Qed.

Lemma stopAll_sameChain s : sameChain s (Synth.stopAll s).
Proof.
  unfold Synth.stopAll.
  generalize (map fst (map_to_list (Synth.activeNotes s))). intros ks.
  revert s. induction ks as [|k ks IH]; intros s; [apply sameChain_refl|].
  cbn [fold_left].
  eapply sameChain_trans; [apply noteOff_sameChain|apply IH].
Qed.

Lemma bend_sameChain k cents s : sameChain s (Synth.bend k cents s).
Proof.
  unfold Synth.bend.
  destruct (Synth.activeNotes s !! k) as [note|]; [|apply sameChain_refl].
  destruct (Synth.audioContext s) eqn:Hctx; [|apply sameChain_refl].
  repeat split; simpl; congruence.
Qed.

Lemma setVolume_sameChain v s : sameChain s (Synth.setVolume v s).
Proof.
  unfold Synth.setVolume. cbv zeta.
  cbn [Synth.masterGain Synth.audioContext Synth.withVolume].
  destruct (Synth.masterGain s); [destruct (Synth.audioContext s) eqn:Hctx|];
    repeat split; simpl; congruence.
Qed.

Lemma attachVibrato_sameChain enabled g s :
  Synth.audioContext s = true -> chainSource g = false ->
  sameChain s (Synth.attachVibrato enabled g s).
Proof.
  intros Hctx Hg. unfold Synth.attachVibrato.
  generalize (map_to_list (Synth.activeNotes s)). intros l.
  revert s Hctx. induction l as [|kv l IH]; intros s Hctx;
    [apply sameChain_refl|].
  cbn [fold_left]. eapply sameChain_trans; [|apply IH].
  - destruct enabled; repeat split; try (simpl; congruence);
      cbn [Synth.engine Synth.withEngine].
    + apply chainEdges_connect_other, Hg.
    + apply chainEdges_disconnectFrom, Hg.
  - destruct enabled; exact Hctx.
Qed.

Lemma built_withEngine f s :
  chainEdges (f (Synth.engine s)) = chainEdges (Synth.engine s) ->
  built s -> built (Synth.withEngine f s).
Proof.
  intros He (H1 & H2 & H3).
  split; [exact H1|]. split; [exact H2|].
  cbn [Synth.engine Synth.withEngine Synth.effectNodes].
  rewrite He. exact H3.
Qed.

(** The lazy initialisation builds the chain. *)
Lemma ensureAudioContext_chain s :
  Synth.destroyed s = false -> chainOk s ->
  let s1 := Synth.ensureAudioContext s in
  Synth.audioContext s1 = true /\
  Synth.effectsInputGain s1 = Some WebAudio.EffectsInputGainNode /\
  Synth.masterGain s1 = Some WebAudio.MasterGainNode /\
  built s1.
Proof.
  intros Hd [Hlive Hidle]. cbv zeta.
  destruct (ensureAudioContext_live s) as (Hsame & Hinit & _).
  destruct (Synth.audioContext s) eqn:Hctx.
  - rewrite (Hsame eq_refl). destruct (Hlive eq_refl) as (H1 & H2 & H3).
    split; [exact Hctx|]. split; [exact H1|]. split; [exact H2|exact H3].
  - destruct (Hinit eq_refl) as (H1 & H2 & H3 & _).
    split; [exact H1|]. split; [exact H3|]. split; [exact H2|].
    unfold Synth.ensureAudioContext. rewrite Hctx. cbv zeta.
    apply built_withEngine; [apply chainEdges_connect_other; reflexivity|].
    apply built_withEngine; [apply chainEdges_connect_other; reflexivity|].
    apply rebuildEffectChain_built; try reflexivity.
    intros id b Hc. cbn [Synth.engine Synth.withEngine Synth.withRefs] in Hc.
    change (WebAudio.connections (WebAudio.setMasterGainValue _ ?e))
      with (WebAudio.connections e) in Hc.
    rewrite (Hidle eq_refl Hd) in Hc. inversion Hc.
Qed.

Lemma connections_connect a b e c :
  c ∈ WebAudio.connections e \/ c = (a, b) ->
  c ∈ WebAudio.connections (WebAudio.connect a b e).
Proof.
  unfold WebAudio.connect. simpl. destruct (decide _) as [Hin|_].
  - intros [H| ->]; assumption.
  - rewrite elem_of_app, list_elem_of_singleton. tauto.
Qed.

Lemma allocate_spec e :
  (WebAudio.allocate e).1 = WebAudio.nextId e /\
  chainEdges (WebAudio.allocate e).2 = chainEdges e /\
  WebAudio.connections (WebAudio.allocate e).2 = WebAudio.connections e.
Proof. repeat split. Qed.

(** A new voice is connected to the chain input, and to the modulation
    output of the vibrato unit when there is one; the chain stays as it
    is. *)
Lemma noteOn_chain k f s :
  Synth.destroyed s = false -> chainOk s ->
  let s' := Synth.noteOn k f s in
  sameChain (Synth.ensureAudioContext s) s' /\
  exists note,
    Synth.activeNotes s' !! k = Some note /\
    (WebAudio.GainNode (AudioTypes.gainNode note),
     WebAudio.EffectsInputGainNode) ∈ WebAudio.connections (Synth.engine s') /\
    forall v,
      EffectsState.vibrato (Synth.effectsState s') = true ->
      EffectNodes.vibrato (Synth.effectNodes s') = Some v ->
      Effects.effect v = Effects.Vibrato ->
      (WebAudio.UnitNode (Effects.unitId v) WebAudio.lfoGain,
       WebAudio.OscillatorDetune (AudioTypes.oscillator note))
        ∈ WebAudio.connections (Synth.engine s').
Proof.
  intros Hd Hok. cbv zeta.
  destruct (ensureAudioContext_chain s Hd Hok) as (L1 & L2 & L3 & _).
  unfold Synth.noteOn. rewrite Hd.
  set (s1 := Synth.ensureAudioContext s) in *. clearbody s1.
  cbv zeta. rewrite L1, L2.
  match goal with
  | |- context [if ?c then Synth.noteOff k s1 else s1] =>
      assert (Hs2 : sameChain s1 (if c then Synth.noteOff k s1 else s1))
        by (destruct c; [apply noteOff_sameChain|apply sameChain_refl]);
      set (s2 := if c then Synth.noteOff k s1 else s1) in *
  end.
  clearbody s2.
  destruct Hs2 as (A1 & A2 & A3 & A4 & A5 & A6 & A7 & A8).
  destruct (allocate_spec (Synth.engine s2)) as (_ & E1 & _).
  destruct (WebAudio.allocate (Synth.engine s2)) as [osc e1].
  cbn [snd] in E1.
  assert (Hvib :
    let e2 := match Synth.activeVibrato s2 with
              | Some g => WebAudio.connect g (WebAudio.OscillatorDetune osc) e1
              | None => e1
              end in
    chainEdges e2 = chainEdges e1 /\
    forall v,
      EffectsState.vibrato (Synth.effectsState s2) = true ->
      EffectNodes.vibrato (Synth.effectNodes s2) = Some v ->
      Effects.effect v = Effects.Vibrato ->
      (WebAudio.UnitNode (Effects.unitId v) WebAudio.lfoGain,
       WebAudio.OscillatorDetune osc) ∈ WebAudio.connections e2).
  { cbv zeta. split.
    - destruct (Synth.activeVibrato s2) as [g|] eqn:Hg; [|reflexivity].
      apply chainEdges_connect_other, (activeVibrato_source _ _ Hg).
    - intros v Hflag Hv Hkind. unfold Synth.activeVibrato, Effects.lfoGainOf.
      rewrite Hflag, Hv, Hkind. apply connections_connect. right. reflexivity. }
  cbv zeta in Hvib. destruct Hvib as [E2 Hdetune].
  set (e2 := match Synth.activeVibrato s2 with
             | Some g => WebAudio.connect g (WebAudio.OscillatorDetune osc) e1
             | None => e1
             end) in *.
  clearbody e2.
  destruct (allocate_spec e2) as (_ & E3 & C3).
  destruct (WebAudio.allocate e2) as [gain e3]. cbn [snd] in E3, C3.
  cbv beta iota zeta.
  cbn [Synth.engine Synth.withEngine Synth.withActiveNotes
       Synth.effectsState Synth.effectNodes Synth.activeNotes].
  split.
  - repeat split; try (simpl; congruence).
    cbn [Synth.engine Synth.withEngine Synth.withActiveNotes].
    rewrite chainEdges_start.
    rewrite !chainEdges_connect_other by reflexivity. congruence.
  - eexists. split; [apply lookup_insert_eq|].
    cbn [AudioTypes.gainNode AudioTypes.oscillator].
    change (WebAudio.connections (WebAudio.start ?n ?e))
      with (WebAudio.connections e).
    split.
    + apply connections_connect. right. reflexivity.
    + intros v Hflag Hv Hkind.
      apply connections_connect. left. apply connections_connect. left.
      rewrite C3. exact (Hdetune v Hflag Hv Hkind).
Qed.

(** A toggle that changes its flag rebuilds the chain while the engine is
    there. *)
Lemma rebuild_chainOk s :
  Synth.audioContext s = true -> chainOk s ->
  forall set : EffectsState.t -> EffectsState.t,
    let s1 := Synth.rebuildEffectChain (Synth.withEffectsState set s) in
    Synth.audioContext s1 = true /\ chainOk s1.
Proof.
  intros Hctx [Hlive _] set. cbv zeta.
  destruct (Hlive Hctx) as (H1 & H2 & H3).
  pose proof (logic_rebuildEffectChain (Synth.withEffectsState set s)) as L.
  apply logic_fields in L as (L1 & L2 & L3 & _).
  cbn [Synth.audioContext Synth.masterGain Synth.effectsInputGain
       Synth.withEffectsState] in L1, L2, L3.
  split; [congruence|]. split; [|intros Hf; congruence].
  intros _. split; [congruence|]. split; [congruence|].
  apply rebuildEffectChain_built; try assumption.
  exact (built_outputsOwned s H3).
Qed.

Lemma toggle_chainOk (set : bool -> EffectsState.t -> EffectsState.t) b s :
  chainOk s ->
  let s1 := Synth.withEffectsState (set b) s in
  chainOk (if Synth.audioContext s1 then Synth.rebuildEffectChain s1 else s1).
Proof.
  intros Hok. cbv zeta.
  change (Synth.audioContext (Synth.withEffectsState (set b) s))
    with (Synth.audioContext s).
  destruct (Synth.audioContext s) eqn:Hctx.
  - apply (rebuild_chainOk s Hctx Hok (set b)).
  - destruct Hok as [_ Hidle]. split; [simpl; congruence|].
    intros _ Hd. exact (Hidle Hctx Hd).
Qed.

Lemma toggleVibrato_chainOk b s :
  chainOk s -> chainOk (Synth.toggleVibrato b s).
Proof.
  intros Hok. unfold Synth.toggleVibrato.
  destruct (Bool.eqb _ _); [exact Hok|]. cbv zeta.
  change (Synth.audioContext (Synth.withEffectsState (Synth.setVibrato b) s))
    with (Synth.audioContext s).
  destruct (Synth.audioContext s) eqn:Hctx.
  - destruct (rebuild_chainOk s Hctx Hok (Synth.setVibrato b)) as [Hlive Hok'].
    cbv zeta in Hlive, Hok'.
    set (s1 := Synth.rebuildEffectChain
                 (Synth.withEffectsState (Synth.setVibrato b) s)) in *.
    clearbody s1.
    destruct (EffectNodes.vibrato (Synth.effectNodes s1)) as [v|]; [|exact Hok'].
    destruct (Effects.lfoGainOf v) as [g|] eqn:Hg; [|exact Hok'].
    apply (chainOk_same s1); [|exact Hok'].
    apply attachVibrato_sameChain; [exact Hlive|].
    exact (lfoGainOf_source v g Hg).
  - destruct Hok as [_ Hidle]. split; [simpl; congruence|].
    intros _ Hd. exact (Hidle Hctx Hd).
Qed.

Lemma chainOk_call c s : chainOk s -> chainOk (Synth.call c s).
Proof.
  intros Hok. destruct c; cbn [Synth.call].
  - destruct (Synth.destroyed s) eqn:Hd.
    + unfold Synth.noteOn. rewrite Hd. exact Hok.
    + destruct (noteOn_chain noteIndex frequency s Hd Hok) as [Hsame _].
      cbv zeta in Hsame. apply (chainOk_same _ _ Hsame).
      destruct (ensureAudioContext_chain s Hd Hok) as (L1 & L2 & L3 & L4).
      cbv zeta in L1, L2, L3, L4.
      split; [intros _; split; [exact L2|]; split; [exact L3|exact L4]|].
      intros Hf. congruence.
  - apply (chainOk_same s); [apply noteOff_sameChain|exact Hok].
  - apply (chainOk_same s); [apply stopAll_sameChain|exact Hok].
  - exact Hok.
  - apply (chainOk_same s); [apply setVolume_sameChain|exact Hok].
  - apply (chainOk_same s); [apply bend_sameChain|exact Hok].
  - exact Hok.
  - unfold Synth.toggleDelay. destruct (Bool.eqb _ _); [exact Hok|].
    apply (toggle_chainOk Synth.setDelay), Hok.
  - unfold Synth.toggleDistortion. destruct (Bool.eqb _ _); [exact Hok|].
    apply (toggle_chainOk Synth.setDistortion), Hok.
  - apply toggleVibrato_chainOk, Hok.
  - unfold Synth.toggleFilter. destruct (Bool.eqb _ _); [exact Hok|].
    apply (toggle_chainOk Synth.setFilter), Hok.
  - unfold Synth.toggleReverb. destruct (Bool.eqb _ _); [exact Hok|].
    apply (toggle_chainOk Synth.setReverb), Hok.
  - destruct (Synth.destroyed s) eqn:Hd.
    + unfold Synth.destroy. rewrite Hd. exact Hok.
    + destruct (destroy_spec s Hd) as (H1 & H2 & _). cbv zeta in H1, H2.
      split; intros Hf; congruence.
Qed.

Lemma chainOk_reachable config cs :
  chainOk (Synth.calls cs (Synth.new config)).
Proof.
  apply calls_invariant; [|intros c s; apply chainOk_call].
  split; [discriminate|reflexivity].
Qed.

(** C6: [rebuildEffectChain] leaves exactly the serial path chain input ->
    distortion -> filter -> delay -> reverb -> master gain through the units
    whose flag is set, which are the units it holds afterwards, and the direct
    connection chain input -> master gain when none of the four is set; no
    connection of the path touches a node of the vibrato unit.  Every state of
    a Synth whose engine exists has this chain, and a [noteOn] while the
    vibrato flag is set connects the [lfoGain] of the vibrato unit to the
    detune of the new voice. *)
Theorem C6_effect_chain_order :
  (forall s,
     Synth.audioContext s = true ->
     Synth.effectsInputGain s = Some WebAudio.EffectsInputGainNode ->
     Synth.masterGain s = Some WebAudio.MasterGainNode ->
     outputsOwned s ->
     let s' := Synth.rebuildEffectChain s in
     let st := Synth.effectsState s in
     let ns := Synth.effectNodes s' in
     heldIff Effects.Distortion (EffectNodes.distortion ns)
       (EffectsState.distortion st) /\
     heldIff Effects.Filter (EffectNodes.filter ns) (EffectsState.filter st) /\
     heldIff Effects.Vibrato (EffectNodes.vibrato ns)
       (EffectsState.vibrato st) /\
     heldIff Effects.Delay (EffectNodes.delay ns) (EffectsState.delay st) /\
     heldIff Effects.Reverb (EffectNodes.reverb ns) (EffectsState.reverb st) /\
     chainEdges (Synth.engine s') =
       wire WebAudio.EffectsInputGainNode
         (option_list (EffectNodes.distortion ns) ++
          option_list (EffectNodes.filter ns) ++
          option_list (EffectNodes.delay ns) ++
          option_list (EffectNodes.reverb ns))
         WebAudio.MasterGainNode /\
     (EffectsState.distortion st = false ->
      EffectsState.filter st = false ->
      EffectsState.delay st = false ->
      EffectsState.reverb st = false ->
      chainEdges (Synth.engine s') =
        [(WebAudio.EffectsInputGainNode, WebAudio.MasterGainNode)]) /\
     (forall v c r,
        EffectNodes.vibrato ns = Some v ->
        c ∈ chainEdges (Synth.engine s') ->
        c.1 <> WebAudio.UnitNode (Effects.unitId v) r /\
        c.2 <> WebAudio.UnitNode (Effects.unitId v) r)) /\
  (forall config cs,
     let s := Synth.calls cs (Synth.new config) in
     Synth.audioContext s = true ->
     Synth.effectsInputGain s = Some WebAudio.EffectsInputGainNode /\
     Synth.masterGain s = Some WebAudio.MasterGainNode /\
     outputsOwned s /\
     unitsMatchFlags s /\
     chainEdges (Synth.engine s) =
       wire WebAudio.EffectsInputGainNode (serialUnits (Synth.effectNodes s))
         WebAudio.MasterGainNode) /\
  (forall config cs k f,
     let s := Synth.calls cs (Synth.new config) in
     Synth.destroyed s = false ->
     EffectsState.vibrato (Synth.effectsState s) = true ->
     let s' := Synth.noteOn k f s in
     exists v note,
       EffectNodes.vibrato (Synth.effectNodes s') = Some v /\
       Synth.activeNotes s' !! k = Some note /\
       (WebAudio.UnitNode (Effects.unitId v) WebAudio.lfoGain,
        WebAudio.OscillatorDetune (AudioTypes.oscillator note))
         ∈ WebAudio.connections (Synth.engine s')).
Proof.
  split; [|split].
  - intros s Hctx Hin Hm Hown. cbv zeta.
    pose proof (rebuildEffectChain_built s Hctx Hin Hm Hown) as Hb.
    pose proof (logic_effectsState _ _ (logic_rebuildEffectChain s)) as Hst.
    set (s' := Synth.rebuildEffectChain s) in *. clearbody s'.
    pose proof Hb as ((F1 & F2 & F3 & F4 & F5) & Hnd & Hedges).
    rewrite Hst in F1, F2, F3, F4, F5.
    do 5 (split; [assumption|]).
    split; [exact Hedges|]. split.
    + intros E1 E2 E3 E4. rewrite Hedges. unfold serialUnits.
      rewrite E1 in F1. rewrite E2 in F2. rewrite E3 in F4. rewrite E4 in F5.
      destruct (EffectNodes.distortion _); [destruct F1; discriminate|].
      destruct (EffectNodes.filter _); [destruct F2; discriminate|].
      destruct (EffectNodes.delay _); [destruct F4; discriminate|].
      destruct (EffectNodes.reverb _); [destruct F5; discriminate|].
      reflexivity.
    + intros v c r Hv Hc. exact (vibrato_outside s' v c Hb Hv Hc r).
  - intros config cs. cbv zeta. intros Hctx.
    destruct (chainOk_reachable config cs) as [Hlive _].
    destruct (Hlive Hctx) as (H1 & H2 & Hb).
    split; [exact H1|]. split; [exact H2|].
    split; [exact (built_outputsOwned _ Hb)|].
    destruct Hb as (Hflags & _ & Hedges). split; [exact Hflags|exact Hedges].
  - intros config cs k f. cbv zeta. intros Hd Hflag.
    pose proof (chainOk_reachable config cs) as Hok.
    set (s := Synth.calls cs (Synth.new config)) in *. clearbody s.
    destruct (noteOn_chain k f s Hd Hok)
      as ((A1 & A2 & A3 & A4 & A5 & A6 & _) & note & Hnote & _ & Hdetune).
    cbv zeta in *.
    destruct (ensureAudioContext_chain s Hd Hok) as (_ & _ & _ & Hb).
    cbv zeta in Hb. destruct Hb as ((_ & _ & Hvib & _) & _).
    destruct (ensureAudioContext_live s) as (_ & _ & _ & _ & _ & _ & Hst & _).
    rewrite <- A6, <- A5 in Hvib. rewrite <- A5 in Hst.
    rewrite Hst, Hflag in Hvib.
    assert (Hheld : exists v,
              EffectNodes.vibrato (Synth.effectNodes (Synth.noteOn k f s)) =
                Some v /\ Effects.effect v = Effects.Vibrato).
    { unfold heldIff in Hvib.
      destruct (EffectNodes.vibrato _) as [v|]; [|discriminate Hvib].
      exists v. split; [reflexivity|apply Hvib]. }
    destruct Hheld as (v & Hv & Hkind).
    exists v, note. split; [exact Hv|]. split; [exact Hnote|].
    apply Hdetune; [congruence|exact Hv|exact Hkind].
Qed.

(** C6 on a Synth at its first initialisation with the five flags set: the
    units are numbered 0 to 4 in the order of their creation, the vibrato is
    unit 2 and the chain runs through the units 0, 1, 3 and 4; on a Synth on
    which delay, distortion and vibrato are switched on before the first note:
    the chain runs through the distortion (unit 0) and the delay (unit 2); and
    a second note of that Synth is connected to the vibrato unit. *)
Lemma C6_effect_chain_order_witness :
  chainEdges
    (Synth.engine
       (Synth.rebuildEffectChain
          (Synth.withEffectsState
             (fun _ =>
                {| EffectsState.delay := true; EffectsState.distortion := true;
                   EffectsState.vibrato := true; EffectsState.filter := true;
                   EffectsState.reverb := true |})
             (Synth.withRefs true (Some WebAudio.MasterGainNode)
                (Some WebAudio.CompressorNode)
                (Some WebAudio.EffectsInputGainNode)
                (Synth.new AudioTypes.noSynthConfig))))) =
  [ (WebAudio.EffectsInputGainNode, WebAudio.UnitNode 0 WebAudio.inputGain);
    (WebAudio.UnitNode 0 WebAudio.outputGain,
     WebAudio.UnitNode 1 WebAudio.inputGain);
    (WebAudio.UnitNode 1 WebAudio.outputGain,
     WebAudio.UnitNode 3 WebAudio.inputGain);
    (WebAudio.UnitNode 3 WebAudio.outputGain,
     WebAudio.UnitNode 4 WebAudio.inputGain);
    (WebAudio.UnitNode 4 WebAudio.outputGain, WebAudio.MasterGainNode) ] /\
  chainEdges
    (Synth.engine
       (Synth.calls
          [Synth.ToggleDelay true; Synth.ToggleDistortion true;
           Synth.ToggleVibrato true; Synth.NoteOn 0 440]
          (Synth.new AudioTypes.noSynthConfig))) =
  [ (WebAudio.EffectsInputGainNode, WebAudio.UnitNode 0 WebAudio.inputGain);
    (WebAudio.UnitNode 0 WebAudio.outputGain,
     WebAudio.UnitNode 2 WebAudio.inputGain);
    (WebAudio.UnitNode 2 WebAudio.outputGain, WebAudio.MasterGainNode) ] /\
  exists v note,
    EffectNodes.vibrato
      (Synth.effectNodes
         (Synth.noteOn 1 220
            (Synth.calls
               [Synth.ToggleDelay true; Synth.ToggleDistortion true;
                Synth.ToggleVibrato true; Synth.NoteOn 0 440]
               (Synth.new AudioTypes.noSynthConfig)))) = Some v /\
    Synth.activeNotes
      (Synth.noteOn 1 220
         (Synth.calls
            [Synth.ToggleDelay true; Synth.ToggleDistortion true;
             Synth.ToggleVibrato true; Synth.NoteOn 0 440]
            (Synth.new AudioTypes.noSynthConfig))) !! 1%Z = Some note /\
    (WebAudio.UnitNode (Effects.unitId v) WebAudio.lfoGain,
     WebAudio.OscillatorDetune (AudioTypes.oscillator note))
      ∈ WebAudio.connections
          (Synth.engine
             (Synth.noteOn 1 220
                (Synth.calls
                   [Synth.ToggleDelay true; Synth.ToggleDistortion true;
                    Synth.ToggleVibrato true; Synth.NoteOn 0 440]
                   (Synth.new AudioTypes.noSynthConfig)))).
Proof.
  destruct C6_effect_chain_order as (Hrebuild & Hreach & Hvoice).
  split; [|split].
  - pose proof (Hrebuild
      (Synth.withEffectsState
         (fun _ =>
            {| EffectsState.delay := true; EffectsState.distortion := true;
               EffectsState.vibrato := true; EffectsState.filter := true;
               EffectsState.reverb := true |})
         (Synth.withRefs true (Some WebAudio.MasterGainNode)
            (Some WebAudio.CompressorNode)
            (Some WebAudio.EffectsInputGainNode)
            (Synth.new AudioTypes.noSynthConfig)))
      eq_refl eq_refl eq_refl) as H.
    cbv zeta in H.
    destruct H as (_ & _ & _ & _ & _ & Hedges & _).
    { intros id b Hc. simpl in Hc. inversion Hc. }
    rewrite Hedges. reflexivity.
  - pose proof (Hreach AudioTypes.noSynthConfig
      [Synth.ToggleDelay true; Synth.ToggleDistortion true;
       Synth.ToggleVibrato true; Synth.NoteOn 0 440]) as H.
    cbv zeta in H.
    destruct (H eq_refl) as (_ & _ & _ & _ & Hedges).
    rewrite Hedges. reflexivity.
  - exact (Hvoice AudioTypes.noSynthConfig
      [Synth.ToggleDelay true; Synth.ToggleDistortion true;
       Synth.ToggleVibrato true; Synth.NoteOn 0 440] 1%Z 220 eq_refl eq_refl).
Defined.

(** * Further properties of the code *)

(** ** Pitches and scales *)

Lemma Math_pow_2_lt (x y : R) : x < y <-> Math_pow 2 x < Math_pow 2 y.
Proof.
  unfold Math_pow. split.
  - intros H. apply Rpower_lt; lra.
  - intros H. destruct (Rlt_le_dec x y) as [Hlt|Hle]; [exact Hlt|].
    exfalso. destruct Hle as [Hgt|Heq].
    + pose proof (Rpower_lt 2 y x ltac:(lra) Hgt). lra.
    + subst. lra.
Qed.

Lemma noteToFrequency_lt (n1 n2 : Scale.NoteName) (o1 o2 : Z) :
  (midiOf n1 o1 < midiOf n2 o2)%Z <->
  Scale.noteToFrequency n1 o1 < Scale.noteToFrequency n2 o2.
Proof.
  rewrite (noteToFrequency_interval n1 n2 o1 o2 (midiOf n2 o2 - midiOf n1 o1))
    by lia.
  pose proof (noteToFrequency_pos n1 o1) as Hpos.
  pose proof (Math_pow_2_lt 0 (IZR (midiOf n2 o2 - midiOf n1 o1) / 12)) as Hp.
  rewrite Math_pow_2_0 in Hp.
  split.
  - intros Hlt.
    assert (0 < IZR (midiOf n2 o2 - midiOf n1 o1) / 12).
    { apply Rdiv_lt_0_compat; [apply IZR_lt; lia|lra]. }
    apply Hp in H. nra.
  - intros Hf.
    assert (H1 : 1 < Math_pow 2 (IZR (midiOf n2 o2 - midiOf n1 o1) / 12)) by nra.
    apply Hp in H1.
    assert (H2 : 0 < IZR (midiOf n2 o2 - midiOf n1 o1)).
    { apply (Rmult_lt_compat_r 12) in H1; [|lra].
      unfold Rdiv in H1. rewrite Rmult_assoc, Rinv_l in H1 by lra. lra. }
    apply lt_IZR in H2. lia.
Qed.

Lemma midiOf_inj (n1 n2 : Scale.NoteName) (o1 o2 : Z) :
  midiOf n1 o1 = midiOf n2 o2 -> n1 = n2 /\ o1 = o2.
Proof.
  unfold midiOf. intros H.
  assert (Ho : o1 = o2) by (destruct n1, n2; simpl in H; lia).
  subst o2. split; [|reflexivity].
  destruct n1, n2; simpl in H; first [reflexivity | lia].
Qed.

(** X1.  Pitch order of [noteToFrequency]: the same note one octave up has
    twice the frequency, a pitch with the larger number
    [NOTE_SEMITONES + 12 octave] has the larger frequency, and so two notes
    have the same frequency only when they have the same name and octave. *)
Theorem X1_noteToFrequency_pitch_order :
  (forall n o,
     Scale.noteToFrequency n (o + 1) = 2 * Scale.noteToFrequency n o) /\
  (forall n1 o1 n2 o2,
     (Scale.NOTE_SEMITONES n1 + 12 * o1 < Scale.NOTE_SEMITONES n2 + 12 * o2)%Z
     <-> Scale.noteToFrequency n1 o1 < Scale.noteToFrequency n2 o2) /\
  (forall n1 o1 n2 o2,
     Scale.noteToFrequency n1 o1 = Scale.noteToFrequency n2 o2 <->
     n1 = n2 /\ o1 = o2).
Proof.
  split; [|split].
  - intros n o.
    rewrite (noteToFrequency_interval n n o (o + 1) 12)
      by (unfold midiOf; lia).
    replace (12 / 12) with 1 by lra. rewrite Math_pow_2_1. ring.
  - intros n1 o1 n2 o2. rewrite <- noteToFrequency_lt. unfold midiOf. lia.
  - intros n1 o1 n2 o2. split; [|intros [-> ->]; reflexivity].
    intros Heq. apply midiOf_inj.
    destruct (Z.lt_trichotomy (midiOf n1 o1) (midiOf n2 o2)) as [H|[H|H]];
      [|exact H|]; apply noteToFrequency_lt in H; lra.
Qed.

Lemma NOTE_NAMES_lookup (t : Z) :
  (0 <= t < 12)%Z ->
  exists n, nth_error Scale.NOTE_NAMES (Z.to_nat t) = Some n /\
            Scale.NOTE_SEMITONES n = t.
Proof.
  intros Ht.
  assert (H : (t = 0 \/ t = 1 \/ t = 2 \/ t = 3 \/ t = 4 \/ t = 5 \/ t = 6 \/
               t = 7 \/ t = 8 \/ t = 9 \/ t = 10 \/ t = 11)%Z) by lia.
  repeat (destruct H as [->|H]; [eexists; split; reflexivity|]).
  subst. eexists; split; reflexivity.
Qed.

Lemma NOTE_SEMITONES_range (n : Scale.NoteName) :
  (0 <= Scale.NOTE_SEMITONES n < 12)%Z.
Proof. destruct n; simpl; lia. Qed.

(** The note [k] semitones above [root] in [octave], for [k] from 0 on. *)
Lemma getNoteAtOffset_pitch (root : Scale.NoteName) (octave k : Z) :
  (0 <= k)%Z ->
  exists n,
    Scale.getNoteAtOffset root k = Some n /\
    (Scale.NOTE_SEMITONES n +
     12 * Scale.getOctaveForOffset octave (Scale.NOTE_SEMITONES root) k =
     Scale.NOTE_SEMITONES root + 12 * octave + k)%Z.
Proof.
  intros Hk. pose proof (NOTE_SEMITONES_range root) as Hr.
  unfold Scale.getNoteAtOffset, Scale.getOctaveForOffset. cbv zeta.
  rewrite Z.rem_mod_nonneg by lia.
  pose proof (Z.mod_pos_bound (Scale.NOTE_SEMITONES root + k) 12 ltac:(lia)) as Hm.
  destruct (Z.ltb_spec ((Scale.NOTE_SEMITONES root + k) mod 12) 0); [lia|].
  destruct (NOTE_NAMES_lookup _ Hm) as (n & Hn & Hs).
  exists n. split; [exact Hn|]. rewrite Hs.
  pose proof (Z.div_mod (Scale.NOTE_SEMITONES root + k) 12 ltac:(lia)). lia.
Qed.

Lemma SCALE_INTERVALS_increasing (type : Generator.ScaleType) (i j : nat)
  (ki kj : Z) :
  (i < j)%nat ->
  Generator.SCALE_INTERVALS type !! i = Some ki ->
  Generator.SCALE_INTERVALS type !! j = Some kj ->
  (0 <= ki < kj)%Z /\ (kj < 12)%Z.
Proof.
  intros Hij Hi Hj.
  assert (Hs : StronglySorted Z.lt (Generator.SCALE_INTERVALS type) /\
               Forall (fun k => 0 <= k < 12)%Z (Generator.SCALE_INTERVALS type)).
  { destruct type; split;
      repeat first [ apply SSorted_nil | apply SSorted_cons
                   | apply Forall_nil_2 | apply Forall_cons_2 ];
      lia. }
  destruct Hs as [Hs Hb].
  pose proof (proj1 (Forall_lookup _ _) Hb) as Hb'.
  pose proof (Hb' _ _ Hi) as Hbi. pose proof (Hb' _ _ Hj) as Hbj.
  cbv beta in Hbi, Hbj.
  assert (ki < kj)%Z; [|lia].
  clear Hb Hb' Hbi Hbj. revert i j Hij Hi Hj.
  induction Hs as [|k l Hl IH Hall]; intros i j Hij Hi Hj; [discriminate Hi|].
  destruct j as [|j]; [lia|]. destruct i as [|i].
  - injection Hi as <-. simpl in Hj.
    exact (proj1 (Forall_lookup _ _) Hall _ _ Hj).
  - simpl in Hi, Hj. apply (IH i j); [lia|assumption|assumption].
Qed.

Lemma SCALE_INTERVALS_first (type : Generator.ScaleType) :
  exists rest, Generator.SCALE_INTERVALS type = 0%Z :: rest.
Proof. destruct type; eexists; reflexivity. Qed.

(** X2.  [generateScale] returns, for every root, scale type and octave
    (4 when none is given), one note per interval of the type, in the order
    of the intervals: the note at position [i] has index [i], it is the pitch
    [k] semitones above the root for the [i]-th interval [k], named by its
    note name followed by its octave, and its frequency is that of the root
    times [2^(k/12)].  The first note is the root itself; the frequencies
    rise strictly along the scale and stay below twice that of the root. *)
Theorem X2_generateScale (root : Scale.NoteName) (type : Generator.ScaleType)
  (octave_opt : option Z) :
  let octave := default 4%Z octave_opt in
  let f0 := Scale.noteToFrequency root octave in
  exists scale,
    Generator.generateScale
      {| Generator.cfg_root := root; Generator.cfg_type := type;
         Generator.cfg_octave := octave_opt |} = Some scale /\
    Generator.root scale = root /\ Generator.type scale = type /\
    Generator.noteCount scale = length (Generator.notes scale) /\
    length (Generator.notes scale) = length (Generator.SCALE_INTERVALS type) /\
    (forall i note,
       Generator.notes scale !! i = Some note ->
       Generator.index note = i /\
       exists k noteName noteOctave,
         Generator.SCALE_INTERVALS type !! i = Some k /\
         (Scale.NOTE_SEMITONES noteName + 12 * noteOctave =
          Scale.NOTE_SEMITONES root + 12 * octave + k)%Z /\
         Generator.name note =
           (Scale.noteNameString noteName ++
            Generator.numberToString noteOctave)%string /\
         Generator.frequency note = Scale.noteToFrequency noteName noteOctave /\
         Generator.frequency note = f0 * Rpower 2 (IZR k / 12)) /\
    Generator.notes scale !! 0%nat =
      Some {| Generator.name :=
                (Scale.noteNameString root ++
                 Generator.numberToString octave)%string;
              Generator.frequency := f0;
              Generator.index := 0 |} /\
    (forall i j ni nj,
       (i < j)%nat ->
       Generator.notes scale !! i = Some ni ->
       Generator.notes scale !! j = Some nj ->
       f0 <= Generator.frequency ni /\
       Generator.frequency ni < Generator.frequency nj /\
       Generator.frequency nj < 2 * f0).
Proof.
  intros octave f0.
  assert (Hnote : forall i k,
    Generator.SCALE_INTERVALS type !! i = Some k ->
    exists noteName noteOctave,
      Generator.generateNote root octave (Scale.NOTE_SEMITONES root) i k =
        Some {| Generator.name :=
                  (Scale.noteNameString noteName ++
                   Generator.numberToString noteOctave)%string;
                Generator.frequency :=
                  Scale.noteToFrequency noteName noteOctave;
                Generator.index := i |} /\
      (Scale.NOTE_SEMITONES noteName + 12 * noteOctave =
       Scale.NOTE_SEMITONES root + 12 * octave + k)%Z /\
      Scale.noteToFrequency noteName noteOctave = f0 * Rpower 2 (IZR k / 12)).
  { intros i k Hk.
    assert (Hk0 : (0 <= k)%Z).
    { destruct (SCALE_INTERVALS_first type) as [rest Hrest].
      destruct i as [|i]; [rewrite Hrest in Hk; injection Hk as <-; lia|].
      assert (H0 : Generator.SCALE_INTERVALS type !! 0%nat = Some 0%Z)
        by (rewrite Hrest; reflexivity).
      destruct (SCALE_INTERVALS_increasing type 0 (S i) 0 k ltac:(lia) H0 Hk).
      lia. }
    destruct (getNoteAtOffset_pitch root octave k Hk0) as (n & Hn & Hm).
    exists n, (Scale.getOctaveForOffset octave (Scale.NOTE_SEMITONES root) k).
    unfold Generator.generateNote. rewrite Hn. cbv zeta.
    split; [reflexivity|]. split; [exact Hm|].
    apply noteToFrequency_interval. unfold midiOf. lia. }
  unfold Generator.generateScale. cbv zeta.
  cbn [Generator.cfg_root Generator.cfg_type Generator.cfg_octave].
  fold octave.
  destruct (mapM (fun note => note)
              (imap (Generator.generateNote root octave
                       (Scale.NOTE_SEMITONES root))
                 (Generator.SCALE_INTERVALS type))) as [notes|] eqn:Hmap.
  2:{ exfalso. apply mapM_None_1 in Hmap. apply Exists_exists in Hmap
        as (x & Hx & ->).
      apply list_elem_of_lookup in Hx as [i Hx].
      rewrite list_lookup_imap in Hx.
      destruct (Generator.SCALE_INTERVALS type !! i) as [k|] eqn:Hk;
        [|discriminate].
      destruct (Hnote i k Hk) as (n & o & Hg & _). simpl in Hx. congruence. }
  apply mapM_Some_1 in Hmap.
  assert (Hlen : length notes = length (Generator.SCALE_INTERVALS type)).
  { apply Forall2_length in Hmap. rewrite length_imap in Hmap. lia. }
  assert (Hat : forall i note,
    notes !! i = Some note ->
    exists k n o,
      Generator.SCALE_INTERVALS type !! i = Some k /\
      note = {| Generator.name :=
                  (Scale.noteNameString n ++ Generator.numberToString o)%string;
                Generator.frequency := Scale.noteToFrequency n o;
                Generator.index := i |} /\
      (Scale.NOTE_SEMITONES n + 12 * o =
       Scale.NOTE_SEMITONES root + 12 * octave + k)%Z /\
      Scale.noteToFrequency n o = f0 * Rpower 2 (IZR k / 12)).
  { intros i note Hi.
    destruct (Forall2_lookup_r _ _ _ _ _ Hmap Hi) as (x & Hx & Hxn).
    rewrite list_lookup_imap in Hx.
    destruct (Generator.SCALE_INTERVALS type !! i) as [k|] eqn:Hk;
      [|discriminate].
    destruct (Hnote i k Hk) as (n & o & Hg & Hm & Hf).
    simpl in Hx. exists k, n, o. split; [reflexivity|].
    split; [congruence|]. split; assumption. }
  eexists. split; [reflexivity|].
  cbn [Generator.root Generator.type Generator.noteCount Generator.notes].
  split; [reflexivity|]. split; [reflexivity|]. split; [reflexivity|].
  split; [exact Hlen|].
  split.
  { intros i note Hi. destruct (Hat i note Hi) as (k & n & o & Hk & -> & Hm & Hf).
    split; [reflexivity|]. exists k, n, o. simpl. repeat split; assumption. }
  split.
  { destruct (SCALE_INTERVALS_first type) as [rest Hrest].
    destruct notes as [|note0 notes']; [rewrite Hrest in Hlen; discriminate|].
    destruct (Hat 0%nat note0 eq_refl) as (k & n & o & Hk & -> & Hm & Hf).
    rewrite Hrest in Hk. injection Hk as <-.
    assert (Hno : n = root /\ o = octave).
    { apply midiOf_inj. unfold midiOf. lia. }
    destruct Hno as [-> ->]. reflexivity. }
  intros i j ni nj Hij Hi Hj.
  destruct (Hat i ni Hi) as (ki & n1 & o1 & Hki & -> & _ & Hf1).
  destruct (Hat j nj Hj) as (kj & n2 & o2 & Hkj & -> & _ & Hf2).
  destruct (SCALE_INTERVALS_increasing type i j ki kj Hij Hki Hkj) as [H1 H2].
  cbn [Generator.frequency]. rewrite Hf1, Hf2.
  assert (Hf0 : 0 < f0) by apply noteToFrequency_pos.
  assert (Hmono : forall a b : Z, (a < b)%Z ->
            Rpower 2 (IZR a / 12) < Rpower 2 (IZR b / 12)).
  { intros a b Hab. apply (proj1 (Math_pow_2_lt _ _)).
    apply Rmult_lt_compat_r; [lra|apply IZR_lt; exact Hab]. }
  assert (H0 : Rpower 2 (IZR 0 / 12) = 1).
  { replace (IZR 0 / 12) with 0 by lra. apply Math_pow_2_0. }
  assert (H12 : Rpower 2 (IZR 12 / 12) = 2).
  { replace (IZR 12 / 12) with 1 by lra. apply Math_pow_2_1. }
  assert (Hlo : 1 <= Rpower 2 (IZR ki / 12)).
  { destruct (Z.eq_dec ki 0%Z) as [->|Hne]; [lra|].
    pose proof (Hmono 0%Z ki ltac:(lia)). lra. }
  pose proof (Hmono ki kj ltac:(lia)) as Hlt.
  pose proof (Hmono kj 12%Z ltac:(lia)) as Hhi.
  rewrite H12 in Hhi. nra.
Qed.

(** ** Chords *)

Lemma NOTE_NAMES_nth (t : Z) :
  (0 <= t < 12)%Z ->
  Scale.NOTE_SEMITONES (nth (Z.to_nat t) Scale.NOTE_NAMES Scale.C) = t.
Proof.
  intros Ht.
  assert (H : (t = 0 \/ t = 1 \/ t = 2 \/ t = 3 \/ t = 4 \/ t = 5 \/ t = 6 \/
               t = 7 \/ t = 8 \/ t = 9 \/ t = 10 \/ t = 11)%Z) by lia.
  repeat (destruct H as [->|H]; [reflexivity|]). subst. reflexivity.
Qed.

(** The chord a call of [resolveChord] returns is made from its root and
    its quality. *)
Definition chordOf (root : Scale.NoteName) (isMajor : bool) (octave : Z)
  : Scale.ResolvedChord :=
  {| Scale.root := root;
     Scale.isMajor := isMajor;
     Scale.symbol :=
       if isMajor then Scale.noteNameString root
       else (Scale.noteNameString root ++ "m")%string;
     Scale.frequency := Scale.noteToFrequency root octave |}.

Lemma resolveChord_chordOf (chord : string) (key : Scale.NoteName)
  (octave : Z) (c : Scale.ResolvedChord) :
  Scale.resolveChord chord key octave = Ok c ->
  c = chordOf (Scale.root c) (Scale.isMajor c) octave.
Proof.
  unfold Scale.resolveChord. cbv zeta.
  destruct (Scale.ROMAN_TO_DEGREE _) as [degree|].
  - intros [= <-]. reflexivity.
  - destruct (Scale.parseChordSymbol chord) as [[r m]|]; [|discriminate].
    intros [= <-]. reflexivity.
Qed.

Lemma resolveChord_symbol (root : Scale.NoteName) (isMajor : bool)
  (key : Scale.NoteName) (octave : Z) :
  Scale.resolveChord (Scale.symbol (chordOf root isMajor octave)) key octave =
  Ok (chordOf root isMajor octave).
Proof. destruct root, isMajor; reflexivity. Qed.

(** X3.  The symbol of a resolved chord resolves to the same chord in
    every key: whatever input and key produced a chord, resolving its
    [symbol] again (at the same octave) returns it unchanged. *)
Theorem X3_resolveChord_symbol_round_trip (chord : string)
  (key key' : Scale.NoteName) (octave : Z) (c : Scale.ResolvedChord) :
  Scale.resolveChord chord key octave = Ok c ->
  Scale.resolveChord (Scale.symbol c) key' octave = Ok c.
Proof.
  intros H. rewrite (resolveChord_chordOf _ _ _ _ H).
  apply resolveChord_symbol.
Qed.

(** X3 on the chord vi of G, which is the chord Em. *)
Lemma X3_resolveChord_symbol_round_trip_witness :
  exists c,
    Scale.resolveChord "vi" Scale.G 4 = Ok c /\
    Scale.symbol c = "Em" /\
    Scale.resolveChord "Em" Scale.A 4 = Ok c.
Proof.
  eexists. split; [reflexivity|]. split; [reflexivity|].
  exact (X3_resolveChord_symbol_round_trip "vi" Scale.G Scale.A 4 _ eq_refl).
Defined.

Lemma append_empty_r (s : string) : (s ++ "")%string = s.
Proof.
  induction s as [|c s IH]; [reflexivity|].
  change (String c (s ++ "")%string = String c s). f_equal. exact IH.
Qed.

(** The semitones of the degrees of the major scale above its root. *)
Definition degreeOffsets : list (string * Z) :=
  [("I", 0); ("II", 2); ("III", 4); ("IV", 5); ("V", 7); ("VI", 9);
   ("VII", 11)]%Z.

(** X4.  A roman numeral, in any case, resolves to the chord on that degree
    of the major scale of the key: its root lies 0, 2, 4, 5, 7, 9 or 11
    semitones above the key (modulo the octave) for I to VII, it is major
    exactly when the numeral is written in upper case, its symbol is the
    root's name with an m for minor, and its frequency is the root's in the
    given octave. *)
Theorem X4_resolveChord_roman (chord : string) (key : Scale.NoteName)
  (octave : Z) :
  isRomanNumeral chord ->
  exists c offset,
    Scale.resolveChord chord key octave = Ok c /\
    In (toUpperCase chord, offset) degreeOffsets /\
    Scale.NOTE_SEMITONES (Scale.root c) =
      ((Scale.NOTE_SEMITONES key + offset) mod 12)%Z /\
    (Scale.isMajor c = true <-> chord = toUpperCase chord) /\
    Scale.symbol c =
      (Scale.noteNameString (Scale.root c) ++
       (if Scale.isMajor c then "" else "m"))%string /\
    Scale.frequency c = Scale.noteToFrequency (Scale.root c) octave.
Proof.
  intros Hroman. unfold isRomanNumeral in Hroman.
  unfold Scale.resolveChord. cbv zeta.
  assert (Hmajor : Scale.isMajorChord chord = true <-> chord = toUpperCase chord).
  { unfold Scale.isMajorChord. apply String.eqb_eq. }
  pose proof (NOTE_SEMITONES_range key) as Hk.
  simpl in Hroman.
  destruct Hroman as [H|[H|[H|[H|[H|[H|[H|[]]]]]]]]; rewrite <- H;
    cbn [Scale.ROMAN_TO_DEGREE Scale.ROMAN_TO_DEGREE_table List.find fst snd
         String.eqb Ascii.eqb Bool.eqb];
    (eexists _, _; split; [reflexivity|]);
    cbn [Scale.root Scale.isMajor Scale.symbol Scale.frequency];
    (split; [simpl; eauto 10|]);
    match goal with
    | |- context [nth (Z.to_nat ?d) Scale.MAJOR_SCALE_DEGREES 0%Z] =>
        let v := eval vm_compute in
                   (nth (Z.to_nat d) Scale.MAJOR_SCALE_DEGREES 0%Z) in
        change (nth (Z.to_nat d) Scale.MAJOR_SCALE_DEGREES 0%Z) with v
    end;
    (split;
     [ rewrite Z.rem_mod_nonneg by lia;
       apply NOTE_NAMES_nth; apply Z.mod_pos_bound; lia |]);
    (split; [rewrite H; exact Hmajor|]);
    (split; [|reflexivity]);
    (destruct (Scale.isMajorChord chord);
     [rewrite append_empty_r; reflexivity|reflexivity]).
Qed.

(** X4 on the numeral vi in the key of G: the chord E minor. *)
Lemma X4_resolveChord_roman_witness :
  exists c,
    Scale.resolveChord "vi" Scale.G 4 = Ok c /\
    Scale.root c = Scale.E /\ Scale.isMajor c = false /\
    Scale.symbol c = "Em".
Proof.
  assert (Hroman : isRomanNumeral "vi") by (unfold isRomanNumeral; simpl; tauto).
  destruct (X4_resolveChord_roman "vi" Scale.G 4 Hroman)
    as (c & offset & Hc & _).
  exists c. split; [exact Hc|].
  injection Hc as <-. repeat split.
Defined.

Lemma resolveChordProgression_cons (chord : string) (rest : list string)
  (key : Scale.NoteName) (octave : Z) :
  Scale.resolveChordProgression (chord :: rest) key octave =
  match Scale.resolveChord chord key octave with
  | Throw message => Throw message
  | Ok c =>
      match Scale.resolveChordProgression rest key octave with
      | Throw message => Throw message
      | Ok cs => Ok (c :: cs)
      end
  end.
Proof. reflexivity. Qed.

(** X5.  [resolveChordProgression] maps [resolveChord] over the
    progression: it returns the chords, one per entry and in order, exactly
    when every entry resolves (the empty progression gives the empty list),
    and otherwise it throws the error of the first entry that does not
    resolve. *)
Theorem X5_resolveChordProgression_map (progression : list string)
  (key : Scale.NoteName) (octave : Z) :
  (forall chords,
     Scale.resolveChordProgression progression key octave = Ok chords <->
     Forall2 (fun chord c => Scale.resolveChord chord key octave = Ok c)
       progression chords) /\
  (forall message,
     Scale.resolveChordProgression progression key octave = Throw message <->
     exists before chord after,
       progression = before ++ chord :: after /\
       Forall (fun ch => exists c, Scale.resolveChord ch key octave = Ok c)
         before /\
       Scale.resolveChord chord key octave = Throw message).
Proof.
  induction progression as [|chord rest [IHok IHthrow]].
  - split.
    + intros chords. simpl. split.
      * intros [= <-]. constructor.
      * intros H. inversion H. reflexivity.
    + intros message. simpl. split; [discriminate|].
      intros (before & ch & after & H & _). destruct before; discriminate H.
  - split.
    + intros chords. rewrite resolveChordProgression_cons. split.
      * destruct (Scale.resolveChord chord key octave) as [c|m] eqn:Hc;
          [|discriminate].
        destruct (Scale.resolveChordProgression rest key octave) as [cs|m] eqn:Hcs;
          [|discriminate].
        intros [= <-]. constructor; [exact Hc|]. apply IHok. reflexivity.
      * intros H. inversion H as [|? c ? cs Hc Hcs]; subst.
        rewrite Hc. apply IHok in Hcs. rewrite Hcs. reflexivity.
    + intros message. rewrite resolveChordProgression_cons. split.
      * destruct (Scale.resolveChord chord key octave) as [c|m] eqn:Hc.
        -- destruct (Scale.resolveChordProgression rest key octave) as [cs|m] eqn:Hcs;
             [discriminate|].
           intros [= <-].
           destruct (proj1 (IHthrow m) eq_refl) as (before & ch & after & -> & Hb & Hch).
           exists (chord :: before), ch, after. split; [reflexivity|].
           split; [constructor; [eauto|exact Hb]|exact Hch].
        -- intros [= <-]. exists [], chord, rest. repeat split; [constructor|exact Hc].
      * intros (before & ch & after & Heq & Hb & Hch).
        destruct before as [|b before]; simpl in Heq.
        -- injection Heq as -> ->. rewrite Hch. reflexivity.
        -- injection Heq as -> ->. inversion Hb as [|? ? [c Hc] Hb']; subst.
           rewrite Hc.
           assert (Ht : Scale.resolveChordProgression (before ++ ch :: after)
                          key octave = Throw message).
           { apply IHthrow. eauto 6. }
           rewrite Ht. reflexivity.
Qed.

Lemma roman_resolves (chord : string) (key : Scale.NoteName) (octave : Z) :
  isRomanNumeral chord ->
  exists c,
    Scale.resolveChord chord key octave = Ok c /\
    Scale.isMajor c = Scale.isMajorChord chord.
Proof.
  intros Hroman. apply ROMAN_TO_DEGREE_upper in Hroman as (d & Hd & _).
  unfold Scale.resolveChord. cbv zeta. rewrite Hd.
  eexists. split; reflexivity.
Qed.

Lemma roman_progression_resolves (progression : list string)
  (key : Scale.NoteName) (octave : Z) :
  Forall isRomanNumeral progression ->
  exists chords,
    Scale.resolveChordProgression progression key octave = Ok chords /\
    length chords = length progression /\
    map Scale.isMajor chords = map Scale.isMajorChord progression.
Proof.
  induction 1 as [|chord rest Hc _ (cs & Hcs & Hlen & Hmaj)].
  - exists []. repeat split.
  - destruct (roman_resolves chord key octave Hc) as (c & Hr & Hm).
    exists (c :: cs). rewrite resolveChordProgression_cons, Hr, Hcs.
    split; [reflexivity|]. simpl. rewrite Hlen, Hmaj, Hm. split; reflexivity.
Qed.

Lemma PROGRESSIONS_roman (name : string) (progression : list string) :
  In (name, progression) Progressions.PROGRESSIONS ->
  progression <> [] /\ Forall isRomanNumeral progression.
Proof.
  unfold Progressions.PROGRESSIONS. simpl.
  intros H. decompose [or] H; try contradiction;
    match goal with
    | E : (_, _) = (_, _) |- _ => injection E as _ <-
    end;
    (split; [discriminate|]);
    repeat (constructor; [unfold isRomanNumeral; simpl; tauto|]);
    constructor.
Qed.

(** X6.  Every predefined progression of [PROGRESSIONS] resolves in every
    key and octave, to as many chords as it has entries, major where the
    numeral is in upper case and minor where it is in lower case; so a
    BackingTrack constructed with it does not throw, and [setChords] with it
    and any key stores the resolved chords and returns. *)
Theorem X6_progressions_resolve (name : string) (progression : list string)
  (key : Scale.NoteName) (octave : Z) :
  In (name, progression) Progressions.PROGRESSIONS ->
  (exists chords,
     Scale.resolveChordProgression progression key octave = Ok chords /\
     length chords = length progression /\
     map Scale.isMajor chords = map Scale.isMajorChord progression) /\
  (forall config,
     AudioTypes.cfg_chords config = Some progression ->
     exists s chords,
       BackingTrack.new config = Ok s /\
       Scale.resolveChordProgression progression Scale.C 4 = Ok chords /\
       BackingTrack.getChords s = chords) /\
  (forall s,
     exists s' chords,
       BackingTrack.setChords progression (Some key) s = Normal s' /\
       Scale.resolveChordProgression progression key 4 = Ok chords /\
       BackingTrack.getChords s' = chords /\
       BackingTrack.currentChordIndex s' = 0%nat).
Proof.
  intros Hin. destruct (PROGRESSIONS_roman _ _ Hin) as [Hne Hroman].
  split; [apply roman_progression_resolves, Hroman|].
  split.
  - intros config Hcfg.
    destruct (roman_progression_resolves progression Scale.C 4 Hroman)
      as (chords & Hc & _).
    unfold BackingTrack.new, BackingTrack.resolveChords. rewrite Hcfg.
    cbn [from_option]. unfold Datatypes.id.
    destruct progression as [|ch rest]; [contradiction|].
    unfold BackingTrack.DEFAULT_KEY. rewrite Hc.
    eexists _, chords. split; [reflexivity|]. split; reflexivity.
  - intros s.
    destruct (roman_progression_resolves progression key 4 Hroman)
      as (chords & Hc & _).
    unfold BackingTrack.setChords, BackingTrack.resolveChords. cbv zeta.
    cbn [BackingTrack.key].
    destruct progression as [|ch rest]; [contradiction|].
    rewrite Hc. eexists _, chords. split; [reflexivity|].
    repeat split.
Qed.

(** X6 on the twelve-bar blues in A: the chords on the bars 1, 5 and 9 are
    A, D and E. *)
Lemma X6_progressions_resolve_witness :
  exists chords,
    Scale.resolveChordProgression Progressions.BLUES_12_BAR Scale.A 4 =
      Ok chords /\
    length chords = 12%nat /\
    map Scale.symbol chords =
      ["A"; "A"; "A"; "A"; "D"; "D"; "A"; "A"; "E"; "D"; "A"; "E"].
Proof.
  assert (Hin : In ("BLUES_12_BAR", Progressions.BLUES_12_BAR)
                  Progressions.PROGRESSIONS) by (left; reflexivity).
  destruct (X6_progressions_resolve _ _ Scale.A 4 Hin)
    as [(chords & Hc & Hlen & _) _].
  exists chords. split; [exact Hc|]. split; [exact Hlen|].
  injection Hc as <-. reflexivity.
Defined.

(** ** The sequencer *)

Lemma Rabs_le_inv (x a : R) : Rabs x <= a -> - a <= x <= a.
Proof.
  intros H. unfold Rabs in H. destruct (Rcase_abs x); lra.
Qed.

Lemma scheduleBeat_step (s : BackingTrack.t) :
  let s' := BackingTrack.scheduleBeat s in
  BackingTrack.nextNoteTime s' =
    BackingTrack.nextNoteTime s + 60 / BackingTrack.tempo s /\
  BackingTrack.tempo s' = BackingTrack.tempo s.
Proof.
  unfold BackingTrack.scheduleBeat. cbv zeta.
  destruct (playNotes_spec (BackingTrack.getNotesForCurrentBeat s) s)
    as (_ & P2 & _ & P4 & _).
  match goal with |- context [BackingTrack.advanceBeat ?x] => set (s1 := x) in * end.
  destruct (advanceBeat_spec s1) as (_ & A2 & _ & A4 & _).
  rewrite A4, A2, P2, P4. split; reflexivity.
Qed.

(** The scheduler loop runs whole rounds until [nextNoteTime] has reached
    the end of the lookahead window. *)
Lemma scheduleLoop_rounds (fuel : nat) (lookaheadEnd : R)
  (s s' : BackingTrack.t) :
  0 < BackingTrack.tempo s ->
  BackingTrack.scheduleLoop fuel lookaheadEnd s = Some s' ->
  exists n,
    s' = Nat.iter n BackingTrack.scheduleBeat s /\
    BackingTrack.tempo s' = BackingTrack.tempo s /\
    BackingTrack.nextNoteTime s' =
      BackingTrack.nextNoteTime s + INR n * (60 / BackingTrack.tempo s) /\
    lookaheadEnd <= BackingTrack.nextNoteTime s' /\
    (n <> 0%nat ->
     BackingTrack.nextNoteTime s' < lookaheadEnd + 60 / BackingTrack.tempo s) /\
    (n = 0%nat <-> lookaheadEnd <= BackingTrack.nextNoteTime s).
Proof.
  revert s. induction fuel as [|fuel IH]; intros s Ht; simpl;
    destruct (Rlt_dec (BackingTrack.nextNoteTime s) lookaheadEnd) as [Hlt|Hge];
    try discriminate.
  1,3: intros [= <-]; exists 0%nat; simpl;
    repeat split; try lra; try reflexivity; intros; first [lia | lra].
  intros Hloop.
  destruct (scheduleBeat_step s) as [Hn Htempo]. cbv zeta in Hn, Htempo.
  assert (Ht1 : 0 < BackingTrack.tempo (BackingTrack.scheduleBeat s))
    by (rewrite Htempo; exact Ht).
  destruct (IH _ Ht1 Hloop) as (n & -> & T & N & Hend & Hnear & Hzero).
  rewrite Htempo in T, N, Hnear. rewrite Hn in N, Hzero.
  assert (HB : 0 < 60 / BackingTrack.tempo s) by (apply Rdiv_lt_0_compat; lra).
  exists (S n). split.
  { symmetry. apply Nat.iter_succ_r. }
  split; [exact T|]. split.
  { rewrite N, S_INR. ring. }
  split; [exact Hend|]. split.
  - intros _. destruct n as [|n].
    + rewrite N. simpl. lra.
    + apply Hnear. discriminate.
  - split; [discriminate|]. intros H. lra.
Qed.



(** The position in the progression, and what fixes it. *)
Definition position (s : BackingTrack.t) :=
  (BackingTrack.currentBeat s, BackingTrack.currentChordIndex s,
   BackingTrack.resolvedChords s, BackingTrack.beatsPerChord s).

Lemma playNotes_position (notes : list BackingTrack.ScheduledNote)
  (s : BackingTrack.t) :
  position
    (fold_left
       (fun s' note =>
          BackingTrack.playNote (BackingTrack.frequency note)
            (BackingTrack.nextNoteTime s' + BackingTrack.time note)
            (BackingTrack.duration note) s')
       notes s) = position s.
Proof.
  revert s. induction notes as [|n notes IH]; intros s; [reflexivity|].
  cbn [fold_left]. rewrite IH. reflexivity.
Qed.

Lemma scheduleBeat_position (s : BackingTrack.t) :
  position (BackingTrack.scheduleBeat s) =
  if Rle_dec (BackingTrack.beatsPerChord s) (INR (S (BackingTrack.currentBeat s)))
  then (0%nat,
        ((BackingTrack.currentChordIndex s + 1) mod
           length (BackingTrack.resolvedChords s))%nat,
        BackingTrack.resolvedChords s, BackingTrack.beatsPerChord s)
  else (S (BackingTrack.currentBeat s), BackingTrack.currentChordIndex s,
        BackingTrack.resolvedChords s, BackingTrack.beatsPerChord s).
Proof.
  unfold BackingTrack.scheduleBeat. cbv zeta.
  pose proof (playNotes_position (BackingTrack.getNotesForCurrentBeat s) s) as H.
  match goal with |- context [BackingTrack.advanceBeat ?x] => set (s1 := x) in * end.
  unfold position in H. injection H as H1 H2 H3 H4.
  unfold BackingTrack.advanceBeat. cbv zeta.
  cbn [BackingTrack.beatsPerChord BackingTrack.currentBeat].
  rewrite H1, H4.
  destruct Rle_dec; unfold position;
    cbn [BackingTrack.beatsPerChord BackingTrack.currentBeat
         BackingTrack.currentChordIndex BackingTrack.resolvedChords];
    rewrite ?H2, ?H3, ?H4; reflexivity.
Qed.

(** X8.  Each chord lasts [beatsPerChord] beats and the progression loops:
    when [beatsPerChord] is a whole number [N] of at least one beat, [n]
    rounds of the scheduler take the position from beat [b] of chord [i] to
    beat [(b + n) mod N] of chord [(i + (b + n) / N) mod L], with [L] the
    number of chords, and leave the chords and [beatsPerChord] alone. *)
Theorem X8_chord_cycle (s : BackingTrack.t) (N n : nat) :
  BackingTrack.beatsPerChord s = INR N ->
  (BackingTrack.currentBeat s < N)%nat ->
  (BackingTrack.currentChordIndex s <
   length (BackingTrack.resolvedChords s))%nat ->
  let s' := Nat.iter n BackingTrack.scheduleBeat s in
  BackingTrack.currentBeat s' = ((BackingTrack.currentBeat s + n) mod N)%nat /\
  BackingTrack.currentChordIndex s' =
    ((BackingTrack.currentChordIndex s +
      (BackingTrack.currentBeat s + n) / N) mod
       length (BackingTrack.resolvedChords s))%nat /\
  BackingTrack.resolvedChords s' = BackingTrack.resolvedChords s /\
  BackingTrack.beatsPerChord s' = BackingTrack.beatsPerChord s.
Proof.
  intros HN Hb Hi. cbv zeta.
  induction n as [|n (IH1 & IH2 & IH3 & IH4)].
  - simpl. rewrite Nat.add_0_r, Nat.mod_small by exact Hb.
    rewrite Nat.div_small, Nat.add_0_r, Nat.mod_small by assumption.
    repeat split; reflexivity.
  - rewrite Nat.iter_succ.
    set (s1 := Nat.iter n BackingTrack.scheduleBeat s) in *.
    pose proof (scheduleBeat_position s1) as Hpos.
    set (x := (BackingTrack.currentBeat s + n)%nat) in *.
    replace (BackingTrack.currentBeat s + S n)%nat with (S x) by (unfold x; lia).
    assert (HN0 : N <> 0%nat) by lia.
    pose proof (Nat.div_mod_eq x N) as Hx.
    pose proof (Nat.mod_upper_bound x N HN0) as Hm.
    rewrite IH4, HN, IH1 in Hpos.
    destruct (Rle_dec (INR N) (INR (S (x mod N)))) as [Hle|Hgt].
    + apply INR_le in Hle.
      assert (Hwrap : S (x mod N) = N) by lia.
      assert (Hdiv : (S x / N = S (x / N))%nat).
      { symmetry. apply (Nat.div_unique (S x) N (S (x / N)) 0); lia. }
      assert (Hmod : (S x mod N = 0)%nat).
      { symmetry. apply (Nat.mod_unique (S x) N (S (x / N)) 0); lia. }
      unfold position in Hpos. injection Hpos as P1 P2 P3 P4.
      rewrite P1, P2, P3, P4, IH2, IH3, Hdiv, Hmod, HN.
      repeat split; try reflexivity.
      rewrite Nat.Div0.add_mod_idemp_l. f_equal. lia.
    + assert (Hlt : (S (x mod N) < N)%nat).
      { destruct (Nat.lt_ge_cases (S (x mod N)) N) as [H|H]; [exact H|].
        exfalso. apply Hgt. apply le_INR. exact H. }
      assert (Hdiv : (S x / N = x / N)%nat).
      { symmetry. apply (Nat.div_unique (S x) N (x / N) (S (x mod N))); lia. }
      assert (Hmod : (S x mod N = S (x mod N))%nat).
      { symmetry. apply (Nat.mod_unique (S x) N (x / N) (S (x mod N))); lia. }
      unfold position in Hpos. injection Hpos as P1 P2 P3 P4.
      rewrite P1, P2, P3, P4, IH2, IH3, Hdiv, Hmod, HN.
      repeat split; reflexivity.
Qed.

(** X8 on an instance with the chords I, IV, V at one bar each: nine rounds
    after the start the sequencer is on the second beat of the third chord,
    and twelve rounds after the start it is back on the first. *)
Lemma X8_chord_cycle_witness :
  exists s,
    BackingTrack.new
      {| AudioTypes.cfg_tempo := None; AudioTypes.cfg_style := None;
         AudioTypes.cfg_instrument := None;
         AudioTypes.cfg_chords := Some ["I"; "IV"; "V"];
         AudioTypes.cfg_bars := None; AudioTypes.cfg_swing := None |} = Ok s /\
    BackingTrack.currentBeat (Nat.iter 9 BackingTrack.scheduleBeat s) = 1%nat /\
    BackingTrack.currentChordIndex (Nat.iter 9 BackingTrack.scheduleBeat s)
      = 2%nat /\
    BackingTrack.currentChordIndex (Nat.iter 12 BackingTrack.scheduleBeat s)
      = 0%nat.
Proof.
  eexists. split; [reflexivity|].
  match goal with
  | |- context [Nat.iter 9 BackingTrack.scheduleBeat ?s0] => set (s := s0)
  end.
  assert (HN : BackingTrack.beatsPerChord s = INR 4).
  { unfold s, BackingTrack.DEFAULT_BARS. simpl. lra. }
  assert (Hb : (BackingTrack.currentBeat s < 4)%nat) by (simpl; lia).
  assert (Hi : (BackingTrack.currentChordIndex s <
                length (BackingTrack.resolvedChords s))%nat) by (simpl; lia).
  destruct (X8_chord_cycle s 4 9 HN Hb Hi) as (H1 & H2 & _).
  destruct (X8_chord_cycle s 4 12 HN Hb Hi) as (_ & H3 & _).
  split; [exact H1|]. split; [exact H2|exact H3].
Defined.

(** *** The oscillators the sequencer keeps track of *)

(** The voice at position [i] has the identity [i]; the set of active
    oscillators and the list of the force-stopped ones hold identities of
    voices, each at most once, and share none; and the set is empty while
    the track does not play. *)
Definition tracked (s : BackingTrack.t) : Prop :=
  NoDup (BackingTrack.activeOscillators s) /\
  NoDup (BackingTrack.forcedStops s) /\
  Forall (fun o => (o < length (BackingTrack.voices s))%nat)
    (BackingTrack.activeOscillators s) /\
  Forall (fun o => (o < length (BackingTrack.voices s))%nat)
    (BackingTrack.forcedStops s) /\
  (forall o, o ∈ BackingTrack.activeOscillators s ->
             o ∉ BackingTrack.forcedStops s) /\
  (forall i v, BackingTrack.voices s !! i = Some v ->
               BackingTrack.voice_id v = i) /\
  (BackingTrack.isPlaying s = false -> BackingTrack.activeOscillators s = []).

(** The fields [tracked] reads. *)
Definition book (s : BackingTrack.t) :=
  (BackingTrack.activeOscillators s, BackingTrack.forcedStops s,
   BackingTrack.voices s, BackingTrack.isPlaying s).

Lemma tracked_book (s s' : BackingTrack.t) :
  book s' = book s -> tracked s -> tracked s'.
Proof.
  unfold book, tracked. intros [= -> -> -> ->]. tauto.
Qed.

Lemma tracked_playNote (frequency startTime duration : R)
  (s : BackingTrack.t) :
  BackingTrack.isPlaying s = true ->
  tracked s ->
  tracked (BackingTrack.playNote frequency startTime duration s) /\
  BackingTrack.isPlaying
    (BackingTrack.playNote frequency startTime duration s) = true.
Proof.
  intros Hp (H1 & H2 & H3 & H4 & H5 & H6 & _).
  split; [|exact Hp].
  unfold tracked, BackingTrack.playNote. cbv zeta.
  cbn [BackingTrack.activeOscillators BackingTrack.forcedStops
       BackingTrack.voices BackingTrack.isPlaying].
  rewrite length_app. cbn [length].
  rewrite Forall_forall in H3, H4.
  repeat split.
  - apply NoDup_app. split; [exact H1|]. split; [|apply NoDup_singleton].
    intros o Ho ->%list_elem_of_singleton. specialize (H3 _ Ho). lia.
  - exact H2.
  - apply Forall_app. split.
    + apply Forall_forall. intros o Ho. specialize (H3 _ Ho). lia.
    + constructor; [lia|constructor].
  - apply Forall_forall. intros o Ho. specialize (H4 _ Ho). lia.
  - intros o [Ho| ->%list_elem_of_singleton]%elem_of_app.
    + apply H5, Ho.
    + intros Hf. specialize (H4 _ Hf). lia.
  - intros i v Hv. apply lookup_app_Some in Hv as [Hv|[Hle Hv]].
    + apply H6, Hv.
    + apply list_lookup_singleton_Some in Hv as [Hi <-]. simpl. lia.
  - intros Hf. congruence.
Qed.

Lemma tracked_playNotes (notes : list BackingTrack.ScheduledNote)
  (s : BackingTrack.t) :
  BackingTrack.isPlaying s = true ->
  tracked s ->
  let s' :=
    fold_left
      (fun s' note =>
         BackingTrack.playNote (BackingTrack.frequency note)
           (BackingTrack.nextNoteTime s' + BackingTrack.time note)
           (BackingTrack.duration note) s')
      notes s in
  tracked s' /\ BackingTrack.isPlaying s' = true.
Proof.
  revert s. induction notes as [|n notes IH]; intros s Hp Ht; [split; assumption|].
  cbn [fold_left].
  destruct (tracked_playNote (BackingTrack.frequency n)
              (BackingTrack.nextNoteTime s + BackingTrack.time n)
              (BackingTrack.duration n) s Hp Ht) as [Ht1 Hp1].
  exact (IH _ Hp1 Ht1).
Qed.

Lemma book_advanceBeat (s : BackingTrack.t) :
  book (BackingTrack.advanceBeat s) = book s.
Proof.
  unfold BackingTrack.advanceBeat. cbv zeta. destruct Rle_dec; reflexivity.
Qed.

Lemma tracked_scheduleBeat (s : BackingTrack.t) :
  BackingTrack.isPlaying s = true -> tracked s ->
  tracked (BackingTrack.scheduleBeat s) /\
  BackingTrack.isPlaying (BackingTrack.scheduleBeat s) = true.
Proof.
  intros Hp Ht. unfold BackingTrack.scheduleBeat. cbv zeta.
  destruct (tracked_playNotes (BackingTrack.getNotesForCurrentBeat s) s Hp Ht)
    as [Ht1 Hp1].
  cbv zeta in Ht1, Hp1.
  match goal with |- context [BackingTrack.advanceBeat ?x] => set (s1 := x) in * end.
  pose proof (book_advanceBeat s1) as Hb.
  split; [exact (tracked_book _ _ Hb Ht1)|].
  unfold book in Hb. injection Hb as _ _ _ ->. exact Hp1.
Qed.

Lemma tracked_scheduleLoop (fuel : nat) (lookaheadEnd : R)
  (s s' : BackingTrack.t) :
  BackingTrack.isPlaying s = true -> tracked s ->
  BackingTrack.scheduleLoop fuel lookaheadEnd s = Some s' -> tracked s'.
Proof.
  revert s. induction fuel as [|fuel IH]; intros s Hp Ht; simpl;
    destruct Rlt_dec; try discriminate; try (intros [= <-]; exact Ht).
  destruct (tracked_scheduleBeat s Hp Ht) as [Ht1 Hp1]. apply IH; assumption.
Qed.

Lemma tracked_stop (s : BackingTrack.t) :
  tracked s -> tracked (BackingTrack.stop s).
Proof.
  intros Ht. unfold BackingTrack.stop.
  destruct (BackingTrack.isPlaying s) eqn:Hp; [|exact Ht].
  destruct Ht as (H1 & H2 & H3 & H4 & H5 & H6 & _).
  unfold tracked. cbn [negb BackingTrack.activeOscillators
    BackingTrack.forcedStops BackingTrack.voices BackingTrack.isPlaying].
  repeat split.
  - constructor.
  - apply NoDup_app. split; [exact H2|]. split; [|exact H1].
    intros o Hf Ha. exact (H5 o Ha Hf).
  - constructor.
  - apply Forall_app. split; assumption.
  - intros o Ho. inversion Ho.
  - exact H6.
Qed.

Lemma tracked_onended (oscillator : nat) (s : BackingTrack.t) :
  tracked s -> tracked (BackingTrack.onended oscillator s).
Proof.
  intros (H1 & H2 & H3 & H4 & H5 & H6 & H7).
  unfold tracked, BackingTrack.onended.
  cbn [BackingTrack.activeOscillators BackingTrack.forcedStops
       BackingTrack.voices BackingTrack.isPlaying].
  assert (Hsub : forall o,
            o ∈ List.filter (fun x => negb (Nat.eqb x oscillator))
                  (BackingTrack.activeOscillators s) ->
            o ∈ BackingTrack.activeOscillators s).
  { intros o Ho. apply list_elem_of_In in Ho. apply List.filter_In in Ho as [Ho _].
    apply list_elem_of_In. exact Ho. }
  repeat split.
  - apply NoDup_ListNoDup, List.NoDup_filter, NoDup_ListNoDup, H1.
  - exact H2.
  - apply Forall_forall. intros o Ho. rewrite Forall_forall in H3.
    apply H3, Hsub, Ho.
  - exact H4.
  - intros o Ho. apply H5, Hsub, Ho.
  - exact H6.
  - intros Hf. rewrite (H7 Hf). reflexivity.
Qed.

Lemma tracked_step (fuel : nat) (ev : BackingTrack.Event)
  (s : BackingTrack.t) (c : Completion BackingTrack.t) :
  timerOk s -> tracked s ->
  BackingTrack.step fuel ev s = Some c -> tracked (stateOf c).
Proof.
  intros [Htimer _] Ht.
  destruct ev; simpl.
  - intros [= <-]. simpl. unfold BackingTrack.play.
    destruct (BackingTrack.isPlaying s || BackingTrack.destroyed s);
      [exact Ht|].
    destruct Ht as (H1 & H2 & H3 & H4 & H5 & H6 & H7).
    repeat split; try assumption. discriminate.
  - intros [= <-]. apply tracked_stop, Ht.
  - intros [= <-]. exact (tracked_book s _ eq_refl Ht).
  - intros [= <-]. unfold BackingTrack.setChords. cbv zeta.
    destruct (BackingTrack.resolveChords _ _); destruct key;
      exact (tracked_book s _ eq_refl Ht).
  - intros [= <-]. exact (tracked_book s _ eq_refl Ht).
  - intros [= <-]. exact (tracked_book s _ eq_refl Ht).
  - intros [= <-]. exact (tracked_book s _ eq_refl Ht).
  - intros [= <-]. simpl. unfold BackingTrack.destroy.
    destruct (BackingTrack.destroyed s); [exact Ht|]. cbv zeta.
    match goal with
    | |- tracked ?x =>
        match x with
        | context [BackingTrack.stop ?y] =>
            apply (tracked_book (BackingTrack.stop y) x eq_refl);
            apply tracked_stop; exact (tracked_book s y eq_refl Ht)
        end
    end.
  - destruct (BackingTrack.schedulerInterval s) eqn:Hi.
    + destruct (BackingTrack.schedule fuel now s) as [s'|] eqn:Hs; [|discriminate].
      intros [= <-]. simpl.
      assert (Hp : BackingTrack.isPlaying s = true) by congruence.
      exact (tracked_scheduleLoop _ _ _ _ Hp Ht Hs).
    + intros [= <-]. exact Ht.
  - intros [= <-]. apply tracked_onended, Ht.
Qed.

Lemma timerOk_new (config : AudioTypes.BackingConfig) (s : BackingTrack.t) :
  BackingTrack.new config = Ok s -> timerOk s /\ tracked s.
Proof.
  intros H. apply new_fresh in H as (chords & _ & ->).
  split; [split; [reflexivity|discriminate]|].
  unfold tracked. simpl.
  repeat split; try constructor; try discriminate.
  intros o Ho. inversion Ho.
Qed.

Lemma tracked_run (fuel : nat) (evs : list BackingTrack.Event)
  (s s' : BackingTrack.t) :
  timerOk s -> tracked s -> BackingTrack.run fuel evs s = Some s' ->
  timerOk s' /\ tracked s'.
Proof.
  revert s. induction evs as [|ev evs IH]; intros s Htimer Ht; simpl.
  - intros [= <-]. split; assumption.
  - destruct (BackingTrack.step fuel ev s) as [c|] eqn:Hstep; [|discriminate].
    apply IH; [eapply timerOk_step; eauto|eapply tracked_step; eauto].
Qed.

Lemma ticks_idle (fuel : nat) (nows : list R) (s : BackingTrack.t) :
  BackingTrack.schedulerInterval s = false ->
  BackingTrack.run fuel (map BackingTrack.Tick nows) s = Some s.
Proof.
  intros H. induction nows as [|now nows IH]; [reflexivity|].
  simpl. rewrite H. exact IH.
Qed.

(** A short session of an instance at 120 BPM in style quarter: played at
    time 0 and ticked once, it has scheduled one voice, which is active. *)
Lemma short_session (s0 : BackingTrack.t) :
  BackingTrack.new (configOf 120 AudioTypes.quarter 0) = Ok s0 ->
  exists s,
    BackingTrack.run 1 [BackingTrack.Play 0; BackingTrack.Tick 0.025] s0
      = Some s /\
    BackingTrack.isPlaying s = true /\
    length (BackingTrack.voices s) = 1%nat /\
    BackingTrack.activeOscillators s = [0%nat] /\
    BackingTrack.forcedStops s = [].
Proof.
  destruct (new_configOf 120 AudioTypes.quarter 0) as (chord & Hnew & _).
  rewrite Hnew. intros [= <-].
  eexists. split.
  - run_event. run_event. reflexivity.
  - repeat split.
Qed.

(** X9.  [stop] silences the sequencer.  On an instance in any state it
    can reach, [stop] leaves the instance inactive with no active
    oscillator; the oscillators that were active, and only they, get the
    forced [osc.stop()]; no voice is added or withdrawn; from then on the
    firings of the timer do nothing, whatever the clock shows; and a second
    [stop] changes nothing. *)
Theorem X9_stop_silences (config : AudioTypes.BackingConfig)
  (s0 s : BackingTrack.t) (fuel : nat) (evs : list BackingTrack.Event) :
  BackingTrack.new config = Ok s0 ->
  BackingTrack.run fuel evs s0 = Some s ->
  let s1 := BackingTrack.stop s in
  BackingTrack.isActive s1 = false /\
  BackingTrack.activeOscillators s1 = [] /\
  BackingTrack.forcedStops s1 =
    BackingTrack.forcedStops s ++ BackingTrack.activeOscillators s /\
  BackingTrack.voices s1 = BackingTrack.voices s /\
  (forall fuel' nows,
     BackingTrack.run fuel' (map BackingTrack.Tick nows) s1 = Some s1) /\
  BackingTrack.stop s1 = s1.
Proof.
  intros Hnew Hrun.
  destruct (timerOk_new _ _ Hnew) as [Htimer0 Ht0].
  destruct (tracked_run _ _ _ _ Htimer0 Ht0 Hrun)
    as [[Htimer _] (_ & _ & _ & _ & _ & _ & Hidle)].
  cbv zeta. unfold BackingTrack.stop, BackingTrack.isActive.
  destruct (BackingTrack.isPlaying s) eqn:Hp; cbn [negb].
  - cbn [BackingTrack.isPlaying BackingTrack.activeOscillators
         BackingTrack.forcedStops BackingTrack.voices negb].
    repeat split. intros fuel' nows. apply ticks_idle. reflexivity.
  - rewrite Hp. cbn [negb]. rewrite (Hidle eq_refl), app_nil_r.
    repeat split. intros fuel' nows. apply ticks_idle. congruence.
Qed.

(** X9 on the short session: the one active voice is stopped by force and
    the later ticks schedule nothing. *)
Lemma X9_stop_silences_witness :
  exists s0 s,
    BackingTrack.new (configOf 120 AudioTypes.quarter 0) = Ok s0 /\
    BackingTrack.run 1 [BackingTrack.Play 0; BackingTrack.Tick 0.025] s0
      = Some s /\
    BackingTrack.activeOscillators (BackingTrack.stop s) = [] /\
    BackingTrack.forcedStops (BackingTrack.stop s) = [0%nat] /\
    BackingTrack.run 3
      (map BackingTrack.Tick [0.05; 0.075; 10]) (BackingTrack.stop s)
    = Some (BackingTrack.stop s).
Proof.
  destruct (new_configOf 120 AudioTypes.quarter 0) as (chord & Hnew & _).
  destruct (short_session _ Hnew) as (s & Hrun & _ & _ & Ha & Hf).
  eexists _, s. split; [exact Hnew|]. split; [exact Hrun|].
  destruct (X9_stop_silences _ _ s _ _ Hnew Hrun) as (_ & H1 & H2 & _ & H3 & _).
  split; [exact H1|]. split; [rewrite H2, Ha, Hf; reflexivity|].
  exact (H3 3%nat [0.05; 0.075; 10]).
Defined.

(** X10.  The oscillators of the sequencer are accounted for.  In every
    state an instance can reach, the voice at position [i] of the history
    is the oscillator [i]; the active set and the list of forced stops hold
    oscillators of the history only, each at most once, and no oscillator
    is in both, so that none is stopped by force twice and none is tracked
    after it was; and the active set is empty while the instance does not
    play. *)
Theorem X10_oscillators_tracked (config : AudioTypes.BackingConfig)
  (s0 s : BackingTrack.t) (fuel : nat) (evs : list BackingTrack.Event) :
  BackingTrack.new config = Ok s0 ->
  BackingTrack.run fuel evs s0 = Some s ->
  (forall i v, BackingTrack.voices s !! i = Some v ->
               BackingTrack.voice_id v = i) /\
  NoDup (BackingTrack.activeOscillators s) /\
  NoDup (BackingTrack.forcedStops s) /\
  (forall o, o ∈ BackingTrack.activeOscillators s ++ BackingTrack.forcedStops s ->
             exists v, BackingTrack.voices s !! o = Some v) /\
  (forall o, o ∈ BackingTrack.activeOscillators s ->
             o ∉ BackingTrack.forcedStops s) /\
  (BackingTrack.isActive s = false -> BackingTrack.activeOscillators s = []).
Proof.
  intros Hnew Hrun.
  destruct (timerOk_new _ _ Hnew) as [Htimer0 Ht0].
  destruct (tracked_run _ _ _ _ Htimer0 Ht0 Hrun)
    as [_ (H1 & H2 & H3 & H4 & H5 & H6 & H7)].
  repeat split; try assumption.
  intros o Ho. apply lookup_lt_is_Some_2.
  rewrite Forall_forall in H3, H4.
  apply elem_of_app in Ho as [Ho|Ho]; [apply H3, Ho|apply H4, Ho].
Qed.

(** The short session followed by [stop], [play] and one more tick. *)
Lemma second_session (s0 : BackingTrack.t) :
  BackingTrack.new (configOf 120 AudioTypes.quarter 0) = Ok s0 ->
  exists s,
    BackingTrack.run 1
      [BackingTrack.Play 0; BackingTrack.Tick 0.025; BackingTrack.Stop;
       BackingTrack.Play 1; BackingTrack.Tick 1] s0 = Some s /\
    BackingTrack.activeOscillators s = [1%nat] /\
    BackingTrack.forcedStops s = [0%nat].
Proof.
  destruct (new_configOf 120 AudioTypes.quarter 0) as (chord & Hnew & _).
  rewrite Hnew. intros [= <-].
  eexists. split.
  - do 5 run_event. reflexivity.
  - split; reflexivity.
Qed.

(** X10 on the short session followed by [stop], [play] and one more tick:
    the first oscillator is in the list of forced stops, the second is
    active. *)
Lemma X10_oscillators_tracked_witness :
  exists s0 s,
    BackingTrack.new (configOf 120 AudioTypes.quarter 0) = Ok s0 /\
    BackingTrack.run 1
      [BackingTrack.Play 0; BackingTrack.Tick 0.025; BackingTrack.Stop;
       BackingTrack.Play 1; BackingTrack.Tick 1] s0 = Some s /\
    BackingTrack.activeOscillators s = [1%nat] /\
    BackingTrack.forcedStops s = [0%nat] /\
    (forall i v, BackingTrack.voices s !! i = Some v ->
                 BackingTrack.voice_id v = i) /\
    forall o, o ∈ BackingTrack.activeOscillators s ->
              o ∉ BackingTrack.forcedStops s.
Proof.
  destruct (new_configOf 120 AudioTypes.quarter 0) as (chord & Hnew & _).
  destruct (second_session _ Hnew) as (s & Hrun & Ha & Hf).
  eexists _, s. split; [exact Hnew|]. split; [exact Hrun|].
  split; [exact Ha|]. split; [exact Hf|].
  destruct (X10_oscillators_tracked _ _ s _ _ Hnew Hrun)
    as (H0 & _ & _ & _ & H3 & _).
  split; [exact H0|exact H3].
Defined.

Lemma resolveChordProgression_Ok (progression : list string)
  (key : Scale.NoteName) (octave : Z) (chords : list Scale.ResolvedChord) :
  Scale.resolveChordProgression progression key octave = Ok chords ->
  Forall2 (fun chord c => Scale.resolveChord chord key octave = Ok c)
    progression chords.
Proof.
  revert chords. induction progression as [|chord rest IH]; intros chords.
  - intros [= <-]. constructor.
  - rewrite resolveChordProgression_cons.
    destruct (Scale.resolveChord chord key octave) as [c|m] eqn:Hc;
      [|discriminate].
    destruct (Scale.resolveChordProgression rest key octave) as [cs|m];
      [|discriminate].
    intros [= <-]. constructor; [exact Hc|]. apply IH. reflexivity.
Qed.

Lemma resolveChordProgression_Throw (progression : list string)
  (key : Scale.NoteName) (octave : Z) (message : string) :
  Scale.resolveChordProgression progression key octave = Throw message ->
  exists chord,
    chord ∈ progression /\
    Scale.resolveChord chord key octave = Throw message.
Proof.
  induction progression as [|chord rest IH]; [discriminate|].
  rewrite resolveChordProgression_cons.
  destruct (Scale.resolveChord chord key octave) as [c|m] eqn:Hc.
  - destruct (Scale.resolveChordProgression rest key octave) as [cs|m];
      [discriminate|].
    intros [= <-]. destruct (IH eq_refl) as (ch & Hin & Hch).
    exists ch. split; [right; exact Hin|exact Hch].
  - intros [= <-]. exists chord. split; [left|exact Hc].
Qed.

(** X11.  [setChords(progression, key)], whatever the state of the
    instance.  The key given, if any, replaces the key of the instance
    first, also when the call then throws.  When every entry resolves in
    that key, the call stores the resolved chords, one per entry and in
    order (the single chord I for the empty progression), and restarts the
    progression at its first chord, leaving the beat, the schedule time and
    the playing state as they were.  Otherwise it throws the error of an
    entry of the progression and leaves the chords and the position in them
    unchanged. *)
Theorem X11_setChords (progression : list string)
  (key_opt : option Scale.NoteName) (s : BackingTrack.t) :
  let k := default (BackingTrack.key s) key_opt in
  let entries := match progression with [] => ["I"] | _ => progression end in
  match BackingTrack.setChords progression key_opt s with
  | Normal s' =>
      Forall2 (fun chord c => Scale.resolveChord chord k 4 = Ok c)
        entries (BackingTrack.getChords s') /\
      BackingTrack.key s' = k /\
      BackingTrack.currentChordIndex s' = 0%nat /\
      BackingTrack.currentBeat s' = BackingTrack.currentBeat s /\
      BackingTrack.nextNoteTime s' = BackingTrack.nextNoteTime s /\
      BackingTrack.isActive s' = BackingTrack.isActive s
  | Thrown s' message =>
      (exists chord,
         chord ∈ progression /\
         Scale.resolveChord chord k 4 = Throw message) /\
      BackingTrack.key s' = k /\
      BackingTrack.getChords s' = BackingTrack.getChords s /\
      BackingTrack.currentChordIndex s' = BackingTrack.currentChordIndex s
  end.
Proof.
  cbv zeta. unfold BackingTrack.setChords. cbv zeta.
  set (s1 := match key_opt with Some _ => _ | None => s end).
  assert (Hk : BackingTrack.key s1 = default (BackingTrack.key s) key_opt)
    by (destruct key_opt; reflexivity).
  assert (Hc : BackingTrack.resolvedChords s1 = BackingTrack.resolvedChords s)
    by (destruct key_opt; reflexivity).
  assert (Hi : BackingTrack.currentChordIndex s1 =
               BackingTrack.currentChordIndex s)
    by (destruct key_opt; reflexivity).
  assert (Hb : BackingTrack.currentBeat s1 = BackingTrack.currentBeat s)
    by (destruct key_opt; reflexivity).
  assert (Hn : BackingTrack.nextNoteTime s1 = BackingTrack.nextNoteTime s)
    by (destruct key_opt; reflexivity).
  assert (Hp : BackingTrack.isPlaying s1 = BackingTrack.isPlaying s)
    by (destruct key_opt; reflexivity).
  clearbody s1. rewrite <- Hk.
  destruct (BackingTrack.resolveChords progression (BackingTrack.key s1))
    as [chords|message] eqn:Hres.
  - unfold BackingTrack.getChords, BackingTrack.isActive.
    cbn [BackingTrack.resolvedChords BackingTrack.key
         BackingTrack.currentChordIndex BackingTrack.currentBeat
         BackingTrack.nextNoteTime BackingTrack.isPlaying].
    repeat split; try assumption.
    unfold BackingTrack.resolveChords in Hres.
    destruct progression; apply resolveChordProgression_Ok, Hres.
  - unfold BackingTrack.getChords. repeat split; try assumption.
    unfold BackingTrack.resolveChords in Hres.
    destruct progression as [|ch rest].
    + exfalso. revert Hres. unfold Scale.resolveChordProgression.
      destruct (BackingTrack.key s1); discriminate.
    + apply resolveChordProgression_Throw, Hres.
Qed.

(** *** The voices the sequencer starts *)

Definition okVoice (v : BackingTrack.Voice) : Prop :=
  0 < BackingTrack.voice_frequency v /\
  BackingTrack.startTime v + 0.21 < BackingTrack.stopTime v.

(** The tempo and the length of a chord are positive and the voices started
    so far are well formed. *)
Definition sound (s : BackingTrack.t) : Prop :=
  0 < BackingTrack.tempo s /\ 0 < BackingTrack.bars s /\
  0 < BackingTrack.beatsPerChord s /\
  Forall okVoice (BackingTrack.voices s).

(** The fields [sound] reads. *)
Definition score (s : BackingTrack.t) :=
  (BackingTrack.tempo s, BackingTrack.bars s, BackingTrack.beatsPerChord s,
   BackingTrack.voices s).

Lemma sound_score (s s' : BackingTrack.t) :
  score s' = score s -> sound s -> sound s'.
Proof. unfold score, sound. intros [= -> -> -> ->]. tauto. Qed.

Lemma release_min (i : AudioTypes.BackingInstrument) :
  0.2 <= AudioTypes.release
           (BackingTrack.instr_envelope (BackingTrack.INSTRUMENT_CONFIG i)).
Proof. destruct i; simpl; lra. Qed.

Lemma getNotesForCurrentBeat_positive (s : BackingTrack.t) :
  0 < BackingTrack.tempo s -> 0 < BackingTrack.beatsPerChord s ->
  Forall (fun n => 0 < BackingTrack.frequency n /\ 0 < BackingTrack.duration n)
    (BackingTrack.getNotesForCurrentBeat s).
Proof.
  intros Ht Hb.
  assert (HB : 0 < 60 / BackingTrack.tempo s) by (apply Rdiv_lt_0_compat; lra).
  unfold BackingTrack.getNotesForCurrentBeat.
  destruct (_ !! _) as [chord|]; [|constructor].
  cbv zeta. set (B := 60 / BackingTrack.tempo s) in *.
  set (f := Scale.noteToFrequency _ _).
  assert (Hf : 0 < f) by apply noteToFrequency_pos.
  destruct (BackingTrack.style s).
  - destruct (Nat.eqb _ _); repeat constructor; simpl; [exact Hf|].
    apply Rmult_lt_0_compat; [apply Rmult_lt_0_compat; assumption|lra].
  - repeat constructor; simpl; [exact Hf|lra].
  - repeat constructor; simpl; try exact Hf; lra.
  - repeat constructor; simpl; try exact Hf; lra.
  - repeat constructor;
      cbn [BackingTrack.frequency BackingTrack.duration]; [|lra].
    unfold BackingTrack.getChordTones. cbv zeta. fold f. cbn [length].
    pose proof (Math_pow_2_pos (7 / 12)).
    pose proof (Math_pow_2_pos ((if Scale.isMajor chord then 4 else 3) / 12)).
    assert (Hm : (BackingTrack.currentBeat s mod 3 < 3)%nat)
      by (apply Nat.mod_upper_bound; lia).
    destruct (BackingTrack.currentBeat s mod 3)%nat as [|[|[|n]]];
      cbn [nth].
    + exact Hf.
    + apply Rmult_lt_0_compat; assumption.
    + apply Rmult_lt_0_compat; assumption.
    + lia.
Qed.

Lemma sound_playNote (frequency startTime duration : R) (s : BackingTrack.t) :
  0 < frequency -> 0 < duration -> sound s ->
  sound (BackingTrack.playNote frequency startTime duration s).
Proof.
  intros Hf Hd (H1 & H2 & H3 & H4).
  unfold sound, BackingTrack.playNote. cbv zeta.
  cbn [BackingTrack.tempo BackingTrack.bars BackingTrack.beatsPerChord
       BackingTrack.voices].
  repeat split; try assumption.
  apply Forall_app. split; [exact H4|]. constructor; [|constructor].
  split; simpl; [exact Hf|].
  pose proof (release_min (BackingTrack.instrument s)). lra.
Qed.

Lemma sound_playNotes (notes : list BackingTrack.ScheduledNote)
  (s : BackingTrack.t) :
  Forall (fun n => 0 < BackingTrack.frequency n /\ 0 < BackingTrack.duration n)
    notes ->
  sound s ->
  sound
    (fold_left
       (fun s' note =>
          BackingTrack.playNote (BackingTrack.frequency note)
            (BackingTrack.nextNoteTime s' + BackingTrack.time note)
            (BackingTrack.duration note) s')
       notes s).
Proof.
  revert s. induction notes as [|n notes IH]; intros s Hn Hs; [exact Hs|].
  inversion Hn as [|? ? [Hf Hd] Hn']; subst. cbn [fold_left].
  apply IH; [exact Hn'|]. apply sound_playNote; assumption.
Qed.

Lemma score_advanceBeat (s : BackingTrack.t) :
  score (BackingTrack.advanceBeat s) = score s.
Proof.
  unfold BackingTrack.advanceBeat. cbv zeta. destruct Rle_dec; reflexivity.
Qed.

Lemma sound_scheduleBeat (s : BackingTrack.t) :
  sound s -> sound (BackingTrack.scheduleBeat s).
Proof.
  intros Hs. unfold BackingTrack.scheduleBeat. cbv zeta.
  apply (sound_score _ _ (score_advanceBeat _)).
  apply sound_playNotes; [|exact Hs].
  destruct Hs as (H1 & _ & H3 & _).
  apply getNotesForCurrentBeat_positive; assumption.
Qed.

Lemma sound_scheduleLoop (fuel : nat) (lookaheadEnd : R)
  (s s' : BackingTrack.t) :
  sound s -> BackingTrack.scheduleLoop fuel lookaheadEnd s = Some s' ->
  sound s'.
Proof.
  revert s. induction fuel as [|fuel IH]; intros s Hs; simpl;
    destruct Rlt_dec; try discriminate; try (intros [= <-]; exact Hs).
  apply IH, sound_scheduleBeat, Hs.
Qed.

Lemma sound_step (fuel : nat) (ev : BackingTrack.Event)
  (s : BackingTrack.t) (c : Completion BackingTrack.t) :
  sound s -> BackingTrack.step fuel ev s = Some c -> sound (stateOf c).
Proof.
  intros Hs. pose proof Hs as (H1 & H2 & H3 & H4).
  destruct ev; simpl.
  - intros [= <-]. simpl. unfold BackingTrack.play.
    destruct (_ || _); [exact Hs|]. exact (sound_score s _ eq_refl Hs).
  - intros [= <-]. simpl. unfold BackingTrack.stop.
    destruct (negb _); [exact Hs|]. exact (sound_score s _ eq_refl Hs).
  - intros [= <-]. simpl. unfold sound, BackingTrack.setTempo,
      BackingTrack.updateBeatsPerChord. cbv zeta.
    cbn [BackingTrack.tempo BackingTrack.bars BackingTrack.beatsPerChord
         BackingTrack.voices].
    repeat split; try assumption; [|lra].
    unfold Math_max, Math_min, Rmax, Rmin.
    repeat destruct Rle_dec; lra.
  - intros [= <-]. unfold BackingTrack.setChords. cbv zeta.
    destruct (BackingTrack.resolveChords _ _); destruct key;
      exact (sound_score s _ eq_refl Hs).
  - intros [= <-]. simpl. unfold sound, BackingTrack.setStyle,
      BackingTrack.updateBeatsPerChord. cbv zeta.
    cbn [BackingTrack.tempo BackingTrack.bars BackingTrack.beatsPerChord
         BackingTrack.voices].
    repeat split; try assumption; lra.
  - intros [= <-]. exact (sound_score s _ eq_refl Hs).
  - intros [= <-]. exact (sound_score s _ eq_refl Hs).
  - intros [= <-]. simpl. unfold BackingTrack.destroy.
    destruct (BackingTrack.destroyed s); [exact Hs|]. cbv zeta.
    unfold BackingTrack.stop.
    cbn [BackingTrack.isPlaying]. destruct (negb _);
      exact (sound_score s _ eq_refl Hs).
  - destruct (BackingTrack.schedulerInterval s).
    + destruct (BackingTrack.schedule fuel now s) as [s'|] eqn:Hsch; [|discriminate].
      intros [= <-]. simpl. exact (sound_scheduleLoop _ _ _ _ Hs Hsch).
    + intros [= <-]. exact Hs.
  - intros [= <-]. exact (sound_score s _ eq_refl Hs).
Qed.

Lemma sound_run (fuel : nat) (evs : list BackingTrack.Event)
  (s s' : BackingTrack.t) :
  sound s -> BackingTrack.run fuel evs s = Some s' -> sound s'.
Proof.
  revert s. induction evs as [|ev evs IH]; intros s Hs; simpl.
  - intros [= <-]. exact Hs.
  - destruct (BackingTrack.step fuel ev s) as [c|] eqn:Hstep; [|discriminate].
    apply IH. eapply sound_step; eauto.
Qed.

(** X12.  The voices of the sequencer are well formed.  On an instance
    constructed with a positive tempo and a positive number of bars per
    chord (or with the defaults), in every state it can reach the tempo and
    the number of beats per chord are positive, and every voice started so
    far has a positive frequency and a stop time more than 0.21 seconds
    after its start time (the length of the note, the release of the
    instrument and 0.01 seconds). *)
Theorem X12_voices_well_formed (config : AudioTypes.BackingConfig)
  (s0 s : BackingTrack.t) (fuel : nat) (evs : list BackingTrack.Event) :
  0 < default BackingTrack.DEFAULT_TEMPO (AudioTypes.cfg_tempo config) ->
  0 < default BackingTrack.DEFAULT_BARS (AudioTypes.cfg_bars config) ->
  BackingTrack.new config = Ok s0 ->
  BackingTrack.run fuel evs s0 = Some s ->
  0 < BackingTrack.getTempo s /\
  0 < BackingTrack.beatsPerChord s /\
  forall v, v ∈ BackingTrack.voices s ->
    0 < BackingTrack.voice_frequency v /\
    BackingTrack.startTime v + 0.21 < BackingTrack.stopTime v.
Proof.
  intros Htempo Hbars Hnew Hrun.
  assert (H0 : sound s0).
  { apply new_fresh in Hnew as (chords & _ & ->).
    unfold sound. simpl. repeat split; try assumption; [lra|constructor]. }
  destruct (sound_run _ _ _ _ H0 Hrun) as (H1 & _ & H3 & H4).
  split; [exact H1|]. split; [exact H3|].
  intros v Hv. rewrite Forall_forall in H4. exact (H4 v Hv).
Qed.

(** X12 on the short session: its one voice. *)
Lemma X12_voices_well_formed_witness :
  exists s0 s,
    BackingTrack.new (configOf 120 AudioTypes.quarter 0) = Ok s0 /\
    BackingTrack.run 1 [BackingTrack.Play 0; BackingTrack.Tick 0.025] s0
      = Some s /\
    length (BackingTrack.voices s) = 1%nat /\
    forall v, v ∈ BackingTrack.voices s ->
      0 < BackingTrack.voice_frequency v /\
      BackingTrack.startTime v + 0.21 < BackingTrack.stopTime v.
Proof.
  destruct (new_configOf 120 AudioTypes.quarter 0) as (chord & Hnew & _).
  destruct (short_session _ Hnew) as (s & Hrun & _ & Hlen & _).
  eexists _, s. split; [exact Hnew|]. split; [exact Hrun|].
  split; [exact Hlen|].
  assert (Htempo : 0 < default BackingTrack.DEFAULT_TEMPO
            (AudioTypes.cfg_tempo (configOf 120 AudioTypes.quarter 0)))
    by (simpl; lra).
  assert (Hbars : 0 < default BackingTrack.DEFAULT_BARS
            (AudioTypes.cfg_bars (configOf 120 AudioTypes.quarter 0)))
    by (unfold BackingTrack.DEFAULT_BARS; simpl; lra).
  destruct (X12_voices_well_formed _ _ s _ _ Htempo Hbars Hnew Hrun)
    as (_ & _ & H).
  exact H.
Defined.

(** ** Further properties of the Synth *)

Lemma calls_app (cs1 cs2 : list Synth.Call) (s : Synth.t) :
  Synth.calls (cs1 ++ cs2) s = Synth.calls cs2 (Synth.calls cs1 s).
Proof. unfold Synth.calls. apply fold_left_app. Qed.

Lemma noteOff_started (k : Z) (s : Synth.t) :
  WebAudio.started (Synth.engine (Synth.noteOff k s)) =
  WebAudio.started (Synth.engine s).
Proof.
  unfold Synth.noteOff. destruct (_ !! _) as [note|]; [|reflexivity].
  destruct (Synth.audioContext s); [|reflexivity]. simpl.
  destruct (Synth.activeVibrato s); reflexivity.
Qed.

Lemma stopAll_started (s : Synth.t) :
  WebAudio.started (Synth.engine (Synth.stopAll s)) =
  WebAudio.started (Synth.engine s).
Proof.
  unfold Synth.stopAll.
  generalize (map fst (map_to_list (Synth.activeNotes s))). intros ks.
  revert s. induction ks as [|k ks IH]; intros s; simpl; [reflexivity|].
  rewrite IH. apply noteOff_started.
Qed.

Lemma silent (s : Synth.t) :
  voicesOk s -> Synth.activeNotes s = ∅ ->
  Synth.getActiveNoteCount s = 0%nat /\
  forall id, ~ sounding (Synth.engine s) id.
Proof.
  intros (Hv & _) He. unfold Synth.getActiveNoteCount. rewrite He.
  split; [apply map_size_empty|].
  intros id Hs. apply Hv in Hs as (k & n & Hk & _).
  rewrite He, lookup_empty in Hk. discriminate.
Qed.

(** X13.  Silence.  On a Synth in any state it can reach, [stopAll()]
    leaves no note in the voice table and no oscillator sounding (every
    oscillator that was started has its stop scheduled), and it starts
    none.  Once [destroy()] is called, whatever is called afterwards, the
    instance is destroyed, its voice table is empty and no oscillator
    sounds: a destroyed Synth stays silent. *)
Theorem X13_silence (config : AudioTypes.SynthConfig)
  (cs : list Synth.Call) :
  let s := Synth.calls cs (Synth.new config) in
  (let s1 := Synth.stopAll s in
   Synth.getActiveNoteCount s1 = 0%nat /\
   (forall id, ~ sounding (Synth.engine s1) id) /\
   (forall id,
      WebAudio.OscillatorNode id ∈ WebAudio.started (Synth.engine s1) ->
      WebAudio.OscillatorNode id ∈ WebAudio.stopped (Synth.engine s1)) /\
   WebAudio.started (Synth.engine s1) = WebAudio.started (Synth.engine s)) /\
  (forall cs',
     let s2 := Synth.calls (Synth.Destroy :: cs') s in
     Synth.isDestroyed s2 = true /\
     Synth.getActiveNoteCount s2 = 0%nat /\
     (forall id, ~ sounding (Synth.engine s2) id) /\
     forall id,
       WebAudio.OscillatorNode id ∈ WebAudio.started (Synth.engine s2) ->
       WebAudio.OscillatorNode id ∈ WebAudio.stopped (Synth.engine s2)).
Proof.
  cbv zeta.
  assert (Hstopped : forall s : Synth.t,
            (forall id, ~ sounding (Synth.engine s) id) ->
            forall id,
              WebAudio.OscillatorNode id ∈ WebAudio.started (Synth.engine s) ->
              WebAudio.OscillatorNode id ∈ WebAudio.stopped (Synth.engine s)).
  { intros s Hs id Hin.
    destruct (decide (WebAudio.OscillatorNode id
                        ∈ WebAudio.stopped (Synth.engine s))) as [H|H];
      [exact H|].
    exfalso. apply (Hs id). split; assumption. }
  split.
  - pose proof (voicesOk_reachable config (cs ++ [Synth.StopAll])) as Hok1.
    rewrite calls_snoc in Hok1. simpl Synth.call in Hok1.
    pose proof (voicesOk_reachable config cs) as (_ & _ & _ & Hidle).
    set (s := Synth.calls cs (Synth.new config)) in *. clearbody s.
    assert (He : Synth.activeNotes (Synth.stopAll s) = ∅).
    { destruct (Synth.audioContext s) eqn:Hctx.
      - apply stopAll_empties, Hctx.
      - rewrite stopAll_dead by exact Hctx. apply Hidle. reflexivity. }
    destruct (silent _ Hok1 He) as [H1 H2].
    split; [exact H1|]. split; [exact H2|].
    split; [apply Hstopped, H2|apply stopAll_started].
  - intros cs'.
    pose proof (voicesOk_reachable config (cs ++ Synth.Destroy :: cs')) as Hok2.
    pose proof (closedOnce_reachable config (cs ++ Synth.Destroy :: cs'))
      as (Hclosed & _).
    rewrite calls_app in Hok2, Hclosed.
    pose proof (closedOnce_reachable config cs) as (Hclosed0 & _).
    set (s := Synth.calls cs (Synth.new config)) in *. clearbody s.
    assert (Hd : Synth.destroyed (Synth.calls (Synth.Destroy :: cs') s) = true).
    { rewrite calls_cons. simpl Synth.call.
      assert (Hdead : dead (Synth.destroy s)).
      { destruct (Synth.destroyed s) eqn:Hds.
        - unfold Synth.destroy. rewrite Hds. split; [exact Hds|].
          apply Hclosed0. reflexivity.
        - destruct (destroy_spec s Hds) as (S1 & S2 & _). split; assumption. }
      apply (dead_calls cs' _ Hdead). }
    set (s2 := Synth.calls (Synth.Destroy :: cs') s) in *. clearbody s2.
    assert (He : Synth.activeNotes s2 = ∅).
    { destruct Hok2 as (_ & _ & _ & Hidle). apply Hidle, Hclosed, Hd. }
    destruct (silent _ Hok2 He) as [H1 H2].
    split; [exact Hd|]. split; [exact H1|]. split; [exact H2|].
    apply Hstopped, H2.
Qed.

(** X14.  [noteOff(k)] on a Synth in any state it can reach.  When no note
    is recorded under [k] the call changes nothing.  Otherwise it removes
    exactly that note from the voice table, so that the count of active
    notes drops by one; it schedules the stop of the oscillator of the
    note and of no other, and that oscillator no longer sounds; the notes
    of the other keys stay in the table and keep sounding; and a second
    [noteOff(k)] changes nothing. *)
Theorem X14_noteOff (config : AudioTypes.SynthConfig)
  (cs : list Synth.Call) (k : Z) :
  let s := Synth.calls cs (Synth.new config) in
  let s' := Synth.noteOff k s in
  match Synth.activeNotes s !! k with
  | None => s' = s
  | Some note =>
      Synth.activeNotes s' = delete k (Synth.activeNotes s) /\
      S (Synth.getActiveNoteCount s') = Synth.getActiveNoteCount s /\
      WebAudio.stopped (Synth.engine s') =
        WebAudio.stopped (Synth.engine s)
        ++ [WebAudio.OscillatorNode (AudioTypes.oscillator note)] /\
      WebAudio.started (Synth.engine s') = WebAudio.started (Synth.engine s) /\
      ~ sounding (Synth.engine s') (AudioTypes.oscillator note) /\
      (forall k' note',
         k' <> k -> Synth.activeNotes s !! k' = Some note' ->
         Synth.activeNotes s' !! k' = Some note' /\
         sounding (Synth.engine s') (AudioTypes.oscillator note')) /\
      Synth.noteOff k s' = s'
  end.
Proof.
  cbv zeta.
  pose proof (voicesOk_reachable config (cs ++ [Synth.NoteOff k])) as Hok'.
  rewrite calls_snoc in Hok'. simpl Synth.call in Hok'.
  pose proof (voicesOk_reachable config cs) as (_ & _ & _ & Hidle).
  set (s := Synth.calls cs (Synth.new config)) in *. clearbody s.
  destruct (Synth.activeNotes s !! k) as [note|] eqn:Hk.
  - assert (Hctx : Synth.audioContext s = true).
    { destruct (Synth.audioContext s) eqn:Hctx; [reflexivity|].
      rewrite (Hidle eq_refl), lookup_empty in Hk. discriminate. }
    destruct (noteOff_stops k s note Hctx Hk) as (P1 & P2 & _).
    destruct (noteOff_frame k s)
      as (_ & _ & _ & _ & _ & _ & _ & _ & _ & _ & _ & N12).
    cbv zeta in N12. rewrite Hctx in N12.
    split; [exact N12|].
    split.
    { unfold Synth.getActiveNoteCount. rewrite N12.
      rewrite map_size_delete, Hk.
      assert (Hpos : size (Synth.activeNotes s) <> 0%nat).
      { intros H0. apply map_size_empty_inv in H0.
        rewrite H0, lookup_empty in Hk. discriminate. }
      lia. }
    split; [exact P1|]. split; [exact P2|].
    split.
    { intros [_ Hns]. apply Hns. rewrite P1. apply elem_of_app. right. left. }
    split.
    { intros k' note' Hne Hk'.
      assert (Hl : Synth.activeNotes (Synth.noteOff k s) !! k' = Some note').
      { rewrite N12, lookup_delete_ne by congruence. exact Hk'. }
      split; [exact Hl|]. apply Hok'. eauto. }
    unfold Synth.noteOff at 1. rewrite N12, lookup_delete_eq. reflexivity.
  - unfold Synth.noteOff. rewrite Hk. reflexivity.
Qed.

(** *** The settings of a Synth and its engine *)

Definition sameGain (e e' : WebAudio.Engine) : Prop :=
  WebAudio.masterGainValue e' = WebAudio.masterGainValue e.

Lemma sameGain_machinery :
  (forall s, sameGain (Synth.engine s)
               (Synth.engine (Synth.rebuildEffectChain s))) /\
  (forall s c, isToggle c = true ->
     sameGain (Synth.engine s) (Synth.engine (Synth.call c s))).
Proof.
  assert (Hr : forall e, sameGain e e) by reflexivity.
  assert (Ht : forall e1 e2 e3, sameGain e1 e2 -> sameGain e2 e3 ->
                                sameGain e1 e3)
    by (unfold sameGain; intros; congruence).
  assert (Hc : forall a b e, sameGain e (WebAudio.connect a b e))
    by reflexivity.
  assert (Hd : forall a e, sameGain e (WebAudio.disconnect a e))
    by reflexivity.
  assert (Hdf : forall a b e, sameGain e (WebAudio.disconnectFrom a b e))
    by reflexivity.
  assert (Ha : forall e, sameGain e (WebAudio.allocate e).2) by reflexivity.
  assert (Hs : forall u r e,
             sameGain e (WebAudio.start (WebAudio.UnitNode u r) e))
    by reflexivity.
  assert (Hp : forall u r e,
             sameGain e (WebAudio.stop (WebAudio.UnitNode u r) e))
    by reflexivity.
  split.
  { intros s. exact (Rel_rebuildEffectChain sameGain Hr Ht Hc Hd Ha Hs Hp s). }
  intros s c Hc'.
  destruct (Rel_toggles sameGain Hr Ht Hc Hd Hdf Ha Hs Hp s)
    as (T1 & T2 & T3 & T4 & T5).
  destruct c; try discriminate Hc'; simpl; auto.
Qed.

Lemma ensureAudioContext_gain (s : Synth.t) :
  Synth.audioContext s = false ->
  WebAudio.masterGainValue (Synth.engine (Synth.ensureAudioContext s)) =
  Synth.volume s.
Proof.
  intros Hctx. unfold Synth.ensureAudioContext. rewrite Hctx. cbv zeta.
  cbn [Synth.engine Synth.withEngine].
  change (WebAudio.masterGainValue
            (Synth.engine
               (Synth.rebuildEffectChain
                  (Synth.withEngine
                     (WebAudio.setMasterGainValue
                        (Synth.volume
                           (Synth.withRefs true (Some WebAudio.MasterGainNode)
                              (Some WebAudio.CompressorNode)
                              (Some WebAudio.EffectsInputGainNode) s)))
                     (Synth.withRefs true (Some WebAudio.MasterGainNode)
                        (Some WebAudio.CompressorNode)
                        (Some WebAudio.EffectsInputGainNode) s)))) =
          Synth.volume s).
  destruct sameGain_machinery as [Hr _]. rewrite Hr. reflexivity.
Qed.

Lemma noteOff_gain (k : Z) (s : Synth.t) :
  sameGain (Synth.engine s) (Synth.engine (Synth.noteOff k s)).
Proof.
  unfold Synth.noteOff, sameGain.
  destruct (_ !! _) as [note|]; [|reflexivity].
  destruct (Synth.audioContext s); [|reflexivity]. simpl.
  destruct (Synth.activeVibrato s); reflexivity.
Qed.

Lemma noteOn_gain (k : Z) (f : R) (s : Synth.t) :
  sameGain (Synth.engine (Synth.ensureAudioContext s))
    (Synth.engine (Synth.noteOn k f s)) \/
  Synth.noteOn k f s = s.
Proof.
  unfold Synth.noteOn. cbv zeta.
  destruct (Synth.destroyed s); [right; reflexivity|left].
  set (s1 := Synth.ensureAudioContext s). clearbody s1.
  destruct (Synth.audioContext s1); [|reflexivity].
  destruct (Synth.effectsInputGain s1) as [effectsInput|]; [|reflexivity].
  pose proof (noteOff_gain k s1) as Hoff.
  match goal with
  | |- context [if ?c then Synth.noteOff k s1 else s1] =>
      assert (Hs2 : sameGain (Synth.engine s1)
                      (Synth.engine (if c then Synth.noteOff k s1 else s1)))
        by (destruct c; [exact Hoff|reflexivity]);
      set (s2 := if c then Synth.noteOff k s1 else s1) in *
  end.
  clearbody s2. unfold sameGain in *.
  destruct (Synth.activeVibrato s2); simpl; exact Hs2.
Qed.

(** The volume and the octave shift are in their ranges, the gain of the
    master stage is the volume while the engine is there, and the notes of
    the voice table are in the audible range. *)
Definition tuned (s : Synth.t) : Prop :=
  0 <= Synth.volume s <= 1 /\
  -2 <= Synth.octaveShift s <= 2 /\
  (Synth.audioContext s = true ->
   WebAudio.masterGainValue (Synth.engine s) = Synth.volume s) /\
  map_Forall (fun _ n => 20 <= AudioTypes.frequency n <= 20000)
    (Synth.activeNotes s).

Lemma tuned_noteOff (k : Z) (s : Synth.t) :
  tuned s -> tuned (Synth.noteOff k s).
Proof.
  intros (H1 & H2 & H3 & H4).
  destruct (noteOff_frame k s)
    as (N1 & _ & _ & _ & _ & N6 & N7 & _ & _ & _ & _ & N12).
  cbv zeta in *. pose proof (noteOff_gain k s) as Hg. unfold sameGain in Hg.
  unfold tuned. rewrite N1, N6, N7, N12, Hg.
  split; [exact H1|]. split; [exact H2|]. split; [exact H3|].
  destruct (Synth.audioContext s); [|exact H4].
  apply map_Forall_delete, H4.
Qed.

Lemma tuned_stopAll (s : Synth.t) : tuned s -> tuned (Synth.stopAll s).
Proof.
  unfold Synth.stopAll.
  generalize (map fst (map_to_list (Synth.activeNotes s))). intros ks.
  revert s. induction ks as [|k ks IH]; intros s H; simpl; [exact H|].
  apply IH, tuned_noteOff, H.
Qed.

Lemma tuned_call (c : Synth.Call) (s : Synth.t) :
  refsOk s -> tuned s -> tuned (Synth.call c s).
Proof.
  intros Hrefs Ht. pose proof Ht as (H1 & H2 & H3 & H4).
  destruct (isToggle c) eqn:Htoggle.
  { destruct sameGain_machinery as (_ & Hg). specialize (Hg s c Htoggle).
    unfold sameGain in Hg.
    destruct (toggle_frame c s Htoggle) as [->|(s1 & L1 & _ & _ & L & _)];
      [exact Ht|].
    apply logic_fields in L as (A1 & _ & _ & A4 & A5 & _ & A7 & _).
    unfold logic in L1. injection L1 as B1 B2 B3 B4 B5 B6 B7 B8 B9 B10.
    unfold tuned. rewrite Hg.
    replace (Synth.volume (Synth.call c s)) with (Synth.volume s) by congruence.
    replace (Synth.octaveShift (Synth.call c s)) with (Synth.octaveShift s)
      by congruence.
    replace (Synth.activeNotes (Synth.call c s)) with (Synth.activeNotes s)
      by congruence.
    replace (Synth.audioContext (Synth.call c s)) with (Synth.audioContext s)
      by congruence.
    exact Ht. }
  destruct c; try discriminate Htoggle; simpl Synth.call.
  - destruct (Synth.destroyed s) eqn:Hd.
    { unfold Synth.noteOn. rewrite Hd. exact Ht. }
    destruct (noteOn_spec noteIndex frequency s Hd Hrefs)
      as (Hctx & _ & note & Hnotes & Hfreq & _).
    destruct (noteOn_frame noteIndex frequency s) as (_ & F2 & F3 & _).
    cbv zeta in *.
    unfold tuned. rewrite F2, F3, Hnotes.
    split; [exact H1|]. split; [exact H2|]. split.
    + intros _.
      destruct (noteOn_gain noteIndex frequency s) as [Hg|Hsame].
      * unfold sameGain in Hg. rewrite Hg.
        destruct (Synth.audioContext s) eqn:Hc.
        -- destruct (ensureAudioContext_live s) as (Hlive & _).
           rewrite (Hlive Hc). apply H3. reflexivity.
        -- apply ensureAudioContext_gain, Hc.
      * rewrite Hsame in *. apply H3, Hctx.
    + apply map_Forall_insert_2; [|exact H4].
      rewrite Hfreq. unfold clampFrequency, Synth.MIN_FREQUENCY,
        Synth.MAX_FREQUENCY. apply clamp_range. lra.
  - apply tuned_noteOff, Ht.
  - apply tuned_stopAll, Ht.
  - exact Ht.
  - destruct (setVolume_frame value s) as (_ & F2 & F3 & _ & F5 & _).
    cbv zeta in *. unfold tuned. rewrite F2, F3, F5.
    split; [unfold Synth.clampVolume; apply clamp_range; lra|].
    assert (Ho : Synth.octaveShift (Synth.setVolume value s) =
                 Synth.octaveShift s).
    { unfold Synth.setVolume. cbv zeta. simpl.
      destruct (Synth.masterGain s); [destruct (Synth.audioContext s)|];
        reflexivity. }
    rewrite Ho.
    split; [exact H2|]. split; [|exact H4].
    intros Hctx. destruct (Hrefs Hctx) as [_ Hm].
    unfold Synth.setVolume. cbv zeta. simpl. rewrite Hm, Hctx. reflexivity.
  - destruct (bend_frame noteIndex cents s) as (_ & F2 & F3 & _).
    cbv zeta in *. unfold tuned. rewrite F2, F3.
    split; [|split; [|split; [|exact H4]]].
    + unfold Synth.bend. destruct (_ !! _); [destruct (negb _)|]; exact H1.
    + unfold Synth.bend. destruct (_ !! _); [destruct (negb _)|]; exact H2.
    + intros Hctx. unfold Synth.bend.
      destruct (_ !! _); [destruct (negb _)|]; simpl; apply H3, Hctx.
  - unfold tuned. simpl.
    split; [exact H1|]. split; [|split; [exact H3|exact H4]].
    apply (clamp_range (-2) 2). lra.
  - destruct (Synth.destroyed s) eqn:Hd.
    { unfold Synth.destroy. rewrite Hd. exact Ht. }
    destruct (destroy_spec s Hd)
      as (_ & S2 & _ & _ & _ & S6 & _ & S8 & S9 & _).
    cbv zeta in *. unfold tuned. rewrite S2, S6, S8, S9.
    split; [exact H1|]. split; [exact H2|]. split; [discriminate|].
    apply map_Forall_empty.
Qed.

Lemma tuned_reachable (config : AudioTypes.SynthConfig)
  (cs : list Synth.Call) :
  tuned (Synth.calls cs (Synth.new config)).
Proof.
  assert (H : refsOk (Synth.calls cs (Synth.new config)) /\
              tuned (Synth.calls cs (Synth.new config))).
  { apply (calls_invariant (fun s => refsOk s /\ tuned s)).
    - split; [unfold refsOk; simpl; discriminate|].
      unfold tuned. simpl.
      split; [unfold Synth.clampVolume; apply clamp_range; lra|].
      split; [lra|]. split; [discriminate|apply map_Forall_empty].
    - intros c s [H1 H2]. split; [apply refsOk_call, H1|].
      apply tuned_call; assumption. }
  apply H.
Qed.

(** X15.  The settings of a Synth agree with its engine.  In every state
    a Synth can reach, the volume is between 0 and 1 and the octave shift
    between -2 and 2; while the engine is there the gain of the master
    stage is the stored volume, so a volume set before the first note is the
    one the engine starts with; and every note of the voice table has a
    frequency between 20 and 20000 Hz. *)
Theorem X15_settings_in_range (config : AudioTypes.SynthConfig)
  (cs : list Synth.Call) :
  let s := Synth.calls cs (Synth.new config) in
  0 <= Synth.getVolume s <= 1 /\
  -2 <= Synth.getOctaveShift s <= 2 /\
  (Synth.audioContext s = true ->
   WebAudio.masterGainValue (Synth.engine s) = Synth.getVolume s) /\
  (forall k note,
     Synth.activeNotes s !! k = Some note ->
     20 <= AudioTypes.frequency note <= 20000).
Proof.
  cbv zeta. destruct (tuned_reachable config cs) as (H1 & H2 & H3 & H4).
  split; [exact H1|]. split; [exact H2|]. split; [exact H3|].
  intros k note Hk. exact (H4 k note Hk).
Qed.

(** *** The engine is created by the first note *)

(** No engine yet: no context, nothing done to the Web Audio engine, no
    effect unit, no note. *)
Definition idle (s : Synth.t) : Prop :=
  Synth.audioContext s = false /\
  Synth.engine s = WebAudio.emptyEngine /\
  Synth.effectNodes s = noEffectNodes /\
  Synth.activeNotes s = ∅.

Definition isNoteOn (c : Synth.Call) : bool :=
  match c with
  | Synth.NoteOn _ _ => true
  | _ => false
  end.

Lemma idle_call (c : Synth.Call) (s : Synth.t) :
  isNoteOn c = false -> idle s -> idle (Synth.call c s).
Proof.
  intros Hc (Hctx & He & Hn & Ha).
  destruct (isToggle c) eqn:Htoggle.
  { destruct (toggle_frame c s Htoggle)
      as [->|(s1 & L1 & E1 & N1 & _ & _ & Hidle)];
      [repeat split; assumption|].
    rewrite (Hidle Hctx).
    unfold logic in L1. injection L1 as B1 B2 B3 B4 B5 B6 B7 B8 B9 B10.
    repeat split; congruence. }
  destruct c; try discriminate Htoggle; try discriminate Hc; simpl Synth.call.
  - rewrite noteOff_dead by exact Hctx. repeat split; assumption.
  - rewrite stopAll_dead by exact Hctx. repeat split; assumption.
  - repeat split; assumption.
  - destruct (setVolume_frame value s) as (_ & _ & _ & _ & _ & _ & Hv).
    cbv zeta in Hv. rewrite (Hv Hctx). repeat split; assumption.
  - destruct (bend_frame noteIndex cents s) as (_ & _ & _ & _ & Hb).
    cbv zeta in Hb. rewrite (Hb Hctx). repeat split; assumption.
  - repeat split; assumption.
  - unfold Synth.destroy. destruct (Synth.destroyed s);
      [repeat split; assumption|].
    cbv zeta.
    rewrite (stopAll_dead (Synth.withDestroyed true s)) by exact Hctx.
    unfold Synth.cleanupAllEffects. cbv zeta.
    cbn [Synth.effectNodes Synth.withDestroyed Synth.engine
         Synth.audioContext Synth.withEngine Synth.withEffectNodes].
    rewrite Hn, Hctx. cbn. rewrite He. repeat split. exact Hctx.
Qed.

Lemma idle_calls (cs : list Synth.Call) (s : Synth.t) :
  forallb (fun c => negb (isNoteOn c)) cs = true ->
  idle s -> idle (Synth.calls cs s).
Proof.
  revert s. induction cs as [|c cs IH]; intros s Hcs Hs; [exact Hs|].
  simpl in Hcs. apply andb_true_iff in Hcs as [Hc Hcs].
  rewrite calls_cons. apply IH; [exact Hcs|].
  apply idle_call; [|exact Hs]. destruct (isNoteOn c); [discriminate|reflexivity].
Qed.

(** X16.  The engine of a Synth is created by its first note.  As long as
    no [noteOn] is among the calls made on a new Synth, whatever the other
    calls are, there is no AudioContext, no Web Audio node has been created
    or connected, and the count of active notes is 0.  A [noteOn] on such an
    instance, unless it is destroyed, creates the engine with the master
    gain at the volume stored by then, and leaves one active note. *)
Theorem X16_engine_on_first_note (config : AudioTypes.SynthConfig)
  (cs : list Synth.Call) :
  forallb (fun c => negb (isNoteOn c)) cs = true ->
  let s := Synth.calls cs (Synth.new config) in
  Synth.audioContext s = false /\
  Synth.engine s = WebAudio.emptyEngine /\
  Synth.getActiveNoteCount s = 0%nat /\
  forall k f,
    Synth.isDestroyed s = false ->
    let s' := Synth.noteOn k f s in
    Synth.audioContext s' = true /\
    WebAudio.masterGainValue (Synth.engine s') = Synth.getVolume s /\
    Synth.getActiveNoteCount s' = 1%nat /\
    exists note,
      Synth.activeNotes s' !! k = Some note /\
      sounding (Synth.engine s') (AudioTypes.oscillator note).
Proof.
  intros Hcs. cbv zeta.
  assert (H0 : idle (Synth.new config)) by (repeat split).
  pose proof (idle_calls cs _ Hcs H0) as (Hctx & He & Hn & Ha).
  pose proof (refsOk_reachable config cs) as Hrefs.
  assert (Hreach : forall k f,
            voicesOk (Synth.noteOn k f (Synth.calls cs (Synth.new config))) /\
            tuned (Synth.noteOn k f (Synth.calls cs (Synth.new config)))).
  { intros k f.
    pose proof (voicesOk_reachable config (cs ++ [Synth.NoteOn k f])) as H1.
    pose proof (tuned_reachable config (cs ++ [Synth.NoteOn k f])) as H2.
    rewrite calls_snoc in H1, H2. split; assumption. }
  set (s := Synth.calls cs (Synth.new config)) in *. clearbody s.
  split; [exact Hctx|]. split; [exact He|].
  split; [unfold Synth.getActiveNoteCount; rewrite Ha; apply map_size_empty|].
  intros k f Hd.
  destruct (noteOn_spec k f s Hd Hrefs) as (Hlive & _ & note & Hnotes & _).
  destruct (noteOn_frame k f s) as (_ & Hvol & _).
  destruct (Hreach k f) as [(Hv & _) (_ & _ & Hgain & _)].
  cbv zeta in *.
  split; [exact Hlive|].
  split; [rewrite (Hgain Hlive); exact Hvol|].
  assert (Hk : Synth.activeNotes (Synth.noteOn k f s) !! k = Some note).
  { rewrite Hnotes. apply lookup_insert_eq. }
  split.
  - unfold Synth.getActiveNoteCount. rewrite Hnotes, Ha.
    rewrite map_size_insert, lookup_empty, map_size_empty. reflexivity.
  - exists note. split; [exact Hk|]. apply Hv. eauto.
Qed.

(** X16 on a new Synth whose volume is set to 0.25 and whose delay and
    vibrato are switched on before its first note. *)
Lemma X16_engine_on_first_note_witness :
  let s :=
    Synth.calls
      [Synth.SetVolume 0.25; Synth.ToggleDelay true; Synth.ToggleVibrato true;
       Synth.NoteOff 3; Synth.StopAll]
      (Synth.new AudioTypes.noSynthConfig) in
  Synth.engine s = WebAudio.emptyEngine /\
  WebAudio.masterGainValue (Synth.engine (Synth.noteOn 0 440 s)) =
    Synth.getVolume s.
Proof.
  cbv zeta.
  destruct (X16_engine_on_first_note AudioTypes.noSynthConfig
              [Synth.SetVolume 0.25; Synth.ToggleDelay true;
               Synth.ToggleVibrato true; Synth.NoteOff 3; Synth.StopAll]
              eq_refl) as (_ & He & _ & Hon).
  split; [exact He|].
  destruct (Hon 0%Z 440) as (_ & Hg & _); [|exact Hg].
  reflexivity.
Defined.

(** *** The signal path of a voice *)

(** The nodes whose connections the effect machinery never removes: the
    oscillators and gains of the voices, the master gain and the
    compressor. *)
Definition voiceSource (n : WebAudio.Node) : bool :=
  match n with
  | WebAudio.OscillatorNode _ | WebAudio.GainNode _
  | WebAudio.MasterGainNode | WebAudio.CompressorNode => true
  | _ => false
  end.

Definition keeps (e e' : WebAudio.Engine) : Prop :=
  forall c, voiceSource c.1 = true ->
            c ∈ WebAudio.connections e -> c ∈ WebAudio.connections e'.

Lemma keeps_refl (e : WebAudio.Engine) : keeps e e.
Proof. intros c _ H. exact H. Qed.

Lemma keeps_trans (e1 e2 e3 : WebAudio.Engine) :
  keeps e1 e2 -> keeps e2 e3 -> keeps e1 e3.
Proof. intros H1 H2 c Hv Hc. apply H2, H1; assumption. Qed.

Lemma keeps_same (e e' : WebAudio.Engine) :
  WebAudio.connections e' = WebAudio.connections e -> keeps e e'.
Proof. intros H c _ Hc. rewrite H. exact Hc. Qed.

Lemma keeps_connect (a b : WebAudio.Node) (e : WebAudio.Engine) :
  keeps e (WebAudio.connect a b e).
Proof. intros c _ Hc. apply connections_connect. left. exact Hc. Qed.

Lemma keeps_disconnect (a : WebAudio.Node) (e : WebAudio.Engine) :
  voiceSource a = false -> keeps e (WebAudio.disconnect a e).
Proof.
  intros Ha c Hv Hc. unfold WebAudio.disconnect. simpl.
  apply list_elem_of_filter. split; [|exact Hc]. congruence.
Qed.

Lemma keeps_disconnectFrom (a b : WebAudio.Node) (e : WebAudio.Engine) :
  voiceSource a = false -> keeps e (WebAudio.disconnectFrom a b e).
Proof.
  intros Ha c Hv Hc. unfold WebAudio.disconnectFrom. simpl.
  apply list_elem_of_filter. split; [|exact Hc].
  intros ->. simpl in Hv. congruence.
Qed.

Lemma keeps_allocate (e : WebAudio.Engine) : keeps e (WebAudio.allocate e).2.
Proof. apply keeps_same. reflexivity. Qed.

Lemma keeps_start (n : WebAudio.Node) (e : WebAudio.Engine) :
  keeps e (WebAudio.start n e).
Proof. apply keeps_same. reflexivity. Qed.

Lemma keeps_stop (n : WebAudio.Node) (e : WebAudio.Engine) :
  keeps e (WebAudio.stop n e).
Proof. apply keeps_same. reflexivity. Qed.

Lemma keeps_cleanup (n : Effects.EffectNode) (e : WebAudio.Engine) :
  keeps e (Effects.cleanup n e).
Proof.
  intros [a b] Hv Hc. unfold Effects.cleanup. cbv zeta.
  destruct (Effects.effect n); apply connections_disconnectAll;
    (split; [exact Hc|]); simpl; intros Hin;
    repeat (apply elem_of_cons in Hin as [->|Hin]; [discriminate Hv|]);
    inversion Hin.
Qed.

Lemma keeps_cleanupOne (node : option Effects.EffectNode)
  (e : WebAudio.Engine) :
  keeps e (Synth.cleanupOne node e).
Proof. destruct node; simpl; [apply keeps_cleanup|apply keeps_refl]. Qed.

Lemma keeps_cleanupAllEffects (s : Synth.t) :
  keeps (Synth.engine s) (Synth.engine (Synth.cleanupAllEffects s)).
Proof.
  unfold Synth.cleanupAllEffects. simpl.
  repeat (eapply keeps_trans; [|apply keeps_cleanupOne]). apply keeps_refl.
Qed.

(** The chain input of a Synth is not a voice node. *)
Definition inputOk (s : Synth.t) : Prop :=
  forall n, Synth.effectsInputGain s = Some n -> voiceSource n = false.

Lemma keeps_rebuildEffectChain (s : Synth.t) :
  inputOk s ->
  keeps (Synth.engine s) (Synth.engine (Synth.rebuildEffectChain s)).
Proof.
  intros Hin. unfold Synth.rebuildEffectChain.
  destruct (Synth.audioContext s); [|apply keeps_refl].
  destruct (Synth.effectsInputGain s) as [inputNode|] eqn:Hi;
    [|apply keeps_refl].
  destruct (Synth.masterGain s) as [master|]; [|apply keeps_refl].
  cbv zeta.
  destruct (Synth.buildEffects _) as [s' l] eqn:Hb.
  cbn [Synth.engine Synth.withEngine].
  eapply keeps_trans;
    [|apply (Rel_connectChain keeps keeps_refl keeps_trans keeps_connect)].
  pose proof (Rel_buildEffects keeps keeps_refl keeps_trans keeps_connect
                keeps_allocate (fun u r e => keeps_start _ e)
                (Synth.cleanupAllEffects
                   (Synth.withEngine (WebAudio.disconnect inputNode) s))) as H.
  rewrite Hb in H. cbn [fst] in H.
  eapply keeps_trans; [|exact H].
  eapply keeps_trans; [|apply keeps_cleanupAllEffects].
  cbn [Synth.engine Synth.withEngine]. apply keeps_disconnect, Hin.
  exact Hi.
Qed.

Lemma keeps_attachVibrato (enabled : bool) (g : WebAudio.Node) (s : Synth.t) :
  voiceSource g = false ->
  keeps (Synth.engine s) (Synth.engine (Synth.attachVibrato enabled g s)).
Proof.
  intros Hg. unfold Synth.attachVibrato.
  generalize (map_to_list (Synth.activeNotes s)). intros l.
  revert s. induction l as [|kv l IH]; intros s; simpl; [apply keeps_refl|].
  eapply keeps_trans; [|apply IH].
  destruct enabled; simpl;
    [apply keeps_connect|apply keeps_disconnectFrom, Hg].
Qed.

Lemma lfoGainOf_voice (v : Effects.EffectNode) (g : WebAudio.Node) :
  Effects.lfoGainOf v = Some g -> voiceSource g = false.
Proof.
  unfold Effects.lfoGainOf.
  destruct (Effects.effect v); try discriminate. intros [= <-]. reflexivity.
Qed.

Lemma keeps_toggle (c : Synth.Call) (s : Synth.t) :
  isToggle c = true -> inputOk s ->
  keeps (Synth.engine s) (Synth.engine (Synth.call c s)).
Proof.
  intros Hc Hin.
  assert (Hgen : forall (set : bool -> EffectsState.t -> EffectsState.t) b,
    let s1 := Synth.withEffectsState (set b) s in
    keeps (Synth.engine s)
      (Synth.engine
         (if Synth.audioContext s1 then Synth.rebuildEffectChain s1 else s1))).
  { intros set b. cbv zeta. destruct (Synth.audioContext _); [|apply keeps_refl].
    apply (keeps_rebuildEffectChain (Synth.withEffectsState (set b) s)).
    exact Hin. }
  destruct c; try discriminate Hc; simpl Synth.call.
  - unfold Synth.toggleDelay. destruct (Bool.eqb _ _); [apply keeps_refl|].
    apply (Hgen Synth.setDelay).
  - unfold Synth.toggleDistortion. destruct (Bool.eqb _ _); [apply keeps_refl|].
    apply (Hgen Synth.setDistortion).
  - unfold Synth.toggleVibrato. destruct (Bool.eqb _ _); [apply keeps_refl|].
    pose proof (Hgen Synth.setVibrato enabled) as H. cbv zeta in H |- *.
    destruct (Synth.audioContext _); [|apply keeps_refl].
    destruct (EffectNodes.vibrato _) as [v|]; [|exact H].
    destruct (Effects.lfoGainOf v) as [g|] eqn:Hg; [|exact H].
    eapply keeps_trans; [exact H|].
    apply keeps_attachVibrato, (lfoGainOf_voice _ _ Hg).
  - unfold Synth.toggleFilter. destruct (Bool.eqb _ _); [apply keeps_refl|].
    apply (Hgen Synth.setFilter).
  - unfold Synth.toggleReverb. destruct (Bool.eqb _ _); [apply keeps_refl|].
    apply (Hgen Synth.setReverb).
Qed.

Lemma activeVibrato_voice (s : Synth.t) (g : WebAudio.Node) :
  Synth.activeVibrato s = Some g -> voiceSource g = false.
Proof.
  unfold Synth.activeVibrato.
  destruct (EffectsState.vibrato _); [|discriminate].
  destruct (EffectNodes.vibrato _) as [v|]; [|discriminate].
  apply lfoGainOf_voice.
Qed.

Lemma keeps_noteOff (k : Z) (s : Synth.t) :
  keeps (Synth.engine s) (Synth.engine (Synth.noteOff k s)).
Proof.
  unfold Synth.noteOff.
  destruct (_ !! _) as [note|]; [|apply keeps_refl].
  destruct (Synth.audioContext s); [|apply keeps_refl]. simpl.
  destruct (Synth.activeVibrato s) as [g|] eqn:Hg; simpl.
  - eapply keeps_trans; [|apply keeps_stop].
    apply keeps_disconnectFrom, (activeVibrato_voice _ _ Hg).
  - apply keeps_stop.
Qed.

(** While the engine is there, every note of the voice table has its
    oscillator connected to its gain and its gain to the chain input, and
    the master gain is connected to the compressor and the compressor to
    the destination. *)
Definition routed (s : Synth.t) : Prop :=
  Synth.audioContext s = true ->
  (WebAudio.MasterGainNode, WebAudio.CompressorNode)
    ∈ WebAudio.connections (Synth.engine s) /\
  (WebAudio.CompressorNode, WebAudio.Destination)
    ∈ WebAudio.connections (Synth.engine s) /\
  forall k note,
    Synth.activeNotes s !! k = Some note ->
    (WebAudio.OscillatorNode (AudioTypes.oscillator note),
     WebAudio.GainNode (AudioTypes.gainNode note))
      ∈ WebAudio.connections (Synth.engine s) /\
    (WebAudio.GainNode (AudioTypes.gainNode note),
     WebAudio.EffectsInputGainNode)
      ∈ WebAudio.connections (Synth.engine s).

Lemma routed_keeps (s s' : Synth.t) :
  routed s ->
  keeps (Synth.engine s) (Synth.engine s') ->
  (Synth.audioContext s' = true -> Synth.audioContext s = true) ->
  (forall k note, Synth.activeNotes s' !! k = Some note ->
                  Synth.activeNotes s !! k = Some note) ->
  routed s'.
Proof.
  intros Hr Hk Hctx Hsub Hlive.
  destruct (Hr (Hctx Hlive)) as (H1 & H2 & H3).
  split; [apply Hk; [reflexivity|exact H1]|].
  split; [apply Hk; [reflexivity|exact H2]|].
  intros k note Hn. destruct (H3 k note (Hsub k note Hn)) as [H4 H5].
  split; (apply Hk; [reflexivity|assumption]).
Qed.

Lemma refsOk_inputOk (s : Synth.t) :
  refsOk s -> Synth.audioContext s = true -> inputOk s.
Proof.
  intros Hrefs Hctx n Hn. destruct (Hrefs Hctx) as [H _].
  rewrite H in Hn. injection Hn as <-. reflexivity.
Qed.

Lemma routed_noteOff (k : Z) (s : Synth.t) :
  routed s -> routed (Synth.noteOff k s).
Proof.
  intros Hr.
  destruct (noteOff_frame k s)
    as (N1 & _ & _ & _ & _ & _ & _ & _ & _ & _ & _ & N12).
  cbv zeta in *.
  apply (routed_keeps s); [exact Hr|apply keeps_noteOff|congruence|].
  intros k' note. rewrite N12.
  destruct (Synth.audioContext s); [|tauto].
  intros H. apply lookup_delete_Some in H. tauto.
Qed.

Lemma routed_stopAll (s : Synth.t) : routed s -> routed (Synth.stopAll s).
Proof.
  unfold Synth.stopAll.
  generalize (map fst (map_to_list (Synth.activeNotes s))). intros ks.
  revert s. induction ks as [|k ks IH]; intros s H; simpl; [exact H|].
  apply IH, routed_noteOff, H.
Qed.

Lemma routed_ensureAudioContext (s : Synth.t) :
  (Synth.audioContext s = false -> Synth.activeNotes s = ∅) ->
  routed s -> routed (Synth.ensureAudioContext s).
Proof.
  intros Hidle Hr.
  destruct (ensureAudioContext_live s) as (Hsame & _ & Hnotes & _).
  destruct (Synth.audioContext s) eqn:Hctx.
  - rewrite (Hsame eq_refl). exact Hr.
  - intros _. rewrite Hnotes, (Hidle eq_refl).
    unfold Synth.ensureAudioContext. rewrite Hctx. cbv zeta.
    cbn [Synth.engine Synth.withEngine].
    split; [|split].
    + apply connections_connect. left. apply connections_connect. right.
      reflexivity.
    + apply connections_connect. right. reflexivity.
    + intros k note H. rewrite lookup_empty in H. discriminate.
Qed.

Lemma routed_noteOn (k : Z) (f : R) (s : Synth.t) :
  refsOk s ->
  (Synth.audioContext s = false -> Synth.activeNotes s = ∅) ->
  routed s -> routed (Synth.noteOn k f s).
Proof.
  intros Hrefs Hidle Hr. unfold Synth.noteOn.
  destruct (Synth.destroyed s) eqn:Hd; [exact Hr|].
  pose proof (routed_ensureAudioContext s Hidle Hr) as Hr1.
  assert (Hin1 : Synth.audioContext (Synth.ensureAudioContext s) = true ->
                 Synth.effectsInputGain (Synth.ensureAudioContext s) =
                 Some WebAudio.EffectsInputGainNode).
  { destruct (ensureAudioContext_live s) as (Hsame & Hinit & _).
    destruct (Synth.audioContext s) eqn:Hctx.
    - rewrite (Hsame eq_refl). intros H. apply (Hrefs H).
    - intros _. apply (Hinit eq_refl). }
  set (s1 := Synth.ensureAudioContext s) in *. clearbody s1.
  cbv zeta.
  destruct (Synth.audioContext s1) eqn:Hctx1; [|exact Hr1].
  rewrite (Hin1 eq_refl).
  match goal with
  | |- context [if ?c then Synth.noteOff k s1 else s1] =>
      assert (Hs2 :
        let s2 := if c then Synth.noteOff k s1 else s1 in
        routed s2 /\ Synth.audioContext s2 = true)
        by (destruct c;
            [split; [apply routed_noteOff; exact Hr1|
                     rewrite (proj1 (noteOff_frame k s1)); exact Hctx1]
            |split; [exact Hr1|exact Hctx1]]);
      set (s2 := if c then Synth.noteOff k s1 else s1) in *
  end.
  cbv zeta in Hs2. destruct Hs2 as [Hr2 Hctx2]. clearbody s2.
  destruct (Hr2 Hctx2) as (M1 & M2 & Hnotes).
  destruct (WebAudio.allocate (Synth.engine s2)) as [osc e1] eqn:Ha1.
  assert (K1 : keeps (Synth.engine s2) e1).
  { pose proof (keeps_allocate (Synth.engine s2)) as H. rewrite Ha1 in H.
    exact H. }
  set (e2 := match Synth.activeVibrato s2 with
             | Some g => WebAudio.connect g (WebAudio.OscillatorDetune osc) e1
             | None => e1
             end).
  assert (K2 : keeps e1 e2).
  { unfold e2. destruct (Synth.activeVibrato s2);
      [apply keeps_connect|apply keeps_refl]. }
  clearbody e2.
  destruct (WebAudio.allocate e2) as [gain e3] eqn:Ha3.
  assert (K3 : keeps e2 e3).
  { pose proof (keeps_allocate e2) as H. rewrite Ha3 in H. exact H. }
  assert (K : keeps (Synth.engine s2) e3).
  { eapply keeps_trans; [exact K1|]. eapply keeps_trans; [exact K2|exact K3]. }
  intros _.
  cbn [Synth.engine Synth.withEngine Synth.withActiveNotes Synth.activeNotes].
  change (WebAudio.connections (WebAudio.start ?n ?e))
    with (WebAudio.connections e).
  split; [|split].
  - do 2 (apply connections_connect; left). apply K; [reflexivity|exact M1].
  - do 2 (apply connections_connect; left). apply K; [reflexivity|exact M2].
  - intros k' note Hn. apply lookup_insert_Some in Hn as [[<- <-]|[Hne Hn]].
    + cbn [AudioTypes.oscillator AudioTypes.gainNode]. split.
      * apply connections_connect. left. apply connections_connect. right.
        reflexivity.
      * apply connections_connect. right. reflexivity.
    + destruct (Hnotes k' note Hn) as [H4 H5]. split.
      * do 2 (apply connections_connect; left).
        apply K; [reflexivity|exact H4].
      * do 2 (apply connections_connect; left).
        apply K; [reflexivity|exact H5].
Qed.

Lemma routed_call (c : Synth.Call) (s : Synth.t) :
  refsOk s -> voicesOk s -> routed s -> routed (Synth.call c s).
Proof.
  intros Hrefs (_ & _ & _ & Hidle) Hr.
  destruct (isToggle c) eqn:Htoggle.
  { assert (Hlog : Synth.audioContext (Synth.call c s) = Synth.audioContext s /\
                   Synth.activeNotes (Synth.call c s) = Synth.activeNotes s).
    { destruct (toggle_frame c s Htoggle) as [->|(s1 & L1 & _ & _ & L & _)];
        [split; reflexivity|].
      apply logic_fields in L as (A1 & _ & _ & A4 & _).
      unfold logic in L1. injection L1 as B1 B2 B3 B4 B5 B6 B7 B8 B9 B10.
      split; congruence. }
    destruct Hlog as [L1 L2].
    assert (Hk : keeps (Synth.engine s) (Synth.engine (Synth.call c s))).
    { destruct (Synth.audioContext s) eqn:Hctx.
      - apply keeps_toggle; [exact Htoggle|].
        apply refsOk_inputOk; assumption.
      - destruct (toggle_frame c s Htoggle)
          as [->|(s1 & _ & E1 & _ & _ & _ & Hsame)]; [apply keeps_refl|].
        rewrite (Hsame Hctx). apply keeps_same. rewrite E1. reflexivity. }
    apply (routed_keeps s); [exact Hr|exact Hk|congruence|].
    intros k note. rewrite L2. tauto. }
  destruct c; try discriminate Htoggle; simpl Synth.call.
  - apply routed_noteOn; assumption.
  - apply routed_noteOff, Hr.
  - apply routed_stopAll, Hr.
  - exact Hr.
  - destruct (setVolume_frame value s) as (_ & F2 & F3 & _).
    cbv zeta in *.
    apply (routed_keeps s); [exact Hr| |congruence|intros k n; rewrite F3; tauto].
    apply keeps_same. unfold Synth.setVolume. cbv zeta. simpl.
    destruct (Synth.masterGain s); [destruct (Synth.audioContext s)|];
      reflexivity.
  - destruct (bend_frame noteIndex cents s) as (_ & F2 & F3 & _).
    cbv zeta in *.
    apply (routed_keeps s); [exact Hr| |congruence|intros k n; rewrite F3; tauto].
    apply keeps_same. unfold Synth.bend.
    destruct (_ !! _); [destruct (negb _)|]; reflexivity.
  - exact Hr.
  - destruct (Synth.destroyed s) eqn:Hd.
    + unfold Synth.destroy. rewrite Hd. exact Hr.
    + destruct (destroy_spec s Hd) as (_ & S2 & _). cbv zeta in S2.
      intros H. congruence.
Qed.

Lemma routed_reachable (config : AudioTypes.SynthConfig)
  (cs : list Synth.Call) :
  routed (Synth.calls cs (Synth.new config)).
Proof.
  assert (H : (refsOk (Synth.calls cs (Synth.new config)) /\
               voicesOk (Synth.calls cs (Synth.new config))) /\
              routed (Synth.calls cs (Synth.new config))).
  { apply (calls_invariant
             (fun s => (refsOk s /\ voicesOk s) /\ routed s)).
    - split; [split|].
      + apply (refsOk_reachable config []).
      + apply (voicesOk_reachable config []).
      + intros H. discriminate H.
    - intros c s [[H1 H2] H3]. split; [split|].
      + apply refsOk_call, H1.
      + apply voicesOk_call; assumption.
      + apply routed_call; assumption. }
  apply H.
Qed.

(** X17.  The signal path of a voice.  In every state of a Synth whose
    engine exists, each note of the voice table has its oscillator connected
    to its gain and its gain to the input of the effect chain; every hop of
    the serial chain, from the chain input through the units held for
    distortion, filter, delay and reverb to the master gain, is a
    connection of the engine; and the master gain is connected to the
    compressor and the compressor to the destination.  These connections
    are there in every such state, whatever calls led to it. *)
Theorem X17_voice_signal_path (config : AudioTypes.SynthConfig)
  (cs : list Synth.Call) :
  let s := Synth.calls cs (Synth.new config) in
  Synth.audioContext s = true ->
  (forall k note,
     Synth.activeNotes s !! k = Some note ->
     (WebAudio.OscillatorNode (AudioTypes.oscillator note),
      WebAudio.GainNode (AudioTypes.gainNode note))
       ∈ WebAudio.connections (Synth.engine s) /\
     (WebAudio.GainNode (AudioTypes.gainNode note),
      WebAudio.EffectsInputGainNode)
       ∈ WebAudio.connections (Synth.engine s)) /\
  (forall c,
     c ∈ wire WebAudio.EffectsInputGainNode
           (serialUnits (Synth.effectNodes s)) WebAudio.MasterGainNode ->
     c ∈ WebAudio.connections (Synth.engine s)) /\
  (WebAudio.MasterGainNode, WebAudio.CompressorNode)
    ∈ WebAudio.connections (Synth.engine s) /\
  (WebAudio.CompressorNode, WebAudio.Destination)
    ∈ WebAudio.connections (Synth.engine s).
Proof.
  cbv zeta. intros Hctx.
  destruct (routed_reachable config cs Hctx) as (H1 & H2 & H3).
  destruct (chainOk_reachable config cs) as [Hlive _].
  destruct (Hlive Hctx) as (_ & _ & _ & _ & Hedges).
  split; [exact H3|]. split; [|split; assumption].
  intros c Hc. rewrite <- Hedges in Hc. unfold chainEdges in Hc.
  apply list_elem_of_filter in Hc as [_ Hc]. exact Hc.
Qed.

(** X17 on a new Synth with the delay switched on, a note started at key
    0, the reverb switched on and a note started at key 1. *)
Lemma X17_voice_signal_path_witness :
  let s :=
    Synth.calls
      [Synth.ToggleDelay true; Synth.NoteOn 0 440; Synth.ToggleReverb true;
       Synth.NoteOn 1 220]
      (Synth.new AudioTypes.noSynthConfig) in
  (forall k note,
     Synth.activeNotes s !! k = Some note ->
     (WebAudio.OscillatorNode (AudioTypes.oscillator note),
      WebAudio.GainNode (AudioTypes.gainNode note))
       ∈ WebAudio.connections (Synth.engine s) /\
     (WebAudio.GainNode (AudioTypes.gainNode note),
      WebAudio.EffectsInputGainNode)
       ∈ WebAudio.connections (Synth.engine s)) /\
  (WebAudio.MasterGainNode, WebAudio.CompressorNode)
    ∈ WebAudio.connections (Synth.engine s).
Proof.
  cbv zeta.
  destruct (X17_voice_signal_path AudioTypes.noSynthConfig
              [Synth.ToggleDelay true; Synth.NoteOn 0 440;
               Synth.ToggleReverb true; Synth.NoteOn 1 220] eq_refl)
    as (H1 & _ & H3 & _).
  split; [exact H1|exact H3].
Defined.

(** *** The effect toggles *)

(** The flags after a toggle. *)
Definition toggled (c : Synth.Call) (st : EffectsState.t) : EffectsState.t :=
  match c with
  | Synth.ToggleDelay b => Synth.setDelay b st
  | Synth.ToggleDistortion b => Synth.setDistortion b st
  | Synth.ToggleVibrato b => Synth.setVibrato b st
  | Synth.ToggleFilter b => Synth.setFilter b st
  | Synth.ToggleReverb b => Synth.setReverb b st
  | _ => st
  end.

Lemma toggle_effectsState (c : Synth.Call) (s : Synth.t) :
  isToggle c = true ->
  Synth.effectsState (Synth.call c s) = toggled c (Synth.effectsState s).
Proof.
  intros Hc.
  assert (Hgen : forall (set : bool -> EffectsState.t -> EffectsState.t) b,
    let s1 := Synth.withEffectsState (set b) s in
    Synth.effectsState
      (if Synth.audioContext s1 then Synth.rebuildEffectChain s1 else s1) =
    set b (Synth.effectsState s)).
  { intros set b. cbv zeta. destruct (Synth.audioContext _); [|reflexivity].
    rewrite (logic_effectsState _ _ (logic_rebuildEffectChain _)).
    reflexivity. }
  destruct c; try discriminate Hc; simpl Synth.call; unfold toggled.
  - unfold Synth.toggleDelay.
    destruct (Bool.eqb _ _) eqn:He; [|apply (Hgen Synth.setDelay)].
    apply Bool.eqb_prop in He. subst enabled.
    destruct (Synth.effectsState s); reflexivity.
  - unfold Synth.toggleDistortion.
    destruct (Bool.eqb _ _) eqn:He; [|apply (Hgen Synth.setDistortion)].
    apply Bool.eqb_prop in He. subst enabled.
    destruct (Synth.effectsState s); reflexivity.
  - unfold Synth.toggleVibrato.
    destruct (Bool.eqb _ _) eqn:He.
    { apply Bool.eqb_prop in He. subst enabled.
      destruct (Synth.effectsState s); reflexivity. }
    pose proof (Hgen Synth.setVibrato enabled) as H. cbv zeta in H |- *.
    destruct (Synth.audioContext _); [|exact H].
    destruct (EffectNodes.vibrato _) as [v|]; [|exact H].
    destruct (Effects.lfoGainOf v) as [g|]; [|exact H].
    rewrite (logic_effectsState _ _ (logic_attachVibrato _ _ _)). exact H.
  - unfold Synth.toggleFilter.
    destruct (Bool.eqb _ _) eqn:He; [|apply (Hgen Synth.setFilter)].
    apply Bool.eqb_prop in He. subst enabled.
    destruct (Synth.effectsState s); reflexivity.
  - unfold Synth.toggleReverb.
    destruct (Bool.eqb _ _) eqn:He; [|apply (Hgen Synth.setReverb)].
    apply Bool.eqb_prop in He. subst enabled.
    destruct (Synth.effectsState s); reflexivity.
Qed.

(** X18.  A toggle of an effect, on a Synth in any state, stores the value
    in the flag of that effect and leaves the other four flags as they
    were; it leaves the voice table, the volume, the octave shift and the
    waveform alone; the oscillators that sound afterwards are those that
    sounded before, so no note is cut or started by a toggle; and the same
    toggle made again changes nothing. *)
Theorem X18_toggle (c : Synth.Call) (s : Synth.t) :
  isToggle c = true ->
  let s' := Synth.call c s in
  Synth.getActiveEffects s' = toggled c (Synth.getActiveEffects s) /\
  Synth.activeNotes s' = Synth.activeNotes s /\
  Synth.getVolume s' = Synth.getVolume s /\
  Synth.getOctaveShift s' = Synth.getOctaveShift s /\
  Synth.getWaveform s' = Synth.getWaveform s /\
  Synth.isDestroyed s' = Synth.isDestroyed s /\
  (forall id, sounding (Synth.engine s') id <-> sounding (Synth.engine s) id) /\
  Synth.call c s' = s'.
Proof.
  intros Hc. cbv zeta.
  pose proof (toggle_effectsState c s Hc) as Hst.
  split; [exact Hst|].
  assert (Hlog : Synth.activeNotes (Synth.call c s) = Synth.activeNotes s /\
                 Synth.volume (Synth.call c s) = Synth.volume s /\
                 Synth.octaveShift (Synth.call c s) = Synth.octaveShift s /\
                 Synth.waveform (Synth.call c s) = Synth.waveform s /\
                 Synth.destroyed (Synth.call c s) = Synth.destroyed s).
  { destruct (toggle_frame c s Hc) as [->|(s1 & L1 & _ & _ & L & _)];
      [repeat split|].
    apply logic_fields in L as (_ & _ & _ & A4 & A5 & A6 & A7 & _ & A9 & _).
    unfold logic in L1. injection L1 as B1 B2 B3 B4 B5 B6 B7 B8 B9 B10.
    repeat split; congruence. }
  destruct Hlog as (L1 & L2 & L3 & L4 & L5).
  do 5 (split; [assumption|]).
  split.
  { intros id. apply sameVoices_sounding.
    destruct sameVoices_machinery as (_ & _ & _ & Ht). apply Ht, Hc. }
  set (s' := Synth.call c s) in *. clearbody s'.
  destruct c; try discriminate Hc; simpl Synth.call; simpl in Hst.
  - unfold Synth.toggleDelay. rewrite Hst. simpl.
    rewrite Bool.eqb_reflx. reflexivity.
  - unfold Synth.toggleDistortion. rewrite Hst. simpl.
    rewrite Bool.eqb_reflx. reflexivity.
  - unfold Synth.toggleVibrato. rewrite Hst. simpl.
    rewrite Bool.eqb_reflx. reflexivity.
  - unfold Synth.toggleFilter. rewrite Hst. simpl.
    rewrite Bool.eqb_reflx. reflexivity.
  - unfold Synth.toggleReverb. rewrite Hst. simpl.
    rewrite Bool.eqb_reflx. reflexivity.
Qed.

(** X18 on a Synth with a note sounding: the reverb is switched on. *)
Lemma X18_toggle_witness :
  let s := Synth.noteOn 0 440 (Synth.new AudioTypes.noSynthConfig) in
  let s' := Synth.call (Synth.ToggleReverb true) s in
  EffectsState.reverb (Synth.getActiveEffects s') = true /\
  Synth.activeNotes s' = Synth.activeNotes s /\
  Synth.call (Synth.ToggleReverb true) s' = s'.
Proof.
  cbv zeta.
  destruct (X18_toggle (Synth.ToggleReverb true)
              (Synth.noteOn 0 440 (Synth.new AudioTypes.noSynthConfig))
              eq_refl) as (H1 & H2 & _ & _ & _ & _ & _ & H8).
  split; [rewrite H1; reflexivity|]. split; [exact H2|exact H8].
Defined.

(** ** The board: bend and geometry *)

Lemma Int_part_spec (x : R) : IZR (Int_part x) <= x < IZR (Int_part x) + 1.
Proof. destruct (base_Int_part x) as [H1 H2]. lra. Qed.

Lemma Int_part_unique (x : R) (n : Z) :
  IZR n <= x < IZR n + 1 -> Int_part x = n.
Proof.
  intros [H1 H2]. destruct (Int_part_spec x) as [H3 H4].
  assert (Hlt1 : (n < Int_part x + 1)%Z).
  { apply lt_IZR. rewrite plus_IZR. lra. }
  assert (Hlt2 : (Int_part x < n + 1)%Z).
  { apply lt_IZR. rewrite plus_IZR. lra. }
  lia.
Qed.

Lemma Int_part_mono (x y : R) : x <= y -> (Int_part x <= Int_part y)%Z.
Proof.
  intros Hxy. destruct (Int_part_spec x) as [H1 _].
  destruct (Int_part_spec y) as [_ H2].
  assert (Hlt : (Int_part x < Int_part y + 1)%Z).
  { apply lt_IZR. rewrite plus_IZR. lra. }
  lia.
Qed.

Lemma Math_round_mono (x y : R) : x <= y -> Math_round x <= Math_round y.
Proof.
  intros H. unfold Math_round. apply IZR_le, Int_part_mono. lra.
Qed.

Lemma Math_round_IZR (n : Z) : Math_round (IZR n) = IZR n.
Proof.
  unfold Math_round. f_equal. apply Int_part_unique. lra.
Qed.

Lemma Math_round_near (x : R) :
  Math_round x - 0.5 <= x < Math_round x + 0.5.
Proof. unfold Math_round. destruct (Int_part_spec (x + 0.5)). lra. Qed.

Lemma Math_round_between (a b : Z) (x : R) :
  IZR a <= x <= IZR b -> IZR a <= Math_round x <= IZR b.
Proof.
  intros [H1 H2]. rewrite <- (Math_round_IZR a), <- (Math_round_IZR b).
  split; apply Math_round_mono; assumption.
Qed.

Lemma clamp_mono (lo hi x y : R) :
  x <= y -> Math_max lo (Math_min hi x) <= Math_max lo (Math_min hi y).
Proof.
  intros H. unfold Math_max, Math_min, Rmax, Rmin.
  repeat destruct Rle_dec; lra.
Qed.

(** The clamped target of [dynamicBend] and [steppedBend]: eight cents
    per pixel, within an octave either way. *)
Definition clampedCents (xOffset : R) : R :=
  Math_max (-1200) (Math_min 1200 (8 * xOffset)).

Lemma clampedCents_range (x : R) : -1200 <= clampedCents x <= 1200.
Proof. apply clamp_range. lra. Qed.

(** The value of [steppedBend] by the zone of the clamped target; a
    target half way between two intervals goes to the lower one. *)
Definition steppedOf (c : R) : R :=
  if Rle_dec c (-550) then -700
  else if Rle_dec c (-300) then -400
  else if Rle_dec c (-100) then -200
  else if Rle_dec c 100 then 0
  else if Rle_dec c 300 then 200
  else if Rle_dec c 550 then 400
  else 700.

Lemma steppedBend_clamped (x : R) :
  Bend.steppedBend x = steppedOf (clampedCents x).
Proof.
  unfold Bend.steppedBend, Bend.MAX_OCTAVE_OFFSET, Bend.CENTS_PER_OCTAVE,
    Bend.PIXELS_PER_OCTAVE, Bend.STEPPED_INTERVALS. cbv zeta.
  replace (Math_max (- (1) * 1200) (Math_min (1 * 1200) (x / 150 * 1200)))
    with (clampedCents x).
  2:{ unfold clampedCents. f_equal; [lra|]. f_equal; [lra|]. field. }
  pose proof (clampedCents_range x) as Hc.
  set (c := clampedCents x) in *. clearbody c.
  unfold steppedOf, Math_abs. cbn [nth tl fold_left].
  repeat (destruct Rle_dec; try (exfalso; lra));
    repeat
      (match goal with
       | |- context [Rlt_dec ?a ?b] =>
           let Hlt := fresh "Hlt" in
           destruct (Rlt_dec a b) as [Hlt|Hlt];
           unfold Rabs in Hlt;
           repeat match type of Hlt with
                  | context [Rcase_abs ?t] =>
                      destruct (Rcase_abs t); try (exfalso; lra)
                  end;
           try (exfalso; lra); cbv beta iota
       end);
    reflexivity.
Qed.

(** X20.  [steppedBend] snaps to the nearest interval.  In mode stepped
    the bend is one of the seven intervals -700, -400, -200, 0, 200, 400
    and 700 cents; no interval is nearer to the clamped target of eight
    cents per pixel, and of two intervals equally near the lower one is
    taken.  In pixels: -700 up to -68.75, -400 up to -37.5, -200 up to
    -12.5, 0 up to 12.5, 200 up to 37.5, 400 up to 68.75 and 700 beyond, each
    zone with its upper end; so the bend never exceeds 700 cents either
    way, although the target is clamped at an octave. *)
Theorem X20_steppedBend_nearest (x : R) :
  let cents := Bend.xOffsetToCents x "stepped" in
  let target := Math_max (-1200) (Math_min 1200 (8 * x)) in
  cents = Bend.steppedBend x /\
  In cents Bend.STEPPED_INTERVALS /\
  (forall interval,
     In interval Bend.STEPPED_INTERVALS ->
     Math_abs (target - cents) <= Math_abs (target - interval) /\
     (Math_abs (target - interval) = Math_abs (target - cents) ->
      cents <= interval)) /\
  (x <= -68.75 -> cents = -700) /\
  (-68.75 < x <= -37.5 -> cents = -400) /\
  (-37.5 < x <= -12.5 -> cents = -200) /\
  (-12.5 < x <= 12.5 -> cents = 0) /\
  (12.5 < x <= 37.5 -> cents = 200) /\
  (37.5 < x <= 68.75 -> cents = 400) /\
  (68.75 < x -> cents = 700).
Proof.
  cbv zeta.
  assert (E : Bend.xOffsetToCents x "stepped" = Bend.steppedBend x)
    by reflexivity.
  rewrite E, steppedBend_clamped. fold (clampedCents x).
  split; [reflexivity|].
  assert (Hc : (8 * x < -1200 /\ clampedCents x = -1200) \/
               (1200 < 8 * x /\ clampedCents x = 1200) \/
               (-1200 <= 8 * x <= 1200 /\ clampedCents x = 8 * x))
    by (apply clamp_cases; lra).
  set (c := clampedCents x) in *. clearbody c.
  split.
  { unfold steppedOf, Bend.STEPPED_INTERVALS.
    repeat destruct Rle_dec; simpl; tauto. }
  split.
  { intros interval Hin. unfold Bend.STEPPED_INTERVALS in Hin. simpl in Hin.
    unfold steppedOf, Math_abs.
    destruct Hin as [<-|[<-|[<-|[<-|[<-|[<-|[<-|[]]]]]]]];
      repeat (destruct Rle_dec; try (exfalso; lra));
      (split; [|intros Habs; revert Habs]);
      unfold Rabs; repeat destruct Rcase_abs; lra. }
  unfold steppedOf.
  repeat split; intros Hx;
    destruct Hc as [[Hc ->]|[[Hc ->]|[Hc ->]]];
    repeat destruct Rle_dec; lra.
Qed.

(** X20 on 30 pixels, which snap to 200 cents, and on 12.5 pixels, half
    way between 0 and 200 cents, which snap to 0. *)
Lemma X20_steppedBend_nearest_witness :
  Bend.xOffsetToCents 30 "stepped" = 200 /\
  Bend.xOffsetToCents 12.5 "stepped" = 0 /\
  Bend.xOffsetToCents 1000 "stepped" = 700.
Proof.
  destruct (X20_steppedBend_nearest 30) as (_ & _ & _ & _ & _ & _ & _ & H1 & _).
  destruct (X20_steppedBend_nearest 12.5) as (_ & _ & _ & _ & _ & _ & H2 & _).
  destruct (X20_steppedBend_nearest 1000)
    as (_ & _ & _ & _ & _ & _ & _ & _ & _ & H3).
  split; [apply H1; lra|]. split; [apply H2; lra|apply H3; lra].
Defined.

(** ** The attributes of the board *)

(** [names.join(",")] *)
Fixpoint join (sep : ascii) (l : list string) : string :=
  match l with
  | [] => EmptyString
  | [x] => x
  | x :: rest => (x ++ String sep (join sep rest))%string
  end.

Fixpoint contains (c : ascii) (s : string) : bool :=
  match s with
  | EmptyString => false
  | String c' rest => Ascii.eqb c' c || contains c rest
  end.

Lemma split_nonempty (sep : ascii) (s : string) : split sep s <> [].
Proof.
  induction s as [|c s IH]; simpl; [discriminate|].
  destruct (Ascii.eqb c sep); [discriminate|].
  destruct (split sep s); [contradiction|discriminate].
Qed.

Lemma split_without (sep : ascii) (x : string) :
  contains sep x = false -> split sep x = [x].
Proof.
  induction x as [|c x IH]; simpl; [reflexivity|].
  intros H. apply orb_false_iff in H as [Hc Hx].
  rewrite Hc, (IH Hx). reflexivity.
Qed.

Lemma split_append (sep : ascii) (x y : string) :
  contains sep x = false ->
  split sep (x ++ String sep y) = x :: split sep y.
Proof.
  induction x as [|c x IH]; simpl.
  - intros _. rewrite Ascii.eqb_refl. reflexivity.
  - intros H. apply orb_false_iff in H as [Hc Hx].
    rewrite Hc, (IH Hx). reflexivity.
Qed.

Lemma split_join (sep : ascii) (l : list string) :
  l <> [] -> Forall (fun x => contains sep x = false) l ->
  split sep (join sep l) = l.
Proof.
  induction l as [|x l IH]; [contradiction|].
  intros _ Hl. inversion Hl as [|? ? Hx Hl']; subst.
  destruct l as [|y l].
  - simpl. apply split_without, Hx.
  - change (join sep (x :: y :: l))
      with (x ++ String sep (join sep (y :: l)))%string.
    rewrite split_append by exact Hx. f_equal. apply IH; [discriminate|exact Hl'].
Qed.

Lemma has_In (set : list string) (x : string) :
  BoardUtils.has set x = true <-> In x set.
Proof.
  unfold BoardUtils.has. rewrite existsb_exists. split.
  - intros (y & Hy & Heq). apply String.eqb_eq in Heq. subst. exact Hy.
  - intros H. exists x. split; [exact H|apply String.eqb_refl].
Qed.

Lemma VALID_EFFECTS_plain (e : string) :
  In e BoardUtils.VALID_EFFECTS ->
  contains "," e = false /\ toLowerCase (trim e) = e /\ e <> "".
Proof.
  unfold BoardUtils.VALID_EFFECTS. simpl.
  intros [<-|[<-|[<-|[<-|[<-|[]]]]]]; repeat split; discriminate.
Qed.

(** A string of white space, and a string without white space and
    without a comma. *)
Definition isBlank (s : string) : bool :=
  forallb isWhiteSpace (list_ascii_of_string s).

Definition isWord (s : string) : bool :=
  forallb (fun c => negb (isWhiteSpace c) && negb (Ascii.eqb c ","))
    (list_ascii_of_string s).

Lemma lowerChar_word (c : ascii) :
  isWhiteSpace (lowerChar c) = isWhiteSpace c /\
  Ascii.eqb (lowerChar c) "," = Ascii.eqb c ",".
Proof.
  destruct c as [[] [] [] [] [] [] [] []]; split; reflexivity.
Qed.

Lemma toLowerCase_word (w : string) :
  isWord (toLowerCase w) = isWord w.
Proof.
  unfold isWord. induction w as [|c w IH]; [reflexivity|].
  cbn [toLowerCase list_ascii_of_string forallb].
  destruct (lowerChar_word c) as [-> ->]. rewrite IH. reflexivity.
Qed.

Lemma isWord_VALID_EFFECTS (e : string) :
  In e BoardUtils.VALID_EFFECTS -> isWord e = true /\ e <> "".
Proof.
  unfold BoardUtils.VALID_EFFECTS. simpl.
  intros [<-|[<-|[<-|[<-|[<-|[]]]]]]; split; (reflexivity || discriminate).
Qed.

Lemma isBlank_cons (c : ascii) (s : string) :
  isBlank (String c s) = true -> isWhiteSpace c = true /\ isBlank s = true.
Proof.
  unfold isBlank. cbn [list_ascii_of_string forallb].
  intros H. apply andb_true_iff in H. exact H.
Qed.

Lemma isWord_cons (c : ascii) (s : string) :
  isWord (String c s) = true ->
  isWhiteSpace c = false /\ Ascii.eqb c "," = false /\ isWord s = true.
Proof.
  unfold isWord. cbn [list_ascii_of_string forallb].
  intros H. apply andb_true_iff in H as [Hc Hs].
  apply andb_true_iff in Hc as [H1 H2].
  apply negb_true_iff in H1. apply negb_true_iff in H2. auto.
Qed.

Lemma whiteSpace_no_comma (c : ascii) :
  isWhiteSpace c = true -> Ascii.eqb c "," = false.
Proof.
  destruct c as [[] [] [] [] [] [] [] []]; intros H;
    first [reflexivity | discriminate H].
Qed.

Lemma trimStart_cons (c : ascii) (s : string) :
  trimStart (String c s) = if isWhiteSpace c then trimStart s else String c s.
Proof. reflexivity. Qed.

Lemma trimStart_blank (pre s : string) :
  isBlank pre = true -> trimStart (pre ++ s) = trimStart s.
Proof.
  induction pre as [|c pre IH]; [reflexivity|].
  intros H. apply isBlank_cons in H as [Hc Hpre].
  change (String c pre ++ s)%string with (String c (pre ++ s)).
  rewrite trimStart_cons, Hc. apply IH, Hpre.
Qed.

Lemma trimStart_all_blank (post : string) :
  isBlank post = true -> trimStart post = "".
Proof.
  induction post as [|c post IH]; [reflexivity|].
  intros H. apply isBlank_cons in H as [Hc Hpost].
  rewrite trimStart_cons, Hc. apply IH, Hpost.
Qed.

Lemma trimEnd_cons (c : ascii) (s : string) :
  trimEnd (String c s) =
  match trimEnd s with
  | EmptyString => if isWhiteSpace c then EmptyString else String c EmptyString
  | rest => String c rest
  end.
Proof. reflexivity. Qed.

Lemma trimEnd_blank (post : string) :
  isBlank post = true -> trimEnd post = "".
Proof.
  induction post as [|c post IH]; [reflexivity|].
  intros H. apply isBlank_cons in H as [Hc Hpost].
  rewrite trimEnd_cons, (IH Hpost), Hc. reflexivity.
Qed.

Lemma trimEnd_word (w post : string) :
  isWord w = true -> isBlank post = true -> trimEnd (w ++ post) = w.
Proof.
  intros Hw Hpost. induction w as [|c w IH].
  - apply trimEnd_blank, Hpost.
  - apply isWord_cons in Hw as (Hc & _ & Hw).
    change (String c w ++ post)%string with (String c (w ++ post)).
    rewrite trimEnd_cons, (IH Hw).
    destruct w; [rewrite Hc|]; reflexivity.
Qed.

Lemma contains_blank (b : string) :
  isBlank b = true -> contains "," b = false.
Proof.
  induction b as [|c b IH]; [reflexivity|].
  intros H. apply isBlank_cons in H as [Hc Hb].
  cbn [contains]. rewrite (whiteSpace_no_comma c Hc), (IH Hb). reflexivity.
Qed.

Lemma contains_app (x y : string) :
  contains "," (x ++ y) = contains "," x || contains "," y.
Proof.
  induction x as [|c x IH]; [reflexivity|].
  change (String c x ++ y)%string with (String c (x ++ y)).
  cbn [contains]. rewrite IH. apply orb_assoc.
Qed.

Lemma contains_word (w : string) :
  isWord w = true -> contains "," w = false.
Proof.
  induction w as [|c w IH]; [reflexivity|].
  intros H. apply isWord_cons in H as (_ & Hc & Hw).
  cbn [contains]. rewrite Hc, (IH Hw). reflexivity.
Qed.

(** An entry made of a word with white space around it is trimmed to the
    word, and it has no comma. *)
Lemma trim_word (pre w post : string) :
  isBlank pre = true -> isBlank post = true -> isWord w = true ->
  trim (pre ++ w ++ post) = w /\ contains "," (pre ++ w ++ post) = false.
Proof.
  intros Hpre Hpost Hw. split.
  - unfold trim. rewrite (trimStart_blank pre _ Hpre).
    destruct w as [|c w].
    + change ("" ++ post)%string with post.
      rewrite (trimStart_all_blank post Hpost). reflexivity.
    + pose proof (trimEnd_word _ _ Hw Hpost) as Hend.
      apply isWord_cons in Hw as (Hc & _ & _).
      change (String c w ++ post)%string with (String c (w ++ post)) in *.
      rewrite trimStart_cons, Hc. exact Hend.
  - rewrite !contains_app, (contains_blank pre Hpre),
      (contains_blank post Hpost), (contains_word w Hw). reflexivity.
Qed.

(** The entries of a list without commas, joined by commas, are parsed
    entry by entry. *)
Lemma parseEffectsAttribute_join (entries : list string) :
  Forall (fun e => contains "," e = false) entries ->
  BoardUtils.parseEffectsAttribute (Some (join "," entries)) =
  List.filter (fun e => BoardUtils.has BoardUtils.VALID_EFFECTS e)
    (map (fun entry => toLowerCase (trim entry)) entries).
Proof.
  intros Hplain. unfold BoardUtils.parseEffectsAttribute.
  destruct entries as [|e entries]; [reflexivity|].
  destruct (String.eqb_spec (join "," (e :: entries)) "") as [Hempty|_].
  - destruct entries as [|e' entries].
    + simpl in Hempty. subst e. reflexivity.
    + exfalso. simpl in Hempty. destruct e; discriminate Hempty.
  - rewrite split_join by (try discriminate; exact Hplain). reflexivity.
Qed.

(** An entry as it is written: white space, a word, white space. *)
Definition written (entry : string * string * string) : string :=
  let '(pre, word, post) := entry in (pre ++ word ++ post)%string.

Definition wordOf (entry : string * string * string) : string :=
  let '(_, word, _) := entry in word.

(** X23.  [parseEffectsAttribute].  Without the attribute, or with the
    empty string, no effect is named, and every name returned is one of
    delay, distortion, vibrato, filter and reverb.  A list of entries
    separated by commas, each an effect name in any case of its ASCII
    letters with any white space (tabs, line ends and spaces) around it, is
    read as the list of the names in lower case, in the order of the
    entries and with their repetitions; in particular the names of a list
    of effects joined by commas are read back as that list.  An entry of
    ASCII characters that is not an effect name when it is trimmed and put
    in lower case is dropped: the attribute is read as it is without the
    entry. *)
Theorem X23_parseEffectsAttribute :
  BoardUtils.parseEffectsAttribute None = [] /\
  BoardUtils.parseEffectsAttribute (Some "") = [] /\
  (forall effectsStr e,
     In e (BoardUtils.parseEffectsAttribute effectsStr) ->
     In e BoardUtils.VALID_EFFECTS) /\
  (forall entries : list (string * string * string),
     Forall (fun '(pre, word, post) =>
               isBlank pre = true /\ isBlank post = true /\
               In (toLowerCase word) BoardUtils.VALID_EFFECTS) entries ->
     BoardUtils.parseEffectsAttribute (Some (join "," (map written entries)))
     = map (fun entry => toLowerCase (wordOf entry)) entries) /\
  (forall names,
     Forall (fun e => In e BoardUtils.VALID_EFFECTS) names ->
     BoardUtils.parseEffectsAttribute (Some (join "," names)) = names) /\
  (forall before entry after,
     Forall (fun e => contains "," e = false) (before ++ entry :: after) ->
     isASCII entry = true ->
     ~ In (toLowerCase (trim entry)) BoardUtils.VALID_EFFECTS ->
     BoardUtils.parseEffectsAttribute
       (Some (join "," (before ++ entry :: after))) =
     BoardUtils.parseEffectsAttribute (Some (join "," (before ++ after)))).
Proof.
  split; [reflexivity|]. split; [reflexivity|].
  split; [|split; [|split]].
  - intros [effectsStr|] e; [|intros []].
    unfold BoardUtils.parseEffectsAttribute.
    destruct (String.eqb effectsStr ""); [intros []|].
    intros H. apply List.filter_In in H as [_ H]. apply has_In, H.
  - intros entries Hentries.
    assert (Hnorm : Forall (fun entry =>
                      contains "," (written entry) = false /\
                      toLowerCase (trim (written entry)) =
                        toLowerCase (wordOf entry) /\
                      In (toLowerCase (wordOf entry))
                        BoardUtils.VALID_EFFECTS) entries).
    { eapply List.Forall_impl; [|exact Hentries].
      intros [[pre word] post] (Hpre & Hpost & Hname).
      assert (Hword : isWord word = true).
      { rewrite <- toLowerCase_word. apply isWord_VALID_EFFECTS, Hname. }
      destruct (trim_word pre word post Hpre Hpost Hword) as [Ht Hc].
      cbn [written wordOf]. rewrite Ht. auto. }
    rewrite parseEffectsAttribute_join.
    + clear Hentries. induction Hnorm as [|entry l (_ & Ht & Hname) _ IH];
        [reflexivity|].
      cbn [map List.filter]. rewrite Ht.
      rewrite (proj2 (has_In _ _) Hname). f_equal. exact IH.
    + clear Hentries. induction Hnorm as [|entry l (Hc & _) _ IH];
        constructor; assumption.
  - intros names Hvalid.
    rewrite parseEffectsAttribute_join.
    + induction Hvalid as [|e l He Hl IH]; [reflexivity|].
      cbn [map List.filter].
      destruct (VALID_EFFECTS_plain e He) as (_ & -> & _).
      rewrite (proj2 (has_In _ _) He). f_equal. exact IH.
    + eapply List.Forall_impl; [|exact Hvalid].
      intros e He. apply (VALID_EFFECTS_plain e He).
  - intros before entry after Hplain _ Hno.
    assert (Hplain' : Forall (fun e => contains "," e = false)
                        (before ++ after)).
    { apply List.Forall_app in Hplain as [H1 H2].
      inversion H2; subst. apply List.Forall_app. split; assumption. }
    rewrite !parseEffectsAttribute_join by assumption.
    rewrite !map_app, !List.filter_app. f_equal.
    cbn [map List.filter].
    destruct (BoardUtils.has _ _) eqn:Hhas; [|reflexivity].
    exfalso. apply Hno, has_In, Hhas.
Qed.

(** X23 on entries with stray case and white space, and on an attribute
    with an unknown name. *)
Lemma X23_parseEffectsAttribute_witness :
  BoardUtils.parseEffectsAttribute (Some " Delay , REVERB,vibrato ")
    = ["delay"; "reverb"; "vibrato"] /\
  BoardUtils.parseEffectsAttribute (Some "filter,chorus,delay")
    = BoardUtils.parseEffectsAttribute (Some "filter,delay").
Proof.
  destruct X23_parseEffectsAttribute as (_ & _ & _ & H4 & _ & H6).
  split.
  - apply (H4 [(" ", "Delay", " "); (" ", "REVERB", ""); ("", "vibrato", " ")]).
    repeat constructor; simpl; tauto.
  - apply (H6 ["filter"] "chorus" ["delay"]).
    + repeat constructor.
    + reflexivity.
    + simpl. intuition discriminate.
Defined.

(** The digits of a decimal numeral, most significant first. *)
Fixpoint digitsOf (d : Decimal.uint) : list Z :=
  match d with
  | Decimal.Nil => []
  | Decimal.D0 d => 0 :: digitsOf d
  | Decimal.D1 d => 1 :: digitsOf d
  | Decimal.D2 d => 2 :: digitsOf d
  | Decimal.D3 d => 3 :: digitsOf d
  | Decimal.D4 d => 4 :: digitsOf d
  | Decimal.D5 d => 5 :: digitsOf d
  | Decimal.D6 d => 6 :: digitsOf d
  | Decimal.D7 d => 7 :: digitsOf d
  | Decimal.D8 d => 8 :: digitsOf d
  | Decimal.D9 d => 9 :: digitsOf d
  end%Z.

Definition horner (ds : list Z) (acc : Z) : Z :=
  fold_left (fun acc d => 10 * acc + d)%Z ds acc.

Lemma leadingDigits_NilEmpty (d : Decimal.uint) :
  leadingDigits (NilEmpty.string_of_uint d) = digitsOf d.
Proof. induction d; simpl; try rewrite IHd; reflexivity. Qed.

Lemma leadingDigits_string_of_uint (d : Decimal.uint) :
  digitsOf d <> [] ->
  leadingDigits (NilZero.string_of_uint d) = digitsOf d.
Proof.
  intros Hne. destruct d; [contradiction|..]; apply leadingDigits_NilEmpty.
Qed.

Lemma horner_of_uint_acc (d : Decimal.uint) (acc : positive) :
  horner (digitsOf d) (Zpos acc) = Zpos (Pos.of_uint_acc d acc).
Proof.
  revert acc. unfold horner.
  induction d; intros acc; cbn [digitsOf fold_left Pos.of_uint_acc];
    try reflexivity;
    match goal with
    | |- fold_left _ _ ?z = Z.pos (Pos.of_uint_acc _ ?p) =>
        replace z with (Zpos p) by lia; apply IHd
    end.
Qed.

Lemma horner_of_uint (d : Decimal.uint) :
  horner (digitsOf d) 0 = Z.of_N (Pos.of_uint d).
Proof.
  unfold horner.
  induction d; cbn [digitsOf fold_left Pos.of_uint]; try reflexivity;
    try exact IHd;
    match goal with
    | |- fold_left _ _ ?z = Z.of_N (N.pos (Pos.of_uint_acc _ ?p)) =>
        change z with (Zpos p); apply horner_of_uint_acc
    end.
Qed.

Lemma to_uint_digits (p : positive) :
  horner (digitsOf (Pos.to_uint p)) 0 = Zpos p /\
  digitsOf (Pos.to_uint p) <> [].
Proof.
  pose proof (DecimalPos.Unsigned.of_to p) as H. split.
  - rewrite horner_of_uint, H. reflexivity.
  - intros Hnil. destruct (Pos.to_uint p); try discriminate Hnil.
    discriminate H.
Qed.

Lemma string_of_uint_first (d : Decimal.uint) :
  match NilZero.string_of_uint d with
  | EmptyString => True
  | String c _ => isDigit c = true
  end.
Proof. destruct d; simpl; try exact I; reflexivity. Qed.

(** Decimal printing followed by [parseInt] gives the integer back. *)
Lemma parseInt_numberToString (n : Z) :
  parseInt (Generator.numberToString n) = Some n.
Proof.
  unfold Generator.numberToString, parseInt.
  destruct n as [|p|p]; [reflexivity| |].
  - cbn [Z.to_int NilZero.string_of_int].
    destruct (to_uint_digits p) as [Hval Hne].
    pose proof (string_of_uint_first (Pos.to_uint p)) as Hfirst.
    pose proof (leadingDigits_string_of_uint (Pos.to_uint p) Hne) as Hd.
    destruct (NilZero.string_of_uint (Pos.to_uint p)) as [|c s] eqn:Hs.
    { exfalso. apply Hne. rewrite <- Hd. reflexivity. }
    assert (Htrim : trimStart (String c s) = String c s).
    { simpl. destruct (isWhiteSpace c) eqn:Hw; [|reflexivity].
      exfalso. unfold isDigit, isWhiteSpace in *.
      destruct (nat_of_ascii c) as [|k]; [discriminate|].
      repeat (destruct k as [|k]; try discriminate). }
    rewrite Htrim.
    assert (Hsign : match String c s with
                    | String "-" rest => ((-1)%Z, rest)
                    | String "+" rest => (1%Z, rest)
                    | _ => (1%Z, String c s)
                    end = (1%Z, String c s)).
    { destruct c as [[] [] [] [] [] [] [] []]; try reflexivity;
        discriminate Hfirst. }
    rewrite Hsign, Hd.
    destruct (digitsOf (Pos.to_uint p)) as [|d0 ds] eqn:Hds; [contradiction|].
    fold (horner (d0 :: ds) 0). rewrite Hval. f_equal; lia.
  - cbn [Z.to_int NilZero.string_of_int].
    destruct (to_uint_digits p) as [Hval Hne].
    pose proof (leadingDigits_string_of_uint (Pos.to_uint p) Hne) as Hd.
    cbn [trimStart]. change (isWhiteSpace "-") with false. cbv iota.
    rewrite Hd.
    destruct (digitsOf (Pos.to_uint p)) as [|d0 ds] eqn:Hds; [contradiction|].
    fold (horner (d0 :: ds) 0). rewrite Hval. f_equal; lia.
Qed.

(** X24.  [validateNotesCount].  The count is the default, or a whole
    number from 1 to 24: without the attribute, with the empty string, with
    a value that does not begin (after white space and a sign) with a
    digit, or with a number below 1, it is the default; otherwise it is the
    number the value begins with, and 24 when that is more.  In particular
    the decimal numeral of [n] gives [n] from 1 to 24, 24 above and the
    default for 0 and the negative numbers. *)
Theorem X24_validateNotesCount (notesStr : option string)
  (defaultCount : Z) :
  let count := BoardUtils.validateNotesCount notesStr defaultCount in
  (count = defaultCount \/ (1 <= count <= 24)%Z) /\
  (notesStr = None \/ notesStr = Some "" -> count = defaultCount) /\
  (forall s, notesStr = Some s -> parseInt s = None ->
             count = defaultCount) /\
  (forall s n, notesStr = Some s -> s <> "" -> parseInt s = Some n ->
               count = if (n <? 1)%Z then defaultCount else Z.min n 24) /\
  (forall n, notesStr = Some (Generator.numberToString n) ->
             count = if (n <? 1)%Z then defaultCount else Z.min n 24).
Proof.
  cbv zeta. unfold BoardUtils.validateNotesCount.
  split; [|split; [|split; [|split]]].
  - destruct notesStr as [s|]; [|left; reflexivity].
    destruct (String.eqb s ""); [left; reflexivity|].
    destruct (parseInt s) as [n|]; [|left; reflexivity].
    destruct (Z.ltb_spec n 1); [left; reflexivity|right; lia].
  - intros [-> | ->]; reflexivity.
  - intros s -> Hnan. rewrite Hnan. destruct (String.eqb s ""); reflexivity.
  - intros s n -> Hne Hn. rewrite Hn.
    destruct (String.eqb_spec s ""); [contradiction|reflexivity].
  - intros n ->. rewrite parseInt_numberToString.
    destruct (String.eqb_spec (Generator.numberToString n) "") as [He|_];
      [|reflexivity].
    exfalso. pose proof (parseInt_numberToString n) as H.
    rewrite He in H. discriminate H.
Qed.

(** X24 on the numerals of 12 and 100 and on two attribute values that are
    not numerals. *)
Lemma X24_validateNotesCount_witness :
  BoardUtils.validateNotesCount (Some (Generator.numberToString 12)) 5 = 12%Z /\
  BoardUtils.validateNotesCount (Some (Generator.numberToString 100)) 5
    = 24%Z /\
  BoardUtils.validateNotesCount (Some " 7 keys") 5 = 7%Z /\
  BoardUtils.validateNotesCount (Some "many") 5 = 5%Z.
Proof.
  split; [|split; [|split]].
  - destruct (X24_validateNotesCount
                (Some (Generator.numberToString 12)) 5) as (_ & _ & _ & _ & H).
    exact (H 12%Z eq_refl).
  - destruct (X24_validateNotesCount
                (Some (Generator.numberToString 100)) 5) as (_ & _ & _ & _ & H).
    exact (H 100%Z eq_refl).
  - destruct (X24_validateNotesCount (Some " 7 keys") 5) as (_ & _ & _ & H & _).
    exact (H " 7 keys" 7%Z eq_refl ltac:(discriminate) eq_refl).
  - destruct (X24_validateNotesCount (Some "many") 5) as (_ & _ & H & _).
    exact (H "many" eq_refl eq_refl).
Defined.

(** *** The scale attribute *)

Fixpoint mapString (f : ascii -> ascii) (s : string) : string :=
  match s with
  | EmptyString => EmptyString
  | String c rest => String (f c) (mapString f rest)
  end.

(** A change of the case of letters. *)
Definition caseChange (f : ascii -> ascii) : Prop :=
  forall c,
    isWhiteSpace (f c) = isWhiteSpace c /\
    upperChar (f c) = upperChar c /\
    lowerChar (f c) = lowerChar c.

Lemma caseChange_upperChar : caseChange upperChar.
Proof.
  intros c. destruct c as [[] [] [] [] [] [] [] []];
    vm_compute; repeat split.
Qed.

Lemma caseChange_lowerChar : caseChange lowerChar.
Proof.
  intros c. destruct c as [[] [] [] [] [] [] [] []];
    vm_compute; repeat split.
Qed.

Lemma toUpperCase_mapString (s : string) :
  toUpperCase s = mapString upperChar s.
Proof. induction s as [|c s IH]; simpl; [|rewrite IH]; reflexivity. Qed.

Lemma toLowerCase_mapString (s : string) :
  toLowerCase s = mapString lowerChar s.
Proof. induction s as [|c s IH]; simpl; [|rewrite IH]; reflexivity. Qed.

Section CaseChange.
Variable f : ascii -> ascii.
Hypothesis Hf : caseChange f.

Lemma mapString_empty (s : string) :
  String.eqb (mapString f s) "" = String.eqb s "".
Proof. destruct s; reflexivity. Qed.

Lemma mapString_length (s : string) :
  String.length (mapString f s) = String.length s.
Proof. induction s as [|c s IH]; simpl; [|rewrite IH]; reflexivity. Qed.

Lemma mapString_trimStart (s : string) :
  trimStart (mapString f s) = mapString f (trimStart s).
Proof using Hf.
  induction s as [|c s IH]; simpl; [reflexivity|].
  rewrite (proj1 (Hf c)). destruct (isWhiteSpace c); [exact IH|reflexivity].
Qed.

Lemma mapString_trimEnd (s : string) :
  trimEnd (mapString f s) = mapString f (trimEnd s).
Proof using Hf.
  induction s as [|c s IH]; simpl; [reflexivity|].
  rewrite IH, (proj1 (Hf c)).
  destruct (trimEnd s); simpl; [destruct (isWhiteSpace c)|]; reflexivity.
Qed.

Lemma mapString_trim (s : string) :
  trim (mapString f s) = mapString f (trim s).
Proof using Hf.
  unfold trim. rewrite mapString_trimStart, mapString_trimEnd. reflexivity.
Qed.

Lemma mapString_sliceTo (n : nat) (s : string) :
  sliceTo n (mapString f s) = mapString f (sliceTo n s).
Proof.
  revert s. induction n as [|n IH]; intros [|c s]; simpl; try reflexivity.
  rewrite IH. reflexivity.
Qed.

Lemma mapString_sliceFrom (n : nat) (s : string) :
  sliceFrom n (mapString f s) = mapString f (sliceFrom n s).
Proof.
  revert s. induction n as [|n IH]; intros [|c s]; simpl; try reflexivity.
  apply IH.
Qed.

Lemma mapString_toUpperCase (s : string) :
  toUpperCase (mapString f s) = toUpperCase s.
Proof using Hf.
  induction s as [|c s IH]; simpl; [reflexivity|].
  rewrite IH, (proj1 (proj2 (Hf c))). reflexivity.
Qed.

Lemma mapString_toLowerCase (s : string) :
  toLowerCase (mapString f s) = toLowerCase s.
Proof using Hf.
  induction s as [|c s IH]; simpl; [reflexivity|].
  rewrite IH, (proj2 (proj2 (Hf c))). reflexivity.
Qed.

Lemma mapString_parseRoot (trimmed : string) :
  BoardUtils.parseRoot (mapString f trimmed) =
  ((BoardUtils.parseRoot trimmed).1,
   mapString f (BoardUtils.parseRoot trimmed).2).
Proof using Hf.
  unfold BoardUtils.parseRoot.
  rewrite mapString_length, !mapString_sliceTo, !mapString_toUpperCase,
    !mapString_sliceFrom, !mapString_trim.
  destruct (2 <=? String.length trimmed)%nat;
    repeat match goal with
           | |- context [if ?b then _ else _] => destruct b
           | |- context [match ?o with Some _ => _ | None => _ end] =>
               destruct o
           end; reflexivity.
Qed.

Lemma mapString_parseScaleAttribute (scaleStr : string) :
  BoardUtils.parseScaleAttribute (mapString f scaleStr) =
  BoardUtils.parseScaleAttribute scaleStr.
Proof using Hf.
  unfold BoardUtils.parseScaleAttribute.
  rewrite mapString_empty, mapString_trim, mapString_length,
    mapString_parseRoot.
  destruct (String.eqb scaleStr ""); [reflexivity|].
  destruct (String.length (trim scaleStr) =? 0)%nat; [reflexivity|].
  destruct (BoardUtils.parseRoot (trim scaleStr)) as [root remaining].
  cbn [fst snd].
  rewrite mapString_length, mapString_toLowerCase. reflexivity.
Qed.

End CaseChange.



Lemma noteNameOfString_Some (s : string) (n : Scale.NoteName) :
  Scale.noteNameOfString s = Some n -> Scale.noteNameString n = s.
Proof.
  unfold Scale.noteNameOfString. intros H.
  apply List.find_some in H as [_ H]. apply String.eqb_eq, H.
Qed.

Lemma flatToSharp_Some (twoChar : string) (n : Scale.NoteName) :
  BoardUtils.flatToSharp twoChar = Some n ->
  (twoChar = "DB" /\ n = Scale.Cs) \/ (twoChar = "EB" /\ n = Scale.Ds) \/
  (twoChar = "GB" /\ n = Scale.Fs) \/ (twoChar = "AB" /\ n = Scale.Gs) \/
  (twoChar = "BB" /\ n = Scale.As).
Proof.
  unfold BoardUtils.flatToSharp.
  repeat match goal with
         | |- context [String.eqb twoChar ?x] =>
             destruct (String.eqb_spec twoChar x) as [->|_];
             [intros [= <-]; auto 10|]
         end.
  discriminate.
Qed.

(** The note [parseRoot] reads: a sharp note spelled by the first two
    characters, one of C#, D# and F# for the flats Db, Eb and Gb, or the
    natural note of the first character. *)
Lemma parseRoot_root (trimmed remaining : string) (root : Scale.NoteName) :
  BoardUtils.parseRoot trimmed = (Some root, remaining) ->
  (toUpperCase (sliceTo 2 trimmed) = Scale.noteNameString root /\
   In root [Scale.Cs; Scale.Ds; Scale.Fs; Scale.Gs; Scale.As] /\
   remaining = trim (sliceFrom 2 trimmed)) \/
  (In (toUpperCase (sliceTo 2 trimmed), root)
     [("DB", Scale.Cs); ("EB", Scale.Ds); ("GB", Scale.Fs)] /\
   remaining = trim (sliceFrom 2 trimmed)) \/
  (toUpperCase (sliceTo 1 trimmed) = Scale.noteNameString root /\
   In root [Scale.C; Scale.D; Scale.E; Scale.F; Scale.G; Scale.A; Scale.B] /\
   remaining = trim (sliceFrom 1 trimmed)).
Proof.
  unfold BoardUtils.parseRoot.
  set (twoChar := toUpperCase (sliceTo 2 trimmed)).
  set (oneChar := toUpperCase (sliceTo 1 trimmed)).
  assert (Hone : forall r rem,
            (if (1 <=? String.length trimmed)%nat
             then if BoardUtils.has BoardUtils.VALID_NOTES oneChar
                  then (Scale.noteNameOfString oneChar,
                        trim (sliceFrom 1 trimmed))
                  else (None, rem)
             else (None, rem)) = (Some root, remaining) ->
            r = root ->
            toUpperCase (sliceTo 1 trimmed) = Scale.noteNameString root /\
            In root [Scale.C; Scale.D; Scale.E; Scale.F; Scale.G; Scale.A;
                     Scale.B] /\
            remaining = trim (sliceFrom 1 trimmed)).
  { intros r rem H _.
    destruct (1 <=? String.length trimmed)%nat; [|discriminate].
    destruct (BoardUtils.has _ _); [|discriminate].
    injection H as Hn <-. apply noteNameOfString_Some in Hn.
    split; [symmetry; exact Hn|]. split; [|reflexivity].
    assert (Hlen : (String.length oneChar <= 1)%nat).
    { unfold oneChar. destruct trimmed as [|c [|c' t]]; simpl; lia. }
    rewrite <- Hn in Hlen. destruct root; simpl in Hlen |- *; try lia; tauto. }
  destruct (2 <=? String.length trimmed)%nat.
  - destruct (match charAt 1 twoChar, charAt 0 twoChar with
              | Some c1, Some c0 =>
                  Ascii.eqb c1 "B" && negb (Ascii.eqb c0 "A")
                  && negb (Ascii.eqb c0 "B")
              | _, _ => false
              end) eqn:Hflat.
    + destruct (BoardUtils.flatToSharp twoChar) as [r|] eqn:Hr.
      * intros [= <- <-]. right. left. split; [|reflexivity].
        apply flatToSharp_Some in Hr
          as [[E ->]|[[E ->]|[[E ->]|[[E ->]|[E ->]]]]];
          rewrite E in *; simpl; try tauto; discriminate Hflat.
      * intros H. right. right. exact (Hone root trimmed H eq_refl).
    + destruct (match charAt 1 twoChar with
                | Some c1 => Ascii.eqb c1 "#"
                | None => false
                end && BoardUtils.has BoardUtils.VALID_NOTES twoChar)
        eqn:Hsharp.
      * apply andb_true_iff in Hsharp as [Hc1 Hvalid].
        destruct (Scale.noteNameOfString twoChar) as [r|] eqn:Hr.
        -- intros [= <- <-]. left. apply noteNameOfString_Some in Hr.
           split; [symmetry; exact Hr|]. split; [|reflexivity].
           rewrite <- Hr in Hc1.
           destruct r; simpl in Hc1 |- *; try discriminate Hc1; tauto.
        -- intros H. right. right. exact (Hone root _ H eq_refl).
      * intros H. right. right. exact (Hone root trimmed H eq_refl).
  - intros H. right. right. exact (Hone root trimmed H eq_refl).
Qed.

(** X26.  What [parseScaleAttribute] does not read.  The root it returns
    is a sharp note spelled by the first two characters of the trimmed
    attribute, or C#, D# and F# for the flats Db, Eb and Gb, or the natural
    note of the first character; so G# and A# are returned only for the
    spellings G# and A#, and the flats Ab and Bb, with or without a scale
    type, are not parsed although the table of flats has them.  The type
    is a scale type, except for the remainders constructor and __proto__,
    for which the lookup in the table of abbreviations returns a member that
    every object inherits. *)
Theorem X26_parseScaleAttribute_spellings :
  (forall scaleStr config,
     BoardUtils.parseScaleAttribute scaleStr = Some config ->
     let trimmed := trim scaleStr in
     let root := BoardUtils.root config in
     (toUpperCase (sliceTo 2 trimmed) = Scale.noteNameString root /\
      In root [Scale.Cs; Scale.Ds; Scale.Fs; Scale.Gs; Scale.As]) \/
     In (toUpperCase (sliceTo 2 trimmed), root)
       [("DB", Scale.Cs); ("EB", Scale.Ds); ("GB", Scale.Fs)] \/
     (toUpperCase (sliceTo 1 trimmed) = Scale.noteNameString root /\
      In root [Scale.C; Scale.D; Scale.E; Scale.F; Scale.G; Scale.A;
               Scale.B])) /\
  (forall type,
     BoardUtils.parseScaleAttribute ("Ab " ++ BoardUtils.scaleTypeString type)
       = None /\
     BoardUtils.parseScaleAttribute ("Bb " ++ BoardUtils.scaleTypeString type)
       = None /\
     BoardUtils.parseScaleAttribute ("Eb " ++ BoardUtils.scaleTypeString type)
       = Some {| BoardUtils.root := Scale.Ds;
                 BoardUtils.type := BoardUtils.ScaleTypeOf type;
                 BoardUtils.octave := 4 |}) /\
  BoardUtils.parseScaleAttribute "Ab" = None /\
  BoardUtils.parseScaleAttribute "Bb" = None /\
  (forall scaleStr config key,
     BoardUtils.parseScaleAttribute scaleStr = Some config ->
     BoardUtils.type config = BoardUtils.Inherited key ->
     key = "constructor" \/ key = "__proto__") /\
  BoardUtils.parseScaleAttribute "A constructor" =
    Some {| BoardUtils.root := Scale.A;
            BoardUtils.type := BoardUtils.Inherited "constructor";
            BoardUtils.octave := 4 |}.
Proof.
  split; [|split; [|split; [|split; [|split]]]]; try reflexivity.
  - intros scaleStr config. unfold BoardUtils.parseScaleAttribute.
    destruct (String.eqb scaleStr ""); [discriminate|].
    destruct (String.length (trim scaleStr) =? 0)%nat; [discriminate|].
    destruct (BoardUtils.parseRoot (trim scaleStr)) as [[root|] remaining]
      eqn:Hroot; [|discriminate].
    intros Hconfig.
    assert (Hr : BoardUtils.root config = root).
    { destruct (0 <? String.length remaining)%nat.
      - cbv zeta in Hconfig.
        destruct (BoardUtils.SHORTHAND_SCALE_MAP _);
          [injection Hconfig as <-; reflexivity|].
        destruct (BoardUtils.scaleTypeOfString _);
          [injection Hconfig as <-; reflexivity|].
        destruct (_ || _); [injection Hconfig as <-; reflexivity|discriminate].
      - injection Hconfig as <-. reflexivity. }
    cbv zeta. rewrite Hr.
    destruct (parseRoot_root _ _ _ Hroot) as [(H1 & H2 & _)|[(H1 & _)|(H1 & H2 & _)]];
      tauto.
  - intros type. destruct type; repeat split.
  - intros scaleStr config key. unfold BoardUtils.parseScaleAttribute.
    destruct (String.eqb scaleStr ""); [discriminate|].
    destruct (String.length (trim scaleStr) =? 0)%nat; [discriminate|].
    destruct (BoardUtils.parseRoot (trim scaleStr)) as [[root|] remaining];
      [|discriminate].
    destruct (0 <? String.length remaining)%nat.
    + cbv zeta. unfold BoardUtils.SHORTHAND_SCALE_MAP.
      destruct (String.eqb _ "m"); [intros [= <-]; discriminate|].
      destruct (String.eqb _ "min"); [intros [= <-]; discriminate|].
      destruct (String.eqb _ "maj"); [intros [= <-]; discriminate|].
      destruct (String.eqb_spec (toLowerCase remaining) "constructor") as [->|_].
      { intros [= <-] [= <-]. left. reflexivity. }
      destruct (String.eqb_spec (toLowerCase remaining) "__proto__") as [->|_].
      { intros [= <-] [= <-]. right. reflexivity. }
      cbn [orb].
      destruct (BoardUtils.scaleTypeOfString _); [intros [= <-]; discriminate|].
      match goal with
      | |- context [if ?b then _ else _] => destruct b
      end; [intros [= <-]; discriminate|discriminate].
    + intros [= <-]. discriminate.
Qed.

(** X26 on the attribute G# major, whose root is spelled by its first two
    characters. *)
Lemma X26_parseScaleAttribute_spellings_witness :
  exists config,
    BoardUtils.parseScaleAttribute "G# major" = Some config /\
    toUpperCase (sliceTo 2 (trim "G# major")) =
      Scale.noteNameString (BoardUtils.root config) /\
    BoardUtils.type config = BoardUtils.ScaleTypeOf Generator.major.
Proof.
  destruct X26_parseScaleAttribute_spellings as (H1 & _).
  eexists. split; [reflexivity|].
  destruct (H1 "G# major" _ eq_refl) as [[H _]|[H|[H _]]].
  - split; [exact H|reflexivity].
  - simpl in H. exfalso.
    destruct H as [H|[H|[H|[]]]]; discriminate H.
  - discriminate H.
Defined.

(** ** The board and its Synth *)

(** A Synth some sequence of calls leads to. *)
Definition reach (s : Synth.t) : Prop :=
  exists config cs, s = Synth.calls cs (Synth.new config).

Lemma reach_call (c : Synth.Call) (s : Synth.t) :
  reach s -> reach (Synth.call c s).
Proof.
  intros (config & cs & ->). exists config, (cs ++ [c]).
  symmetry. apply calls_snoc.
Qed.

(** The effect flags an attribute value asks for. *)
Definition flagsOf (effects : list string) : EffectsState.t :=
  {| EffectsState.delay := BoardUtils.has effects "delay";
     EffectsState.distortion := BoardUtils.has effects "distortion";
     EffectsState.vibrato := BoardUtils.has effects "vibrato";
     EffectsState.filter := BoardUtils.has effects "filter";
     EffectsState.reverb := BoardUtils.has effects "reverb" |}.

(** A call that leaves the flags, the waveform and the destroyed flag
    alone and adds no note to the voice table but, may be, under [k]. *)
Definition addsAt (k : option Z) (s s' : Synth.t) : Prop :=
  Synth.destroyed s' = Synth.destroyed s /\
  Synth.effectsState s' = Synth.effectsState s /\
  Synth.waveform s' = Synth.waveform s /\
  forall k', is_Some (Synth.activeNotes s' !! k') ->
             Some k' = k \/ is_Some (Synth.activeNotes s !! k').

Lemma addsAt_refl (k : option Z) (s : Synth.t) : addsAt k s s.
Proof. repeat split. intros k' H. right. exact H. Qed.

Lemma addsAt_trans (k : option Z) (s1 s2 s3 : Synth.t) :
  addsAt k s1 s2 -> addsAt k s2 s3 -> addsAt k s1 s3.
Proof.
  intros (A1 & A2 & A3 & A4) (B1 & B2 & B3 & B4).
  repeat split; try congruence.
  intros k' H. destruct (B4 k' H) as [Hk|H']; [left; exact Hk|].
  apply A4, H'.
Qed.

Lemma addsAt_weaken (k : option Z) (s s' : Synth.t) :
  addsAt None s s' -> addsAt k s s'.
Proof.
  intros (A1 & A2 & A3 & A4). repeat split; try assumption.
  intros k' H. destruct (A4 k' H) as [Hk|H']; [discriminate Hk|right; exact H'].
Qed.

Lemma addsAt_noteOff (k : Z) (s : Synth.t) :
  addsAt None s (Synth.noteOff k s).
Proof.
  destruct (noteOff_frame k s)
    as (_ & _ & _ & _ & N5 & _ & _ & N8 & N9 & _ & _ & N12).
  cbv zeta in *. repeat split; try assumption.
  intros k' H. right. rewrite N12 in H.
  destruct (Synth.audioContext s); [|exact H].
  destruct H as [n H]. apply lookup_delete_Some in H as [_ H]. eauto.
Qed.

Lemma addsAt_bend (k : Z) (cents : R) (s : Synth.t) :
  addsAt None s (Synth.bend k cents s).
Proof.
  unfold Synth.bend.
  destruct (_ !! _); [destruct (negb _)|]; try apply addsAt_refl.
  repeat split. intros k' H. right. exact H.
Qed.

Lemma addsAt_noteOn (k : Z) (f : R) (s : Synth.t) :
  refsOk s -> addsAt (Some k) s (Synth.noteOn k f s).
Proof.
  intros Hrefs.
  destruct (Synth.destroyed s) eqn:Hd.
  { unfold Synth.noteOn. rewrite Hd. apply addsAt_refl. }
  destruct (noteOn_frame k f s) as (F1 & _ & _ & F4 & F5 & _).
  destruct (noteOn_spec k f s Hd Hrefs) as (_ & _ & note & Hnotes & _).
  cbv zeta in *. repeat split; try assumption.
  intros k' H. rewrite Hnotes in H.
  destruct (decide (k' = k)) as [->|Hne]; [left; reflexivity|right].
  rewrite lookup_insert_ne in H by congruence. exact H.
Qed.

Lemma addsAt_toggle (c : Synth.Call) (s : Synth.t) :
  isToggle c = true ->
  Synth.destroyed (Synth.call c s) = Synth.destroyed s /\
  Synth.waveform (Synth.call c s) = Synth.waveform s /\
  Synth.activeNotes (Synth.call c s) = Synth.activeNotes s.
Proof.
  intros Hc.
  destruct (toggle_frame c s Hc) as [->|(s1 & L1 & _ & _ & L & _)];
    [repeat split|].
  apply logic_fields in L as (_ & _ & _ & A4 & _ & A6 & _ & _ & A9 & _).
  unfold logic in L1. injection L1 as B1 B2 B3 B4 B5 B6 B7 B8 B9 B10.
  repeat split; congruence.
Qed.

(** The Synth after the five toggles of [updateEffects]. *)
Definition toggleAll (effects : list string) (s : Synth.t) : Synth.t :=
  Synth.toggleReverb (BoardUtils.has effects "reverb")
    (Synth.toggleFilter (BoardUtils.has effects "filter")
       (Synth.toggleVibrato (BoardUtils.has effects "vibrato")
          (Synth.toggleDistortion (BoardUtils.has effects "distortion")
             (Synth.toggleDelay (BoardUtils.has effects "delay") s)))).

Lemma toggleAll_spec (effects : list string) (s : Synth.t) :
  Synth.effectsState (toggleAll effects s) = flagsOf effects /\
  Synth.destroyed (toggleAll effects s) = Synth.destroyed s /\
  Synth.waveform (toggleAll effects s) = Synth.waveform s /\
  Synth.activeNotes (toggleAll effects s) = Synth.activeNotes s /\
  (reach s -> reach (toggleAll effects s)) /\
  forall id, sounding (Synth.engine (toggleAll effects s)) id <->
             sounding (Synth.engine s) id.
Proof.
  unfold toggleAll.
  set (c1 := Synth.ToggleDelay (BoardUtils.has effects "delay")).
  set (c2 := Synth.ToggleDistortion (BoardUtils.has effects "distortion")).
  set (c3 := Synth.ToggleVibrato (BoardUtils.has effects "vibrato")).
  set (c4 := Synth.ToggleFilter (BoardUtils.has effects "filter")).
  set (c5 := Synth.ToggleReverb (BoardUtils.has effects "reverb")).
  change (Synth.toggleReverb _ _)
    with (Synth.call c5 (Synth.call c4 (Synth.call c3
            (Synth.call c2 (Synth.call c1 s))))).
  set (s1 := Synth.call c1 s). set (s2 := Synth.call c2 s1).
  set (s3 := Synth.call c3 s2). set (s4 := Synth.call c4 s3).
  pose proof (toggle_effectsState c1 s eq_refl) as E1.
  pose proof (toggle_effectsState c2 s1 eq_refl) as E2.
  pose proof (toggle_effectsState c3 s2 eq_refl) as E3.
  pose proof (toggle_effectsState c4 s3 eq_refl) as E4.
  pose proof (toggle_effectsState c5 s4 eq_refl) as E5.
  destruct (addsAt_toggle c1 s eq_refl) as (D1 & W1 & N1).
  destruct (addsAt_toggle c2 s1 eq_refl) as (D2 & W2 & N2).
  destruct (addsAt_toggle c3 s2 eq_refl) as (D3 & W3 & N3).
  destruct (addsAt_toggle c4 s3 eq_refl) as (D4 & W4 & N4).
  destruct (addsAt_toggle c5 s4 eq_refl) as (D5 & W5 & N5).
  destruct sameVoices_machinery as (_ & _ & _ & Hv).
  pose proof (fun id => sameVoices_sounding _ _ id (Hv s c1 eq_refl)) as V1.
  pose proof (fun id => sameVoices_sounding _ _ id (Hv s1 c2 eq_refl)) as V2.
  pose proof (fun id => sameVoices_sounding _ _ id (Hv s2 c3 eq_refl)) as V3.
  pose proof (fun id => sameVoices_sounding _ _ id (Hv s3 c4 eq_refl)) as V4.
  pose proof (fun id => sameVoices_sounding _ _ id (Hv s4 c5 eq_refl)) as V5.
  fold s1 in D1, W1, N1, E1, V1. fold s2 in D2, W2, N2, E2, V2.
  fold s3 in D3, W3, N3, E3, V3. fold s4 in D4, W4, N4, E4, V4.
  split.
  { rewrite E5, E4, E3, E2, E1. unfold c1, c2, c3, c4, c5, flagsOf.
    destruct (Synth.effectsState s); reflexivity. }
  split; [congruence|]. split; [congruence|]. split; [congruence|].
  split.
  { intros H. do 5 apply reach_call. exact H. }
  intros id. rewrite V5, V4, V3, V2, V1. reflexivity.
Qed.

Lemma updateEffects_toggleAll (b : NoodlerBoard.t) :
  NoodlerBoard.updateEffects b =
  match NoodlerBoard.synth b with
  | None => b
  | Some s =>
      NoodlerBoard.withSynth
        (fun _ =>
           Some (toggleAll
                   (BoardUtils.parseEffectsAttribute
                      (NoodlerBoard.getAttribute "effects" b)) s)) b
  end.
Proof. reflexivity. Qed.

(** What the board keeps true of its Synth: the Synth is reached by calls
    and is not destroyed, and every note of its voice table is under the
    identity of a pointer that is down. *)
Definition driven (b : NoodlerBoard.t) : Prop :=
  forall s, NoodlerBoard.synth b = Some s ->
    reach s /\ Synth.destroyed s = false /\
    forall k, is_Some (Synth.activeNotes s !! k) ->
              is_Some (NoodlerBoard.activePointers b !! k).

(** The flags and the waveform of the Synth are those of the attributes. *)
Definition mirrors (b : NoodlerBoard.t) : Prop :=
  forall s, NoodlerBoard.synth b = Some s ->
    Synth.effectsState s =
      flagsOf (BoardUtils.parseEffectsAttribute
                 (NoodlerBoard.getAttribute "effects" b)) /\
    Synth.waveform s =
      BoardUtils.validateWaveform (NoodlerBoard.getAttribute "waveform" b).

Definition boardOk (b : NoodlerBoard.t) : Prop := driven b /\ mirrors b.

Lemma reach_refsOk (s : Synth.t) : reach s -> refsOk s /\ voicesOk s.
Proof.
  intros (config & cs & ->).
  split; [apply refsOk_reachable|apply voicesOk_reachable].
Qed.

(** A step of the board that replaces the Synth [s] by [s'] and may put
    the pointer [k] down. *)
Lemma boardOk_synth (k : option Z) (b : NoodlerBoard.t) (s s' : Synth.t)
  (pointers : gmap Z NoodlerBoard.PointerState) :
  boardOk b -> NoodlerBoard.synth b = Some s ->
  (reach s -> reach s') -> addsAt k s s' ->
  (forall k', is_Some (NoodlerBoard.activePointers b !! k') ->
              is_Some (pointers !! k')) ->
  (forall k', Some k' = k -> is_Some (pointers !! k')) ->
  boardOk
    (NoodlerBoard.withActivePointers (fun _ => pointers)
       (NoodlerBoard.withSynth (fun _ => Some s') b)).
Proof.
  intros [Hd Hm] Hs Hreach (A1 & A2 & A3 & A4) Hsub Hk.
  destruct (Hd s Hs) as (R1 & R2 & R3). destruct (Hm s Hs) as (M1 & M2).
  split; intros s0 [= <-].
  - split; [apply Hreach, R1|]. split; [congruence|].
    intros k' H. destruct (A4 k' H) as [Hk'|H']; [apply Hk, Hk'|].
    apply Hsub, R3, H'.
  - split; [rewrite A2; exact M1|rewrite A3; exact M2].
Qed.

Lemma withActivePointers_same (b : NoodlerBoard.t) :
  NoodlerBoard.withActivePointers (fun _ => NoodlerBoard.activePointers b) b
  = b.
Proof. destruct b. reflexivity. Qed.

Lemma boardOk_synth_only (b : NoodlerBoard.t) (s s' : Synth.t) :
  boardOk b -> NoodlerBoard.synth b = Some s ->
  (reach s -> reach s') -> addsAt None s s' ->
  boardOk (NoodlerBoard.withSynth (fun _ => Some s') b).
Proof.
  intros Hok Hs Hreach Hadds.
  pose proof (boardOk_synth None b s s' (NoodlerBoard.activePointers b)
                Hok Hs Hreach Hadds (fun _ H => H)) as H.
  assert (Heq : NoodlerBoard.withActivePointers
                  (fun _ => NoodlerBoard.activePointers b)
                  (NoodlerBoard.withSynth (fun _ => Some s') b) =
                NoodlerBoard.withSynth (fun _ => Some s') b)
    by (destruct b; reflexivity).
  rewrite Heq in H. apply H. intros k' Hk. discriminate Hk.
Qed.

Lemma boardOk_handlePointerDown (id : Z) (x y : R)
  (rect : NoodlerBoard.Rect) (b : NoodlerBoard.t) :
  boardOk b -> boardOk (NoodlerBoard.handlePointerDown id x y rect b).
Proof.
  intros Hok. unfold NoodlerBoard.handlePointerDown. cbv zeta.
  destruct (NoodlerBoard.arrayGet _ _) as [note|]; [|exact Hok].
  destruct (NoodlerBoard.synth b) as [s|] eqn:Hs; [|exact Hok].
  destruct (proj1 Hok s Hs) as (Hreach & _).
  match goal with
  | |- boardOk (NoodlerBoard.withSynth ?f
                  (NoodlerBoard.withActivePointers (insert id ?st) b)) =>
      change (boardOk
                (NoodlerBoard.withActivePointers
                   (fun _ => <[id := st]> (NoodlerBoard.activePointers b))
                   (NoodlerBoard.withSynth f b)))
  end.
  apply (boardOk_synth (Some id) b s); try assumption.
  - intros H. apply (reach_call (Synth.NoteOn id _)), H.
  - apply addsAt_noteOn, (reach_refsOk s Hreach).
  - intros k' H. destruct (decide (k' = id)) as [->|Hne].
    + rewrite lookup_insert_eq. eauto.
    + rewrite lookup_insert_ne by congruence. exact H.
  - intros k' [= ->]. rewrite lookup_insert_eq. eauto.
Qed.

Lemma boardOk_handlePointerMove (id : Z) (x y : R)
  (rect : NoodlerBoard.Rect) (b : NoodlerBoard.t) :
  boardOk b -> boardOk (NoodlerBoard.handlePointerMove id x y rect b).
Proof.
  intros Hok. unfold NoodlerBoard.handlePointerMove.
  destruct (NoodlerBoard.activePointers b !! id) as [state|] eqn:Hstate;
    [|exact Hok].
  destruct (NoodlerBoard.synth b) as [s|] eqn:Hs; [|exact Hok].
  destruct (proj1 Hok s Hs) as (Hreach & _).
  cbv zeta. destruct Req_dec_T.
  - apply (boardOk_synth_only b s); try assumption.
    + intros H. apply (reach_call (Synth.Bend id _)), H.
    + apply addsAt_bend.
  - set (s1 := match NoodlerBoard.arrayGet (NoodlerBoard.notes b)
                       (NoodlerBoard.noteIndex state) with
               | Some _ => Synth.noteOff id s
               | None => s
               end).
    assert (H1 : (reach s -> reach s1) /\ addsAt None s s1).
    { unfold s1. destruct (NoodlerBoard.arrayGet _ (NoodlerBoard.noteIndex _)).
      - split; [intros H; apply (reach_call (Synth.NoteOff id)), H|].
        apply addsAt_noteOff.
      - split; [tauto|apply addsAt_refl]. }
    destruct H1 as [Hr1 Ha1]. clearbody s1.
    destruct (NoodlerBoard.arrayGet _ _) as [note|].
    + match goal with
      | |- boardOk (NoodlerBoard.withActivePointers (insert id ?st)
                      (NoodlerBoard.withSynth ?f b)) =>
          change (boardOk
                    (NoodlerBoard.withActivePointers
                       (fun _ => <[id := st]> (NoodlerBoard.activePointers b))
                       (NoodlerBoard.withSynth f b)))
      end.
      apply (boardOk_synth (Some id) b s); try assumption.
      * intros H. apply (reach_call (Synth.NoteOn id _)), Hr1, H.
      * eapply addsAt_trans; [apply addsAt_weaken, Ha1|].
        apply addsAt_noteOn, (reach_refsOk s1 (Hr1 Hreach)).
      * intros k' H. destruct (decide (k' = id)) as [->|Hne].
        -- rewrite lookup_insert_eq. eauto.
        -- rewrite lookup_insert_ne by congruence. exact H.
      * intros k' [= ->]. rewrite lookup_insert_eq. eauto.
    + apply (boardOk_synth_only b s); assumption.
Qed.

Lemma noteOff_removes (k : Z) (s : Synth.t) :
  reach s -> Synth.activeNotes (Synth.noteOff k s) !! k = None.
Proof.
  intros Hreach. destruct (reach_refsOk s Hreach) as [_ (_ & _ & _ & Hidle)].
  destruct (noteOff_frame k s)
    as (_ & _ & _ & _ & _ & _ & _ & _ & _ & _ & _ & N12).
  cbv zeta in N12. rewrite N12.
  destruct (Synth.audioContext s); [apply lookup_delete_eq|].
  rewrite (Hidle eq_refl). apply lookup_empty.
Qed.

Lemma boardOk_endNote (id : Z) (b : NoodlerBoard.t) :
  boardOk b -> boardOk (NoodlerBoard.endNote id b).
Proof.
  intros Hok. unfold NoodlerBoard.endNote.
  destruct (NoodlerBoard.activePointers b !! id) as [state|] eqn:Hstate;
    [|exact Hok].
  destruct (NoodlerBoard.synth b) as [s|] eqn:Hs.
  - destruct Hok as [Hd Hm]. destruct (Hd s Hs) as (R1 & R2 & R3).
    destruct (Hm s Hs) as (M1 & M2).
    destruct (addsAt_noteOff id s) as (A1 & A2 & A3 & A4).
    split; intros s0 [= <-].
    + split; [apply (reach_call (Synth.NoteOff id)), R1|].
      split; [congruence|].
      intros k H. cbn [NoodlerBoard.activePointers
        NoodlerBoard.withActivePointers NoodlerBoard.withSynth].
      destruct (decide (k = id)) as [->|Hne].
      * rewrite (noteOff_removes id s R1) in H. destruct H; discriminate.
      * rewrite lookup_delete_ne by congruence.
        destruct (A4 k H) as [Hk|H']; [discriminate Hk|apply R3, H'].
    + split; [rewrite A2; exact M1|rewrite A3; exact M2].
  - split; intros s0 H; cbn in H; congruence.
Qed.

Lemma endNote_pointers (id : Z) (b : NoodlerBoard.t) :
  NoodlerBoard.activePointers (NoodlerBoard.endNote id b) =
  delete id (NoodlerBoard.activePointers b).
Proof.
  unfold NoodlerBoard.endNote.
  destruct (NoodlerBoard.activePointers b !! id) eqn:H.
  - destruct (NoodlerBoard.synth b); reflexivity.
  - symmetry. apply delete_id, H.
Qed.

Lemma boardOk_endNotes (ids : list Z) (b : NoodlerBoard.t) :
  boardOk b ->
  boardOk (fold_left (fun b id => NoodlerBoard.endNote id b) ids b) /\
  forall k,
    NoodlerBoard.activePointers
      (fold_left (fun b id => NoodlerBoard.endNote id b) ids b) !! k =
    if decide (k ∈ ids) then None else NoodlerBoard.activePointers b !! k.
Proof.
  revert b. induction ids as [|id ids IH]; intros b Hok; simpl.
  - split; [exact Hok|]. intros k.
    destruct (decide (k ∈ [])) as [Hin|_]; [inversion Hin|reflexivity].
  - destruct (IH _ (boardOk_endNote id b Hok)) as [H1 H2].
    split; [exact H1|]. intros k. rewrite H2, endNote_pointers.
    destruct (decide (k ∈ ids)) as [Hin|Hnin];
      destruct (decide (k ∈ id :: ids)) as [Hin'|Hnin']; try reflexivity.
    + exfalso. apply Hnin'. right. exact Hin.
    + apply elem_of_cons in Hin' as [->|Hin']; [|contradiction].
      apply lookup_delete_eq.
    + apply lookup_delete_ne. intros ->. apply Hnin'. left.
Qed.

Lemma stopAll_spec (b : NoodlerBoard.t) :
  boardOk b ->
  boardOk (NoodlerBoard.stopAll b) /\
  NoodlerBoard.activePointers (NoodlerBoard.stopAll b) = ∅.
Proof.
  intros Hok. unfold NoodlerBoard.stopAll.
  destruct (boardOk_endNotes
              (map fst (map_to_list (NoodlerBoard.activePointers b))) b Hok)
    as [H1 H2].
  split; [exact H1|]. apply map_eq. intros k. rewrite H2, lookup_empty.
  destruct (decide _) as [|Hnin]; [reflexivity|].
  destruct (NoodlerBoard.activePointers b !! k) as [st|] eqn:Hk; [|reflexivity].
  exfalso. apply Hnin. apply list_elem_of_fmap.
  exists (k, st). split; [reflexivity|]. apply elem_of_map_to_list. exact Hk.
Qed.

(** The fields of the board the properties of its Synth read. *)
Lemma boardOk_same (b b' : NoodlerBoard.t) :
  NoodlerBoard.synth b' = NoodlerBoard.synth b ->
  NoodlerBoard.activePointers b' = NoodlerBoard.activePointers b ->
  NoodlerBoard.getAttribute "effects" b' =
    NoodlerBoard.getAttribute "effects" b ->
  NoodlerBoard.getAttribute "waveform" b' =
    NoodlerBoard.getAttribute "waveform" b ->
  boardOk b -> boardOk b'.
Proof.
  intros E1 E2 E3 E4 [Hd Hm]. unfold boardOk, driven, mirrors.
  rewrite E1, E2, E3, E4. split; assumption.
Qed.

Lemma buildKeys_frame (b : NoodlerBoard.t) :
  let b' := stateOf (NoodlerBoard.buildKeys b) in
  NoodlerBoard.synth b' = NoodlerBoard.synth b /\
  NoodlerBoard.activePointers b' = NoodlerBoard.activePointers b /\
  NoodlerBoard.attributes b' = NoodlerBoard.attributes b /\
  NoodlerBoard.listening b' = NoodlerBoard.listening b.
Proof.
  cbv zeta. unfold NoodlerBoard.buildKeys. cbv zeta.
  match goal with
  | |- context [match ?g with Ok _ => _ | Throw _ => _ end] => destruct g
  end; repeat split.
Qed.

Lemma boardOk_buildKeys (b : NoodlerBoard.t) :
  boardOk b -> boardOk (stateOf (NoodlerBoard.buildKeys b)).
Proof.
  destruct (buildKeys_frame b) as (E1 & E2 & E3 & _). cbv zeta in *.
  apply boardOk_same; try assumption;
    unfold NoodlerBoard.getAttribute; rewrite E3; reflexivity.
Qed.

Lemma driven_updateEffects (b : NoodlerBoard.t) :
  driven b -> driven (NoodlerBoard.updateEffects b).
Proof.
  intros Hd. rewrite updateEffects_toggleAll.
  destruct (NoodlerBoard.synth b) as [s|] eqn:Hs; [|exact Hd].
  destruct (Hd s Hs) as (R1 & R2 & R3).
  destruct (toggleAll_spec
              (BoardUtils.parseEffectsAttribute
                 (NoodlerBoard.getAttribute "effects" b)) s)
    as (_ & T2 & _ & T4 & T5 & _).
  intros s0 [= <-]. split; [apply T5, R1|]. split; [congruence|].
  rewrite T4. exact R3.
Qed.

Lemma boardOk_updateEffects (b : NoodlerBoard.t) :
  driven b ->
  (forall s, NoodlerBoard.synth b = Some s ->
     Synth.waveform s =
       BoardUtils.validateWaveform (NoodlerBoard.getAttribute "waveform" b)) ->
  boardOk (NoodlerBoard.updateEffects b).
Proof.
  intros Hd Hw. split; [apply driven_updateEffects, Hd|].
  rewrite updateEffects_toggleAll.
  destruct (NoodlerBoard.synth b) as [s|] eqn:Hs; [|intros s0 H; congruence].
  destruct (toggleAll_spec
              (BoardUtils.parseEffectsAttribute
                 (NoodlerBoard.getAttribute "effects" b)) s)
    as (T1 & _ & T3 & _).
  intros s0 [= <-]. split; [exact T1|]. rewrite T3. apply Hw. reflexivity.
Qed.

Lemma boardOk_updateWaveform (b : NoodlerBoard.t) :
  driven b ->
  (forall s, NoodlerBoard.synth b = Some s ->
     Synth.effectsState s =
       flagsOf (BoardUtils.parseEffectsAttribute
                  (NoodlerBoard.getAttribute "effects" b))) ->
  boardOk (NoodlerBoard.updateWaveform b).
Proof.
  intros Hd He. unfold NoodlerBoard.updateWaveform.
  destruct (NoodlerBoard.synth b) as [s|] eqn:Hs.
  - destruct (Hd s Hs) as (R1 & R2 & R3).
    split; intros s0 [= <-].
    + split; [apply (reach_call (Synth.SetWaveform _)), R1|].
      split; [exact R2|exact R3].
    + split; [exact (He s eq_refl)|reflexivity].
  - split; intros s0 H; congruence.
Qed.

Lemma boardOk_initializeSynth (b : NoodlerBoard.t) :
  boardOk (NoodlerBoard.initializeSynth b).
Proof.
  unfold NoodlerBoard.initializeSynth. cbv zeta.
  apply boardOk_updateEffects.
  - intros s [= <-]. split; [eexists _, []; reflexivity|].
    split; [reflexivity|]. intros k [n H].
    cbn in H. rewrite lookup_empty in H. discriminate.
  - intros s [= <-]. reflexivity.
Qed.

Lemma boardOk_connectedCallback (b : NoodlerBoard.t) :
  boardOk (stateOf (NoodlerBoard.connectedCallback b)).
Proof.
  unfold NoodlerBoard.connectedCallback. cbv zeta.
  match goal with
  | |- context [NoodlerBoard.buildKeys ?b1] =>
      pose proof (boardOk_buildKeys b1 (boardOk_initializeSynth _)) as Hb;
      destruct (NoodlerBoard.buildKeys b1) as [b'|b' m]; [|exact Hb]
  end.
  simpl in *. revert Hb. apply boardOk_same; reflexivity.
Qed.

Lemma boardOk_disconnectedCallback (b : NoodlerBoard.t) :
  boardOk (NoodlerBoard.disconnectedCallback b).
Proof.
  unfold NoodlerBoard.disconnectedCallback, NoodlerBoard.destroySynth.
  cbn [NoodlerBoard.synth NoodlerBoard.withListening].
  destruct (NoodlerBoard.synth b) eqn:Hs; split; intros s0 H; cbn in H;
    congruence.
Qed.

Lemma boardOk_attributeChanged (name : string) (old new : option string)
  (b0 b : NoodlerBoard.t) :
  NoodlerBoard.synth b = NoodlerBoard.synth b0 ->
  NoodlerBoard.activePointers b = NoodlerBoard.activePointers b0 ->
  (name <> "effects" \/ old = new ->
   NoodlerBoard.getAttribute "effects" b =
     NoodlerBoard.getAttribute "effects" b0) ->
  (name <> "waveform" \/ old = new ->
   NoodlerBoard.getAttribute "waveform" b =
     NoodlerBoard.getAttribute "waveform" b0) ->
  boardOk b0 ->
  boardOk (stateOf (NoodlerBoard.attributeChangedCallback name old new b)).
Proof.
  intros E1 E2 E3 E4 Hok. unfold NoodlerBoard.attributeChangedCallback.
  destruct (decide (old = new)) as [Heq|Hne].
  { simpl. revert Hok.
    apply boardOk_same; [exact E1|exact E2|apply E3|apply E4]; right;
      exact Heq. }
  assert (Hd : driven b).
  { destruct Hok as [Hd _]. unfold driven. rewrite E1, E2. exact Hd. }
  destruct (String.eqb_spec name "scale") as [->|N1].
  { cbn [orb]. apply boardOk_buildKeys. revert Hok.
    apply boardOk_same; [exact E1|exact E2|apply E3|apply E4];
      left; discriminate. }
  destruct (String.eqb_spec name "notes") as [->|N2].
  { cbn [orb]. apply boardOk_buildKeys. revert Hok.
    apply boardOk_same; [exact E1|exact E2|apply E3|apply E4];
      left; discriminate. }
  cbn [orb].
  destruct (String.eqb_spec name "waveform") as [->|N3].
  { simpl. apply boardOk_updateWaveform; [exact Hd|].
    intros s Hs. rewrite E3 by (left; discriminate).
    rewrite E1 in Hs. apply (proj2 Hok s Hs). }
  destruct (String.eqb_spec name "effects") as [->|N4].
  { simpl. apply boardOk_updateEffects; [exact Hd|].
    intros s Hs. rewrite E4 by (left; discriminate).
    rewrite E1 in Hs. apply (proj2 Hok s Hs). }
  simpl. revert Hok.
  apply boardOk_same; [exact E1|exact E2|apply E3|apply E4]; left; assumption.
Qed.

Lemma has_observed (name : string) :
  BoardUtils.has NoodlerBoard.observedAttributes name = false ->
  name <> "effects" /\ name <> "waveform".
Proof.
  intros H. split; intros ->; discriminate H.
Qed.

Lemma boardOk_setAttribute (name value : string) (b : NoodlerBoard.t) :
  boardOk b -> boardOk (stateOf (NoodlerBoard.setAttribute name value b)).
Proof.
  intros Hok. unfold NoodlerBoard.setAttribute. cbv zeta.
  assert (Hattr : forall x,
            name <> x \/ NoodlerBoard.getAttribute name b = Some value ->
            NoodlerBoard.getAttribute x
              (NoodlerBoard.withAttributes (insert name value) b) =
            NoodlerBoard.getAttribute x b).
  { intros x Hx. unfold NoodlerBoard.getAttribute in *.
    cbn [NoodlerBoard.attributes NoodlerBoard.withAttributes].
    destruct (decide (name = x)) as [->|Hne].
    - destruct Hx as [Hx|Hx]; [contradiction|].
      rewrite lookup_insert_eq. symmetry. exact Hx.
    - apply lookup_insert_ne. exact Hne. }
  destruct (BoardUtils.has NoodlerBoard.observedAttributes name) eqn:Hobs.
  - apply (boardOk_attributeChanged name _ _ b); try reflexivity;
      try exact Hok; intros [H|H]; apply Hattr; auto.
  - destruct (has_observed name Hobs) as [N1 N2]. simpl.
    revert Hok. apply boardOk_same; try reflexivity; apply Hattr; auto.
Qed.

Lemma boardOk_removeAttribute (name : string) (b : NoodlerBoard.t) :
  boardOk b -> boardOk (stateOf (NoodlerBoard.removeAttribute name b)).
Proof.
  intros Hok. unfold NoodlerBoard.removeAttribute. cbv zeta.
  assert (Hattr : forall x,
            name <> x \/ NoodlerBoard.getAttribute name b = None ->
            NoodlerBoard.getAttribute x
              (NoodlerBoard.withAttributes (delete name) b) =
            NoodlerBoard.getAttribute x b).
  { intros x Hx. unfold NoodlerBoard.getAttribute in *.
    cbn [NoodlerBoard.attributes NoodlerBoard.withAttributes].
    destruct (decide (name = x)) as [->|Hne].
    - destruct Hx as [Hx|Hx]; [contradiction|].
      rewrite lookup_delete_eq. symmetry. exact Hx.
    - apply lookup_delete_ne. exact Hne. }
  destruct (BoardUtils.has NoodlerBoard.observedAttributes name) eqn:Hobs.
  - apply (boardOk_attributeChanged name _ _ b); try reflexivity;
      try exact Hok; intros [H|H]; apply Hattr; auto.
  - destruct (has_observed name Hobs) as [N1 N2]. simpl.
    revert Hok. apply boardOk_same; try reflexivity; apply Hattr; auto.
Qed.

Lemma boardOk_step (ev : NoodlerBoard.Event) (b : NoodlerBoard.t) :
  boardOk b -> boardOk (stateOf (NoodlerBoard.step ev b)).
Proof.
  intros Hok. destruct ev; simpl.
  - apply boardOk_connectedCallback.
  - apply boardOk_disconnectedCallback.
  - apply boardOk_setAttribute, Hok.
  - apply boardOk_removeAttribute, Hok.
  - destruct (NoodlerBoard.listening b);
      [apply boardOk_handlePointerDown|]; exact Hok.
  - destruct (NoodlerBoard.listening b);
      [apply boardOk_handlePointerMove|]; exact Hok.
  - destruct (NoodlerBoard.listening b); [apply boardOk_endNote|]; exact Hok.
  - destruct (NoodlerBoard.listening b); [apply boardOk_endNote|]; exact Hok.
  - apply stopAll_spec, Hok.
Qed.

Lemma boardOk_run (evs : list NoodlerBoard.Event) :
  boardOk (NoodlerBoard.run evs NoodlerBoard.new).
Proof.
  unfold NoodlerBoard.run.
  assert (H0 : boardOk NoodlerBoard.new)
    by (split; intros s H; discriminate H).
  revert H0. generalize NoodlerBoard.new.
  induction evs as [|ev evs IH]; intros b Hb; [exact Hb|].
  simpl. apply IH, boardOk_step, Hb.
Qed.

(** X27.  The Synth of the board follows the attributes.  In every state
    the element reaches by being connected and disconnected, by changes of
    its attributes and by pointer events, its Synth, when it has one, is
    not destroyed, the effects switched on are those the [effects]
    attribute names, and the waveform is the one of the [waveform]
    attribute (sine without a valid one). *)
Theorem X27_board_follows_attributes (evs : list NoodlerBoard.Event)
  (s : Synth.t) :
  let b := NoodlerBoard.run evs NoodlerBoard.new in
  let effects :=
    BoardUtils.parseEffectsAttribute (NoodlerBoard.getAttribute "effects" b) in
  NoodlerBoard.getSynth b = Some s ->
  Synth.isDestroyed s = false /\
  Synth.getActiveEffects s =
    {| EffectsState.delay := BoardUtils.has effects "delay";
       EffectsState.distortion := BoardUtils.has effects "distortion";
       EffectsState.vibrato := BoardUtils.has effects "vibrato";
       EffectsState.filter := BoardUtils.has effects "filter";
       EffectsState.reverb := BoardUtils.has effects "reverb" |} /\
  Synth.getWaveform s =
    BoardUtils.validateWaveform (NoodlerBoard.getAttribute "waveform" b).
Proof.
  cbv zeta. intros Hs.
  destruct (boardOk_run evs) as [Hd Hm].
  destruct (Hd s Hs) as (_ & R2 & _). destruct (Hm s Hs) as (M1 & M2).
  split; [exact R2|]. split; [exact M1|exact M2].
Qed.

Lemma connected_synth (evs : list NoodlerBoard.Event) :
  is_Some
    (NoodlerBoard.getSynth
       (NoodlerBoard.run (evs ++ [NoodlerBoard.Connected]) NoodlerBoard.new)).
Proof.
  unfold NoodlerBoard.run. rewrite fold_left_app. simpl.
  generalize (fold_left (fun b ev => stateOf (NoodlerBoard.step ev b)) evs
                NoodlerBoard.new).
  intros b. unfold NoodlerBoard.connectedCallback. cbv zeta.
  match goal with
  | |- context [NoodlerBoard.buildKeys ?b1] =>
      destruct (buildKeys_frame b1) as (E & _);
      destruct (NoodlerBoard.buildKeys b1) as [b'|b' m]
  end; cbv zeta in E; simpl in *; unfold NoodlerBoard.getSynth; rewrite E;
    eauto.
Qed.

(** X27 on an element given the attributes [effects] and [waveform] and
    then connected. *)
Lemma X27_board_follows_attributes_witness :
  let b :=
    NoodlerBoard.run
      ([NoodlerBoard.SetAttribute "effects" "Delay, reverb";
        NoodlerBoard.SetAttribute "waveform" "square"]
         ++ [NoodlerBoard.Connected]) NoodlerBoard.new in
  exists s,
    NoodlerBoard.getSynth b = Some s /\
    Synth.isDestroyed s = false /\
    Synth.getActiveEffects s =
      {| EffectsState.delay := true; EffectsState.distortion := false;
         EffectsState.vibrato := false; EffectsState.filter := false;
         EffectsState.reverb := true |} /\
    Synth.getWaveform s = AudioTypes.square.
Proof.
  cbv zeta.
  destruct (connected_synth
              [NoodlerBoard.SetAttribute "effects" "Delay, reverb";
               NoodlerBoard.SetAttribute "waveform" "square"]) as [s Hs].
  exists s. split; [exact Hs|].
  destruct (X27_board_follows_attributes _ s Hs) as (H1 & H2 & H3).
  split; [exact H1|]. split; [exact H2|exact H3].
Defined.

Lemma driven_size (b : NoodlerBoard.t) (s : Synth.t) :
  driven b -> NoodlerBoard.synth b = Some s ->
  (size (Synth.activeNotes s) <= size (NoodlerBoard.activePointers b))%nat.
Proof.
  intros Hd Hs. destruct (Hd s Hs) as (_ & _ & R3).
  rewrite <- !size_dom. apply subseteq_size.
  intros k Hk. apply elem_of_dom. apply R3. apply elem_of_dom. exact Hk.
Qed.

(** X28.  The notes of the board's Synth are held by pointers.  In every
    state the element reaches, a key of the Synth's voice table is the
    identity of a pointer that is down: a pointer that is not down holds no
    note, every oscillator that sounds belongs to the note of a pointer
    that is down, there are no more notes than pointers down, and with no
    pointer down nothing sounds.  After [stopAll()] no pointer is down, so
    nothing sounds; after a pointer goes up or is cancelled, it is not down
    and holds no note. *)
Theorem X28_board_notes_follow_pointers (evs : list NoodlerBoard.Event) :
  let b := NoodlerBoard.run evs NoodlerBoard.new in
  (forall s, NoodlerBoard.getSynth b = Some s ->
     (forall k, NoodlerBoard.activePointers b !! k = None ->
                Synth.activeNotes s !! k = None) /\
     (forall id, sounding (Synth.engine s) id ->
        exists k state note,
          NoodlerBoard.activePointers b !! k = Some state /\
          Synth.activeNotes s !! k = Some note /\
          AudioTypes.oscillator note = id) /\
     (Synth.getActiveNoteCount s <= size (NoodlerBoard.activePointers b))%nat /\
     (NoodlerBoard.activePointers b = ∅ ->
      Synth.getActiveNoteCount s = 0%nat /\
      forall id, ~ sounding (Synth.engine s) id)) /\
  (let b' := stateOf (NoodlerBoard.step NoodlerBoard.StopAll b) in
   NoodlerBoard.activePointers b' = ∅ /\
   forall s', NoodlerBoard.getSynth b' = Some s' ->
     Synth.getActiveNoteCount s' = 0%nat /\
     forall id, ~ sounding (Synth.engine s') id) /\
  (forall k ev,
     ev = NoodlerBoard.PointerUp k \/ ev = NoodlerBoard.PointerCancel k ->
     NoodlerBoard.listening b = true ->
     let b' := stateOf (NoodlerBoard.step ev b) in
     NoodlerBoard.activePointers b' = delete k (NoodlerBoard.activePointers b)
     /\
     forall s', NoodlerBoard.getSynth b' = Some s' ->
                Synth.activeNotes s' !! k = None).
Proof.
  cbv zeta.
  assert (Hgen : forall b s,
            boardOk b -> NoodlerBoard.synth b = Some s ->
            (forall k, NoodlerBoard.activePointers b !! k = None ->
                       Synth.activeNotes s !! k = None) /\
            (forall id, sounding (Synth.engine s) id ->
               exists k state note,
                 NoodlerBoard.activePointers b !! k = Some state /\
                 Synth.activeNotes s !! k = Some note /\
                 AudioTypes.oscillator note = id) /\
            (Synth.getActiveNoteCount s
             <= size (NoodlerBoard.activePointers b))%nat /\
            (NoodlerBoard.activePointers b = ∅ ->
             Synth.getActiveNoteCount s = 0%nat /\
             forall id, ~ sounding (Synth.engine s) id)).
  { intros b s [Hd _] Hs. destruct (Hd s Hs) as (R1 & _ & R3).
    destruct (reach_refsOk s R1) as [_ Hv].
    assert (Hnone : forall k, NoodlerBoard.activePointers b !! k = None ->
                              Synth.activeNotes s !! k = None).
    { intros k Hk. destruct (Synth.activeNotes s !! k) as [n|] eqn:Hn;
        [|reflexivity].
      destruct (R3 k) as [st Hst]; [rewrite Hn; eauto|]. congruence. }
    split; [exact Hnone|]. split; [|split].
    - intros id Hid. destruct Hv as (V1 & _).
      apply V1 in Hid as (k & note & Hk & Ho).
      destruct (R3 k) as [st Hst]; [rewrite Hk; eauto|].
      exists k, st, note. auto.
    - apply (driven_size b s Hd Hs).
    - intros He. apply (silent s Hv). apply map_eq. intros k.
      rewrite lookup_empty. apply Hnone. rewrite He. apply lookup_empty. }
  pose proof (boardOk_run evs) as Hok.
  set (b := NoodlerBoard.run evs NoodlerBoard.new) in *. clearbody b.
  split; [intros s Hs; apply (Hgen b s Hok Hs)|]. split.
  - simpl. destruct (stopAll_spec b Hok) as [Hok' He].
    split; [exact He|]. intros s' Hs'.
    apply (Hgen _ s' Hok' Hs'). exact He.
  - intros k ev Hev Hl.
    assert (Hstep : stateOf (NoodlerBoard.step ev b) = NoodlerBoard.endNote k b)
      by (destruct Hev as [-> | ->]; simpl; rewrite Hl; reflexivity).
    rewrite Hstep. split; [apply endNote_pointers|].
    intros s' Hs'.
    apply (Hgen _ s' (boardOk_endNote k b Hok) Hs').
    rewrite endNote_pointers. apply lookup_delete_eq.
Qed.

(** X28 on an element that is connected and then touched by the pointer
    7. *)
Lemma X28_board_notes_follow_pointers_witness :
  let b :=
    NoodlerBoard.run
      ([NoodlerBoard.Connected;
        NoodlerBoard.PointerDown 7 10 20
          {| NoodlerBoard.top := 0; NoodlerBoard.left := 0;
             NoodlerBoard.width := 300; NoodlerBoard.height := 500 |};
        NoodlerBoard.Disconnected] ++ [NoodlerBoard.Connected])
      NoodlerBoard.new in
  exists s,
    NoodlerBoard.getSynth b = Some s /\
    (Synth.getActiveNoteCount s <= size (NoodlerBoard.activePointers b))%nat.
Proof.
  cbv zeta.
  match goal with
  | |- context [NoodlerBoard.run (?evs ++ _)] =>
      destruct (connected_synth evs) as [s Hs]
  end.
  exists s. split; [exact Hs|].
  match goal with
  | |- context [NoodlerBoard.run ?evs] =>
      destruct (X28_board_notes_follow_pointers evs) as (H & _)
  end.
  destruct (H s Hs) as (_ & _ & H3 & _). exact H3.
Defined.

(** ** The keys of the board *)

Lemma generateScale_octave4 (rootNote : Scale.NoteName)
  (scaleType : Generator.ScaleType) :
  exists scale,
    Generator.generateScale
      {| Generator.cfg_root := rootNote; Generator.cfg_type := scaleType;
         Generator.cfg_octave := Some 4%Z |} = Some scale /\
    length (Generator.notes scale) =
      length (Generator.SCALE_INTERVALS scaleType) /\
    Generator.notes scale !! 0%nat =
      Some {| Generator.name := (Scale.noteNameString rootNote ++ "4")%string;
              Generator.frequency := Scale.noteToFrequency rootNote 4;
              Generator.index := 0 |}.
Proof.
  destruct rootNote, scaleType; eexists; (split; [reflexivity|]);
    split; reflexivity.
Qed.

Lemma arraySliceTo_take {A} (l : list A) (finish : Z) :
  (0 <= finish)%Z ->
  NoodlerBoard.arraySliceTo l finish = take (Z.to_nat finish) l.
Proof.
  intros H. unfold NoodlerBoard.arraySliceTo.
  destruct (Z.ltb_spec finish 0); [lia|reflexivity].
Qed.

Lemma validateNotesCount_range (notesStr : option string)
  (defaultCount : Z) :
  (1 <= defaultCount)%Z ->
  (1 <= BoardUtils.validateNotesCount notesStr defaultCount)%Z.
Proof.
  intros H. unfold BoardUtils.validateNotesCount.
  destruct notesStr as [s|]; [|exact H].
  destruct (String.eqb s ""); [exact H|].
  destruct (parseInt s) as [n|]; [|exact H].
  destruct (Z.ltb_spec n 1); lia.
Qed.

Lemma parseScaleAttribute_shape (scaleStr : string)
  (config : BoardUtils.ParsedScaleConfig) :
  BoardUtils.parseScaleAttribute scaleStr = Some config ->
  BoardUtils.octave config = 4%Z /\
  forall key, BoardUtils.type config = BoardUtils.Inherited key ->
              key = "constructor" \/ key = "__proto__".
Proof.
  unfold BoardUtils.parseScaleAttribute.
  destruct (String.eqb _ ""); [discriminate|].
  destruct (_ =? 0)%nat; [discriminate|].
  destruct (BoardUtils.parseRoot _) as [[r|] remaining]; [|discriminate].
  destruct (0 <? _)%nat;
    [|intros [= <-]; split; [reflexivity|discriminate]].
  destruct (BoardUtils.SHORTHAND_SCALE_MAP _) as [t|] eqn:Hmap.
  - intros [= <-]. split; [reflexivity|]. intros key Hkey. simpl in Hkey.
    subst t. revert Hmap. unfold BoardUtils.SHORTHAND_SCALE_MAP.
    repeat match goal with
           | |- context [String.eqb ?a ?b] =>
               destruct (String.eqb_spec a b); cbn [orb]
           end; try discriminate; intros [= <-]; auto.
  - destruct (BoardUtils.scaleTypeOfString _);
      [intros [= <-]; split; [reflexivity|discriminate]|].
    destruct (_ || _); [|discriminate].
    intros [= <-]; split; [reflexivity|discriminate].
Qed.

(** The value [buildKeys] parses: the [scale] attribute, or the default
    for a missing or empty one. *)
Definition scaleAttrOf (b : NoodlerBoard.t) : string :=
  match NoodlerBoard.getAttribute "scale" b with
  | Some v => if String.eqb v "" then "A pentatonic-minor" else v
  | None => "A pentatonic-minor"
  end.

(** X29.  [buildKeys].  When [buildKeys] returns, the notes of the board
    are the first notes of the generated scale at octave 4: the scale the
    [scale] attribute is parsed as, or A pentatonic minor when the
    attribute is missing, empty or not parsed.  There are as many notes as
    the [notes] attribute counts (the whole scale without a valid count),
    at least one and at most the length of the scale, and the first one is
    the root at octave 4.  The Synth, the pointers and the attributes are
    unchanged.  [buildKeys] throws only when the attribute is parsed with
    a type that is no scale type (a name followed by [constructor] or
    [__proto__]), and then the board is unchanged. *)
Theorem X29_buildKeys (b : NoodlerBoard.t) :
  let parsed := BoardUtils.parseScaleAttribute (scaleAttrOf b) in
  match NoodlerBoard.buildKeys b with
  | Normal b' =>
      exists rootNote scaleType scale,
        (parsed = Some {| BoardUtils.root := rootNote;
                          BoardUtils.type := BoardUtils.ScaleTypeOf scaleType;
                          BoardUtils.octave := 4 |} \/
         parsed = None /\ rootNote = Scale.A /\
         scaleType = Generator.pentatonic_minor) /\
        Generator.generateScale
          {| Generator.cfg_root := rootNote; Generator.cfg_type := scaleType;
             Generator.cfg_octave := Some 4%Z |} = Some scale /\
        NoodlerBoard.getNotes b' =
          take (length (NoodlerBoard.getNotes b')) (Generator.notes scale) /\
        Z.of_nat (length (NoodlerBoard.getNotes b')) =
          Z.min
            (BoardUtils.validateNotesCount
               (NoodlerBoard.getAttribute "notes" b)
               (Z.of_nat (length (Generator.SCALE_INTERVALS scaleType))))
            (Z.of_nat (length (Generator.SCALE_INTERVALS scaleType))) /\
        (1 <= length (NoodlerBoard.getNotes b')
         <= length (Generator.SCALE_INTERVALS scaleType))%nat /\
        NoodlerBoard.getNotes b' !! 0%nat =
          Some {| Generator.name :=
                    (Scale.noteNameString rootNote ++ "4")%string;
                  Generator.frequency := Scale.noteToFrequency rootNote 4;
                  Generator.index := 0 |} /\
        NoodlerBoard.synth b' = NoodlerBoard.synth b /\
        NoodlerBoard.activePointers b' = NoodlerBoard.activePointers b /\
        NoodlerBoard.attributes b' = NoodlerBoard.attributes b
  | Thrown b' _ =>
      b' = b /\
      exists rootNote key,
        (key = "constructor" \/ key = "__proto__") /\
        parsed = Some {| BoardUtils.root := rootNote;
                         BoardUtils.type := BoardUtils.Inherited key;
                         BoardUtils.octave := 4 |}
  end.
Proof.
  cbv zeta.
  assert (Hok : forall rootNote scaleType,
            (BoardUtils.parseScaleAttribute (scaleAttrOf b) =
               Some {| BoardUtils.root := rootNote;
                       BoardUtils.type := BoardUtils.ScaleTypeOf scaleType;
                       BoardUtils.octave := 4 |} \/
             BoardUtils.parseScaleAttribute (scaleAttrOf b) = None /\
             rootNote = Scale.A /\ scaleType = Generator.pentatonic_minor) ->
            forall b',
              match NoodlerBoard.scaleNotes
                      {| BoardUtils.root := rootNote;
                         BoardUtils.type := BoardUtils.ScaleTypeOf scaleType;
                         BoardUtils.octave := 4 |} with
              | Throw message => Thrown b message
              | Ok notes =>
                  Normal
                    (NoodlerBoard.withNotes
                       (fun _ =>
                          NoodlerBoard.arraySliceTo notes
                            (BoardUtils.validateNotesCount
                               (NoodlerBoard.getAttribute "notes" b)
                               (Z.of_nat (length notes)))) b)
              end = b' ->
              match b' with
              | Normal b' =>
                  exists rootNote scaleType scale,
                    (BoardUtils.parseScaleAttribute (scaleAttrOf b) =
                       Some {| BoardUtils.root := rootNote;
                               BoardUtils.type :=
                                 BoardUtils.ScaleTypeOf scaleType;
                               BoardUtils.octave := 4 |} \/
                     BoardUtils.parseScaleAttribute (scaleAttrOf b) = None /\
                     rootNote = Scale.A /\
                     scaleType = Generator.pentatonic_minor) /\
                    Generator.generateScale
                      {| Generator.cfg_root := rootNote;
                         Generator.cfg_type := scaleType;
                         Generator.cfg_octave := Some 4%Z |} = Some scale /\
                    NoodlerBoard.getNotes b' =
                      take (length (NoodlerBoard.getNotes b'))
                        (Generator.notes scale) /\
                    Z.of_nat (length (NoodlerBoard.getNotes b')) =
                      Z.min
                        (BoardUtils.validateNotesCount
                           (NoodlerBoard.getAttribute "notes" b)
                           (Z.of_nat
                              (length (Generator.SCALE_INTERVALS scaleType))))
                        (Z.of_nat
                           (length (Generator.SCALE_INTERVALS scaleType))) /\
                    (1 <= length (NoodlerBoard.getNotes b')
                     <= length (Generator.SCALE_INTERVALS scaleType))%nat /\
                    NoodlerBoard.getNotes b' !! 0%nat =
                      Some {| Generator.name :=
                                (Scale.noteNameString rootNote ++ "4")%string;
                              Generator.frequency :=
                                Scale.noteToFrequency rootNote 4;
                              Generator.index := 0 |} /\
                    NoodlerBoard.synth b' = NoodlerBoard.synth b /\
                    NoodlerBoard.activePointers b' =
                      NoodlerBoard.activePointers b /\
                    NoodlerBoard.attributes b' = NoodlerBoard.attributes b
              | Thrown b' _ =>
                  b' = b /\
                  exists rootNote key,
                    (key = "constructor" \/ key = "__proto__") /\
                    BoardUtils.parseScaleAttribute (scaleAttrOf b) =
                      Some {| BoardUtils.root := rootNote;
                              BoardUtils.type := BoardUtils.Inherited key;
                              BoardUtils.octave := 4 |}
              end).
  { intros rootNote scaleType Hparsed b' <-.
    destruct (generateScale_octave4 rootNote scaleType)
      as (scale & Hscale & Hlen & Hfirst).
    unfold NoodlerBoard.scaleNotes.
    cbn [BoardUtils.type BoardUtils.root BoardUtils.octave].
    rewrite Hscale.
    exists rootNote, scaleType, scale.
    split; [exact Hparsed|]. split; [exact Hscale|].
    unfold NoodlerBoard.getNotes.
    cbn [NoodlerBoard.notes NoodlerBoard.withNotes NoodlerBoard.synth
         NoodlerBoard.activePointers NoodlerBoard.attributes].
    rewrite Hlen.
    assert (Hpos : (1 <= Z.of_nat
                          (length (Generator.SCALE_INTERVALS scaleType)))%Z)
      by (destruct scaleType; simpl; lia).
    pose proof (validateNotesCount_range
                  (NoodlerBoard.getAttribute "notes" b) _ Hpos) as Hcount.
    set (count := BoardUtils.validateNotesCount _ _) in *. clearbody count.
    rewrite arraySliceTo_take by lia.
    rewrite length_take, Hlen.
    split.
    { destruct (Nat.le_gt_cases (Z.to_nat count)
                  (length (Generator.SCALE_INTERVALS scaleType))) as [Hle|Hgt].
      - rewrite Nat.min_l by exact Hle. reflexivity.
      - rewrite Nat.min_r by lia. rewrite !take_ge by lia. reflexivity. }
    split; [lia|]. split; [lia|].
    split; [|repeat split].
    rewrite lookup_take_lt by lia. exact Hfirst. }
  unfold NoodlerBoard.buildKeys. cbv zeta. fold (scaleAttrOf b).
  destruct (BoardUtils.parseScaleAttribute (scaleAttrOf b))
    as [[rootNote [scaleType|key] oct]|] eqn:Hparsed.
  - destruct (parseScaleAttribute_shape _ _ Hparsed) as [Hoct _].
    simpl in Hoct. subst oct.
    apply (Hok rootNote scaleType); [left; reflexivity|reflexivity].
  - destruct (parseScaleAttribute_shape _ _ Hparsed) as [Hoct Hkey].
    simpl in Hoct. subst oct. simpl. split; [reflexivity|].
    exists rootNote, key. split; [apply Hkey; reflexivity|reflexivity].
  - apply (Hok Scale.A Generator.pentatonic_minor);
      [right; auto|reflexivity].
Qed.

(** ** The rounding of doubles *)

(** What the properties below use of the rounding of an arithmetic result
    to a double: it keeps the order, it leaves a whole number of at most 53
    bits alone, and it moves a result by at most one part in 10^15 of it,
    or by 10^-15 near zero.  Rounding to the nearest double has these
    properties (its relative error is at most 2^-53, its absolute error
    below the normal numbers at most 2^-1075) as long as no result
    overflows; the bound on the error is asked for results up to 10^30
    only. *)
Definition rounding (fl : R -> R) : Prop :=
  (forall x y, x <= y -> fl x <= fl y) /\
  (forall n : Z, (Z.abs n <= 2 ^ 53)%Z -> fl (IZR n) = IZR n) /\
  (forall x, Rabs x <= 1e30 -> Rabs (fl x - x) <= (Rabs x + 1) * 1e-15).

(** Exact arithmetic is a rounding. *)
Lemma rounding_exact : rounding (fun x => x).
Proof.
  split; [intros x y H; exact H|]. split; [reflexivity|].
  intros x _. replace (x - x) with 0 by lra. rewrite Rabs_R0.
  pose proof (Rabs_pos x). lra.
Qed.

(** Rounding to the nearest multiple of 2^-60, a half upwards. *)
Definition nearest60 (x : R) : R := Math_round (x * 2 ^ 60) / 2 ^ 60.

Lemma nearest60_rounding : rounding nearest60.
Proof.
  assert (Hp : 0 < 2 ^ 60) by (apply pow_lt; lra).
  assert (Hbig : 1e15 <= 2 ^ 60) by lra.
  unfold nearest60. split; [|split].
  - intros x y H. apply Rmult_le_compat_r.
    + apply Rlt_le, Rinv_0_lt_compat, Hp.
    + apply Math_round_mono. apply Rmult_le_compat_r; lra.
  - intros n _.
    replace (IZR n * 2 ^ 60) with (IZR (n * 2 ^ 60)).
    + rewrite Math_round_IZR, mult_IZR.
      replace (IZR (2 ^ 60)) with (2 ^ 60)%R by (rewrite pow_IZR; reflexivity).
      field.
    + rewrite mult_IZR.
      replace (IZR (2 ^ 60)) with (2 ^ 60)%R by (rewrite pow_IZR; reflexivity).
      reflexivity.
  - intros x _. pose proof (Math_round_near (x * 2 ^ 60)) as [H1 H2].
    set (r := Math_round (x * 2 ^ 60)) in *. clearbody r.
    assert (Hd : r / 2 ^ 60 - x = (r - x * 2 ^ 60) / 2 ^ 60) by (field; lra).
    rewrite Hd. unfold Rdiv. rewrite Rabs_mult.
    rewrite (Rabs_pos_eq (/ 2 ^ 60))
      by (apply Rlt_le, Rinv_0_lt_compat, Hp).
    assert (Ha : Rabs (r - x * 2 ^ 60) <= 0.5)
      by (apply Rabs_le; lra).
    pose proof (Rabs_pos x) as Hx.
    assert (Hinv : / 2 ^ 60 <= 1e-15).
    { apply Rmult_le_reg_l with (2 ^ 60); [exact Hp|].
      rewrite Rinv_r by lra. lra. }
    assert (Hinv0 : 0 < / 2 ^ 60) by (apply Rinv_0_lt_compat, Hp).
    apply Rle_trans with (0.5 * / 2 ^ 60).
    + apply Rmult_le_compat_r; lra.
    + apply Rle_trans with (1 * 1e-15); [|apply Rmult_le_compat_r; lra].
      apply Rmult_le_compat; lra.
Qed.

(** With exact arithmetic the functions in doubles are the functions of
    [Bend] and [BoardUtils]. *)
Lemma rounded_exact :
  (forall x mode,
     Rounded.xOffsetToCents (fun r => r) x mode = Bend.xOffsetToCents x mode) /\
  (forall y height noteCount,
     Rounded.getNoteIndexFromY (fun r => r) y height noteCount =
     BoardUtils.getNoteIndexFromY y height noteCount) /\
  (forall x width maxCents,
     Rounded.getBendFromX (fun r => r) x width maxCents =
     BoardUtils.getBendFromX x width maxCents).
Proof. repeat split. Qed.

Section Rounding.

Variable fl : R -> R.
Hypothesis Hfl : rounding fl.

Lemma fl_mono (x y : R) : x <= y -> fl x <= fl y.
Proof. apply Hfl. Qed.

Lemma fl_int (n : Z) : (Z.abs n <= 2 ^ 53)%Z -> fl (IZR n) = IZR n.
Proof. apply Hfl. Qed.

Lemma fl_err (x : R) :
  Rabs x <= 1e30 -> Rabs (fl x - x) <= (Rabs x + 1) * 1e-15.
Proof. apply Hfl. Qed.

End Rounding.

(** ** The bend in doubles *)

Lemma fl_0 (fl : R -> R) : rounding fl -> fl 0 = 0.
Proof. intros Hfl. apply (fl_int fl Hfl 0). lia. Qed.

Lemma fl_octave (fl : R -> R) :
  rounding fl ->
  fl (Bend.MAX_OCTAVE_OFFSET * Bend.CENTS_PER_OCTAVE) = 1200 /\
  fl (- Bend.MAX_OCTAVE_OFFSET * Bend.CENTS_PER_OCTAVE) = -1200.
Proof.
  intros Hfl. unfold Bend.MAX_OCTAVE_OFFSET, Bend.CENTS_PER_OCTAVE. split.
  - replace (1 * 1200) with (IZR 1200) by lra. apply (fl_int fl Hfl). lia.
  - replace (- (1) * 1200) with (IZR (-1200)) by lra.
    apply (fl_int fl Hfl). lia.
Qed.

(** The target of [dynamicBend] and [steppedBend] as the code computes
    it, before it is clamped. *)
Definition targetCents (fl : R -> R) (xOffset : R) : R :=
  fl (fl (xOffset / 150) * 1200).

Lemma targetCents_mono (fl : R -> R) (x y : R) :
  rounding fl -> x <= y -> targetCents fl x <= targetCents fl y.
Proof.
  intros Hfl H. unfold targetCents. apply (fl_mono fl Hfl).
  assert (fl (x / 150) <= fl (y / 150)) by (apply (fl_mono fl Hfl); lra).
  lra.
Qed.

Lemma targetCents_0 (fl : R -> R) : rounding fl -> targetCents fl 0 = 0.
Proof.
  intros Hfl. unfold targetCents.
  replace (0 / 150) with 0 by lra. rewrite (fl_0 fl Hfl).
  replace (0 * 1200) with 0 by lra. apply (fl_0 fl Hfl).
Qed.

Lemma targetCents_octave (fl : R -> R) (x : R) :
  rounding fl ->
  (150 <= x -> 1200 <= targetCents fl x) /\
  (x <= -150 -> targetCents fl x <= -1200).
Proof.
  intros Hfl. unfold targetCents. split; intros Hx.
  - assert (H1 : fl (IZR 1) <= fl (x / 150))
      by (apply (fl_mono fl Hfl); lra).
    rewrite (fl_int fl Hfl 1) in H1 by lia.
    assert (H2 : fl (IZR 1200) <= fl (fl (x / 150) * 1200))
      by (apply (fl_mono fl Hfl); lra).
    rewrite (fl_int fl Hfl 1200) in H2 by lia. exact H2.
  - assert (H1 : fl (x / 150) <= fl (IZR (-1)))
      by (apply (fl_mono fl Hfl); lra).
    rewrite (fl_int fl Hfl (-1)) in H1 by lia.
    assert (H2 : fl (fl (x / 150) * 1200) <= fl (IZR (-1200)))
      by (apply (fl_mono fl Hfl); lra).
    rewrite (fl_int fl Hfl (-1200)) in H2 by lia. exact H2.
Qed.

(** The computed target is eight cents per pixel up to the two roundings. *)
Lemma targetCents_near (fl : R -> R) (x : R) :
  rounding fl -> -150 <= x <= 150 ->
  Rabs (targetCents fl x - 8 * x) <= 1e-11.
Proof.
  intros Hfl Hx. unfold targetCents.
  assert (Ha : Rabs (x / 150) <= 1) by (apply Rabs_le; lra).
  pose proof (fl_err fl Hfl (x / 150) ltac:(lra)) as E1.
  apply Rabs_le_inv in Ha. 
  assert (E1' : Rabs (fl (x / 150) - x / 150) <= 2e-15).
  { eapply Rle_trans; [exact E1|].
    assert (Rabs (x / 150) <= 1) by (apply Rabs_le; lra). lra. }
  apply Rabs_le_inv in E1'.
  set (fa := fl (x / 150)) in *.
  assert (Hb : Rabs (fa * 1200) <= 1201) by (apply Rabs_le; lra).
  pose proof (fl_err fl Hfl (fa * 1200) ltac:(lra)) as E2.
  assert (E2' : Rabs (fl (fa * 1200) - fa * 1200) <= 1202e-15) by lra.
  apply Rabs_le_inv in E2'. apply Rabs_le. lra.
Qed.

Lemma dynamicBend_target (fl : R -> R) (x : R) :
  rounding fl ->
  Rounded.dynamicBend fl x =
  Math_round (Math_max (-1200) (Math_min 1200 (targetCents fl x))).
Proof.
  intros Hfl. unfold Rounded.dynamicBend. cbv zeta.
  destruct (fl_octave fl Hfl) as [-> _]. reflexivity.
Qed.

(** The loop of [steppedBend] returns the first interval or one of the
    others. *)
Lemma steppedBend_In (fl : R -> R) (x : R) :
  In (Rounded.steppedBend fl x) Bend.STEPPED_INTERVALS.
Proof.
  unfold Rounded.steppedBend. cbv zeta.
  match goal with
  | |- In (fst (fold_left ?f ?l0 (?c0, ?d0))) _ =>
      assert (H : forall intervals acc,
                fst (fold_left f intervals acc) = fst acc \/
                In (fst (fold_left f intervals acc)) intervals);
      [|destruct (H l0 (c0, d0)) as [E|E]]
  end.
  - induction intervals as [|i l IH]; intros [c d]; simpl;
      [left; reflexivity|].
    destruct Rlt_dec;
      match goal with
      | |- context [fold_left _ l ?acc] => destruct (IH acc) as [E|E]
      end.
    + right. left. symmetry. exact E.
    + right. right. exact E.
    + left. exact E.
    + right. right. exact E.
  - rewrite E. left. reflexivity.
  - right. exact E.
Qed.

Lemma steppedBend_0 (fl : R -> R) :
  rounding fl -> Rounded.steppedBend fl 0 = 0.
Proof.
  intros Hfl. unfold Rounded.steppedBend. cbv zeta.
  destruct (fl_octave fl Hfl) as [-> ->].
  change (fl (fl (0 / Bend.PIXELS_PER_OCTAVE) * Bend.CENTS_PER_OCTAVE))
    with (targetCents fl 0).
  rewrite (targetCents_0 fl Hfl).
  assert (Hc : Math_max (-1200) (Math_min 1200 0) = 0).
  { unfold Math_max, Math_min, Rmax, Rmin. repeat destruct Rle_dec; lra. }
  rewrite Hc.
  assert (Hd : forall k : Z, (Z.abs k <= 1000)%Z ->
            Math_abs (fl (0 - IZR k)) = IZR (Z.abs k)).
  { intros k Hk. replace (0 - IZR k) with (IZR (- k))
      by (rewrite opp_IZR; lra).
    rewrite (fl_int fl Hfl) by lia. unfold Math_abs.
    rewrite <- abs_IZR. f_equal. lia. }
  unfold Bend.STEPPED_INTERVALS. cbn [nth tl fold_left].
  repeat
    first
      [ progress
          (rewrite !Hd by lia;
           repeat match goal with
                  | |- context [Z.abs ?k] =>
                      let v := eval vm_compute in (Z.abs k) in
                      change (Z.abs k) with v
                  end)
      | match goal with
        | |- context [Rlt_dec ?a ?b] =>
            destruct (Rlt_dec a b); try (exfalso; lra); cbv beta iota
        end ].
  reflexivity.
Qed.

(** X19.  [xOffsetToCents] in the arithmetic of doubles, for every
    rounding, every horizontal offset and every mode string: the bend is a
    whole number of cents between -1200 and 1200, it is 0 at offset 0, and
    it is 0 for a string that is not a bend mode.  In the modes other than
    stepped it never decreases when the offset grows.  In mode dynamic it
    is -1200 or 1200 from 150 pixels on either way, and between it is a
    whole number nearest to eight cents per pixel, up to the rounding of
    the arithmetic: it lies within half a cent and 10^-9 of [8 x], so that
    a target within 10^-9 of a half may go either way.  In mode direct it
    is -1200 below -50 pixels, 1200 above 50 pixels and 0 between, both
    ends included. *)
Theorem X19_xOffsetToCents (fl : R -> R) (mode : string) (x : R) :
  rounding fl ->
  let cents := Rounded.xOffsetToCents fl x mode in
  -1200 <= cents <= 1200 /\
  (exists n : Z, cents = IZR n) /\
  Rounded.xOffsetToCents fl 0 mode = 0 /\
  (mode <> "stepped" ->
   forall y, x <= y -> cents <= Rounded.xOffsetToCents fl y mode) /\
  (mode <> "dynamic" -> mode <> "direct" -> mode <> "stepped" -> cents = 0) /\
  (mode = "dynamic" ->
   (-150 <= x <= 150 -> Rabs (cents - 8 * x) <= 0.5 + 1e-9) /\
   (x <= -150 -> cents = -1200) /\ (150 <= x -> cents = 1200)) /\
  (mode = "direct" ->
   (x < -50 -> cents = -1200) /\ (-50 <= x <= 50 -> cents = 0) /\
   (50 < x -> cents = 1200)).
Proof.
  intros Hfl. cbv zeta.
  assert (Hdirect : forall z,
            (z < -50 -> Rounded.directBend z = -1200) /\
            (-50 <= z <= 50 -> Rounded.directBend z = 0) /\
            (50 < z -> Rounded.directBend z = 1200)).
  { intros z. unfold Rounded.directBend, Bend.DIRECT_THRESHOLD_PX,
      Bend.CENTS_PER_OCTAVE.
    repeat split; intros Hz; repeat destruct Rlt_dec; lra. }
  unfold Rounded.xOffsetToCents.
  destruct (String.eqb_spec mode "dynamic") as [->|N1].
  { rewrite !(dynamicBend_target fl _ Hfl).
    pose proof (clamp_range (-1200) 1200 (targetCents fl x) ltac:(lra))
      as Hc.
    split; [apply (Math_round_between (-1200) 1200), Hc|].
    split; [eexists; reflexivity|].
    split.
    { rewrite (targetCents_0 fl Hfl).
      replace (Math_max (-1200) (Math_min 1200 0)) with (IZR 0).
      - apply Math_round_IZR.
      - unfold Math_max, Math_min, Rmax, Rmin. repeat destruct Rle_dec; lra. }
    split.
    { intros _ y Hxy. rewrite (dynamicBend_target fl _ Hfl).
      apply Math_round_mono, clamp_mono, (targetCents_mono fl _ _ Hfl), Hxy. }
    split; [intros H; contradiction|].
    split; [|discriminate].
    intros _. destruct (targetCents_octave fl x Hfl) as [Hhi Hlo].
    split; [|split].
    - intros Hx. pose proof (targetCents_near fl x Hfl Hx) as Hn.
      apply Rabs_le_inv in Hn.
      set (t := targetCents fl x) in *.
      pose proof (Math_round_near (Math_max (-1200) (Math_min 1200 t)))
        as [R1 R2].
      set (r := Math_round _) in *. clearbody r.
      assert (Hcl : Rabs (Math_max (-1200) (Math_min 1200 t) - 8 * x)
                    <= 1e-11).
      { apply Rabs_le. unfold Math_max, Math_min, Rmax, Rmin.
        repeat destruct Rle_dec; lra. }
      apply Rabs_le_inv in Hcl. apply Rabs_le. lra.
    - intros Hx. specialize (Hlo Hx).
      replace (Math_max (-1200) (Math_min 1200 (targetCents fl x)))
        with (IZR (-1200)).
      + apply Math_round_IZR.
      + unfold Math_max, Math_min, Rmax, Rmin. repeat destruct Rle_dec; lra.
    - intros Hx. specialize (Hhi Hx).
      replace (Math_max (-1200) (Math_min 1200 (targetCents fl x)))
        with (IZR 1200).
      + apply Math_round_IZR.
      + unfold Math_max, Math_min, Rmax, Rmin. repeat destruct Rle_dec; lra. }
  destruct (String.eqb_spec mode "direct") as [->|N2].
  { destruct (Hdirect x) as (D1 & D2 & D3).
    assert (Hval : Rounded.directBend x = IZR (-1200) \/
                   Rounded.directBend x = IZR 0 \/
                   Rounded.directBend x = IZR 1200).
    { destruct (Rlt_dec x (-50)); [left; apply D1; lra|].
      destruct (Rlt_dec 50 x); [right; right; apply D3; lra|].
      right; left; apply D2; lra. }
    split; [destruct Hval as [-> | [-> | ->]]; lra|].
    split; [destruct Hval as [-> | [-> | ->]]; eexists; reflexivity|].
    split; [apply (Hdirect 0); lra|].
    split.
    { intros _ y Hxy.
      unfold Rounded.directBend, Bend.DIRECT_THRESHOLD_PX,
        Bend.CENTS_PER_OCTAVE.
      repeat destruct Rlt_dec; lra. }
    split; [intros _ H; contradiction|].
    split; [discriminate|]. intros _. exact (Hdirect x). }
  destruct (String.eqb_spec mode "stepped") as [->|N3].
  { pose proof (steppedBend_In fl x) as Hin.
    assert (Hval : exists n : Z,
              Rounded.steppedBend fl x = IZR n /\ (-700 <= n <= 700)%Z).
    { unfold Bend.STEPPED_INTERVALS in Hin. simpl in Hin.
      decompose [or] Hin; try contradiction;
        match goal with
        | H : _ = Rounded.steppedBend fl x |- _ => rewrite <- H
        end; eexists; (split; [reflexivity|lia]). }
    destruct Hval as (n & Hn & Hrange). rewrite Hn.
    split.
    { split.
      - apply Rle_trans with (IZR (-700)); [lra|apply IZR_le; lia].
      - apply Rle_trans with (IZR 700); [apply IZR_le; lia|lra]. }
    split; [exists n; reflexivity|].
    split; [apply (steppedBend_0 fl Hfl)|].
    split; [intros H; contradiction|].
    split; [intros _ _ H; contradiction|].
    split; discriminate. }
  split; [lra|]. split; [exists 0%Z; reflexivity|].
  split; [reflexivity|]. split; [intros _ y _; lra|].
  split; [reflexivity|]. split; intros H; contradiction.
Qed.

(** X19 with the rounding to the nearest multiple of 2^-60, in mode
    dynamic: 3.4375 pixels, whose target 27.5 cents is a half, give a whole
    number within half a cent and 10^-9 of it, and 200 pixels an octave; in
    mode direct 60 pixels give an octave. *)
Lemma X19_xOffsetToCents_witness :
  Rabs (Rounded.xOffsetToCents nearest60 3.4375 "dynamic" - 8 * 3.4375)
    <= 0.5 + 1e-9 /\
  Rounded.xOffsetToCents nearest60 200 "dynamic" = 1200 /\
  Rounded.xOffsetToCents nearest60 60 "direct" = 1200.
Proof.
  destruct (X19_xOffsetToCents nearest60 "dynamic" 3.4375
              nearest60_rounding) as (_ & _ & _ & _ & _ & Hd & _).
  destruct (Hd eq_refl) as (H1 & _).
  destruct (X19_xOffsetToCents nearest60 "dynamic" 200
              nearest60_rounding) as (_ & _ & _ & _ & _ & Hd' & _).
  destruct (Hd' eq_refl) as (_ & _ & H2).
  destruct (X19_xOffsetToCents nearest60 "direct" 60
              nearest60_rounding) as (_ & _ & _ & _ & _ & _ & Hr).
  destruct (Hr eq_refl) as (_ & _ & H3).
  split; [apply H1; lra|]. split; [apply H2; lra|apply H3; lra].
Defined.

(** ** The geometry of the board in doubles *)

Lemma clamp_index (n : nat) (k : Z) :
  (0 < n)%nat ->
  exists i : nat,
    Math_max 0 (Math_min (INR n - 1) (IZR k)) = INR i /\ (i < n)%nat /\
    Z.of_nat i = Z.max 0 (Z.min (Z.of_nat n - 1) k).
Proof.
  intros Hn.
  assert (Hn1 : INR n - 1 = IZR (Z.of_nat n - 1)).
  { rewrite minus_IZR, <- INR_IZR_INZ. reflexivity. }
  exists (Z.to_nat (Z.max 0 (Z.min (Z.of_nat n - 1) k))).
  split; [|split; lia].
  rewrite (INR_IZR_INZ (Z.to_nat _)), Z2Nat.id by lia. rewrite Hn1.
  unfold Math_max, Math_min, Rmax, Rmin.
  destruct (Rle_dec (IZR (Z.of_nat n - 1)) (IZR k)) as [H1|H1].
  - apply le_IZR in H1. rewrite Z.min_l by lia.
    destruct Rle_dec as [H2|H2].
    + rewrite Z.max_r by lia. reflexivity.
    + exfalso. apply H2. apply (IZR_le 0). lia.
  - assert (k < Z.of_nat n - 1)%Z.
    { destruct (Z_lt_le_dec k (Z.of_nat n - 1)) as [H|H]; [exact H|].
      exfalso. apply H1, IZR_le, H. }
    rewrite Z.min_r by lia.
    destruct Rle_dec as [H2|H2].
    + apply (le_IZR 0) in H2. rewrite Z.max_r by lia. reflexivity.
    + assert (k < 0)%Z.
      { destruct (Z_lt_le_dec k 0) as [H'|H']; [exact H'|].
        exfalso. apply H2, (IZR_le 0), H'. }
      rewrite Z.max_l by lia. reflexivity.
Qed.

Lemma INR_bounds (n : nat) : (0 < n <= 1000)%nat -> 1 <= INR n <= 1000.
Proof.
  intros Hn. rewrite INR_IZR_INZ.
  split; [apply (IZR_le 1)|apply (IZR_le _ 1000)]; lia.
Qed.

(** The height of a zone as the code computes it: positive, and the
    exact quotient up to one part in 10^12. *)
Lemma zoneHeight_near (fl : R -> R) (height : R) (n : nat) :
  rounding fl -> 1 <= height <= 1000000 -> (0 < n <= 1000)%nat ->
  let z0 := height / INR n in
  let z := fl z0 in
  0 < z0 /\ INR n * z0 = height /\
  z0 * (1 - 1e-11) <= z <= z0 * (1 + 1e-11).
Proof.
  intros Hfl Hh Hn. cbv zeta.
  pose proof (INR_bounds n Hn) as HN.
  assert (Hz0 : 0 < height / INR n) by (apply Rdiv_lt_0_compat; lra).
  assert (Hnz : INR n * (height / INR n) = height) by (field; lra).
  set (z0 := height / INR n) in *.
  assert (Hlo : 1 <= 1000 * z0) by nra.
  assert (Hhi : z0 <= 1000000) by nra.
  split; [exact Hz0|]. split; [exact Hnz|].
  pose proof (fl_err fl Hfl z0) as E.
  rewrite (Rabs_pos_eq z0) in E by lra.
  specialize (E ltac:(lra)). apply Rabs_le_inv in E. nra.
Qed.

(** X21.  [getNoteIndexFromY] in the arithmetic of doubles, for a board
    with [n] notes and every rounding.  Without height or without notes the
    index is 0.  On a board 1 to 10^6 high with at most 1000 notes the index
    is a whole number below [n]; a position above the board gives the first
    zone and a position at or below the lower edge the last; the index never
    decreases when the position moves down; and for a position inside the
    board it is the zone the position lies in, the zones being [n] strips of
    equal height counted from the top, up to the rounding of the two
    divisions: a position within a millionth of a strip of the line
    between two strips may be given either of them. *)
Theorem X21_getNoteIndexFromY (fl : R -> R) (y height : R) (n : nat) :
  rounding fl ->
  let index := Rounded.getNoteIndexFromY fl y height (INR n) in
  (height <= 0 \/ n = 0%nat -> index = 0) /\
  (1 <= height <= 1000000 -> (0 < n <= 1000)%nat ->
   exists i : nat,
     index = INR i /\ (i < n)%nat /\
     (0 <= y < height ->
      (INR i - 1e-6) * (height / INR n) <= y
      < (INR i + 1 + 1e-6) * (height / INR n)) /\
     (y < 0 -> i = 0%nat) /\
     (height <= y -> i = (n - 1)%nat) /\
     forall y', y <= y' ->
       index <= Rounded.getNoteIndexFromY fl y' height (INR n)).
Proof.
  intros Hfl. cbv zeta. unfold Rounded.getNoteIndexFromY. split.
  - intros [Hh| ->].
    + destruct Rle_dec; [reflexivity|lra].
    + destruct Rle_dec; [reflexivity|]. simpl.
      destruct Rle_dec; [reflexivity|lra].
  - intros Hh Hn.
    pose proof (INR_bounds n Hn) as HN.
    destruct (Rle_dec height 0); [lra|].
    destruct (Rle_dec (INR n) 0); [lra|]. cbv zeta.
    destruct (zoneHeight_near fl height n Hfl Hh Hn) as (Hz0 & Hnz & Hz).
    cbv zeta in Hz0, Hnz, Hz.
    set (z0 := height / INR n) in *. set (z := fl z0) in *.
    assert (Hzpos : 0 < z) by nra.
    assert (Hn1 : fl (INR n - 1) = INR n - 1).
    { replace (INR n - 1) with (IZR (Z.of_nat n - 1))
        by (rewrite minus_IZR, <- INR_IZR_INZ; reflexivity).
      apply (fl_int fl Hfl). lia. }
    rewrite Hn1. unfold Math_floor.
    assert (Hmono : forall y1 y2, y1 <= y2 ->
              (Int_part (fl (y1 / z)%R) <= Int_part (fl (y2 / z)%R))%Z).
    { intros y1 y2 H12. apply Int_part_mono, (fl_mono fl Hfl).
      apply Rmult_le_compat_r; [|exact H12].
      apply Rlt_le, Rinv_0_lt_compat, Hzpos. }
    set (k := Int_part (fl (y / z))) in *.
    destruct (clamp_index n k ltac:(lia)) as (i & Hi & Hin & Hik).
    exists i. split; [exact Hi|]. split; [exact Hin|].
    destruct (Int_part_spec (fl (y / z))) as [F1 F2]. fold k in F1, F2.
    split; [|split; [|split]].
    + intros [Hy0 Hyh].
      set (w := y / z) in *.
      assert (Hw : w * z = y) by (unfold w; field; lra).
      assert (Hw0 : 0 <= w).
      { unfold w. apply Rmult_le_pos; [exact Hy0|].
        apply Rlt_le, Rinv_0_lt_compat, Hzpos. }
      assert (Hw1 : w <= 1001).
      { assert (w * (z0 * (1 - 1e-11)) <= INR n * z0) by nra.
        assert (w * (1 - 1e-11) <= INR n).
        { apply Rmult_le_reg_r with z0; [exact Hz0|]. lra. }
        lra. }
      pose proof (fl_err fl Hfl w) as E.
      rewrite (Rabs_pos_eq w) in E by exact Hw0.
      specialize (E ltac:(lra)). apply Rabs_le_inv in E.
      set (q := fl w) in *.
      (* the exact quotient *)
      set (Q := y / z0).
      assert (HQ : Q * z0 = y) by (unfold Q; field; lra).
      assert (HQ0 : 0 <= Q).
      { unfold Q. apply Rmult_le_pos; [exact Hy0|].
        apply Rlt_le, Rinv_0_lt_compat, Hz0. }
      assert (HQN : Q < INR n).
      { apply Rmult_lt_reg_r with z0; [exact Hz0|]. lra. }
      assert (HwQ : - (2e-8) <= w - Q <= 2e-8).
      { assert (H1 : (w - Q) * z0 = w * (z0 - z)) by lra.
        assert (H2 : - (1001 * 1e-11) * z0 <= w * (z0 - z)
                     <= 1001 * 1e-11 * z0) by nra.
        split.
        - apply Rmult_le_reg_r with z0; [exact Hz0|]. lra.
        - apply Rmult_le_reg_r with z0; [exact Hz0|]. lra. }
      assert (HqQ : - (1e-7) <= q - Q <= 1e-7) by lra.
      assert (Hbounds : INR i - 1e-6 <= Q < INR i + 1 + 1e-6).
      { rewrite (INR_IZR_INZ i), Hik.
        assert (HNZ : INR n = IZR (Z.of_nat n)) by apply INR_IZR_INZ.
        destruct (Z_lt_le_dec k 0) as [Hk|Hk].
        - rewrite Z.max_l by lia.
          assert (IZR k <= -1) by (apply (IZR_le k (-1)); lia). lra.
        - destruct (Z_lt_le_dec k (Z.of_nat n)) as [Hk'|Hk'].
          + rewrite Z.min_r, Z.max_r by lia. lra.
          + rewrite Z.min_l, Z.max_r by lia.
            assert (IZR (Z.of_nat n) <= IZR k) by (apply IZR_le; lia).
            rewrite minus_IZR. lra. }
      destruct Hbounds as [B1 B2]. rewrite <- HQ. split.
      * apply Rmult_le_compat_r; lra.
      * apply Rmult_lt_compat_r; lra.
    + intros Hy.
      assert (Hq : fl (y / z) <= 0).
      { rewrite <- (fl_0 fl Hfl). apply (fl_mono fl Hfl).
        assert (0 < / z) by (apply Rinv_0_lt_compat, Hzpos).
        unfold Rdiv. nra. }
      assert (Hk : (k <= 0)%Z).
      { apply le_IZR. lra. }
      lia.
    + intros Hy.
      assert (Hq : INR n - 1 <= fl (y / z)).
      { rewrite <- Hn1. apply (fl_mono fl Hfl).
        assert (Hinv : 0 < / z) by (apply Rinv_0_lt_compat, Hzpos).
        apply Rmult_le_reg_r with z; [exact Hzpos|].
        unfold Rdiv. rewrite Rmult_assoc, Rinv_l by lra. nra. }
      assert (Hk : (Z.of_nat n - 1 < k + 1)%Z).
      { apply lt_IZR. rewrite plus_IZR, minus_IZR, <- INR_IZR_INZ. lra. }
      lia.
    + intros y' Hyy'. apply clamp_mono.
      apply IZR_le, Hmono, Hyy'.
Qed.

(** X21 with the rounding to the nearest multiple of 2^-60, on a board of
    height 18 with 14 notes: the position 9 is on the line between the
    seventh and the eighth strip. *)
Lemma X21_getNoteIndexFromY_witness :
  exists i : nat,
    Rounded.getNoteIndexFromY nearest60 9 18 (INR 14) = INR i /\
    (i < 14)%nat /\
    (INR i - 1e-6) * (18 / INR 14) <= 9 < (INR i + 1 + 1e-6) * (18 / INR 14).
Proof.
  destruct (X21_getNoteIndexFromY nearest60 9 18 14 nearest60_rounding)
    as [_ H].
  destruct H as (i & Hi & Hin & Hstrip & _); [lra|lia|].
  exists i. split; [exact Hi|]. split; [exact Hin|]. apply Hstrip. lra.
Defined.

Lemma Math_round_exact (x : R) (j : Z) :
  Rabs (Math_round x - IZR j) < 1 -> Math_round x = IZR j.
Proof.
  unfold Math_round. intros H.
  set (k := Int_part (x + 0.5)) in *. clearbody k.
  rewrite <- minus_IZR in H. rewrite <- abs_IZR in H.
  apply (lt_IZR _ 1) in H. f_equal. lia.
Qed.

(** The bend as the code computes it before [Math.round], against the
    exact value. *)
Lemma bend_near (fl : R -> R) (x width maxCents : R) :
  rounding fl -> 1 <= width <= 1000000 -> 0 <= x <= width ->
  0 <= maxCents <= 1000000 ->
  let center := fl (width / 2) in
  let offset := fl (x - center) in
  let normalized := fl (offset / center) in
  Rabs (fl (normalized * maxCents) - (2 * x / width - 1) * maxCents)
    <= 1e-7.
Proof.
  intros Hfl Hw Hx Hm. cbv zeta.
  set (c0 := width / 2).
  assert (Hc0 : 0.5 <= c0 <= 500000) by (unfold c0; lra).
  pose proof (fl_err fl Hfl c0) as Ec.
  rewrite (Rabs_pos_eq c0) in Ec by lra.
  specialize (Ec ltac:(lra)). apply Rabs_le_inv in Ec.
  set (c := fl c0) in *.
  assert (Hc : - (3e-15 * c0) <= c - c0 <= 3e-15 * c0) by lra.
  assert (Hcpos : 0.4 * c0 <= c) by lra.
  (* the exact normalized offset *)
  set (N := (x - c0) / c0).
  assert (HN : N * c0 = x - c0) by (unfold N; field; lra).
  assert (HN1 : -1 <= N <= 1).
  { split.
    - apply Rmult_le_reg_r with c0; [lra|]. rewrite HN. unfold c0. lra.
    - apply Rmult_le_reg_r with c0; [lra|]. rewrite HN. unfold c0. lra. }
  assert (HE : (2 * x / width - 1) * maxCents = N * maxCents).
  { unfold N, c0. field. lra. }
  rewrite HE.
  (* the offset *)
  assert (Hxc : Rabs (x - c) <= 1.1 * c0).
  { apply Rabs_le. unfold c0 in *. lra. }
  pose proof (fl_err fl Hfl (x - c) ltac:(lra)) as Eo.
  apply Rabs_le_inv in Eo.
  set (o := fl (x - c)) in *.
  assert (Ho : - (7e-15 * c0) <= o - (x - c0) <= 7e-15 * c0) by lra.
  (* the quotient *)
  set (v := o / c).
  assert (Hv : v * c = o) by (unfold v; field; lra).
  assert (HvN : - (3e-14) <= v - N <= 3e-14).
  { assert (H1 : (v - N) * c = (o - (x - c0)) - N * (c - c0)) by lra.
    assert (H2 : - (1e-14 * c0) <= (v - N) * c <= 1e-14 * c0) by nra.
    split.
    - apply Rmult_le_reg_r with c; [lra|]. nra.
    - apply Rmult_le_reg_r with c; [lra|]. nra. }
  assert (Hv2 : Rabs v <= 2) by (apply Rabs_le; lra).
  pose proof (fl_err fl Hfl v ltac:(lra)) as Ev.
  apply Rabs_le_inv in Ev.
  set (nm := fl v) in *.
  assert (Hnm : - (4e-14) <= nm - N <= 4e-14) by lra.
  (* the product *)
  assert (Hp : - (4e-8) <= nm * maxCents - N * maxCents <= 4e-8) by nra.
  assert (Hp2 : Rabs (nm * maxCents) <= 2000000).
  { apply Rabs_le. nra. }
  pose proof (fl_err fl Hfl (nm * maxCents) ltac:(lra)) as Ep.
  apply Rabs_le_inv in Ep. apply Rabs_le. lra.
Qed.

(** X22.  [getBendFromX] in the arithmetic of doubles, for every
    rounding.  Without width the bend is 0.  On a board 1 to 10^6 wide the
    bend is a whole number of cents that never decreases when the position
    moves right; for a position on the board and [maxCents] (200 when it is
    not given) from 0 to 10^6 it is a whole number nearest to the distance
    from the centre, taken as a fraction of half the width, times
    [maxCents], up to the rounding of the arithmetic: it lies within half a
    cent and 10^-6 of that value, so that a value within 10^-6 of a half
    may go either way.  For a whole [maxCents] it is 0 at the centre,
    [-maxCents] at the left edge and [maxCents] at the right edge, and it
    lies between these for every position on the board. *)
Theorem X22_getBendFromX (fl : R -> R) (x width : R)
  (maxCents_opt : option R) :
  rounding fl ->
  let maxCents := default 200 maxCents_opt in
  let cents := Rounded.getBendFromX fl x width maxCents_opt in
  (width <= 0 -> cents = 0) /\
  (1 <= width <= 1000000 ->
   (exists n : Z, cents = IZR n) /\
   (0 <= maxCents ->
    forall x', x <= x' ->
      cents <= Rounded.getBendFromX fl x' width maxCents_opt) /\
   (0 <= x <= width -> 0 <= maxCents <= 1000000 ->
    Rabs (cents - (2 * x / width - 1) * maxCents) <= 0.5 + 1e-6) /\
   forall m : Z,
     maxCents = IZR m -> (0 <= m <= 1000000)%Z ->
     Rounded.getBendFromX fl (width / 2) width maxCents_opt = 0 /\
     Rounded.getBendFromX fl 0 width maxCents_opt = - maxCents /\
     Rounded.getBendFromX fl width width maxCents_opt = maxCents /\
     (0 <= x <= width -> - maxCents <= cents <= maxCents)).
Proof.
  intros Hfl. cbv zeta. unfold Rounded.getBendFromX. cbv zeta.
  set (maxCents := default 200 maxCents_opt).
  split.
  { intros Hw. destruct Rle_dec; [reflexivity|lra]. }
  intros Hw. destruct (Rle_dec width 0); [lra|].
  assert (Hcpos : 0 < fl (width / 2)).
  { pose proof (fl_err fl Hfl (width / 2)) as Ec.
    rewrite (Rabs_pos_eq (width / 2)) in Ec by lra.
    specialize (Ec ltac:(lra)). apply Rabs_le_inv in Ec. lra. }
  set (c := fl (width / 2)) in *.
  assert (Hmono : 0 <= maxCents -> forall x1 x2, x1 <= x2 ->
            Math_round (fl (fl (fl (x1 - c) / c) * maxCents)) <=
            Math_round (fl (fl (fl (x2 - c) / c) * maxCents))).
  { intros Hm x1 x2 H12. apply Math_round_mono, (fl_mono fl Hfl).
    apply Rmult_le_compat_r; [exact Hm|]. apply (fl_mono fl Hfl).
    apply Rmult_le_compat_r; [apply Rlt_le, Rinv_0_lt_compat, Hcpos|].
    apply (fl_mono fl Hfl). lra. }
  assert (Hnear : forall x0, 0 <= x0 <= width -> 0 <= maxCents <= 1000000 ->
            Rabs (Math_round (fl (fl (fl (x0 - c) / c) * maxCents)) -
                  (2 * x0 / width - 1) * maxCents) <= 0.5 + 1e-6).
  { intros x0 Hx0 Hm.
    pose proof (bend_near fl x0 width maxCents Hfl Hw Hx0 Hm) as Hb.
    cbv zeta in Hb. fold c in Hb. apply Rabs_le_inv in Hb.
    pose proof (Math_round_near (fl (fl (fl (x0 - c) / c) * maxCents)))
      as [R1 R2].
    apply Rabs_le. lra. }
  split; [eexists; reflexivity|].
  split; [intros Hm x' Hxx'; apply (Hmono Hm), Hxx'|].
  split; [apply Hnear|].
  intros m Hmax Hm.
  assert (HmR : 0 <= maxCents <= 1000000).
  { rewrite Hmax. split; [apply (IZR_le 0)|apply (IZR_le _ 1000000)]; lia. }
  assert (Hcentre : Math_round (fl (fl (fl (width / 2 - c) / c) * maxCents))
                    = 0).
  { apply (Math_round_exact _ 0).
    pose proof (Hnear (width / 2) ltac:(lra) HmR) as H.
    apply Rabs_le_inv in H. apply Rabs_def1.
    - replace (2 * (width / 2) / width - 1) with 0 in H by (field; lra). lra.
    - replace (2 * (width / 2) / width - 1) with 0 in H by (field; lra). lra. }
  assert (Hleft : Math_round (fl (fl (fl (0 - c) / c) * maxCents))
                  = - maxCents).
  { rewrite Hmax, <- opp_IZR. apply Math_round_exact.
    pose proof (Hnear 0 ltac:(lra) HmR) as H.
    apply Rabs_le_inv in H. rewrite opp_IZR, <- Hmax.
    replace (2 * 0 / width - 1) with (-1) in H by (field; lra).
    apply Rabs_def1; lra. }
  assert (Hright : Math_round (fl (fl (fl (width - c) / c) * maxCents))
                   = maxCents).
  { rewrite Hmax. apply Math_round_exact.
    pose proof (Hnear width ltac:(lra) HmR) as H.
    apply Rabs_le_inv in H. rewrite <- Hmax.
    replace (2 * width / width - 1) with 1 in H by (field; lra).
    apply Rabs_def1; lra. }
  split; [exact Hcentre|]. split; [exact Hleft|]. split; [exact Hright|].
  intros Hx. destruct HmR as [Hm0 _]. split.
  - pose proof (Hmono Hm0 0 x ltac:(lra)) as H. rewrite Hleft in H. exact H.
  - pose proof (Hmono Hm0 x width ltac:(lra)) as H. rewrite Hright in H.
    exact H.
Qed.

(** X22 with the rounding to the nearest multiple of 2^-60, on a board 160
    wide with the default of 200 cents: the position 31, whose exact bend
    -122.5 is a half, gives a whole number within half a cent and 10^-6 of
    it, and the right edge gives 200 cents. *)
Lemma X22_getBendFromX_witness :
  Rabs (Rounded.getBendFromX nearest60 31 160 None
        - (2 * 31 / 160 - 1) * 200) <= 0.5 + 1e-6 /\
  Rounded.getBendFromX nearest60 160 160 None = 200.
Proof.
  destruct (X22_getBendFromX nearest60 31 160 None nearest60_rounding)
    as [_ H].
  destruct H as (_ & _ & Hnear & Hedges); [lra|].
  split.
  - apply Hnear; simpl; lra.
  - destruct (Hedges 200%Z eq_refl ltac:(lia)) as (_ & _ & Hr & _).
    exact Hr.
Defined.
